(** * Protolang simulator: the simulation core of [protolang_simulator.tsx]

    A shallow embedding of the core of the React component
    [ProtolangSimulator]: agent initialisation, [calculateVectorDistance],
    [simulateStep], [triggerContextShift], [calculateDriftMetrics] and
    [reset], followed by the properties proved about them.

    Modelling conventions.

    - A JavaScript number that holds a measurement (vector component,
      confidence, trust, trait, distance, drift) is a real number or [NaN]:
      arithmetic is exact (no rounding, no overflow), and [NaN] appears where
      JavaScript produces it from real operands: [0/0], and arithmetic on
      [undefined] (a missing property or an index past the end of an
      array).  Numbers that only ever hold integers (step, usage counter,
      identifiers, timestamps) are in [Z] or [nat].  The engine computes
      with binary64 values; the module [Binary64] transcribes
      [calculateVectorDistance] and the outcome rule with them, and is
      evaluated where rounding changes what the code returns.
    - [Math.random()] is the [k]-th value of an oracle [rnd], [k] being the
      number of calls made so far; [Date.now()] is read the same way from an
      oracle [clk].  Both counters are threaded through a state monad.
    - A [TypeError] (property access on [undefined]) is the failure of that
      monad.
    - A state setter called with an updater ([setAgents(prev => ...)]) does
      not run it: React queues the updater and runs the queues at the next
      render, state after state in the order of the [useState] declarations
      ([agents] before [communications], the two histories,
      [syntaxPatterns] and [contextShifts]).  A timer tick is modelled
      together with the render it causes: first the code of the callback
      itself, then the updaters it queued.  Inside the callback [step] and
      [agents] are the values the closure captured, those of the state
      before the tick.  An updater reads what it names when it runs: the
      record of [setCommunications] reads the receiver's trust, and the
      record of [setContextShifts] reads [Date.now()], at that time.
    - Objects used as dictionaries ([symbolMappings], [trustScores]) and the
      [Map] of syntax patterns are association lists in insertion order,
      which is the order [Object.keys] enumerates string keys in. *)

From Stdlib Require Import PrimFloat Reals Lra Lia ZArith List String Ascii Bool.
Import ListNotations.
Open Scope R_scope.

(** ** Numbers *)

Inductive num : Type :=
| Fin (r : R)
| NaN.

Module Num.

Definition add (x y : num) : num :=
  match x, y with Fin a, Fin b => Fin (a + b) | _, _ => NaN end.

Definition sub (x y : num) : num :=
  match x, y with Fin a, Fin b => Fin (a - b) | _, _ => NaN end.

Definition mul (x y : num) : num :=
  match x, y with Fin a, Fin b => Fin (a * b) | _, _ => NaN end.

(** [x / y].  JavaScript gives [NaN] for [0/0] and an infinity for any
    other division by zero; every division by zero this program can make
    has a zero dividend (see [distance_zero_divisor]), so infinities are
    not represented. *)
Definition div (x y : num) : num :=
  match x, y with
  | Fin a, Fin b => if Req_dec_T b 0 then NaN else Fin (a / b)
  | _, _ => NaN
  end.

(** [Math.sqrt]. *)
Definition sqrt (x : num) : num :=
  match x with
  | Fin a => if Rlt_dec a 0 then NaN else Fin (R_sqrt.sqrt a)
  | NaN => NaN
  end.

(** [Math.min] and [Math.max]: [NaN] if either argument is. *)
Definition min (x y : num) : num :=
  match x, y with Fin a, Fin b => Fin (Rmin a b) | _, _ => NaN end.

Definition max (x y : num) : num :=
  match x, y with Fin a, Fin b => Fin (Rmax a b) | _, _ => NaN end.

(** [x < y]: false as soon as one side is [NaN]. *)
Definition ltb (x y : num) : bool :=
  match x, y with
  | Fin a, Fin b => if Rlt_dec a b then true else false
  | _, _ => false
  end.

Definition of_Z (z : Z) : num := Fin (IZR z).
Definition of_nat (n : nat) : num := Fin (INR n).

(** [lo <= x <= hi], for a number that is not [NaN]. *)
Definition between (lo hi : R) (x : num) : Prop :=
  match x with Fin a => lo <= a <= hi | NaN => False end.

Definition is_fin (x : num) : Prop :=
  match x with Fin _ => True | NaN => False end.

(** [x < y] and [x <= y] as propositions; they fail on [NaN]. *)
Definition lt (x y : num) : Prop :=
  match x, y with Fin a, Fin b => a < b | _, _ => False end.

Definition le (x y : num) : Prop :=
  match x, y with Fin a, Fin b => a <= b | _, _ => False end.

(** The sum and the arithmetic mean of a list of numbers. *)
Definition sum (l : list num) : num := fold_right add (Fin 0) l.


End Num.

(** ** Arrays and dictionaries *)

(** [l.reduce((acc, val, i) => f(acc, val, i), init)]. *)
Fixpoint reduce_from {A B : Type} (f : B -> A -> nat -> B) (i : nat)
  (l : list A) (acc : B) : B :=
  match l with
  | [] => acc
  | x :: l' => reduce_from f (S i) l' (f acc x i)
  end.

Definition reduce {A B : Type} (f : B -> A -> nat -> B) (l : list A) (init : B) : B :=
  reduce_from f 0 l init.

(** [v[i]] read as a number: [undefined] past the end, hence [NaN] in
    arithmetic. *)
Definition at_index (v : list num) (i : nat) : num := nth i v NaN.

(** [l.map((x, i) => f(x, i))]. *)
Fixpoint mapi_from {A B : Type} (f : A -> nat -> B) (i : nat) (l : list A) : list B :=
  match l with
  | [] => []
  | x :: l' => f x i :: mapi_from f (S i) l'
  end.

(** [l.slice(-n)]: the last [n] elements, all of them when there are fewer. *)
Definition slice_last {A : Type} (n : nat) (l : list A) : list A :=
  skipn (List.length l - n) l.

Section Dict.
Context {K V : Type} (eqb : K -> K -> bool).

(** [obj[k]]: [None] is [undefined]. *)
Fixpoint dict_get (d : list (K * V)) (k : K) : option V :=
  match d with
  | [] => None
  | (k', v) :: d' => if eqb k' k then Some v else dict_get d' k
  end.

(** [obj[k] = v]: an existing key keeps its place, a new key goes last. *)
Fixpoint dict_set (d : list (K * V)) (k : K) (v : V) : list (K * V) :=
  match d with
  | [] => [(k, v)]
  | (k', v') :: d' =>
      if eqb k' k then (k', v) :: d' else (k', v') :: dict_set d' k v
  end.
End Dict.

(** [arr[i] = x] for [i] inside the array. *)
Fixpoint list_set {A : Type} (l : list A) (i : nat) (x : A) : list A :=
  match l, i with
  | [], _ => []
  | _ :: l', O => x :: l'
  | y :: l', S i' => y :: list_set l' i' x
  end.

(** ** VectorSpace *)

Definition calculateVectorDistance (vec1 vec2 : list num) : num :=
  let dotProduct :=
    reduce (fun sum val i => Num.add sum (Num.mul val (at_index vec2 i))) vec1 (Fin 0) in
  let mag1 := Num.sqrt (reduce (fun sum val _ => Num.add sum (Num.mul val val)) vec1 (Fin 0)) in
  let mag2 := Num.sqrt (reduce (fun sum val _ => Num.add sum (Num.mul val val)) vec2 (Fin 0)) in
  Num.sub (Fin 1) (Num.div dotProduct (Num.mul mag1 mag2)).

(** ** The distance in binary64 *)

(** The arithmetic of [calculateVectorDistance] and of the outcome rule as
    the engine carries it out: on binary64 values, every operation rounded
    to nearest, ties to even.  Rocq's primitive floats are these values and
    these operations; [Math.sqrt] is the correctly rounded square root. *)
Module Binary64.

(** [vec[i]]: [undefined] past the end, hence [NaN] in arithmetic. *)
Definition at_index (v : list float) (i : nat) : float := nth i v nan.

Definition calculateVectorDistance (vec1 vec2 : list float) : float :=
  let dotProduct :=
    reduce (fun sum val i => (sum + val * at_index vec2 i)%float) vec1 0%float in
  let mag1 :=
    PrimFloat.sqrt (reduce (fun sum val _ => (sum + val * val)%float) vec1 0%float) in
  let mag2 :=
    PrimFloat.sqrt (reduce (fun sum val _ => (sum + val * val)%float) vec2 0%float) in
  (1 - dotProduct / (mag1 * mag2))%float.

(** [sequence.length] as a number. *)
Fixpoint of_length (n : nat) : float :=
  match n with
  | O => 0%float
  | S n' => (of_length n' + 1)%float
  end.

(** [avgDistance] of an exchange, from the sender's and the receiver's
    vector for each symbol of the sequence. *)
Definition avgDistance (vectors : list (list float * list float)) : float :=
  let totalDistance :=
    fold_left (fun total v => (total + calculateVectorDistance (fst v) (snd v))%float)
              vectors 0%float in
  (totalDistance / of_length (List.length vectors))%float.

(** [avgDistance < 0.5]. *)
Definition success (avg : float) : bool := (avg <? 0.5)%float.


End Binary64.

(** ** Data model *)

(** One entry of [symbolMappings].  [usageCount] and [lastUsed] are [None]
    when the property is absent from the object, which only happens to a
    mapping that [triggerContextShift] builds for a symbol the agent did not
    have; [usageCount] stays [None] for the [NaN] that [++] makes of an
    absent counter.  [successRate] and [associations] are written once at
    creation and never read or updated by the core; they are left out. *)
Record SymbolMapping : Type := {
  vector : list num;
  confidence : num;
  usageCount : option Z;
  lastUsed : option Z
}.

Inductive Action : Type := sent | received.

Record MemoryEntry : Type := {
  mem_step : Z;
  mem_action : Action;
  mem_sequence : list string;
  mem_success : bool;
  mem_partner : nat
}.

(** An agent; [beliefState] is never read or updated and is left out. *)
Record Agent : Type := {
  id : nat;
  name : string;
  symbolMappings : list (string * SymbolMapping);
  trustScores : list (nat * num);
  memory : list MemoryEntry;
  adaptability : num;
  convergenceSpeed : num;
  forgettingRate : num
}.

Record Communication : Type := {
  comm_id : Z;
  comm_sender : nat;
  comm_receiver : nat;
  comm_sequence : list string;
  comm_success : bool;
  comm_step : Z;
  comm_distance : num;
  comm_trustBefore : option num;
  comm_sequenceLength : nat
}.

Inductive ShiftType : Type := symbol_redefinition | new_agent | task_change.

Record ContextShift : Type := {
  shift_step : Z;
  shift_type : ShiftType;
  shift_id : Z
}.

Record DriftSample : Type := { drift_step : Z; drift : num }.
Record AlignmentSample : Type := { align_step : Z; alignment : num }.

(** The state of the component that the core reads and writes. *)
Record State : Type := {
  step : Z;
  agents : list Agent;
  communications : list Communication;
  driftHistory : list DriftSample;
  alignmentHistory : list AlignmentSample;
  syntaxPatterns : list (string * Z);
  contextShifts : list ContextShift
}.

Definition symbols : list string := ["α"; "β"; "γ"; "δ"; "ε"; "ζ"]%string.

Definition shiftTypes : list ShiftType := [symbol_redefinition; new_agent; task_change].

Definition get_mapping (a : Agent) (symbol : string) : option SymbolMapping :=
  dict_get String.eqb (symbolMappings a) symbol.

Definition get_trust (a : Agent) (peer : nat) : option num :=
  dict_get Nat.eqb (trustScores a) peer.

(** A property read inside arithmetic: [undefined] behaves as [NaN]. *)
Definition as_num (x : option num) : num :=
  match x with Some v => v | None => NaN end.

Definition with_mapping (a : Agent) (symbol : string) (m : SymbolMapping) : Agent :=
  {| id := id a; name := name a;
     symbolMappings := dict_set String.eqb (symbolMappings a) symbol m;
     trustScores := trustScores a; memory := memory a;
     adaptability := adaptability a; convergenceSpeed := convergenceSpeed a;
     forgettingRate := forgettingRate a |}.

Definition with_mappings (a : Agent) (ms : list (string * SymbolMapping)) : Agent :=
  {| id := id a; name := name a; symbolMappings := ms;
     trustScores := trustScores a; memory := memory a;
     adaptability := adaptability a; convergenceSpeed := convergenceSpeed a;
     forgettingRate := forgettingRate a |}.

Definition with_trust (a : Agent) (peer : nat) (t : num) : Agent :=
  {| id := id a; name := name a; symbolMappings := symbolMappings a;
     trustScores := dict_set Nat.eqb (trustScores a) peer t; memory := memory a;
     adaptability := adaptability a; convergenceSpeed := convergenceSpeed a;
     forgettingRate := forgettingRate a |}.

Definition with_memory (a : Agent) (m : list MemoryEntry) : Agent :=
  {| id := id a; name := name a; symbolMappings := symbolMappings a;
     trustScores := trustScores a; memory := m;
     adaptability := adaptability a; convergenceSpeed := convergenceSpeed a;
     forgettingRate := forgettingRate a |}.

(** ** Randomness, clock and failure *)

(** A value of [Math.random()]: a real in [[0, 1)]. *)
Record Draw : Type := { draw_val :> R; draw_range : 0 <= draw_val < 1 }.

(** How many values of each oracle have been consumed. *)
Record World : Type := { randoms : nat; clocks : nat }.

Definition M (A : Type) : Type := World -> option (A * World).

Definition ret {A : Type} (a : A) : M A := fun w => Some (a, w).

Definition bind {A B : Type} (m : M A) (f : A -> M B) : M B :=
  fun w => match m w with
           | Some (a, w') => f a w'
           | None => None
           end.

(** A [TypeError]. *)
Definition throw {A : Type} : M A := fun _ => None.

Declare Scope monad_scope.
Delimit Scope monad_scope with monad.
Notation "x <- c1 ;; c2" := (bind c1 (fun x => c2))
  (at level 61, c1 at next level, right associativity) : monad_scope.
Notation "' pat <- c1 ;; c2" := (bind c1 (fun x => match x with pat => c2 end))
  (at level 61, pat pattern, c1 at next level, right associativity) : monad_scope.
Open Scope monad_scope.

(** [x.p] where [x] may be [undefined]. *)
Definition defined {A : Type} (x : option A) : M A :=
  match x with Some a => ret a | None => throw end.

(** [l.map(f)] and [l.forEach(f)] for a body with effects. *)
Fixpoint mapM {A B : Type} (f : A -> M B) (l : list A) : M (list B) :=
  match l with
  | [] => ret []
  | x :: l' => y <- f x ;; ys <- mapM f l' ;; ret (y :: ys)
  end.

Fixpoint foldM {A B : Type} (f : B -> A -> M B) (l : list A) (acc : B) : M B :=
  match l with
  | [] => ret acc
  | x :: l' => acc' <- f acc x ;; foldM f l' acc'
  end.

(** [Array.from({length: n}, () => f())]. *)
Fixpoint replicateM {A : Type} (n : nat) (f : M A) : M (list A) :=
  match n with
  | O => ret []
  | S n' => x <- f ;; xs <- replicateM n' f ;; ret (x :: xs)
  end.

(** [arr[i] = f(arr[i])] for [i] inside the array. *)
Fixpoint list_update {A : Type} (l : list A) (i : nat) (f : A -> A) : list A :=
  match l, i with
  | [], _ => []
  | x :: l', O => f x :: l'
  | y :: l', S i' => y :: list_update l' i' f
  end.

(** ** The simulation *)

Section Simulation.

(** The values [Math.random()] and [Date.now()] return, call after call. *)
Variable rnd : nat -> Draw.
Variable clk : nat -> Z.

Definition random : M R :=
  fun w => Some (draw_val (rnd (randoms w)),
                 {| randoms := S (randoms w); clocks := clocks w |}).

Definition now : M Z :=
  fun w => Some (clk (clocks w),
                 {| randoms := randoms w; clocks := S (clocks w) |}).

(** [Math.floor(Math.random() * n)]. *)
Definition randomIndex (n : nat) : M nat :=
  r <- random ;; ret (Z.to_nat (Zfloor (r * INR n))).

(** *** Initialisation and reset *)

(** [Array.from({length: 3}, () => Math.random() * 2 - 1)]. *)
Definition randomVector : M (list num) :=
  replicateM 3 (r <- random ;; ret (Fin (r * 2 - 1))).

Definition newMapping : M SymbolMapping :=
  v <- randomVector ;;
  c <- random ;;
  ret {| vector := v; confidence := Fin (0.3 + c * 0.4);
         usageCount := Some 0%Z; lastUsed := Some 0%Z |}.

Definition newMappings : M (list (string * SymbolMapping)) :=
  foldM (fun mappings symbol =>
           m <- newMapping ;; ret (dict_set String.eqb mappings symbol m))
        symbols [].

(** [for (let j = 0; j < 4; j++) if (i !== j) trustScores[j] = 0.5]. *)
Definition initialTrust (i : nat) : list (nat * num) :=
  fold_left (fun scores j =>
               if Nat.eqb i j then scores else dict_set Nat.eqb scores j (Fin 0.5))
            (seq 0 4) [].

Definition agentName (i : nat) : string :=
  ("Agent-" ++ String (ascii_of_nat (65 + i)) EmptyString)%string.

(** The learned state and the traits of a fresh agent with identity [i],
    [nm]: what [initAgents] pushes and what [reset] maps an agent to. *)
Definition freshAgent (i : nat) (nm : string) : M Agent :=
  mappings <- newMappings ;;
  a <- random ;;
  c <- random ;;
  f <- random ;;
  ret {| id := i; name := nm;
         symbolMappings := mappings;
         trustScores := initialTrust i;
         memory := [];
         adaptability := Fin (0.2 + a * 0.6);
         convergenceSpeed := Fin (0.1 + c * 0.3);
         forgettingRate := Fin (0.001 + f * 0.004) |}.

Definition initAgents : M (list Agent) :=
  mapM (fun i => freshAgent i (agentName i)) (seq 0 4).

(** The component once mounted: [initAgents] has run, nothing else has. *)
Definition mount : M State :=
  newAgents <- initAgents ;;
  ret {| step := 0; agents := newAgents; communications := [];
         driftHistory := []; alignmentHistory := [];
         syntaxPatterns := []; contextShifts := [] |}.

Definition reset (s : State) : M State :=
  newAgents <- mapM (fun agent => freshAgent (id agent) (name agent)) (agents s) ;;
  ret {| step := 0; agents := newAgents; communications := [];
         driftHistory := []; alignmentHistory := [];
         syntaxPatterns := []; contextShifts := [] |}.

(** *** Forgetting *)

(** [step - mapping.lastUsed > 20]. *)
Definition pastThreshold (st : Z) (mapping : SymbolMapping) : bool :=
  match lastUsed mapping with
  | Some l => (20 <? st - l)%Z
  | None => false
  end.

(** [v => v + (Math.random() - 0.5) * width], mapped over a vector. *)
Definition jitter (width : R) (v : list num) : M (list num) :=
  mapM (fun x => r <- random ;; ret (Num.add x (Fin ((r - 0.5) * width)))) v.

Definition forget (st : Z) (agent : Agent) (mapping : SymbolMapping) : M SymbolMapping :=
  if pastThreshold st mapping then
    v <- jitter 0.01 (vector mapping) ;;
    ret {| vector := v;
           confidence := Num.mul (confidence mapping)
                           (Num.sub (Fin 1) (forgettingRate agent));
           usageCount := usageCount mapping; lastUsed := lastUsed mapping |}
  else ret mapping.

Definition forgetAgent (st : Z) (agent : Agent) : M Agent :=
  mappings <- mapM (fun entry =>
                      m <- forget st agent (snd entry) ;; ret (fst entry, m))
                   (symbolMappings agent) ;;
  ret (with_mappings agent mappings).

Definition applyForgetting (st : Z) (newAgents : list Agent) : M (list Agent) :=
  mapM (forgetAgent st) newAgents.

(** *** One exchange *)

(** The distance between the two agents' vectors for one symbol; [None]
    when a lookup on the way is a property access on [undefined]. *)
Definition symbolDistance (newAgents : list Agent) (sender receiver : nat)
  (symbol : string) : option num :=
  match nth_error newAgents sender, nth_error newAgents receiver with
  | Some s, Some r =>
      match get_mapping s symbol, get_mapping r symbol with
      | Some senderMapping, Some receiverMapping =>
          Some (calculateVectorDistance (vector senderMapping) (vector receiverMapping))
      | _, _ => None
      end
  | _, _ => None
  end.

Fixpoint totalDistance (newAgents : list Agent) (sender receiver : nat)
  (sequence : list string) (acc : num) : option num :=
  match sequence with
  | [] => Some acc
  | symbol :: rest =>
      match symbolDistance newAgents sender receiver symbol with
      | Some d => totalDistance newAgents sender receiver rest (Num.add acc d)
      | None => None
      end
  end.

Definition avgDistance (newAgents : list Agent) (sender receiver : nat)
  (sequence : list string) : option num :=
  match totalDistance newAgents sender receiver sequence (Fin 0) with
  | Some total => Some (Num.div total (Num.of_nat (List.length sequence)))
  | None => None
  end.

(** [mapping.lastUsed = step; mapping.usageCount++]. *)
Definition touch (st : Z) (m : SymbolMapping) : SymbolMapping :=
  {| vector := vector m; confidence := confidence m;
     usageCount := option_map Z.succ (usageCount m); lastUsed := Some st |}.

(** [mapping.confidence = Math.min(1, mapping.confidence + 0.05)]. *)
Definition strengthen (m : SymbolMapping) : SymbolMapping :=
  {| vector := vector m;
     confidence := Num.min (Fin 1) (Num.add (confidence m) (Fin 0.05));
     usageCount := usageCount m; lastUsed := lastUsed m |}.

(** The loop that moves the receiver's vector toward the sender's. *)
Definition pull (speed : num) (senderVector receiverVector : list num) : list num :=
  let pullStrength := Fin 0.1 in
  mapi_from (fun x i =>
               let diff := Num.sub (at_index senderVector i) x in
               Num.add x (Num.mul (Num.mul diff pullStrength) speed))
            0 receiverVector.

Definition with_vector (m : SymbolMapping) (v : list num) : SymbolMapping :=
  {| vector := v; confidence := confidence m;
     usageCount := usageCount m; lastUsed := lastUsed m |}.

Definition with_confidence (m : SymbolMapping) (c : num) : SymbolMapping :=
  {| vector := vector m; confidence := c;
     usageCount := usageCount m; lastUsed := lastUsed m |}.

(** What a successful exchange does for one symbol, to the sender's
    mapping, to the receiver and to the receiver's mapping. *)
Definition reinforce (sender : nat) (senderMapping : SymbolMapping)
  (r : Agent) (receiverMapping : SymbolMapping)
  : SymbolMapping * Agent * SymbolMapping :=
  let senderMapping := strengthen senderMapping in
  let receiverMapping := strengthen receiverMapping in
  let r := with_trust r sender
             (Num.min (Fin 1) (Num.add (as_num (get_trust r sender)) (Fin 0.02))) in
  let receiverMapping :=
    with_vector receiverMapping
      (pull (convergenceSpeed r) (vector senderMapping) (vector receiverMapping)) in
  (senderMapping, r, receiverMapping).

(** What a failed exchange does to the receiver's mapping for one symbol. *)
Definition repair (sender : nat) (senderMapping : SymbolMapping)
  (r : Agent) (receiverMapping : SymbolMapping) : M SymbolMapping :=
  let trustWeight := as_num (get_trust r sender) in
  let adaptationProbability := Num.mul (adaptability r) trustWeight in
  x <- random ;;
  if Num.ltb (Fin x) adaptationProbability then
    v <- jitter 0.2 (vector senderMapping) ;;
    ret (with_confidence (with_vector receiverMapping v) (Fin 0.3))
  else
    v <- jitter 0.1 (vector receiverMapping) ;;
    ret (with_vector receiverMapping v).

(** The body of the second [sequence.forEach]; called with
    [sender <> receiver]. *)
Definition adaptSymbol (st : Z) (sender receiver : nat) (success : bool)
  (newAgents : list Agent) (symbol : string) : M (list Agent) :=
  s <- defined (nth_error newAgents sender) ;;
  r <- defined (nth_error newAgents receiver) ;;
  senderMapping <- defined (get_mapping s symbol) ;;
  receiverMapping <- defined (get_mapping r symbol) ;;
  let senderMapping := touch st senderMapping in
  let receiverMapping := touch st receiverMapping in
  if success then
    let '(senderMapping, r, receiverMapping) :=
      reinforce sender senderMapping r receiverMapping in
    ret (list_set (list_set newAgents sender (with_mapping s symbol senderMapping))
                  receiver (with_mapping r symbol receiverMapping))
  else
    receiverMapping <- repair sender senderMapping r receiverMapping ;;
    ret (list_set (list_set newAgents sender (with_mapping s symbol senderMapping))
                  receiver (with_mapping r symbol receiverMapping)).

(** [symbols[Math.floor(Math.random() * symbols.length)]].  The index is
    below [symbols.length] (see [draw_index_lt]), so the entry exists. *)
Definition randomSymbol : M string :=
  i <- randomIndex (List.length symbols) ;; ret (nth i symbols "undefined"%string).

Definition drawSequence : M (list string) :=
  x <- random ;;
  let sequenceLength := if Rlt_dec x 0.8 then 1%nat else 2%nat in
  replicateM sequenceLength randomSymbol.

(** [newPatterns.set(pattern, (newPatterns.get(pattern) || 0) + 1)] when
    the sequence has more than one symbol. *)
Definition recordPattern (sequence : list string) (patterns : list (string * Z))
  : list (string * Z) :=
  if (1 <? List.length sequence)%nat then
    let pattern := String.concat "-" sequence in
    let count := match dict_get String.eqb patterns pattern with
                 | Some n => n
                 | None => 0%Z
                 end in
    dict_set String.eqb patterns pattern (count + 1)%Z
  else patterns.

(** [memory.push(entry); if (memory.length > 50) memory.shift()]. *)
Definition remember (entry : MemoryEntry) (a : Agent) : Agent :=
  let m := (memory a ++ [entry])%list in
  with_memory a (if (50 <? List.length m)%nat then tl m else m).

(** The branch [sender !== receiver] of [simulateStep].  The record of
    the exchange is built by the updater passed to [setCommunications],
    which runs after this one has returned: its [trustBefore] is the
    receiver's trust toward the sender as the loop over the sequence has
    left it. *)
Definition communicate (s : State) (newAgents : list Agent) (sender receiver : nat)
  : M State :=
  sequence <- drawSequence ;;
  avg <- defined (avgDistance newAgents sender receiver sequence) ;;
  let success := Num.ltb avg (Fin 0.5) in
  timestamp <- now ;;
  let patterns := recordPattern sequence (syntaxPatterns s) in
  newAgents <- foldM (adaptSymbol (step s) sender receiver success) sequence newAgents ;;
  let newAgents :=
    list_update newAgents sender
      (remember {| mem_step := step s; mem_action := sent; mem_sequence := sequence;
                   mem_success := success; mem_partner := receiver |}) in
  let newAgents :=
    list_update newAgents receiver
      (remember {| mem_step := step s; mem_action := received; mem_sequence := sequence;
                   mem_success := success; mem_partner := sender |}) in
  r <- defined (nth_error newAgents receiver) ;;
  let record :=
    {| comm_id := timestamp; comm_sender := sender; comm_receiver := receiver;
       comm_sequence := sequence; comm_success := success; comm_step := step s;
       comm_distance := avg; comm_trustBefore := get_trust r sender;
       comm_sequenceLength := List.length sequence |} in
  ret {| step := step s; agents := newAgents;
         communications := (slice_last 29 (communications s) ++ [record])%list;
         driftHistory := driftHistory s; alignmentHistory := alignmentHistory s;
         syntaxPatterns := patterns; contextShifts := contextShifts s |}.

(** *** Context shifts *)

(** The object a [symbol_redefinition] maps an agent to. *)
Definition redefine (targetSymbol : string) (agent : Agent) : M Agent :=
  let old := get_mapping agent targetSymbol in
  v <- randomVector ;;
  ret (with_mapping agent targetSymbol
         {| vector := v; confidence := Fin 0.3;
            usageCount := match old with Some m => usageCount m | None => None end;
            lastUsed := match old with Some m => lastUsed m | None => None end |}).

(** What a call of [triggerContextShift] does itself: it draws the kind
    of the shift and, for a [symbol_redefinition], the symbol. *)
Definition chooseShift : M (ShiftType * option string) :=
  i <- randomIndex (List.length shiftTypes) ;;
  let shiftType := nth i shiftTypes task_change in
  match shiftType with
  | symbol_redefinition =>
      targetSymbol <- randomSymbol ;; ret (shiftType, Some targetSymbol)
  | _ => ret (shiftType, None)
  end.

(** The updaters that call has queued, run on the state [s] of the
    render: the one passed to [setAgents], for a redefinition, and the one
    passed to [setContextShifts], whose record reads [Date.now()]; [st] is
    the [step] of the closure. *)
Definition applyShift (st : Z) (shift : ShiftType * option string) (s : State)
  : M State :=
  newAgents <- match snd shift with
               | Some targetSymbol => mapM (redefine targetSymbol) (agents s)
               | None => ret (agents s)
               end ;;
  timestamp <- now ;;
  ret {| step := step s; agents := newAgents;
         communications := communications s;
         driftHistory := driftHistory s; alignmentHistory := alignmentHistory s;
         syntaxPatterns := syntaxPatterns s;
         contextShifts :=
           (contextShifts s ++
              [{| shift_step := st; shift_type := fst shift;
                  shift_id := timestamp |}])%list |}.

(** The call with its updaters, when nothing else is queued between. *)
Definition triggerContextShift (s : State) : M State :=
  shift <- chooseShift ;; applyShift (step s) shift s.

(** *** Metrics *)

(** [agent.symbolMappings[symbol]?.vector || [0,0,0]]. *)
Definition vectorOf (a : Agent) (symbol : string) : list num :=
  match get_mapping a symbol with
  | Some m => vector m
  | None => [Fin 0; Fin 0; Fin 0]
  end.

Definition pairDrift (a b : Agent) : num :=
  Num.div
    (fold_left (fun acc symbol =>
                  Num.add acc (calculateVectorDistance (vectorOf a symbol) (vectorOf b symbol)))
               symbols (Fin 0))
    (Num.of_nat (List.length symbols)).

(** The pairs [(agents[i], agents[j])], [i < j], in the order of the two
    nested loops. *)
Fixpoint agentPairs (l : list Agent) : list (Agent * Agent) :=
  match l with
  | [] => []
  | a :: l' => (map (pair a) l' ++ agentPairs l')%list
  end.

Definition avgDrift (l : list Agent) : num :=
  let pairs := agentPairs l in
  let totalDrift := fold_left (fun acc p => Num.add acc (pairDrift (fst p) (snd p)))
                              pairs (Fin 0) in
  let comparisons := List.length pairs in
  if (0 <? comparisons)%nat then Num.div totalDrift (Num.of_nat comparisons) else Fin 0.

(** [calculateDriftMetrics] called in a closure that holds the agents
    [seen] and the step [st]: the samples it computes from them, appended by
    its two updaters to the histories of the state [s] of the render. *)
Definition recordMetrics (seen : list Agent) (st : Z) (s : State) : State :=
  match seen with
  | [] => s
  | _ =>
      let d := avgDrift seen in
      let a := Num.max (Fin 0) (Num.mul (Num.sub (Fin 1) d) (Fin 100)) in
      {| step := step s; agents := agents s; communications := communications s;
         driftHistory :=
           (slice_last 99 (driftHistory s) ++ [{| drift_step := st; drift := d |}])%list;
         alignmentHistory :=
           (slice_last 99 (alignmentHistory s)
              ++ [{| align_step := st; alignment := a |}])%list;
         syntaxPatterns := syntaxPatterns s; contextShifts := contextShifts s |}
  end.

(** The call with its updaters, when nothing else is queued between. *)
Definition calculateDriftMetrics (s : State) : State :=
  recordMetrics (agents s) (step s) s.

(** *** The step *)

Definition with_agents (s : State) (l : list Agent) : State :=
  {| step := step s; agents := l; communications := communications s;
     driftHistory := driftHistory s; alignmentHistory := alignmentHistory s;
     syntaxPatterns := syntaxPatterns s; contextShifts := contextShifts s |}.

Definition with_step (s : State) (st : Z) : State :=
  {| step := st; agents := agents s; communications := communications s;
     driftHistory := driftHistory s; alignmentHistory := alignmentHistory s;
     syntaxPatterns := syntaxPatterns s; contextShifts := contextShifts s |}.

(** [step > 0 && step % 100 === 0]. *)
Definition shiftDue (st : Z) : bool :=
  ((0 <? st) && (Z.rem st 100 =? 0))%Z.

(** The updater passed to [setAgents]: forgetting, then one exchange. *)
Definition exchangeRound (s : State) : M State :=
  newAgents <- applyForgetting (step s) (agents s) ;;
  sender <- randomIndex (List.length newAgents) ;;
  receiver <- randomIndex (List.length newAgents) ;;
  if Nat.eqb sender receiver then ret (with_agents s newAgents)
  else communicate s newAgents sender receiver.

(** [simulateStep] with the render that follows.  The call queues the
    updater [exchangeRound]; when a shift is due, [triggerContextShift]
    draws the kind and the symbol at once and queues its updaters;
    [calculateDriftMetrics] measures the agents of the closure, which no
    updater has run on yet.  The render then runs the queue of [agents]
    (the exchange round, then the redefinition) and appends the shift
    record and the samples. *)
Definition simulateStep (s : State) : M State :=
  match agents s with
  | [] => ret s
  | _ =>
      shift <- (if shiftDue (step s)
                then shift <- chooseShift ;; ret (Some shift)
                else ret None) ;;
      s1 <- exchangeRound s ;;
      s2 <- match shift with
            | Some shift => applyShift (step s) shift s1
            | None => ret s1
            end ;;
      ret (recordMetrics (agents s) (step s) s2)
  end.

(** One tick of the timer: [setStep(prev => prev + 1); simulateStep()]. *)
Definition tick (s : State) : M State :=
  s' <- simulateStep s ;;
  ret (with_step s' (step s + 1)%Z).

Fixpoint ticks (n : nat) (s : State) : M State :=
  match n with
  | O => ret s
  | S n' => s' <- ticks n' s ;; tick s'
  end.

(** The component mounted and then ticked [n] times. *)
Definition run (n : nat) : option (State * World) :=
  (s <- mount ;; ticks n s) {| randoms := 0; clocks := 0 |}.

End Simulation.

(** ** Vocabulary of the statements *)

(** Total correctness of a computation started in world [w]: it returns,
    and its result and final world satisfy [Q]. *)
Definition yields {A : Type} (m : M A) (w : World) (Q : A -> World -> Prop) : Prop :=
  exists a w', m w = Some (a, w') /\ Q a w'.

(** *** The data-model invariant *)

Definition vector_ok (v : list num) : Prop :=
  List.length v = 3%nat /\ Forall Num.is_fin v.

Definition mapping_ok (m : SymbolMapping) : Prop :=
  vector_ok (vector m) /\ Num.between 0 1 (confidence m).

(** Agent number [i] of the population: one well-formed mapping per
    vocabulary symbol, a trust in [[0.5, 1]] toward each of the other three
    agents, at most fifty memories, traits in their sampling ranges. *)
Record agent_ok (i : nat) (a : Agent) : Prop := {
  ok_id : id a = i;
  ok_symbols : map fst (symbolMappings a) = symbols;
  ok_mappings : Forall (fun e => mapping_ok (snd e)) (symbolMappings a);
  ok_peers : forall j, (j < 4)%nat -> j <> i -> get_trust a j <> None;
  ok_trust : Forall (fun e => Num.between 0.5 1 (snd e)) (trustScores a);
  ok_memory : (List.length (memory a) <= 50)%nat;
  ok_adaptability : Num.between 0.2 0.8 (adaptability a);
  ok_convergenceSpeed : Num.between 0.1 0.4 (convergenceSpeed a);
  ok_forgettingRate : Num.between 0.001 0.005 (forgettingRate a)
}.

Definition agents_ok (l : list Agent) : Prop :=
  List.length l = 4%nat /\
  forall i a, nth_error l i = Some a -> agent_ok i a.

Record state_ok (s : State) : Prop := {
  ok_agents : agents_ok (agents s);
  ok_communications : (List.length (communications s) <= 30)%nat;
  ok_driftHistory : (List.length (driftHistory s) <= 100)%nat;
  ok_alignmentHistory : (List.length (alignmentHistory s) <= 100)%nat
}.

(** *** Relations between the state before and after an operation *)

(** Every trust entry is still there and has not decreased. *)
Definition trust_nondecreasing (l l' : list Agent) : Prop :=
  forall i a a' j t,
    nth_error l i = Some a -> nth_error l' i = Some a' ->
    get_trust a j = Some t ->
    exists t', get_trust a' j = Some t' /\ Num.le t t'.

(** No trust table was written. *)
Definition trust_untouched (l l' : list Agent) : Prop :=
  forall i a a',
    nth_error l i = Some a -> nth_error l' i = Some a' ->
    trustScores a' = trustScores a.

(** A bounded log after at most one append: the newest [cap] entries of the
    old log followed by what was appended. *)
Definition kept_newest {A : Type} (cap : nat) (old new : list A) : Prop :=
  exists added, (List.length added <= 1)%nat /\ new = slice_last cap (old ++ added).

Definition memories_kept_newest (l l' : list Agent) : Prop :=
  forall i a a',
    nth_error l i = Some a -> nth_error l' i = Some a' ->
    kept_newest 50 (memory a) (memory a').





(** *** Records without their timestamps *)

Definition comm_content (c : Communication)
  : nat * nat * list string * bool * Z * num * option num * nat :=
  (comm_sender c, comm_receiver c, comm_sequence c, comm_success c,
   comm_step c, comm_distance c, comm_trustBefore c, comm_sequenceLength c).

Definition shift_content (c : ContextShift) : Z * ShiftType :=
  (shift_step c, shift_type c).

(** *** Sample inputs *)

Definition half : Draw := {| draw_val := 1 / 2; draw_range := ltac:(lra) |}.

Definition rnd_half : nat -> Draw := fun _ => half.
Definition clk_zero : nat -> Z := fun _ => 0%Z.
Definition clk_one : nat -> Z := fun _ => 1%Z.
Definition world0 : World := {| randoms := 0; clocks := 0 |}.

Definition sampleMapping : SymbolMapping :=
  {| vector := [Fin 1; Fin 0; Fin 0]; confidence := Fin 0.5;
     usageCount := Some 0%Z; lastUsed := Some 0%Z |}.

Definition sampleAgent (i : nat) : Agent :=
  {| id := i; name := agentName i;
     symbolMappings := map (fun symbol => (symbol, sampleMapping)) symbols;
     trustScores := initialTrust i; memory := [];
     adaptability := Fin 0.5; convergenceSpeed := Fin 0.2;
     forgettingRate := Fin 0.002 |}.

Definition sampleAgents : list Agent := map sampleAgent (seq 0 4).

Definition sampleState : State :=
  {| step := 0; agents := sampleAgents; communications := [];
     driftHistory := []; alignmentHistory := [];
     syntaxPatterns := []; contextShifts := [] |}.


(** The state of the component before [initAgents] has run. *)
Definition emptyState : State :=
  {| step := 0; agents := []; communications := [];
     driftHistory := []; alignmentHistory := [];
     syntaxPatterns := []; contextShifts := [] |}.

(** *** Real vectors *)

(** Sum of squares and dot product of real vectors; the dot product stops
    at the end of the shorter vector. *)
Fixpoint sumsq (a : list R) : R :=
  match a with
  | [] => 0
  | x :: a' => x * x + sumsq a'
  end.

Fixpoint dot (a b : list R) : R :=
  match a, b with
  | x :: a', y :: b' => x * y + dot a' b'
  | _, _ => 0
  end.

(** All trust values of the population are exactly 0.5. *)
Definition trust_initial (l : list Agent) : Prop :=
  forall a, In a l -> Forall (fun e => snd e = Fin 0.5) (trustScores a).

(** The mapping a failed exchange leaves the receiver with, given the
    position [k] of the next draw: the draw at [k] picks the repair, the
    draws after it make the noise. *)
Definition repaired (rnd : nat -> Draw) (k : nat) (sender : nat)
  (senderMapping : SymbolMapping) (r : Agent) (receiverMapping : SymbolMapping)
  : SymbolMapping :=
  if Num.ltb (Fin (rnd k)) (Num.mul (adaptability r) (as_num (get_trust r sender))) then
    with_confidence
      (with_vector receiverMapping
         (mapi_from (fun x i => Num.add x (Fin ((rnd i - 0.5) * 0.2))) (S k)
                    (vector senderMapping)))
      (Fin 0.3)
  else
    with_vector receiverMapping
      (mapi_from (fun x i => Num.add x (Fin ((rnd i - 0.5) * 0.1))) (S k)
                 (vector receiverMapping)).

(** Agent [a'] is agent [a] with the mapping of [target] redefined from the
    three draws at positions [k], [k+1], [k+2]: a new vector, confidence 0.3,
    everything else as it was. *)
Definition redefined (rnd : nat -> Draw) (k : nat) (target : string) (a a' : Agent) : Prop :=
  (exists m',
      get_mapping a' target = Some m' /\
      confidence m' = Fin 0.3 /\
      vector m' = [Fin (rnd k * 2 - 1); Fin (rnd (S k) * 2 - 1); Fin (rnd (S (S k)) * 2 - 1)]) /\
  (forall symbol, symbol <> target -> get_mapping a' symbol = get_mapping a symbol) /\
  trustScores a' = trustScores a /\ memory a' = memory a.

(** The kind and the target symbol that [triggerContextShift] picks from a
    draw. *)
Definition kind_of_draw (d : Draw) : ShiftType :=
  nth (Z.to_nat (Zfloor (d * INR (List.length shiftTypes)))) shiftTypes task_change.

Definition symbol_of_draw (d : Draw) : string :=
  nth (Z.to_nat (Zfloor (d * INR (List.length symbols)))) symbols "undefined"%string.

(** State [s1] is state [s] after the updater of [simulateStep] (forgetting
    and at most one exchange). *)
Record exchanged (s s1 : State) : Prop := {
  ex_agents : agents_ok (agents s1);
  ex_trust : trust_nondecreasing (agents s) (agents s1);
  ex_memory : memories_kept_newest (agents s) (agents s1);
  ex_step : step s1 = step s;
  ex_drift : driftHistory s1 = driftHistory s;
  ex_alignment : alignmentHistory s1 = alignmentHistory s;
  ex_shifts : contextShifts s1 = contextShifts s;
  ex_communications : kept_newest 30 (communications s) (communications s1)
}.

(** State [s'] and world [w'] are state [s] and world [w] after
    [triggerContextShift]: the draw at the cursor picks the kind; a
    [symbol_redefinition] takes the next draw for the symbol and three more
    for each agent's new vector. *)
Record shift_applied (rnd : nat -> Draw) (clk : nat -> Z)
  (s : State) (w : World) (s' : State) (w' : World) : Prop := {
  sh_record :
    contextShifts s' =
      (contextShifts s ++
         [{| shift_step := step s; shift_type := kind_of_draw (rnd (randoms w));
             shift_id := clk (clocks w) |}])%list;
  sh_step : step s' = step s;
  sh_communications : communications s' = communications s;
  sh_drift : driftHistory s' = driftHistory s;
  sh_alignment : alignmentHistory s' = alignmentHistory s;
  sh_agents : agents_ok (agents s');
  sh_kept : forall i a a',
      nth_error (agents s) i = Some a -> nth_error (agents s') i = Some a' ->
      trustScores a' = trustScores a /\ memory a' = memory a;
  sh_redefinition :
    kind_of_draw (rnd (randoms w)) = symbol_redefinition ->
    randoms w' = (randoms w + 14)%nat /\
    forall i a a',
      nth_error (agents s) i = Some a -> nth_error (agents s') i = Some a' ->
      redefined rnd (randoms w + 2 + 3 * i) (symbol_of_draw (rnd (S (randoms w)))) a a';
  sh_other :
    kind_of_draw (rnd (randoms w)) <> symbol_redefinition ->
    agents s' = agents s /\ randoms w' = S (randoms w)
}.

(** The pair [shift] is what [chooseShift] returns in world [w], leaving
    world [w0]: the draw at the cursor picks the kind; for a
    [symbol_redefinition] the next draw picks the symbol. *)
Record shift_chosen (rnd : nat -> Draw) (w : World)
  (shift : ShiftType * option string) (w0 : World) : Prop := {
  ch_kind : fst shift = kind_of_draw (rnd (randoms w));
  ch_clock : clocks w0 = clocks w;
  ch_redefinition :
    kind_of_draw (rnd (randoms w)) = symbol_redefinition ->
    snd shift = Some (symbol_of_draw (rnd (S (randoms w)))) /\
    randoms w0 = S (S (randoms w));
  ch_other :
    kind_of_draw (rnd (randoms w)) <> symbol_redefinition ->
    snd shift = None /\ randoms w0 = S (randoms w)
}.

(** State [s'] and world [w'] are state [s] and world [w] after the
    updaters of a context shift [shift] called at step [st]: a redefinition
    takes three draws for each agent's new vector, starting at the cursor;
    the record takes the clock value at the cursor. *)
Record shift_committed (rnd : nat -> Draw) (clk : nat -> Z) (st : Z)
  (shift : ShiftType * option string)
  (s : State) (w : World) (s' : State) (w' : World) : Prop := {
  sc_record :
    contextShifts s' =
      (contextShifts s ++
         [{| shift_step := st; shift_type := fst shift;
             shift_id := clk (clocks w) |}])%list;
  sc_step : step s' = step s;
  sc_communications : communications s' = communications s;
  sc_drift : driftHistory s' = driftHistory s;
  sc_alignment : alignmentHistory s' = alignmentHistory s;
  sc_patterns : syntaxPatterns s' = syntaxPatterns s;
  sc_agents : agents_ok (agents s');
  sc_kept : forall i a a',
      nth_error (agents s) i = Some a -> nth_error (agents s') i = Some a' ->
      trustScores a' = trustScores a /\ memory a' = memory a;
  sc_redefinition : forall target,
    snd shift = Some target ->
    randoms w' = (randoms w + 12)%nat /\
    forall i a a',
      nth_error (agents s) i = Some a -> nth_error (agents s') i = Some a' ->
      redefined rnd (randoms w + 3 * i) target a a';
  sc_other :
    snd shift = None -> agents s' = agents s /\ randoms w' = randoms w
}.

(** The stages of [simulateStep] on a populated state: the draws of a due
    context shift give [shift], the exchange round gives [s1], the updaters
    of the shift give [s2], the samples taken from the agents of [s] give
    the result. *)
Definition stepped (rnd : nat -> Draw) (clk : nat -> Z) (s : State) (w : World)
  (s' : State) (w' : World) : Prop :=
  exists (shift : option (ShiftType * option string)) w0 s1 w1 s2,
    (if shiftDue (step s)
     then exists x, chooseShift rnd w = Some (x, w0) /\ shift = Some x /\
                    shift_chosen rnd w x w0
     else shift = None /\ w0 = w) /\
    exchangeRound rnd clk s w0 = Some (s1, w1) /\
    exchanged s s1 /\
    match shift with
    | Some x => shift_committed rnd clk (step s) x s1 w1 s2 w'
    | None => s2 = s1 /\ w' = w1
    end /\
    s' = recordMetrics (agents s) (step s) s2.

(** A computation only moves the two cursors forward: no value of an oracle
    is handed out twice. *)
Definition advances {A : Type} (m : M A) : Prop :=
  forall w a w', m w = Some (a, w') ->
                 (randoms w <= randoms w')%nat /\ (clocks w <= clocks w')%nat.

(** Two states that differ at most in the timestamps of their records. *)
Record same_but_ids (s1 s2 : State) : Prop := {
  sb_step : step s1 = step s2;
  sb_agents : agents s1 = agents s2;
  sb_communications :
    map comm_content (communications s1) = map comm_content (communications s2);
  sb_drift : driftHistory s1 = driftHistory s2;
  sb_alignment : alignmentHistory s1 = alignmentHistory s2;
  sb_patterns : syntaxPatterns s1 = syntaxPatterns s2;
  sb_shifts : map shift_content (contextShifts s1) = map shift_content (contextShifts s2)
}.

(** Two results that fail together or return, in the same world, states
    that differ at most in timestamps. *)
Definition same_outcome (r1 r2 : option (State * World)) : Prop :=
  match r1, r2 with
  | Some (s1, w1), Some (s2, w2) => same_but_ids s1 s2 /\ w1 = w2
  | None, None => True
  | _, _ => False
  end.

(** Every [id] in the two logs of records is a value read from the clock. *)
Definition stamped (clk : nat -> Z) (s : State) : Prop :=
  Forall (fun c => exists k, comm_id c = clk k) (communications s) /\
  Forall (fun c => exists k, shift_id c = clk k) (contextShifts s).

(** *** Bounded logs *)

(** The bounded log [new] is [old] after the entry [x] was appended under
    the capacity [cap]: [x] is its newest entry; a log that was not full
    has kept every entry; a full log has lost its oldest entry, and only
    that one. *)
Definition appended {A : Type} (cap : nat) (old : list A) (x : A) (new : list A) : Prop :=
  new = ((if (List.length old <? cap)%nat then old else tl old) ++ [x])%list.

(** What the exchange round of step [st] leaves in the communication log
    and in the memories, for the [sender] and the [receiver] it has drawn:
    nothing when they are the same agent; otherwise one record appended to
    the log, a [sent] entry appended to the sender's memory, a [received]
    entry to the receiver's, and no other memory changed. *)
Definition round_logged (st : Z) (sender receiver : nat)
  (log log' : list Communication) (l l' : list Agent) : Prop :=
  if Nat.eqb sender receiver then
    log' = log /\
    forall i a a', nth_error l i = Some a -> nth_error l' i = Some a' ->
                   memory a' = memory a
  else
    exists c sentEntry receivedEntry,
      comm_sender c = sender /\ comm_receiver c = receiver /\ comm_step c = st /\
      appended 30 log c log' /\
      mem_action sentEntry = sent /\ mem_partner sentEntry = receiver /\
      mem_step sentEntry = st /\
      mem_action receivedEntry = received /\ mem_partner receivedEntry = sender /\
      mem_step receivedEntry = st /\
      forall i a a', nth_error l i = Some a -> nth_error l' i = Some a' ->
        if Nat.eqb i sender then appended 50 (memory a) sentEntry (memory a')
        else if Nat.eqb i receiver then appended 50 (memory a) receivedEntry (memory a')
        else memory a' = memory a.

(** *** The loop over the sequence *)

(** What the two loops of an exchange read: sender and receiver are in the
    population and each holds a mapping for every vocabulary symbol. *)
Definition exchange_ready (l : list Agent) (sender receiver : nat) : Prop :=
  exists s r,
    nth_error l sender = Some s /\ nth_error l receiver = Some r /\
    forall symbol, In symbol symbols ->
      get_mapping s symbol <> None /\ get_mapping r symbol <> None.

(** The relation [step] holds from each symbol of the sequence to the
    next: [x] is what the loop starts from, [x'] what it ends with. *)
Fixpoint along {X : Type} (step : string -> X -> X -> Prop) (sequence : list string)
  (x x' : X) : Prop :=
  match sequence with
  | [] => x' = x
  | symbol :: rest => exists x1, step symbol x x1 /\ along step rest x1 x'
  end.

(** The bookkeeping of a use at step [st]: the counter incremented, the
    last use set. *)
Definition used (st : Z) (m m' : SymbolMapping) : Prop :=
  usageCount m' = option_map Z.succ (usageCount m) /\ lastUsed m' = Some st.

(** Population [l'] is population [l] after the body of the loop has run
    for [symbol] in a successful exchange at step [st]. *)
Definition reinforced (st : Z) (sender receiver : nat) (symbol : string)
  (l l' : list Agent) : Prop :=
  exists s r sm rm sm' rm',
    nth_error l sender = Some s /\ nth_error l receiver = Some r /\
    get_mapping s symbol = Some sm /\ get_mapping r symbol = Some rm /\
    nth_error l' sender = Some (with_mapping s symbol sm') /\
    nth_error l' receiver
    = Some (with_mapping
              (with_trust r sender
                 (Num.min (Fin 1) (Num.add (as_num (get_trust r sender)) (Fin 0.02))))
              symbol rm') /\
    (forall i, i <> sender -> i <> receiver -> nth_error l' i = nth_error l i) /\
    confidence sm' = Num.min (Fin 1) (Num.add (confidence sm) (Fin 0.05)) /\
    confidence rm' = Num.min (Fin 1) (Num.add (confidence rm) (Fin 0.05)) /\
    vector sm' = vector sm /\
    List.length (vector rm') = List.length (vector rm) /\
    (forall i x, nth_error (vector rm) i = Some x ->
       nth_error (vector rm') i
       = Some (Num.add x
                 (Num.mul (Num.mul (Num.sub (at_index (vector sm) i) x) (Fin 0.1))
                          (convergenceSpeed r)))) /\
    used st sm sm' /\ used st rm rm'.

(** For a receiver whose convergence speed is above 0 and at most 10: no
    component of its vector for [symbol] is farther from the sender's in
    [l'] than it was in [l]. *)
Definition no_farther (sender receiver : nat) (symbol : string)
  (l l' : list Agent) : Prop :=
  forall s r sm rm,
    nth_error l sender = Some s -> nth_error l receiver = Some r ->
    get_mapping s symbol = Some sm -> get_mapping r symbol = Some rm ->
    Num.lt (Fin 0) (convergenceSpeed r) -> Num.le (convergenceSpeed r) (Fin 10) ->
    exists r' rm',
      nth_error l' receiver = Some r' /\ get_mapping r' symbol = Some rm' /\
      convergenceSpeed r' = convergenceSpeed r /\
      forall i a b,
        at_index (vector sm) i = Fin a -> nth_error (vector rm) i = Some (Fin b) ->
        exists b', nth_error (vector rm') i = Some (Fin b') /\
                   Rabs (a - b') <= Rabs (a - b).

(** Vector [v'] is vector [v] with a noise of its own on each component:
    for component [i], the draw at position [k + i] scaled to [width]. *)
Definition noisy (rnd : nat -> Draw) (k : nat) (width : R) (v v' : list num) : Prop :=
  List.length v' = List.length v /\
  forall i x, nth_error v i = Some x ->
    nth_error v' i = Some (Num.add x (Fin ((rnd (k + i)%nat - 0.5) * width))).

(** Population [l'] and position [k'] of the next draw are population [l]
    and position [k] after the body of the loop has run for [symbol] in a
    failed exchange at step [st]: the draw at [k] picks the repair. *)
Definition repaired_at (rnd : nat -> Draw) (st : Z) (sender receiver : nat)
  (symbol : string) (before after : list Agent * nat) : Prop :=
  let (l, k) := before in
  let (l', k') := after in
  exists s r sm rm rm',
    nth_error l sender = Some s /\ nth_error l receiver = Some r /\
    get_mapping s symbol = Some sm /\ get_mapping r symbol = Some rm /\
    nth_error l' sender
    = Some (with_mapping s symbol
              {| vector := vector sm; confidence := confidence sm;
                 usageCount := option_map Z.succ (usageCount sm);
                 lastUsed := Some st |}) /\
    nth_error l' receiver = Some (with_mapping r symbol rm') /\
    (forall i, i <> sender -> i <> receiver -> nth_error l' i = nth_error l i) /\
    used st rm rm' /\
    if Num.ltb (Fin (rnd k)) (Num.mul (adaptability r) (as_num (get_trust r sender)))
    then confidence rm' = Fin 0.3 /\
         noisy rnd (S k) 0.2 (vector sm) (vector rm') /\
         k' = (S k + List.length (vector sm))%nat
    else confidence rm' = confidence rm /\
         noisy rnd (S k) 0.1 (vector rm) (vector rm') /\
         k' = (S k + List.length (vector rm))%nat.

(** The two memory entries of an exchange, pushed after the loop. *)
Definition remembered (st : Z) (sender receiver : nat) (sequence : list string)
  (success : bool) (l : list Agent) : list Agent :=
  list_update
    (list_update l sender
       (remember {| mem_step := st; mem_action := sent; mem_sequence := sequence;
                    mem_success := success; mem_partner := receiver |}))
    receiver
    (remember {| mem_step := st; mem_action := received; mem_sequence := sequence;
                 mem_success := success; mem_partner := sender |}).

(** *** The population [initAgents] builds *)

(** A mapping as [initAgents] creates it: three components drawn from
    [[-1, 1)], a confidence drawn from [[0.3, 0.7)], never used. *)
Definition mapping_initial (m : SymbolMapping) : Prop :=
  (exists x y z,
      vector m = [Fin x; Fin y; Fin z] /\
      -1 <= x < 1 /\ -1 <= y < 1 /\ -1 <= z < 1) /\
  (exists c, confidence m = Fin c /\ 0.3 <= c < 0.7) /\
  usageCount m = Some 0%Z /\ lastUsed m = Some 0%Z.

(** Agent [i] as [initAgents] creates it and as [reset] re-creates it. *)
Record agent_initial (i : nat) (nm : string) (a : Agent) : Prop := {
  in_id : id a = i;
  in_name : name a = nm;
  in_symbols : map fst (symbolMappings a) = symbols;
  in_mappings : Forall (fun e => mapping_initial (snd e)) (symbolMappings a);
  in_trust : forall j,
      get_trust a j = if (j <? 4)%nat && negb (j =? i)%nat then Some (Fin 0.5) else None;
  in_memory : memory a = [];
  in_adaptability : exists x, adaptability a = Fin x /\ 0.2 <= x < 0.8;
  in_convergenceSpeed : exists x, convergenceSpeed a = Fin x /\ 0.1 <= x < 0.4;
  in_forgettingRate : exists x, forgettingRate a = Fin x /\ 0.001 <= x < 0.005
}.

(** The index that [Math.floor(Math.random() * n)] makes of a draw. *)
Definition index_of_draw (n : nat) (d : Draw) : nat :=
  Z.to_nat (Zfloor (d * INR n)).

(** Every mapping of the population was used within the last twenty steps
    before step [st]. *)
Definition recently_used (st : Z) (l : list Agent) : Prop :=
  forall a symbol m,
    In a l -> In (symbol, m) (symbolMappings a) ->
    exists u, lastUsed m = Some u /\ (st - u <= 20)%Z.

(** A trust value after [n] raises: [Math.min(1, trust + 0.02)], [n]
    times over. *)
Definition raised (n : nat) (t : num) : num :=
  Nat.iter n (fun t => Num.min (Fin 1) (Num.add t (Fin 0.02))) t.

(** *** The metrics of a run *)

(** [Math.max(0, (1 - avgDrift) * 100)]. *)
Definition alignment_of (d : num) : num :=
  Num.max (Fin 0) (Num.mul (Num.sub (Fin 1) d) (Fin 100)).

(** A drift sample and the alignment sample recorded with it: the same
    step, the alignment computed from that drift. *)
Definition samples_ok (d : DriftSample) (a : AlignmentSample) : Prop :=
  align_step a = drift_step d /\
  alignment a = alignment_of (drift d).

(** The steps [0], ..., [n - 1] that [n] ticks have taken. *)
Definition steps_taken (n : nat) : list Z := map Z.of_nat (seq 0 n).

(** *** The books of a run *)

(** The usage counters of a mapping at step [b]: both are set, the counter
    is not negative, the last use is not in the future. *)
Definition usage_ok (b : Z) (m : SymbolMapping) : Prop :=
  exists u l,
    usageCount m = Some u /\ lastUsed m = Some l /\ (0 <= u)%Z /\ (0 <= l <= b)%Z.

(** A sequence as [simulateStep] draws it: one or two vocabulary symbols. *)
Definition sequence_ok (sequence : list string) : Prop :=
  (List.length sequence = 1%nat \/ List.length sequence = 2%nat) /\
  Forall (fun symbol => In symbol symbols) sequence.

(** A memory entry of agent [i] before step [b]: an exchange with another
    of the four agents, at an earlier step. *)
Definition entry_ok (i : nat) (b : Z) (e : MemoryEntry) : Prop :=
  mem_partner e <> i /\ (mem_partner e < 4)%nat /\
  (0 <= mem_step e < b)%Z /\ sequence_ok (mem_sequence e).

(** A list of steps in strictly increasing order. *)
Fixpoint increasing (l : list Z) : Prop :=
  match l with
  | [] => True
  | x :: l' => Forall (Z.lt x) l' /\ increasing l'
  end.

(** The books of agent [i] at step [b]: the usage counters of its mappings,
    the entries of its memory and their order. *)
Record agent_book (i : nat) (b : Z) (a : Agent) : Prop := {
  bk_usage : Forall (fun e => usage_ok b (snd e)) (symbolMappings a);
  bk_memory : Forall (entry_ok i b) (memory a);
  bk_order : increasing (map mem_step (memory a))
}.

(** The books of a population: those of each agent at its index. *)
Definition books (b : Z) (l : list Agent) : Prop :=
  forall i a, nth_error l i = Some a -> agent_book i b a.

(** What no step writes in an agent: identifier, name, traits, and the
    peers it keeps a trust for. *)
Definition identity (a : Agent) : nat * string * num * num * num * list nat :=
  (id a, name a, adaptability a, convergenceSpeed a, forgettingRate a,
   map fst (trustScores a)).

(** A communication record made before step [b]. *)
Record record_ok (b : Z) (c : Communication) : Prop := {
  rc_sender : (comm_sender c < 4)%nat;
  rc_receiver : (comm_receiver c < 4)%nat;
  rc_distinct : comm_sender c <> comm_receiver c;
  rc_sequence : sequence_ok (comm_sequence c);
  rc_length : comm_sequenceLength c = List.length (comm_sequence c);
  rc_step : (0 <= comm_step c < b)%Z;
  rc_success : comm_success c = Num.ltb (comm_distance c) (Fin 0.5);
  rc_trust : exists t, comm_trustBefore c = Some t /\ Num.between 0.5 1 t
}.

(** A communication log before step [b]: well-formed records, at most one
    for each step, in the order of the steps. *)
Definition log_ok (b : Z) (log : list Communication) : Prop :=
  Forall (record_ok b) log /\ increasing (map comm_step log).

(** The thirty-six keys [x-y] that a two-symbol sequence can make. *)
Definition allPatterns : list string :=
  flat_map (fun x => map (fun y => (x ++ "-" ++ y)%string) symbols) symbols.

(** A table of syntax patterns: no key twice, every key made of two
    vocabulary symbols, every count at least 1. *)
Definition patterns_ok (patterns : list (string * Z)) : Prop :=
  NoDup (map fst patterns) /\
  incl (map fst patterns) allPatterns /\
  Forall (fun e => (1 <= snd e)%Z) patterns.

(** [patterns.get(pattern) || 0]. *)
Definition patternCount (patterns : list (string * Z)) (pattern : string) : Z :=
  match dict_get String.eqb patterns pattern with
  | Some n => n
  | None => 0%Z
  end.

(** *** The read-outs of the overview *)

(** One decimal digit. *)
Definition digit (d : Z) : string :=
  String (ascii_of_nat (48 + Z.to_nat d)) EmptyString.

Fixpoint decimal_from (fuel : nat) (n : Z) : string :=
  match fuel with
  | O => digit n
  | S fuel' =>
      if (n <? 10)%Z then digit n
      else (decimal_from fuel' (n / 10) ++ digit (n mod 10))%string
  end.

(** The decimal numeral of a non-negative integer. *)
Definition decimal (n : Z) : string := decimal_from (Z.to_nat n) n.

(** The integer [n] for which [n / 10] is closest to [x], the larger one
    when there are two. *)
Definition tenths (x : R) : Z := Zfloor (x * 10 + 1 / 2).

(** The digits of [n] with a point before the last one. *)
Definition pointed (n : Z) : string :=
  (decimal (n / 10) ++ "." ++ digit (n mod 10))%string.

(** [x.toFixed(1)], for a number of magnitude below [1e21]. *)
Definition toFixed1 (x : num) : string :=
  match x with
  | Fin r =>
      if Rlt_dec r 0 then ("-" ++ pointed (tenths (- r)))%string
      else pointed (tenths r)
  | NaN => "NaN"%string
  end.

(** What [getSuccessRate] returns: the number 0 or the text made by
    [toFixed]. *)
Inductive Readout : Type :=
| Number (x : num)
| Text (t : string).

Definition getSuccessRate (s : State) : Readout :=
  match communications s with
  | [] => Number (Fin 0)
  | _ =>
      let recent := slice_last 20 (communications s) in
      Text (toFixed1
              (Num.mul (Num.div (Num.of_nat (List.length (filter comm_success recent)))
                                (Num.of_nat (List.length recent)))
                       (Fin 100)))
  end.

(** [getConvergenceSpeed]; [None] is the [TypeError] of reading
    [alignment] from [undefined]. *)
Definition getConvergenceSpeed (s : State) : option string :=
  if (List.length (alignmentHistory s) <? 10)%nat then Some "Insufficient data"%string
  else
    let recent := slice_last 10 (alignmentHistory s) in
    match nth_error recent (List.length recent - 1), nth_error recent 0 with
    | Some newest, Some oldest =>
        let trend := Num.sub (alignment newest) (alignment oldest) in
        Some (if Num.ltb (Fin 0) trend then "Converging"
              else if Num.ltb trend (Fin (-1)) then "Diverging"
              else "Stable")%string
    | _, _ => None
    end.

(** *** More sample inputs *)

Definition tenth : Draw := {| draw_val := 1 / 10; draw_range := ltac:(lra) |}.

(** An oracle whose first draw is 0.1 and whose other draws are 0.5. *)
Definition rnd_tenth_then_half : nat -> Draw :=
  fun k => match k with O => tenth | S _ => half end.

(** A mapping whose vector is the zero vector, and the sample population
    with that mapping for the first symbol of its first agent. *)
Definition zeroMapping : SymbolMapping :=
  {| vector := [Fin 0; Fin 0; Fin 0]; confidence := Fin 0.5;
     usageCount := Some 0%Z; lastUsed := Some 0%Z |}.

Definition degenerateAgents : list Agent :=
  list_set sampleAgents 0 (with_mapping (sampleAgent 0) "α" zeroMapping).

(** A receiver that never adapts and trusts agent 0 fully, its vectors at
    right angles to those of the sample agents; and the sample population
    with that receiver as agent 1. *)
Definition apartMapping : SymbolMapping :=
  {| vector := [Fin 0; Fin 1; Fin 0]; confidence := Fin 0.5;
     usageCount := Some 0%Z; lastUsed := Some 0%Z |}.

Definition stubbornAgent : Agent :=
  {| id := 1; name := agentName 1;
     symbolMappings := map (fun symbol => (symbol, apartMapping)) symbols;
     trustScores := [(0%nat, Fin 1); (2%nat, Fin 0.5); (3%nat, Fin 0.5)];
     memory := [];
     adaptability := Fin 0; convergenceSpeed := Fin 0.2;
     forgettingRate := Fin 0.002 |}.

Definition stubbornAgents : list Agent := list_set sampleAgents 1 stubbornAgent.




(** * Properties *)

(** ** Reasoning about computations *)

Section YieldsRules.
Context {A B : Type}.

Lemma yields_ret (a : A) w (Q : A -> World -> Prop) :
  Q a w -> yields (ret a) w Q.
Proof. intro H. exists a, w. split; [reflexivity | exact H]. Qed.

Lemma yields_bind (m : M A) (f : A -> M B) w (Q : B -> World -> Prop) :
  yields m w (fun a w' => yields (f a) w' Q) -> yields (bind m f) w Q.
Proof.
  intros (a & w' & Hm & b & w'' & Hf & HQ).
  exists b, w''. split; [| exact HQ].
  unfold bind. rewrite Hm. exact Hf.
Qed.

Lemma yields_weaken (m : M A) w (P Q : A -> World -> Prop) :
  yields m w P -> (forall a w', P a w' -> Q a w') -> yields m w Q.
Proof.
  intros (a & w' & Hm & HP) H. exists a, w'. split; [exact Hm | apply H, HP].
Qed.

Lemma yields_conj (m : M A) w (P Q : A -> World -> Prop) :
  yields m w P -> yields m w Q -> yields m w (fun a w' => P a w' /\ Q a w').
Proof.
  intros (a & w' & Hm & HP) (a2 & w2 & Hm2 & HQ).
  rewrite Hm in Hm2. inversion Hm2; subst.
  exists a2, w2. auto.
Qed.

Lemma yields_result (m : M A) w (Q : A -> World -> Prop) a w' :
  yields m w Q -> m w = Some (a, w') -> Q a w'.
Proof.
  intros (a2 & w2 & Hm & HQ) E. rewrite Hm in E. inversion E; subst. exact HQ.
Qed.

Lemma yields_graph (m : M A) w (Q : A -> World -> Prop) :
  yields m w Q -> yields m w (fun a w' => m w = Some (a, w') /\ Q a w').
Proof. intros (a & w' & Hm & HQ). exists a, w'. auto. Qed.

Lemma yields_defined (x : option A) a w (Q : A -> World -> Prop) :
  x = Some a -> Q a w -> yields (defined x) w Q.
Proof. intros -> H. exists a, w. split; [reflexivity | exact H]. Qed.

Lemma yields_if (b : bool) (m1 m2 : M A) w (Q : A -> World -> Prop) :
  (b = true -> yields m1 w Q) -> (b = false -> yields m2 w Q) ->
  yields (if b then m1 else m2) w Q.
Proof. destruct b; auto. Qed.
End YieldsRules.

Lemma yields_random rnd w (Q : R -> World -> Prop) :
  Q (draw_val (rnd (randoms w))) {| randoms := S (randoms w); clocks := clocks w |} ->
  yields (random rnd) w Q.
Proof. intro H. eexists _, _. split; [reflexivity | exact H]. Qed.

Lemma yields_now clk w (Q : Z -> World -> Prop) :
  Q (clk (clocks w)) {| randoms := randoms w; clocks := S (clocks w) |} ->
  yields (now clk) w Q.
Proof. intro H. eexists _, _. split; [reflexivity | exact H]. Qed.

(** [mapM] with a relation [R] between the element at each index and its
    image, and an invariant [I] of the world indexed by the number of
    elements already processed. *)
Lemma yields_mapM {A B : Type} (f : A -> M B) (l : list A) :
  forall (I : nat -> World -> Prop) (R : nat -> A -> B -> Prop) w,
    I 0%nat w ->
    (forall i x w, nth_error l i = Some x -> I i w ->
                   yields (f x) w (fun y w' => R i x y /\ I (S i) w')) ->
    yields (mapM f l) w
      (fun l' w' =>
         List.length l' = List.length l /\
         (forall i x y, nth_error l i = Some x -> nth_error l' i = Some y -> R i x y) /\
         I (List.length l) w').
Proof.
  induction l as [| x l IH]; intros I R w H0 Hf.
  - apply yields_ret. repeat split; auto.
    intros [|i] x y Hx; discriminate.
  - simpl. apply yields_bind.
    eapply yields_weaken; [apply (Hf 0%nat x w eq_refl H0) |].
    intros y w1 [HR HI]. apply yields_bind.
    eapply yields_weaken.
    + apply (IH (fun i => I (S i)) (fun i => R (S i)) w1 HI).
      intros i x' w' Hx' HI'. apply (Hf (S i) x' w' Hx' HI').
    + intros ys w2 (Hlen & Hnth & HI2). apply yields_ret.
      repeat split.
      * simpl. now rewrite Hlen.
      * intros [|i] x' y' Hx' Hy'; simpl in *.
        -- inversion Hx'; inversion Hy'; subst. exact HR.
        -- eapply Hnth; eauto.
      * exact HI2.
Qed.

Lemma yields_foldM {A B : Type} (f : B -> A -> M B) (Inv : B -> World -> Prop) (l : list A) :
  forall acc w,
    Inv acc w ->
    (forall b x w, In x l -> Inv b w -> yields (f b x) w Inv) ->
    yields (foldM f l acc) w Inv.
Proof.
  induction l as [| x l IH]; intros acc w H0 Hf.
  - apply yields_ret, H0.
  - simpl. apply yields_bind.
    eapply yields_weaken; [apply (Hf acc x w (or_introl eq_refl) H0) |].
    intros b w1 Hb. apply IH; [exact Hb |].
    intros b' x' w' Hin. apply Hf. now right.
Qed.

Lemma yields_replicateM {A : Type} (f : M A) (n : nat) :
  forall (I : nat -> World -> Prop) (R : nat -> A -> Prop) w,
    I 0%nat w ->
    (forall i w, (i < n)%nat -> I i w -> yields f w (fun y w' => R i y /\ I (S i) w')) ->
    yields (replicateM n f) w
      (fun l w' =>
         List.length l = n /\
         (forall i y, nth_error l i = Some y -> R i y) /\
         I n w').
Proof.
  induction n as [| n IH]; intros I R w H0 Hf.
  - apply yields_ret. repeat split; auto.
    intros [|i] y Hy; discriminate.
  - simpl. apply yields_bind.
    eapply yields_weaken; [apply (Hf 0%nat w); [lia | exact H0] |].
    intros y w1 [HR HI]. apply yields_bind.
    eapply yields_weaken.
    + apply (IH (fun i => I (S i)) (fun i => R (S i)) w1 HI).
      intros i w' Hi HI'. apply (Hf (S i) w'); [lia | exact HI'].
    + intros ys w2 (Hlen & Hnth & HI2). apply yields_ret.
      repeat split.
      * simpl. now rewrite Hlen.
      * intros [|i] y' Hy'; simpl in *.
        -- inversion Hy'; subst. exact HR.
        -- eapply Hnth; eauto.
      * exact HI2.
Qed.

(** ** Arrays and dictionaries *)

Lemma list_set_length {A : Type} (l : list A) i x :
  List.length (list_set l i x) = List.length l.
Proof.
  revert i; induction l as [| y l IH]; intros [|i]; simpl; auto.
Qed.

Lemma list_set_same {A : Type} (l : list A) i x :
  (i < List.length l)%nat -> nth_error (list_set l i x) i = Some x.
Proof.
  revert i; induction l as [| y l IH]; intros [|i] H; simpl in *; try lia; auto.
  apply IH. lia.
Qed.

Lemma list_set_other {A : Type} (l : list A) i j x :
  i <> j -> nth_error (list_set l i x) j = nth_error l j.
Proof.
  revert i j; induction l as [| y l IH]; intros [|i] [|j] H; simpl;
    try reflexivity; try congruence.
  apply IH. congruence.
Qed.

Lemma list_update_length {A : Type} (l : list A) i f :
  List.length (list_update l i f) = List.length l.
Proof.
  revert i; induction l as [| y l IH]; intros [|i]; simpl; auto.
Qed.

Lemma list_update_same {A : Type} (l : list A) i f x :
  nth_error l i = Some x -> nth_error (list_update l i f) i = Some (f x).
Proof.
  revert i; induction l as [| y l IH]; intros [|i] H; simpl in *; try discriminate.
  - now inversion H.
  - apply IH, H.
Qed.

Lemma list_update_other {A : Type} (l : list A) i j f :
  i <> j -> nth_error (list_update l i f) j = nth_error l j.
Proof.
  revert i j; induction l as [| y l IH]; intros [|i] [|j] H; simpl;
    try reflexivity; try congruence.
  apply IH. congruence.
Qed.

Lemma slice_last_length {A : Type} (n : nat) (l : list A) :
  List.length (slice_last n l) = Nat.min n (List.length l).
Proof. unfold slice_last. rewrite length_skipn. lia. Qed.

(** [[...l.slice(-(n-1)), x]] is the last [n] entries of [l] followed by [x]. *)
Lemma slice_last_snoc {A : Type} (n : nat) (l : list A) (x : A) :
  (slice_last n l ++ [x])%list = slice_last (S n) (l ++ [x]).
Proof.
  unfold slice_last. rewrite length_app. simpl.
  replace (List.length l + 1 - S n)%nat with (List.length l - n)%nat by lia.
  rewrite skipn_app.
  replace (List.length l - n - List.length l)%nat with 0%nat by lia.
  reflexivity.
Qed.

Lemma slice_last_all {A : Type} (n : nat) (l : list A) :
  (List.length l <= n)%nat -> slice_last n l = l.
Proof.
  intro H. unfold slice_last.
  replace (List.length l - n)%nat with 0%nat by lia. reflexivity.
Qed.

Section DictFacts.
Context {K V : Type} (eqb : K -> K -> bool).
Hypothesis eqb_eq : forall a b, eqb a b = true <-> a = b.

Lemma dict_get_set_same (d : list (K * V)) k v :
  dict_get eqb (dict_set eqb d k v) k = Some v.
Proof.
  induction d as [| [k' v'] d IH]; simpl.
  - replace (eqb k k) with true; [reflexivity |].
    symmetry. now apply eqb_eq.
  - destruct (eqb k' k) eqn:E; simpl; rewrite E; auto.
Qed.

Lemma dict_get_set_other (d : list (K * V)) k k2 v :
  k <> k2 -> dict_get eqb (dict_set eqb d k v) k2 = dict_get eqb d k2.
Proof.
  intro Hne. induction d as [| [k' v'] d IH]; simpl.
  - destruct (eqb k k2) eqn:E; [apply eqb_eq in E; contradiction | reflexivity].
  - destruct (eqb k' k) eqn:E; simpl.
    + apply eqb_eq in E. subst k'.
      destruct (eqb k k2) eqn:E2; [apply eqb_eq in E2; contradiction | reflexivity].
    + destruct (eqb k' k2); auto.
Qed.

Lemma dict_set_keys (d : list (K * V)) k v :
  dict_get eqb d k <> None -> map fst (dict_set eqb d k v) = map fst d.
Proof.
  induction d as [| [k' v'] d IH]; simpl; intro H.
  - congruence.
  - destruct (eqb k' k) eqn:E; simpl; [reflexivity |].
    f_equal. apply IH, H.
Qed.

Lemma dict_set_new_key (d : list (K * V)) k v :
  ~ In k (map fst d) -> dict_set eqb d k v = (d ++ [(k, v)])%list.
Proof.
  induction d as [| [k' v'] d IH]; simpl; intro H; [reflexivity |].
  destruct (eqb k' k) eqn:E.
  - apply eqb_eq in E. tauto.
  - f_equal. apply IH. tauto.
Qed.

Lemma dict_set_Forall (P : V -> Prop) (d : list (K * V)) k v :
  Forall (fun e => P (snd e)) d -> P v ->
  Forall (fun e => P (snd e)) (dict_set eqb d k v).
Proof.
  intros Hd Hv. induction Hd as [| [k' v'] d Hx Hd IH]; simpl.
  - constructor; auto.
  - destruct (eqb k' k); constructor; auto.
Qed.

Lemma dict_get_Forall (P : V -> Prop) (d : list (K * V)) k v :
  Forall (fun e => P (snd e)) d -> dict_get eqb d k = Some v -> P v.
Proof.
  intros Hd. induction Hd as [| [k' v'] d Hx Hd IH]; simpl; intro H.
  - discriminate.
  - destruct (eqb k' k); [inversion H; subst; exact Hx | auto].
Qed.

Lemma dict_get_key (d : list (K * V)) k :
  In k (map fst d) -> dict_get eqb d k <> None.
Proof.
  induction d as [| [k' v'] d IH]; simpl; intro H; [tauto |].
  destruct (eqb k' k) eqn:E; [discriminate |].
  destruct H as [H | H]; [| auto].
  subst. assert (eqb k k = true) by now apply eqb_eq. congruence.
Qed.
End DictFacts.

(** Inverting a bind that returned. *)
Lemma bind_Some {A B : Type} (m : M A) (f : A -> M B) w b w' :
  bind m f w = Some (b, w') ->
  exists a w1, m w = Some (a, w1) /\ f a w1 = Some (b, w').
Proof.
  unfold bind. destruct (m w) as [[a w1]|]; [| discriminate].
  intro H. now exists a, w1.
Qed.


(** ** Numbers and vectors *)

Lemma ltb_lt (x y : num) : Num.ltb x y = true <-> Num.lt x y.
Proof.
  destruct x as [a|], y as [b|]; simpl; try (split; [discriminate | tauto]).
  destruct (Rlt_dec a b); split; auto; discriminate.
Qed.

Lemma between_weaken (lo hi lo' hi' : R) (x : num) :
  lo' <= lo -> hi <= hi' -> Num.between lo hi x -> Num.between lo' hi' x.
Proof. destruct x; simpl; [lra | tauto]. Qed.

Lemma finite_vector (v : list num) :
  Forall Num.is_fin v -> exists a, v = map Fin a.
Proof.
  induction 1 as [| x v Hx Hv (a & ->)].
  - now exists [].
  - destruct x as [r|]; [| contradiction]. now exists (r :: a).
Qed.

Lemma sumsq_nonneg (a : list R) : 0 <= sumsq a.
Proof. induction a as [| x a IH]; simpl; nra. Qed.

Lemma sumsq_zero (a : list R) : sumsq a = 0 <-> Forall (fun x => x = 0) a.
Proof.
  induction a as [| x a IH]; simpl.
  - split; auto.
  - pose proof (sumsq_nonneg a). split.
    + intro H0. constructor; [nra | apply IH; nra].
    + intro H0. inversion H0; subst. apply IH in H4. nra.
Qed.

Lemma dot_zero_l (a b : list R) : sumsq a = 0 -> dot a b = 0.
Proof.
  rewrite sumsq_zero. intro H. revert b.
  induction H as [| x a Hx Ha IH]; intros [| y b]; simpl; auto.
  rewrite IH, Hx. lra.
Qed.

Lemma dot_zero_r (a b : list R) : sumsq b = 0 -> dot a b = 0.
Proof.
  rewrite sumsq_zero. intro H. revert a.
  induction H as [| y b Hy Hb IH]; intros [| x a]; simpl; auto.
  rewrite IH, Hy. lra.
Qed.

Lemma dot_self (a : list R) : dot a a = sumsq a.
Proof. induction a as [| x a IH]; simpl; [reflexivity | now rewrite IH]. Qed.

(** The Cauchy-Schwarz inequality. *)
Lemma dot_sqr_le (a b : list R) : dot a b * dot a b <= sumsq a * sumsq b.
Proof.
  revert b. induction a as [| x a IH]; intros [| y b]; simpl; try lra.
  pose proof (sumsq_nonneg a) as HA. pose proof (sumsq_nonneg b) as HB.
  specialize (IH b).
  set (d := dot a b) in *. set (A := sumsq a) in *. set (B := sumsq b) in *.
  assert (Hcross : 2 * (x * y) * d <= x * x * B + y * y * A).
  { assert (H1 : 0 <= (x * x * B - y * y * A) * (x * x * B - y * y * A))
      by exact (Rle_0_sqr _).
    assert (H2 : (x * y) * (x * y) * (d * d) <= (x * y) * (x * y) * (A * B)).
    { apply Rmult_le_compat_l; [exact (Rle_0_sqr _) | exact IH]. }
    assert (Hx : 0 <= x * x) by exact (Rle_0_sqr _).
    assert (Hy : 0 <= y * y) by exact (Rle_0_sqr _).
    assert (H3 : 0 <= x * x * B + y * y * A) by nra.
    assert (H4 : (2 * (x * y) * d) * (2 * (x * y) * d)
                 <= (x * x * B + y * y * A) * (x * x * B + y * y * A)) by nra.
    destruct (Rle_dec (2 * (x * y) * d) (x * x * B + y * y * A)); [assumption |].
    nra. }
  nra.
Qed.

(** The two reductions of [calculateVectorDistance] on finite vectors. *)
Lemma reduce_sumsq (a : list R) :
  forall i x,
    reduce_from (fun sum val (_ : nat) => Num.add sum (Num.mul val val)) i (map Fin a) (Fin x)
    = Fin (x + sumsq a).
Proof.
  induction a as [| y a IH]; intros i x; simpl.
  - f_equal. lra.
  - rewrite IH. f_equal. lra.
Qed.

Lemma reduce_dot (b : list R) (a : list R) :
  forall i x,
    (i + List.length a <= List.length b)%nat ->
    reduce_from (fun sum val i => Num.add sum (Num.mul val (at_index (map Fin b) i)))
                i (map Fin a) (Fin x)
    = Fin (x + dot a (skipn i b)).
Proof.
  induction a as [| y a IH]; intros i x Hlen; simpl.
  - f_equal. lra.
  - simpl in Hlen.
    destruct (skipn i b) as [| z b'] eqn:Eb.
    { apply (f_equal (@List.length R)) in Eb. rewrite length_skipn in Eb.
      simpl in Eb. lia. }
    assert (Hz : at_index (map Fin b) i = Fin z).
    { unfold at_index. rewrite <- (firstn_skipn i b) at 1.
      rewrite Eb, map_app, app_nth2; rewrite length_map, length_firstn;
        replace (Nat.min i (List.length b)) with i by lia; [| lia].
      now rewrite Nat.sub_diag. }
    assert (Hb' : skipn (S i) b = b').
    { replace (S i) with (1 + i)%nat by lia.
      rewrite <- skipn_skipn, Eb. reflexivity. }
    rewrite Hz. simpl. rewrite IH by lia. rewrite Hb'. f_equal. lra.
Qed.

(** [calculateVectorDistance] on finite vectors of equal length. *)
Lemma distance_reals (a b : list R) :
  List.length a = List.length b ->
  calculateVectorDistance (map Fin a) (map Fin b)
  = Num.sub (Fin 1)
      (Num.div (Fin (dot a b)) (Fin (sqrt (sumsq a) * sqrt (sumsq b)))).
Proof.
  intro Hlen. unfold calculateVectorDistance, reduce.
  rewrite !reduce_sumsq, reduce_dot by (simpl; lia).
  simpl skipn. rewrite !Rplus_0_l. unfold Num.sqrt.
  destruct (Rlt_dec (sumsq a) 0) as [Ha | _];
    [pose proof (sumsq_nonneg a); lra |].
  destruct (Rlt_dec (sumsq b) 0) as [Hb | _];
    [pose proof (sumsq_nonneg b); lra |].
  reflexivity.
Qed.

Lemma sqrt_product_zero (p q : R) :
  0 <= p -> 0 <= q -> (sqrt p * sqrt q = 0 <-> p = 0 \/ q = 0).
Proof.
  intros Hp Hq. split.
  - intro H. apply Rmult_integral in H. destruct H as [H | H];
      apply sqrt_eq_0 in H; auto.
  - intros [-> | ->]; rewrite sqrt_0; lra.
Qed.

(** A vector of zero magnitude makes the distance [NaN]. *)
Lemma distance_zero_magnitude (a b : list R) :
  List.length a = List.length b ->
  sumsq a = 0 \/ sumsq b = 0 ->
  calculateVectorDistance (map Fin a) (map Fin b) = NaN.
Proof.
  intros Hlen H0. rewrite distance_reals by exact Hlen.
  assert (Hz : sqrt (sumsq a) * sqrt (sumsq b) = 0)
    by (apply sqrt_product_zero; auto using sumsq_nonneg).
  simpl. destruct (Req_dec_T (sqrt (sumsq a) * sqrt (sumsq b)) 0); [reflexivity | contradiction].
Qed.

(** The only division by zero of [calculateVectorDistance] is [0/0]. *)
Lemma distance_zero_divisor (a b : list R) :
  sqrt (sumsq a) * sqrt (sumsq b) = 0 -> dot a b = 0.
Proof.
  intro H. apply sqrt_product_zero in H; auto using sumsq_nonneg.
  destruct H; [now apply dot_zero_l | now apply dot_zero_r].
Qed.

(** Vectors of non-zero magnitude: one minus the cosine, within [[0, 2]]. *)
Lemma distance_nonzero (a b : list R) :
  List.length a = List.length b ->
  sumsq a <> 0 -> sumsq b <> 0 ->
  calculateVectorDistance (map Fin a) (map Fin b)
  = Fin (1 - dot a b / (sqrt (sumsq a) * sqrt (sumsq b)))
  /\ 0 <= 1 - dot a b / (sqrt (sumsq a) * sqrt (sumsq b)) <= 2.
Proof.
  intros Hlen Ha Hb. rewrite distance_reals by exact Hlen.
  pose proof (sumsq_nonneg a) as HA. pose proof (sumsq_nonneg b) as HB.
  assert (Hpa : 0 < sqrt (sumsq a)) by (apply sqrt_lt_R0; lra).
  assert (Hpb : 0 < sqrt (sumsq b)) by (apply sqrt_lt_R0; lra).
  set (m := sqrt (sumsq a) * sqrt (sumsq b)).
  assert (Hm : 0 < m) by (unfold m; nra).
  split.
  - simpl. fold m. destruct (Req_dec_T m 0); [lra | reflexivity].
  - assert (Hmm : m * m = sumsq a * sumsq b).
    { unfold m.
      replace (sqrt (sumsq a) * sqrt (sumsq b) * (sqrt (sumsq a) * sqrt (sumsq b)))
        with ((sqrt (sumsq a) * sqrt (sumsq a)) * (sqrt (sumsq b) * sqrt (sumsq b))) by ring.
      now rewrite !sqrt_sqrt. }
    pose proof (dot_sqr_le a b) as Hcs. rewrite <- Hmm in Hcs.
    assert (Hle : - m <= dot a b <= m) by nra.
    assert (Hq : -1 <= dot a b / m <= 1).
    { split.
      - apply Rmult_le_reg_r with m; [exact Hm |].
        unfold Rdiv. rewrite Rmult_assoc, Rinv_l by lra. lra.
      - apply Rmult_le_reg_r with m; [exact Hm |].
        unfold Rdiv. rewrite Rmult_assoc, Rinv_l by lra. lra. }
    lra.
Qed.

(** A vector of non-zero magnitude is at distance 0 from itself. *)
Lemma distance_self (a : list R) :
  sumsq a <> 0 -> calculateVectorDistance (map Fin a) (map Fin a) = Fin 0.
Proof.
  intro Ha. destruct (distance_nonzero a a eq_refl Ha Ha) as [-> _].
  f_equal. rewrite dot_self, sqrt_sqrt by apply sumsq_nonneg.
  field. exact Ha.
Qed.

(** ** Random draws *)

Lemma draw_index_lt (d : Draw) (n : nat) :
  (0 < n)%nat -> (Z.to_nat (Zfloor (d * INR n)) < n)%nat.
Proof.
  intro Hn. destruct d as [r [H0 H1]]. simpl.
  assert (Hpos : 0 < INR n) by (apply lt_0_INR; exact Hn).
  pose proof (Zfloor_bound (r * INR n)) as [Hlo Hhi].
  assert (Hge : (0 <= Zfloor (r * INR n))%Z) by (apply Zfloor_lub; simpl; nra).
  assert (Hlt : (Zfloor (r * INR n) < Z.of_nat n)%Z).
  { apply lt_IZR. rewrite <- INR_IZR_INZ. nra. }
  lia.
Qed.

Lemma yields_randomIndex (rnd : nat -> Draw) (n : nat) w (Q : nat -> World -> Prop) :
  (forall i, ((0 < n)%nat -> (i < n)%nat) ->
             i = Z.to_nat (Zfloor (rnd (randoms w) * INR n)) ->
             Q i {| randoms := S (randoms w); clocks := clocks w |}) ->
  yields (randomIndex rnd n) w Q.
Proof.
  intro H. unfold randomIndex. apply yields_bind, yields_random, yields_ret.
  apply H; [| reflexivity]. apply draw_index_lt.
Qed.

(** The three kinds of context shift split the unit interval in thirds. *)
Lemma shift_kind_thirds (d : Draw) :
  let kind := nth (Z.to_nat (Zfloor (d * INR (List.length shiftTypes)))) shiftTypes task_change in
  (kind = symbol_redefinition <-> d < 1 / 3) /\
  (kind = new_agent <-> 1 / 3 <= d < 2 / 3) /\
  (kind = task_change <-> 2 / 3 <= d).
Proof.
  destruct d as [r [H0 H1]]. simpl draw_val.
  change (INR (List.length shiftTypes)) with (INR 3). simpl INR.
  replace (1 + 1 + 1) with 3 by lra.
  destruct (Rlt_dec r (1 / 3)) as [A | A].
  { rewrite (Zfloor_eq 0 (r * 3)) by (simpl; lra). simpl.
    repeat split; intros; try discriminate; try lra. }
  destruct (Rlt_dec r (2 / 3)) as [B | B].
  { rewrite (Zfloor_eq 1 (r * 3)) by (simpl; lra). simpl.
    repeat split; intros; try discriminate; try lra. }
  rewrite (Zfloor_eq 2 (r * 3)) by (simpl; lra). simpl.
  repeat split; intros; try discriminate; try lra.
Qed.

Lemma noise_bound (d : Draw) (width : R) :
  0 <= width -> - (width / 2) <= (d - 0.5) * width <= width / 2.
Proof. destruct d as [r [H0 H1]]. simpl. intro Hw. nra. Qed.

(** [jitter] adds to each component the noise made from a draw of its own. *)
Lemma jitter_run (rnd : nat -> Draw) (width : R) (v : list num) :
  forall w,
    jitter rnd width v w
    = Some (mapi_from (fun x i => Num.add x (Fin ((rnd i - 0.5) * width))) (randoms w) v,
            {| randoms := randoms w + List.length v; clocks := clocks w |}).
Proof.
  unfold jitter. induction v as [| x v IH]; intro w.
  - simpl. unfold ret. destruct w. simpl. now rewrite Nat.add_0_r.
  - simpl. unfold bind at 1. unfold bind at 1. unfold random at 1. unfold ret at 1.
    unfold bind. rewrite IH. simpl. unfold ret.
    repeat f_equal. lia.
Qed.

Lemma mapi_from_length {A B : Type} (f : A -> nat -> B) (l : list A) :
  forall i, List.length (mapi_from f i l) = List.length l.
Proof. induction l as [| x l IH]; intro i; simpl; auto. Qed.

Lemma mapi_from_nth {A B : Type} (f : A -> nat -> B) (l : list A) :
  forall i k x, nth_error l k = Some x ->
                nth_error (mapi_from f i l) k = Some (f x (i + k)%nat).
Proof.
  induction l as [| y l IH]; intros i [|k] x H; simpl in *; try discriminate.
  - inversion H. now rewrite Nat.add_0_r.
  - rewrite (IH (S i) k x H). f_equal. f_equal. lia.
Qed.

Lemma mapi_from_Forall {A B : Type} (f : A -> nat -> B) (P : A -> Prop) (Q : B -> Prop)
  (l : list A) :
  (forall x i, P x -> Q (f x i)) ->
  forall i, Forall P l -> Forall Q (mapi_from f i l).
Proof.
  intros Hf i H. revert i. induction H; intro i; simpl; constructor; auto.
Qed.

Lemma jitter_ok (rnd : nat -> Draw) width v w (Q : list num -> World -> Prop) :
  (forall v', (vector_ok v -> vector_ok v') ->
              Q v' {| randoms := randoms w + List.length v; clocks := clocks w |}) ->
  yields (jitter rnd width v) w Q.
Proof.
  intro H. eexists _, _. split; [apply jitter_run |].
  apply H. intros [L F]. split.
  - now rewrite mapi_from_length.
  - eapply mapi_from_Forall; [| exact F].
    intros [r|] i Hx; simpl; auto.
Qed.

Lemma randomVector_run (rnd : nat -> Draw) w :
  randomVector rnd w
  = Some ([Fin (rnd (randoms w) * 2 - 1);
           Fin (rnd (S (randoms w)) * 2 - 1);
           Fin (rnd (S (S (randoms w))) * 2 - 1)],
          {| randoms := S (S (S (randoms w))); clocks := clocks w |}).
Proof. reflexivity. Qed.

Lemma randomVector_ok (rnd : nat -> Draw) w (Q : list num -> World -> Prop) :
  (forall v, vector_ok v ->
             v = [Fin (rnd (randoms w) * 2 - 1);
                  Fin (rnd (S (randoms w)) * 2 - 1);
                  Fin (rnd (S (S (randoms w))) * 2 - 1)] ->
             Q v {| randoms := S (S (S (randoms w))); clocks := clocks w |}) ->
  yields (randomVector rnd) w Q.
Proof.
  intro H. eexists _, _. split; [apply randomVector_run |].
  apply H; [| reflexivity]. split; [reflexivity |].
  repeat constructor.
Qed.

(** ** The data-model invariant under the elementary updates *)

(** Bring the range of the draw in the goal into the context. *)
Ltac draw_range_tac :=
  match goal with
  | |- context [draw_val ?d] => pose proof (draw_range d)
  end.

Lemma pointwise_map {A B : Type} (g : A -> B) (l l' : list A) :
  List.length l' = List.length l ->
  (forall i x y, nth_error l i = Some x -> nth_error l' i = Some y -> g y = g x) ->
  map g l' = map g l.
Proof.
  revert l'. induction l as [| x l IH]; intros [| y l'] Hlen H; simpl in *;
    try discriminate; [reflexivity |].
  f_equal.
  - apply (H 0%nat x y); reflexivity.
  - apply IH; [lia |]. intros i. apply (H (S i)).
Qed.

Lemma pointwise_Forall {A : Type} (P : A -> Prop) (l l' : list A) :
  List.length l' = List.length l ->
  (forall i x y, nth_error l i = Some x -> nth_error l' i = Some y -> P y) ->
  Forall P l'.
Proof.
  revert l'. induction l as [| x l IH]; intros [| y l'] Hlen H; simpl in *;
    try discriminate; constructor.
  - apply (H 0%nat x y); reflexivity.
  - apply IH; [lia |]. intros i. apply (H (S i)).
Qed.

Lemma nth_error_same_length {A B : Type} (l : list A) (l' : list B) i y :
  List.length l' = List.length l -> nth_error l' i = Some y ->
  exists x, nth_error l i = Some x.
Proof.
  intros Hlen Hy.
  assert (Hi : (i < List.length l)%nat).
  { rewrite <- Hlen. apply nth_error_Some. congruence. }
  destruct (nth_error l i) eqn:E; [eauto |].
  apply nth_error_None in E. lia.
Qed.

Lemma agents_ok_nth (l : list Agent) i :
  agents_ok l -> (i < 4)%nat -> exists a, nth_error l i = Some a /\ agent_ok i a.
Proof.
  intros [Hlen Hall] Hi.
  destruct (nth_error l i) as [a|] eqn:E.
  - exists a. auto.
  - apply nth_error_None in E. lia.
Qed.

Lemma agents_ok_pointwise (l l' : list Agent) :
  agents_ok l -> List.length l' = List.length l ->
  (forall i a a', nth_error l i = Some a -> nth_error l' i = Some a' ->
                  agent_ok i a -> agent_ok i a') ->
  agents_ok l'.
Proof.
  intros [Hlen Hall] Hlen' H. split; [congruence |].
  intros i a' Ha'.
  destruct (nth_error_same_length l l' i a' Hlen' Ha') as (a & Ha).
  eapply H; eauto.
Qed.

Lemma get_mapping_defined i (a : Agent) (symbol : string) :
  agent_ok i a -> In symbol symbols ->
  exists m, get_mapping a symbol = Some m /\ mapping_ok m.
Proof.
  intros Hok Hin. unfold get_mapping.
  destruct (dict_get String.eqb (symbolMappings a) symbol) as [m|] eqn:E.
  - exists m. split; [reflexivity |].
    eapply (dict_get_Forall String.eqb mapping_ok); [apply (ok_mappings i a Hok) | exact E].
  - exfalso. revert E. apply (dict_get_key String.eqb String.eqb_eq).
    rewrite (ok_symbols i a Hok). exact Hin.
Qed.

Lemma get_trust_defined i (a : Agent) (j : nat) :
  agent_ok i a -> (j < 4)%nat -> j <> i ->
  exists t, get_trust a j = Some t /\ Num.between 0.5 1 t.
Proof.
  intros Hok Hj Hne.
  destruct (get_trust a j) as [t|] eqn:E.
  - exists t. split; [reflexivity |].
    eapply (dict_get_Forall Nat.eqb (Num.between 0.5 1)); [apply (ok_trust i a Hok) | exact E].
  - exfalso. apply (ok_peers i a Hok j Hj Hne E).
Qed.

Lemma get_trust_between i (a : Agent) (j : nat) (t : num) :
  agent_ok i a -> get_trust a j = Some t -> Num.between 0.5 1 t.
Proof.
  intros Hok E.
  eapply (dict_get_Forall Nat.eqb (Num.between 0.5 1)); [apply (ok_trust i a Hok) | exact E].
Qed.

Lemma with_mapping_ok i (a : Agent) (symbol : string) (m : SymbolMapping) :
  agent_ok i a -> In symbol symbols -> mapping_ok m ->
  agent_ok i (with_mapping a symbol m).
Proof.
  intros Hok Hin Hm.
  destruct Hok as [Hid Hsym Hmap Hpeers Htrust Hmem Had Hcs Hfr].
  constructor; simpl; auto.
  - rewrite (dict_set_keys String.eqb); [assumption |].
    apply (dict_get_key String.eqb String.eqb_eq). now rewrite Hsym.
  - now apply dict_set_Forall.
Qed.

Lemma with_mappings_ok i (a : Agent) (ms : list (string * SymbolMapping)) :
  agent_ok i a -> map fst ms = symbols -> Forall (fun e => mapping_ok (snd e)) ms ->
  agent_ok i (with_mappings a ms).
Proof.
  intros Hok Hk Hm.
  destruct Hok as [Hid Hsym Hmap Hpeers Htrust Hmem Had Hcs Hfr].
  constructor; simpl; auto.
Qed.

Lemma with_trust_ok i (a : Agent) (j : nat) (t : num) :
  agent_ok i a -> Num.between 0.5 1 t -> agent_ok i (with_trust a j t).
Proof.
  intros Hok Ht.
  destruct Hok as [Hid Hsym Hmap Hpeers Htrust Hmem Had Hcs Hfr].
  constructor; simpl; auto.
  - intros k Hk Hne. unfold get_trust. simpl.
    destruct (Nat.eq_dec j k) as [-> | Hjk].
    + rewrite (dict_get_set_same Nat.eqb Nat.eqb_eq). discriminate.
    + rewrite (dict_get_set_other Nat.eqb Nat.eqb_eq) by exact Hjk.
      now apply Hpeers.
  - now apply dict_set_Forall.
Qed.

Lemma remember_ok i (a : Agent) (entry : MemoryEntry) :
  agent_ok i a ->
  agent_ok i (remember entry a) /\
  memory (remember entry a) = slice_last 50 (memory a ++ [entry]) /\
  trustScores (remember entry a) = trustScores a.
Proof.
  intro Hok. pose proof (ok_memory i a Hok) as Hm.
  assert (E : memory (remember entry a) = slice_last 50 (memory a ++ [entry])).
  { unfold remember, slice_last. simpl. rewrite length_app. simpl.
    destruct (Nat.ltb_spec 50 (List.length (memory a) + 1)).
    - replace (List.length (memory a) + 1 - 50)%nat with 1%nat by lia.
      destruct (memory a ++ [entry])%list; reflexivity.
    - replace (List.length (memory a) + 1 - 50)%nat with 0%nat by lia. reflexivity. }
  split; [| split; [exact E | reflexivity]].
  destruct Hok as [Hid Hsym Hmap Hpeers Htrust Hmem Had Hcs Hfr].
  constructor; auto.
  rewrite E, slice_last_length. lia.
Qed.

Lemma touch_ok (st : Z) (m : SymbolMapping) : mapping_ok m -> mapping_ok (touch st m).
Proof. intros [Hv Hc]. split; assumption. Qed.

Lemma strengthen_ok (m : SymbolMapping) : mapping_ok m -> mapping_ok (strengthen m).
Proof.
  intros [Hv Hc]. split; [assumption |]. simpl.
  destruct (confidence m) as [c|]; simpl in *; [| contradiction].
  unfold Rmin. destruct (Rle_dec 1 (c + 0.05)); lra.
Qed.

Lemma pull_nth (speed : num) (sv rv : list num) (k : nat) (x : num) :
  nth_error rv k = Some x ->
  nth_error (pull speed sv rv) k
  = Some (Num.add x (Num.mul (Num.mul (Num.sub (at_index sv k) x) (Fin 0.1)) speed)).
Proof. intro H. unfold pull. now rewrite (mapi_from_nth _ rv 0 k x H). Qed.

Lemma at_index_finite (v : list num) (k : nat) :
  Forall Num.is_fin v -> (k < List.length v)%nat -> Num.is_fin (at_index v k).
Proof.
  intros F Hk. unfold at_index.
  rewrite Forall_forall in F. apply F. now apply nth_In.
Qed.

Lemma pull_ok (speed : num) (sv rv : list num) :
  Num.is_fin speed -> vector_ok sv -> vector_ok rv -> vector_ok (pull speed sv rv).
Proof.
  intros Hs [Ls Fs] [Lr Fr]. split.
  - unfold pull. now rewrite mapi_from_length.
  - apply pointwise_Forall with (l := rv).
    + unfold pull. now rewrite mapi_from_length.
    + intros k x y Hx Hy. rewrite (pull_nth speed sv rv k x Hx) in Hy.
      inversion Hy; subst y.
      assert (Hk : (k < List.length sv)%nat).
      { rewrite Ls, <- Lr. apply nth_error_Some. congruence. }
      pose proof (at_index_finite sv k Fs Hk) as Hsk.
      assert (Hxf : Num.is_fin x).
      { rewrite Forall_forall in Fr. apply Fr. eapply nth_error_In; eauto. }
      destruct (at_index sv k), x, speed; simpl in *; auto.
Qed.

(** ** Initialisation establishes the invariant *)

Lemma yields_foldM_indexed {A B : Type} (f : B -> A -> M B) (l : list A) :
  forall (Inv : nat -> B -> World -> Prop) acc w,
    Inv 0%nat acc w ->
    (forall i b x w, nth_error l i = Some x -> Inv i b w -> yields (f b x) w (Inv (S i))) ->
    yields (foldM f l acc) w (Inv (List.length l)).
Proof.
  induction l as [| x l IH]; intros Inv acc w H0 Hf.
  - apply yields_ret, H0.
  - simpl. apply yields_bind.
    eapply yields_weaken; [apply (Hf 0%nat acc x w eq_refl H0) |].
    intros b w1 Hb. apply (IH (fun i => Inv (S i))); [exact Hb |].
    intros i b' x' w' Hx'. apply (Hf (S i)). exact Hx'.
Qed.

Lemma firstn_snoc {A : Type} (l : list A) i x :
  nth_error l i = Some x -> firstn (S i) l = (firstn i l ++ [x])%list.
Proof.
  revert i. induction l as [| y l IH]; intros [|i] H; simpl in *; try discriminate.
  - now inversion H.
  - f_equal. apply IH, H.
Qed.

Lemma NoDup_firstn_fresh {A : Type} (l : list A) i x :
  NoDup l -> nth_error l i = Some x -> ~ In x (firstn i l).
Proof.
  intro Hnd. revert i. induction Hnd as [| y l Hy Hnd IH]; intros [|i] H; simpl in *;
    try discriminate; [tauto |].
  intros [-> | Hin].
  - apply Hy. eapply nth_error_In; eauto.
  - apply (IH i H Hin).
Qed.

Lemma symbols_NoDup : NoDup symbols.
Proof.
  unfold symbols.
  repeat (constructor; [simpl; intuition discriminate |]). constructor.
Qed.

Lemma newMapping_ok (rnd : nat -> Draw) w (Q : SymbolMapping -> World -> Prop) :
  (forall m w', mapping_ok m -> Q m w') -> yields (newMapping rnd) w Q.
Proof.
  intro H. unfold newMapping.
  apply yields_bind, randomVector_ok. intros v Hv _.
  apply yields_bind, yields_random, yields_ret, H.
  split; [exact Hv |]. simpl. draw_range_tac; lra.
Qed.

Lemma newMappings_ok (rnd : nat -> Draw) w (Q : list (string * SymbolMapping) -> World -> Prop) :
  (forall ms w', map fst ms = symbols ->
                 Forall (fun e => mapping_ok (snd e)) ms -> Q ms w') ->
  yields (newMappings rnd) w Q.
Proof.
  intro H. unfold newMappings.
  eapply yields_weaken.
  - apply (yields_foldM_indexed _ symbols
             (fun i (ms : list (string * SymbolMapping)) (_ : World) =>
                map fst ms = firstn i symbols /\
                Forall (fun e => mapping_ok (snd e)) ms)).
    + split; [reflexivity | constructor].
    + intros i ms x w1 Hx [Hk Hm]. apply yields_bind, newMapping_ok.
      intros m w2 Hmok. apply yields_ret.
      rewrite (dict_set_new_key String.eqb String.eqb_eq).
      * split.
        -- rewrite map_app, Hk. symmetry. exact (firstn_snoc symbols i x Hx).
        -- apply Forall_app. split; [exact Hm | constructor; [exact Hmok | constructor]].
      * rewrite Hk. apply NoDup_firstn_fresh; [apply symbols_NoDup | exact Hx].
  - intros ms w' [Hk Hm]. apply H; [| exact Hm].
    rewrite Hk. apply firstn_all.
Qed.

Lemma initialTrust_ok (i : nat) :
  (i < 4)%nat ->
  (forall j, (j < 4)%nat -> j <> i -> dict_get Nat.eqb (initialTrust i) j <> None) /\
  Forall (fun e => snd e = Fin 0.5) (initialTrust i).
Proof.
  intro Hi.
  destruct i as [| [| [| [| i]]]]; try lia; (split; [| repeat constructor]);
    intros [| [| [| [| j]]]] Hj Hne; try lia; try congruence; discriminate.
Qed.

Lemma freshAgent_ok (rnd : nat -> Draw) (i : nat) (nm : string) w (Q : Agent -> World -> Prop) :
  (i < 4)%nat ->
  (forall a w', agent_ok i a ->
                Forall (fun e => snd e = Fin 0.5) (trustScores a) ->
                memory a = [] -> name a = nm -> Q a w') ->
  yields (freshAgent rnd i nm) w Q.
Proof.
  intros Hi H. unfold freshAgent.
  apply yields_bind, newMappings_ok. intros ms w1 Hk Hm.
  apply yields_bind, yields_random, yields_bind, yields_random,
    yields_bind, yields_random, yields_ret.
  destruct (initialTrust_ok i Hi) as [Hp Ht].
  apply H; simpl; auto.
  constructor; simpl; auto.
  - eapply Forall_impl; [| exact Ht]. intros e ->. simpl. lra.
  - lia.
  - draw_range_tac; lra.
  - draw_range_tac; lra.
  - draw_range_tac; lra.
Qed.

Lemma seq_nth_error (n i start : nat) x :
  nth_error (seq start n) i = Some x -> x = (start + i)%nat /\ (i < n)%nat.
Proof.
  intro H. assert (Hi : (i < n)%nat).
  { rewrite <- (length_seq n start). apply nth_error_Some. congruence. }
  split; [| exact Hi].
  rewrite nth_error_nth' with (d := 0%nat) in H by (rewrite length_seq; exact Hi).
  rewrite seq_nth in H by exact Hi. congruence.
Qed.

Lemma initAgents_ok (rnd : nat -> Draw) w (Q : list Agent -> World -> Prop) :
  (forall l w', agents_ok l -> trust_initial l -> Q l w') ->
  yields (initAgents rnd) w Q.
Proof.
  intro H. unfold initAgents.
  eapply yields_weaken.
  - apply (yields_mapM _ (seq 0 4) (fun _ _ => True)
             (fun i _ a => agent_ok i a /\ Forall (fun e => snd e = Fin 0.5) (trustScores a)));
      [exact I |].
    intros i x w1 Hx _. apply seq_nth_error in Hx. destruct Hx as [-> Hi]. simpl.
    apply freshAgent_ok; [exact Hi |]. intros a w' Hok Ht _ _. auto.
  - intros l w' (Hlen & Hnth & _). simpl in Hlen. apply H.
    + split; [exact Hlen |]. intros i a Ha.
      destruct (nth_error_same_length (seq 0 4) l i a Hlen Ha) as (x & Hx).
      apply (Hnth i x a Hx Ha).
    + intros a Hin. apply In_nth_error in Hin. destruct Hin as (i & Ha).
      destruct (nth_error_same_length (seq 0 4) l i a Hlen Ha) as (x & Hx).
      apply (Hnth i x a Hx Ha).
Qed.

Lemma mount_ok (rnd : nat -> Draw) w (Q : State -> World -> Prop) :
  (forall s w', state_ok s -> trust_initial (agents s) -> step s = 0%Z ->
                communications s = [] -> driftHistory s = [] ->
                alignmentHistory s = [] -> contextShifts s = [] -> Q s w') ->
  yields (mount rnd) w Q.
Proof.
  intro H. unfold mount. apply yields_bind, initAgents_ok.
  intros l w' Hok Ht. apply yields_ret. apply H; simpl; auto.
  constructor; simpl; auto; lia.
Qed.

Lemma reset_ok (rnd : nat -> Draw) (s : State) w (Q : State -> World -> Prop) :
  state_ok s ->
  (forall s' w', state_ok s' -> trust_initial (agents s') -> step s' = 0%Z ->
                 map id (agents s') = map id (agents s) ->
                 map name (agents s') = map name (agents s) -> Q s' w') ->
  yields (reset rnd s) w Q.
Proof.
  intros Hs H. unfold reset. apply yields_bind.
  destruct Hs as [Hag _ _ _].
  eapply yields_weaken.
  - apply (yields_mapM _ (agents s) (fun _ _ => True)
             (fun i a a' => agent_ok i a' /\ Forall (fun e => snd e = Fin 0.5) (trustScores a')
                            /\ id a' = id a /\ name a' = name a));
      [exact I |].
    intros i a w1 Ha _. destruct Hag as [Hlen Hall].
    pose proof (Hall i a Ha) as Hok.
    assert (Hi : (i < 4)%nat) by (rewrite <- Hlen; apply nth_error_Some; congruence).
    rewrite (ok_id i a Hok).
    apply freshAgent_ok; [exact Hi |]. intros a' w' Hok' Ht _ Hn.
    rewrite (ok_id i a' Hok'). auto.
  - intros l w' (Hlen & Hnth & _). apply yields_ret. apply H; simpl; auto.
    + constructor; simpl; auto; try lia.
      apply (agents_ok_pointwise (agents s) l Hag Hlen).
      intros i a a' Ha Ha' _. apply (Hnth i a a' Ha Ha').
    + intros a' Hin. apply In_nth_error in Hin. destruct Hin as (i & Ha').
      destruct (nth_error_same_length (agents s) l i a' Hlen Ha') as (a & Ha).
      apply (Hnth i a a' Ha Ha').
    + apply pointwise_map; [exact Hlen |]. intros i a a' Ha Ha'.
      apply (Hnth i a a' Ha Ha').
    + apply pointwise_map; [exact Hlen |]. intros i a a' Ha Ha'.
      apply (Hnth i a a' Ha Ha').
Qed.

(** ** Forgetting preserves the invariant and never writes trust *)

Lemma forget_ok (rnd : nat -> Draw) (st : Z) i (a : Agent) (m : SymbolMapping) w
  (Q : SymbolMapping -> World -> Prop) :
  agent_ok i a -> mapping_ok m ->
  (forall m' w', mapping_ok m' -> Q m' w') ->
  yields (forget rnd st a m) w Q.
Proof.
  intros Hok [Hv Hc] H. unfold forget.
  destruct (pastThreshold st m).
  - apply yields_bind, jitter_ok. intros v' Hv'. apply yields_ret, H.
    split; simpl; [auto |].
    pose proof (ok_forgettingRate i a Hok) as Hf.
    destruct (confidence m) as [c|], (forgettingRate a) as [f|]; simpl in *; try tauto.
    nra.
  - apply yields_ret, H. split; assumption.
Qed.

Lemma forgetAgent_ok (rnd : nat -> Draw) (st : Z) i (a : Agent) w (Q : Agent -> World -> Prop) :
  agent_ok i a ->
  (forall a' w', agent_ok i a' -> trustScores a' = trustScores a ->
                 memory a' = memory a -> Q a' w') ->
  yields (forgetAgent rnd st a) w Q.
Proof.
  intros Hok H. unfold forgetAgent. apply yields_bind.
  eapply yields_weaken.
  - apply (yields_mapM _ (symbolMappings a) (fun _ _ => True)
             (fun _ e e' => fst e' = fst e /\ mapping_ok (snd e'))); [exact I |].
    intros k e w1 He _. apply yields_bind.
    apply (forget_ok rnd st i a (snd e) w1); [exact Hok | |].
    + pose proof (ok_mappings i a Hok) as Hm. rewrite Forall_forall in Hm.
      apply Hm. eapply nth_error_In; eauto.
    + intros m' w' Hm'. apply yields_ret. auto.
  - intros ms w' (Hlen & Hnth & _). apply yields_ret. apply H; try reflexivity.
    apply with_mappings_ok; [exact Hok | |].
    + rewrite <- (ok_symbols i a Hok). apply pointwise_map; [exact Hlen |].
      intros k e e' He He'. apply (Hnth k e e' He He').
    + apply pointwise_Forall with (l := symbolMappings a); [exact Hlen |].
      intros k e e' He He'. apply (Hnth k e e' He He').
Qed.

Lemma applyForgetting_ok (rnd : nat -> Draw) (st : Z) (l : list Agent) w
  (Q : list Agent -> World -> Prop) :
  agents_ok l ->
  (forall l' w', agents_ok l' ->
                 (forall i a a', nth_error l i = Some a -> nth_error l' i = Some a' ->
                                 trustScores a' = trustScores a /\ memory a' = memory a) ->
                 Q l' w') ->
  yields (applyForgetting rnd st l) w Q.
Proof.
  intros Hok H. unfold applyForgetting.
  eapply yields_weaken.
  - apply (yields_mapM _ l (fun _ _ => True)
             (fun i a a' => agent_ok i a' /\ trustScores a' = trustScores a
                            /\ memory a' = memory a)); [exact I |].
    intros i a w1 Ha _. destruct Hok as [Hlen Hall].
    apply (forgetAgent_ok rnd st i a w1 _ (Hall i a Ha)).
    intros a' w' Hok' Ht Hm. auto.
  - intros l' w' (Hlen & Hnth & _). apply H.
    + apply (agents_ok_pointwise l l' Hok Hlen).
      intros i a a' Ha Ha' _. apply (Hnth i a a' Ha Ha').
    + intros i a a' Ha Ha'. apply (Hnth i a a' Ha Ha').
Qed.

(** ** One symbol of an exchange *)

Lemma nth_error_two_sets {A : Type} (l : list A) (i j k : nat) (a b : A) :
  i <> j -> (i < List.length l)%nat -> (j < List.length l)%nat ->
  nth_error (list_set (list_set l i a) j b) k
  = if Nat.eqb k j then Some b else if Nat.eqb k i then Some a else nth_error l k.
Proof.
  intros Hne Hi Hj.
  destruct (Nat.eqb_spec k j) as [-> | Hkj].
  - apply list_set_same. now rewrite list_set_length.
  - rewrite list_set_other by congruence.
    destruct (Nat.eqb_spec k i) as [-> | Hki].
    + now apply list_set_same.
    + apply list_set_other. congruence.
Qed.

(** A successful exchange, for one symbol, as a function of what it reads. *)
Lemma adaptSymbol_success_run (rnd : nat -> Draw) (st : Z) (sender receiver : nat)
  (l : list Agent) (symbol : string) (s r : Agent) (sm rm : SymbolMapping) w :
  nth_error l sender = Some s -> nth_error l receiver = Some r ->
  get_mapping s symbol = Some sm -> get_mapping r symbol = Some rm ->
  adaptSymbol rnd st sender receiver true l symbol w
  = Some (list_set
            (list_set l sender (with_mapping s symbol (strengthen (touch st sm))))
            receiver
            (with_mapping
               (with_trust r sender
                  (Num.min (Fin 1) (Num.add (as_num (get_trust r sender)) (Fin 0.02))))
               symbol
               (with_vector (strengthen (touch st rm))
                  (pull (convergenceSpeed r) (vector sm) (vector rm)))),
          w).
Proof.
  intros Hs Hr Hsm Hrm. unfold adaptSymbol, bind, defined.
  rewrite Hs, Hr. unfold ret at 1 2. rewrite Hsm, Hrm. reflexivity.
Qed.

Lemma repair_run (rnd : nat -> Draw) (sender : nat) (sm : SymbolMapping) (r : Agent)
  (rm : SymbolMapping) w :
  exists n,
    repair rnd sender sm r rm w
    = Some (repaired rnd (randoms w) sender sm r rm,
            {| randoms := S (randoms w) + n; clocks := clocks w |}).
Proof.
  unfold repair, repaired, bind. unfold random at 1.
  destruct (Num.ltb (Fin (rnd (randoms w)))
              (Num.mul (adaptability r) (as_num (get_trust r sender))));
    rewrite jitter_run; simpl; eexists; reflexivity.
Qed.

Lemma adaptSymbol_failure_run (rnd : nat -> Draw) (st : Z) (sender receiver : nat)
  (l : list Agent) (symbol : string) (s r : Agent) (sm rm : SymbolMapping) w :
  nth_error l sender = Some s -> nth_error l receiver = Some r ->
  get_mapping s symbol = Some sm -> get_mapping r symbol = Some rm ->
  exists n,
    adaptSymbol rnd st sender receiver false l symbol w
    = Some (list_set
              (list_set l sender (with_mapping s symbol (touch st sm)))
              receiver
              (with_mapping r symbol
                 (repaired rnd (randoms w) sender (touch st sm) r (touch st rm))),
            {| randoms := S (randoms w) + n; clocks := clocks w |}).
Proof.
  intros Hs Hr Hsm Hrm.
  destruct (repair_run rnd sender (touch st sm) r (touch st rm) w) as (n & Hn).
  exists n. unfold adaptSymbol, bind, defined.
  rewrite Hs, Hr. unfold ret at 1 2. rewrite Hsm, Hrm. unfold ret at 1 2.
  rewrite Hn. reflexivity.
Qed.

Lemma repaired_ok (rnd : nat -> Draw) (k sender : nat) (sm : SymbolMapping) (r : Agent)
  (rm : SymbolMapping) :
  mapping_ok sm -> mapping_ok rm -> mapping_ok (repaired rnd k sender sm r rm).
Proof.
  intros [[Ls Fs] Hcs] [[Lr Fr] Hcr]. unfold repaired.
  destruct (Num.ltb (Fin (rnd k)) (Num.mul (adaptability r) (as_num (get_trust r sender))));
    (split; [split |]); simpl;
    try (now rewrite mapi_from_length); try assumption; try lra;
    (eapply mapi_from_Forall; [| eassumption]); intros [x|] i Hx; simpl; auto.
Qed.

Lemma trust_step_ok (t : num) :
  Num.between 0.5 1 t ->
  Num.between 0.5 1 (Num.min (Fin 1) (Num.add t (Fin 0.02))) /\
  Num.le t (Num.min (Fin 1) (Num.add t (Fin 0.02))).
Proof.
  destruct t as [x|]; simpl; [| tauto]. intro H.
  unfold Rmin. destruct (Rle_dec 1 (x + 0.02)); lra.
Qed.

Lemma le_refl_between (lo hi : R) (t : num) : Num.between lo hi t -> Num.le t t.
Proof. destruct t; simpl; [lra | tauto]. Qed.

Lemma le_trans (x y z : num) : Num.le x y -> Num.le y z -> Num.le x z.
Proof. destruct x, y, z; simpl; try tauto. lra. Qed.

Lemma trust_nondecreasing_refl (l : list Agent) :
  agents_ok l -> trust_nondecreasing l l.
Proof.
  intros [_ Hall] i a a' j t Ha Ha' Ht. rewrite Ha in Ha'. inversion Ha'; subst a'.
  exists t. split; [exact Ht |].
  eapply le_refl_between, get_trust_between; eauto.
Qed.

Lemma trust_untouched_nondecreasing (l l' : list Agent) :
  agents_ok l -> trust_untouched l l' -> trust_nondecreasing l l'.
Proof.
  intros [_ Hall] Hu i a a' j t Ha Ha' Ht.
  exists t. split.
  - unfold get_trust in *. now rewrite (Hu i a a' Ha Ha').
  - eapply le_refl_between, get_trust_between; eauto.
Qed.

Lemma trust_nondecreasing_trans (l1 l2 l3 : list Agent) :
  List.length l2 = List.length l1 ->
  trust_nondecreasing l1 l2 -> trust_nondecreasing l2 l3 -> trust_nondecreasing l1 l3.
Proof.
  intros Hlen H12 H23 i a a3 j t Ha Ha3 Ht.
  assert (Hi : (i < List.length l2)%nat)
    by (rewrite Hlen; apply nth_error_Some; congruence).
  destruct (nth_error l2 i) as [a2|] eqn:Ha2; [| apply nth_error_None in Ha2; lia].
  destruct (H12 i a a2 j t Ha Ha2 Ht) as (t2 & Ht2 & Hle2).
  destruct (H23 i a2 a3 j t2 Ha2 Ha3 Ht2) as (t3 & Ht3 & Hle3).
  exists t3. split; [exact Ht3 | eapply le_trans; eauto].
Qed.

(** The second loop body keeps the invariant, leaves every memory alone and
    never lowers a trust; a failed exchange does not write trust at all. *)
Lemma adaptSymbol_ok (rnd : nat -> Draw) (st : Z) (sender receiver : nat) (success : bool)
  (l : list Agent) (symbol : string) w :
  agents_ok l -> sender <> receiver -> (sender < 4)%nat -> (receiver < 4)%nat ->
  In symbol symbols ->
  yields (adaptSymbol rnd st sender receiver success l symbol) w
    (fun l' _ =>
       agents_ok l' /\ trust_nondecreasing l l' /\
       (forall i a a', nth_error l i = Some a -> nth_error l' i = Some a' ->
                       memory a' = memory a) /\
       (success = false -> trust_untouched l l')).
Proof.
  intros Hok Hne Hs Hr Hin.
  destruct (agents_ok_nth l sender Hok Hs) as (s & Hsn & Hsok).
  destruct (agents_ok_nth l receiver Hok Hr) as (r & Hrn & Hrok).
  destruct (get_mapping_defined sender s symbol Hsok Hin) as (sm & Hsm & Hsmok).
  destruct (get_mapping_defined receiver r symbol Hrok Hin) as (rm & Hrm & Hrmok).
  destruct (get_trust_defined receiver r sender Hrok Hs Hne) as (t & Ht & Htb).
  pose proof (proj1 Hok) as Hlen.
  assert (Hsl : (sender < List.length l)%nat) by lia.
  assert (Hrl : (receiver < List.length l)%nat) by lia.
  destruct success.
  - eexists _, _. split; [apply (adaptSymbol_success_run rnd st _ _ l symbol s r sm rm w); eauto |].
    rewrite Ht. simpl as_num.
    destruct (trust_step_ok t Htb) as [Htb' Hle'].
    assert (Hfin : Num.is_fin (convergenceSpeed r)).
    { pose proof (ok_convergenceSpeed receiver r Hrok) as Hc.
      destruct (convergenceSpeed r); simpl in *; tauto. }
    assert (Hnew : forall i a', nth_error
                     (list_set (list_set l sender (with_mapping s symbol (strengthen (touch st sm))))
                        receiver
                        (with_mapping (with_trust r sender (Num.min (Fin 1) (Num.add t (Fin 0.02))))
                           symbol
                           (with_vector (strengthen (touch st rm))
                              (pull (convergenceSpeed r) (vector sm) (vector rm))))) i = Some a' ->
               (i = receiver /\ a' = with_mapping (with_trust r sender (Num.min (Fin 1) (Num.add t (Fin 0.02))))
                           symbol
                           (with_vector (strengthen (touch st rm))
                              (pull (convergenceSpeed r) (vector sm) (vector rm)))) \/
               (i = sender /\ a' = with_mapping s symbol (strengthen (touch st sm))) \/
               (i <> receiver /\ i <> sender /\ nth_error l i = Some a')).
    { intros i a'. rewrite nth_error_two_sets by assumption.
      destruct (Nat.eqb_spec i receiver); [intro E; inversion E; auto |].
      destruct (Nat.eqb_spec i sender); [intro E; inversion E; auto |]. auto. }
    split; [split |]; [| | split; [| split]].
    + now rewrite !list_set_length.
    + intros i a' Ha'. destruct (Hnew i a' Ha') as [[-> ->] | [[-> ->] | (_ & _ & Hi)]].
      * apply with_mapping_ok; [apply with_trust_ok; assumption | exact Hin |].
        destruct (strengthen_ok _ (touch_ok st rm Hrmok)) as [_ Hc].
        split; [| exact Hc]. simpl. apply pull_ok; [exact Hfin | apply Hsmok | apply Hrmok].
      * apply with_mapping_ok; [assumption | exact Hin |].
        apply strengthen_ok, touch_ok, Hsmok.
      * apply (proj2 Hok i a' Hi).
    + intros i a a' j tj Ha Ha' Hj.
      destruct (Hnew i a' Ha') as [[-> ->] | [[-> ->] | (_ & _ & Hi)]].
      * rewrite Hrn in Ha. inversion Ha; subst a. unfold get_trust. simpl.
        destruct (Nat.eq_dec sender j) as [<- | Hsj].
        -- rewrite (dict_get_set_same Nat.eqb Nat.eqb_eq).
           rewrite Ht in Hj. inversion Hj; subst tj. eauto.
        -- rewrite (dict_get_set_other Nat.eqb Nat.eqb_eq) by exact Hsj.
           exists tj. split; [exact Hj |].
           apply (le_refl_between 0.5 1), (get_trust_between receiver r j); assumption.
      * rewrite Hsn in Ha. inversion Ha; subst a.
        exists tj. split; [exact Hj |].
        apply (le_refl_between 0.5 1), (get_trust_between sender s j); assumption.
      * rewrite Hi in Ha. inversion Ha; subst a.
        exists tj. split; [exact Hj |].
        apply (le_refl_between 0.5 1), (get_trust_between i a' j);
          [apply (proj2 Hok i a' Hi) | exact Hj].
    + intros i a a' Ha Ha'.
      destruct (Hnew i a' Ha') as [[-> ->] | [[-> ->] | (_ & _ & Hi)]]; simpl; congruence.
    + discriminate.
  - destruct (adaptSymbol_failure_run rnd st _ _ l symbol s r sm rm w Hsn Hrn Hsm Hrm)
      as (n & Hrun).
    eexists _, _. split; [exact Hrun |].
    assert (Hnew : forall i a', nth_error
                     (list_set (list_set l sender (with_mapping s symbol (touch st sm)))
                        receiver
                        (with_mapping r symbol
                           (repaired rnd (randoms w) sender (touch st sm) r (touch st rm)))) i
                     = Some a' ->
               (i = receiver /\ a' = with_mapping r symbol
                           (repaired rnd (randoms w) sender (touch st sm) r (touch st rm))) \/
               (i = sender /\ a' = with_mapping s symbol (touch st sm)) \/
               (i <> receiver /\ i <> sender /\ nth_error l i = Some a')).
    { intros i a'. rewrite nth_error_two_sets by assumption.
      destruct (Nat.eqb_spec i receiver); [intro E; inversion E; auto |].
      destruct (Nat.eqb_spec i sender); [intro E; inversion E; auto |]. auto. }
    assert (Hunt : trust_untouched l
                     (list_set (list_set l sender (with_mapping s symbol (touch st sm)))
                        receiver
                        (with_mapping r symbol
                           (repaired rnd (randoms w) sender (touch st sm) r (touch st rm))))).
    { intros i a a' Ha Ha'.
      destruct (Hnew i a' Ha') as [[-> ->] | [[-> ->] | (_ & _ & Hi)]]; simpl; congruence. }
    split; [split |]; [| | split; [| split]].
    + now rewrite !list_set_length.
    + intros i a' Ha'. destruct (Hnew i a' Ha') as [[-> ->] | [[-> ->] | (_ & _ & Hi)]].
      * apply with_mapping_ok; [assumption | exact Hin |].
        apply repaired_ok; apply touch_ok; assumption.
      * apply with_mapping_ok; [assumption | exact Hin |].
        apply touch_ok, Hsmok.
      * apply (proj2 Hok i a' Hi).
    + apply trust_untouched_nondecreasing; assumption.
    + intros i a a' Ha Ha'.
      destruct (Hnew i a' Ha') as [[-> ->] | [[-> ->] | (_ & _ & Hi)]]; simpl; congruence.
    + intros _. exact Hunt.
Qed.

(** ** One exchange *)

Lemma randomSymbol_ok (rnd : nat -> Draw) w (Q : string -> World -> Prop) :
  (forall symbol, In symbol symbols ->
     symbol = nth (Z.to_nat (Zfloor (rnd (randoms w) * INR (List.length symbols))))
                  symbols "undefined"%string ->
     Q symbol {| randoms := S (randoms w); clocks := clocks w |}) ->
  yields (randomSymbol rnd) w Q.
Proof.
  intro H. unfold randomSymbol. apply yields_bind, yields_randomIndex.
  intros i Hi Ei. apply yields_ret. apply H.
  - apply nth_In. apply Hi. simpl. lia.
  - now rewrite Ei.
Qed.

Lemma drawSequence_ok (rnd : nat -> Draw) w (Q : list string -> World -> Prop) :
  (forall sequence w',
     List.length sequence = 1%nat \/ List.length sequence = 2%nat ->
     Forall (fun symbol => In symbol symbols) sequence ->
     clocks w' = clocks w -> Q sequence w') ->
  yields (drawSequence rnd) w Q.
Proof.
  intro H. unfold drawSequence. apply yields_bind, yields_random.
  eapply yields_weaken.
  - apply (yields_replicateM _ _ (fun _ w' => clocks w' = clocks w)
             (fun _ symbol => In symbol symbols)); [reflexivity |].
    intros i w1 _ Hc. apply randomSymbol_ok. intros symbol Hin _. auto.
  - intros sequence w' (Hlen & Hnth & Hc). apply H; [| | exact Hc].
    + rewrite Hlen. destruct (Rlt_dec _ _); auto.
    + apply Forall_forall. intros x Hx. apply In_nth_error in Hx.
      destruct Hx as (i & Hi). eapply Hnth; eauto.
Qed.

Lemma symbolDistance_defined (l : list Agent) (sender receiver : nat) (symbol : string) :
  agents_ok l -> (sender < 4)%nat -> (receiver < 4)%nat -> In symbol symbols ->
  exists d, symbolDistance l sender receiver symbol = Some d.
Proof.
  intros Hok Hs Hr Hin.
  destruct (agents_ok_nth l sender Hok Hs) as (s & Hsn & Hsok).
  destruct (agents_ok_nth l receiver Hok Hr) as (r & Hrn & Hrok).
  destruct (get_mapping_defined sender s symbol Hsok Hin) as (sm & Hsm & _).
  destruct (get_mapping_defined receiver r symbol Hrok Hin) as (rm & Hrm & _).
  unfold symbolDistance. rewrite Hsn, Hrn, Hsm, Hrm. eauto.
Qed.

Lemma totalDistance_defined (l : list Agent) (sender receiver : nat) (sequence : list string) :
  agents_ok l -> (sender < 4)%nat -> (receiver < 4)%nat ->
  Forall (fun symbol => In symbol symbols) sequence ->
  forall acc, exists total, totalDistance l sender receiver sequence acc = Some total.
Proof.
  intros Hok Hs Hr Hall. induction Hall as [| symbol rest Hin _ IH]; intro acc; simpl.
  - eauto.
  - destruct (symbolDistance_defined l sender receiver symbol Hok Hs Hr Hin) as (d & ->).
    apply IH.
Qed.

Lemma avgDistance_defined (l : list Agent) (sender receiver : nat) (sequence : list string) :
  agents_ok l -> (sender < 4)%nat -> (receiver < 4)%nat ->
  Forall (fun symbol => In symbol symbols) sequence ->
  exists avg, avgDistance l sender receiver sequence = Some avg.
Proof.
  intros Hok Hs Hr Hall. unfold avgDistance.
  destruct (totalDistance_defined l sender receiver sequence Hok Hs Hr Hall (Fin 0))
    as (total & ->).
  eauto.
Qed.

Lemma kept_newest_same {A : Type} (cap : nat) (l : list A) :
  (List.length l <= cap)%nat -> kept_newest cap l l.
Proof.
  intro H. exists []. split; [simpl; lia |].
  rewrite app_nil_r. symmetry. now apply slice_last_all.
Qed.

Lemma kept_newest_snoc {A : Type} (cap : nat) (l : list A) (x : A) :
  kept_newest (S cap) l (slice_last cap l ++ [x]).
Proof. exists [x]. split; [simpl; lia | apply slice_last_snoc]. Qed.

Lemma kept_newest_length {A : Type} (cap : nat) (l l' : list A) :
  kept_newest cap l l' -> (List.length l' <= cap)%nat.
Proof. intros (added & _ & ->). rewrite slice_last_length. lia. Qed.

(** The exchange of [simulateStep], from a well-formed population. *)
Lemma communicate_ok (rnd : nat -> Draw) (clk : nat -> Z) (s : State) (newAgents : list Agent)
  (sender receiver : nat) w :
  agents_ok newAgents -> sender <> receiver -> (sender < 4)%nat -> (receiver < 4)%nat ->
  yields (communicate rnd clk s newAgents sender receiver) w
    (fun s' _ =>
       agents_ok (agents s') /\
       trust_nondecreasing newAgents (agents s') /\
       memories_kept_newest newAgents (agents s') /\
       step s' = step s /\ driftHistory s' = driftHistory s /\
       alignmentHistory s' = alignmentHistory s /\
       contextShifts s' = contextShifts s /\
       exists sequence avg r t,
         (List.length sequence = 1%nat \/ List.length sequence = 2%nat) /\
         Forall (fun symbol => In symbol symbols) sequence /\
         avgDistance newAgents sender receiver sequence = Some avg /\
         nth_error (agents s') receiver = Some r /\
         communications s' =
           (slice_last 29 (communications s) ++
              [{| comm_id := t; comm_sender := sender; comm_receiver := receiver;
                  comm_sequence := sequence; comm_success := Num.ltb avg (Fin 0.5);
                  comm_step := step s; comm_distance := avg;
                  comm_trustBefore := get_trust r sender;
                  comm_sequenceLength := List.length sequence |}])%list).
Proof.
  intros Hok Hne Hs Hr. unfold communicate.
  apply yields_bind, drawSequence_ok. intros sequence w1 Hlen Hseq _.
  destruct (avgDistance_defined newAgents sender receiver sequence Hok Hs Hr Hseq)
    as (avg & Havg).
  apply yields_bind. eapply yields_defined; [exact Havg |].
  apply yields_bind, yields_now.
  apply yields_bind.
  eapply yields_weaken.
  - apply (yields_foldM _
             (fun l' _ =>
                agents_ok l' /\ trust_nondecreasing newAgents l' /\
                (forall i a a', nth_error newAgents i = Some a -> nth_error l' i = Some a' ->
                                memory a' = memory a))).
    + split; [exact Hok | split; [now apply trust_nondecreasing_refl | ]].
      intros i a a' Ha Ha'. congruence.
    + intros l' symbol w' Hin (Hok' & Htr & Hmem).
      rewrite Forall_forall in Hseq.
      eapply yields_weaken;
        [apply (adaptSymbol_ok rnd (step s) sender receiver _ l' symbol w' Hok' Hne Hs Hr
                  (Hseq symbol Hin)) |].
      intros l2 _ (Hok2 & Htr2 & Hmem2 & _).
      split; [exact Hok2 | split].
      * eapply trust_nondecreasing_trans; [| exact Htr | exact Htr2].
        rewrite (proj1 Hok'), (proj1 Hok). reflexivity.
      * intros i a a2 Ha Ha2.
        destruct (nth_error_same_length l' l2 i a2) as (a' & Ha');
          [rewrite (proj1 Hok'), (proj1 Hok2); reflexivity | exact Ha2 |].
        rewrite (Hmem2 i a' a2 Ha' Ha2). apply (Hmem i a a' Ha Ha').
  - intros l' w' (Hok' & Htr & Hmem).
    set (sentEntry := {| mem_step := step s; mem_action := sent; mem_sequence := sequence;
                         mem_success := Num.ltb avg (Fin 0.5); mem_partner := receiver |}).
    set (receivedEntry := {| mem_step := step s; mem_action := received;
                             mem_sequence := sequence;
                             mem_success := Num.ltb avg (Fin 0.5); mem_partner := sender |}).
    destruct (agents_ok_nth l' receiver Hok' Hr) as (r0 & Hr0 & _).
    assert (Hrn : nth_error (list_update (list_update l' sender (remember sentEntry))
                                         receiver (remember receivedEntry)) receiver
                  = Some (remember receivedEntry r0)).
    { apply list_update_same. rewrite list_update_other by exact Hne. exact Hr0. }
    apply yields_bind. eapply yields_defined; [exact Hrn |].
    apply yields_ret. cbn [agents step driftHistory alignmentHistory contextShifts
                            communications].
    assert (Hnew : forall i a a',
               nth_error l' i = Some a ->
               nth_error (list_update (list_update l' sender (remember sentEntry))
                                      receiver (remember receivedEntry)) i = Some a' ->
               a' = remember receivedEntry a \/ a' = remember sentEntry a \/ a' = a).
    { intros i a a' Ha.
      destruct (Nat.eq_dec receiver i) as [<- | Hri].
      - rewrite (list_update_same _ receiver _ a).
        + intro E. inversion E. auto.
        + rewrite list_update_other by exact Hne. exact Ha.
      - rewrite list_update_other by exact Hri.
        destruct (Nat.eq_dec sender i) as [<- | Hsi].
        + rewrite (list_update_same _ sender _ a Ha). intro E. inversion E. auto.
        + rewrite list_update_other by exact Hsi. rewrite Ha. intro E. inversion E. auto. }
    assert (Hlen' : List.length (list_update (list_update l' sender (remember sentEntry))
                                             receiver (remember receivedEntry))
                    = List.length l') by now rewrite !list_update_length.
    split; [| split; [| split; [| repeat split; eauto 10]]].
    + apply (agents_ok_pointwise l' _ Hok' Hlen').
      intros i a a' Ha Ha' Haok.
      destruct (Hnew i a a' Ha Ha') as [-> | [-> | ->]];
        [apply remember_ok | apply remember_ok |]; exact Haok.
    + eapply trust_nondecreasing_trans; [| exact Htr |].
      * rewrite (proj1 Hok'), (proj1 Hok). reflexivity.
      * apply trust_untouched_nondecreasing; [exact Hok' |].
        intros i a a' Ha Ha'.
        destruct (Hnew i a a' Ha Ha') as [-> | [-> | ->]]; reflexivity.
    + intros i a0 a' Ha0 Ha'.
      destruct (nth_error_same_length l' _ i a' Hlen' Ha') as (a & Ha).
      pose proof (Hmem i a0 a Ha0 Ha) as Em.
      pose proof (proj2 Hok' i a Ha) as Haok.
      destruct (Hnew i a a' Ha Ha') as [-> | [-> | ->]].
      * exists [receivedEntry]. split; [simpl; lia |].
        rewrite <- Em. apply (remember_ok i a receivedEntry Haok).
      * exists [sentEntry]. split; [simpl; lia |].
        rewrite <- Em. apply (remember_ok i a sentEntry Haok).
      * rewrite <- Em. apply kept_newest_same, (ok_memory i a Haok).
Qed.

(** ** Context shifts *)

Lemma symbol_of_draw_In (d : Draw) : In (symbol_of_draw d) symbols.
Proof. apply nth_In, draw_index_lt. simpl. lia. Qed.

Lemma redefine_ok (rnd : nat -> Draw) (target : string) i (a : Agent) w
  (Q : Agent -> World -> Prop) :
  agent_ok i a -> In target symbols ->
  (forall a', agent_ok i a' -> redefined rnd (randoms w) target a a' ->
              Q a' {| randoms := S (S (S (randoms w))); clocks := clocks w |}) ->
  yields (redefine rnd target a) w Q.
Proof.
  intros Hok Hin H. unfold redefine.
  apply yields_bind, randomVector_ok. intros v Hv Ev. apply yields_ret, H.
  - apply with_mapping_ok; [exact Hok | exact Hin |].
    split; [exact Hv |]. simpl. lra.
  - split; [| split; [| split; reflexivity]].
    + eexists. split.
      * unfold get_mapping. simpl. apply (dict_get_set_same String.eqb String.eqb_eq).
      * split; [reflexivity | exact Ev].
    + intros symbol Hne. unfold get_mapping. simpl.
      apply (dict_get_set_other String.eqb String.eqb_eq). congruence.
Qed.

(** The draws of [chooseShift]. *)
Lemma chooseShift_ok (rnd : nat -> Draw) w :
  yields (chooseShift rnd) w (shift_chosen rnd w).
Proof.
  unfold chooseShift.
  apply yields_bind, yields_randomIndex. intros i _ Ei.
  assert (Ek : nth i shiftTypes task_change = kind_of_draw (rnd (randoms w)))
    by (unfold kind_of_draw; now rewrite Ei).
  rewrite Ek.
  destruct (kind_of_draw (rnd (randoms w))) eqn:Ekind.
  - apply yields_bind, randomSymbol_ok. intros target Hin Et. simpl randoms in *.
    fold (symbol_of_draw (rnd (S (randoms w)))) in Et. subst target.
    apply yields_ret. constructor; simpl; try rewrite Ekind; try reflexivity.
    + intros _. split; reflexivity.
    + intro C. congruence.
  - apply yields_ret. constructor; simpl; try rewrite Ekind; try reflexivity.
    + discriminate.
    + intros _. split; reflexivity.
  - apply yields_ret. constructor; simpl; try rewrite Ekind; try reflexivity.
    + discriminate.
    + intros _. split; reflexivity.
Qed.

(** The target of a chosen redefinition is a vocabulary symbol. *)
Lemma shift_chosen_target (rnd : nat -> Draw) w shift w0 target :
  shift_chosen rnd w shift w0 -> snd shift = Some target ->
  kind_of_draw (rnd (randoms w)) = symbol_redefinition /\
  target = symbol_of_draw (rnd (S (randoms w))) /\ In target symbols.
Proof.
  intros [H1 H2 H3 H4] Ht.
  destruct (kind_of_draw (rnd (randoms w))) eqn:Ekind.
  - destruct (H3 eq_refl) as [E _]. rewrite E in Ht. inversion Ht.
    split; [reflexivity | split; [reflexivity | apply symbol_of_draw_In]].
  - destruct (H4 ltac:(discriminate)) as [E _]. congruence.
  - destruct (H4 ltac:(discriminate)) as [E _]. congruence.
Qed.

(** What the updaters of a context shift do, draw by draw. *)
Lemma applyShift_ok (rnd : nat -> Draw) (clk : nat -> Z) (st : Z)
  (shift : ShiftType * option string) (s : State) w :
  agents_ok (agents s) ->
  (forall target, snd shift = Some target -> In target symbols) ->
  yields (applyShift rnd clk st shift s) w (shift_committed rnd clk st shift s w).
Proof.
  intros Hok Htarget. unfold applyShift.
  destruct (snd shift) as [target |] eqn:Eshift.
  - pose proof (Htarget target eq_refl) as Hin.
    apply yields_bind.
    eapply yields_weaken.
    + apply (yields_mapM _ (agents s)
               (fun i w' => randoms w' = (randoms w + 3 * i)%nat /\ clocks w' = clocks w)
               (fun i a a' =>
                  agent_ok i a' /\ redefined rnd (randoms w + 3 * i) target a a')).
      * simpl. split; [lia | reflexivity].
      * intros j a w1 Ha [Hw1 Hc1]. destruct Hok as [Hlen Hall].
        apply (redefine_ok rnd _ j a w1); [apply (Hall j a Ha) | exact Hin |].
        intros a' Hok' Hred. rewrite Hw1 in Hred. simpl.
        split; [auto | split; [lia | exact Hc1]].
    + intros l' w' (Hlen & Hnth & Hw' & Hc'). apply yields_bind, yields_now.
      apply yields_ret. constructor; simpl; try reflexivity.
      * now rewrite Hc'.
      * apply (agents_ok_pointwise (agents s) l' Hok Hlen).
        intros j a a' Ha Ha' _. apply (Hnth j a a' Ha Ha').
      * intros j a a' Ha Ha'.
        destruct (Hnth j a a' Ha Ha') as (_ & _ & _ & Ht & Hm). auto.
      * intros t Et. rewrite Eshift in Et. inversion Et; subst t. split.
        -- rewrite Hw', (proj1 Hok). lia.
        -- intros j a a' Ha Ha'. apply (Hnth j a a' Ha Ha').
      * intro C. congruence.
  - apply yields_bind, yields_ret. apply yields_bind, yields_now.
    apply yields_ret. constructor; simpl; try reflexivity; auto.
    + intros j a a' Ha Ha'. rewrite Ha in Ha'. inversion Ha'. auto.
    + intros t C. congruence.
Qed.

(** What [triggerContextShift] does, draw by draw. *)
Lemma triggerContextShift_ok (rnd : nat -> Draw) (clk : nat -> Z) (s : State) w
  (Q : State -> World -> Prop) :
  agents_ok (agents s) ->
  (forall s' w',
     let k := randoms w in
     let kind := kind_of_draw (rnd k) in
     contextShifts s' =
       (contextShifts s ++
          [{| shift_step := step s; shift_type := kind; shift_id := clk (clocks w) |}])%list ->
     step s' = step s -> communications s' = communications s ->
     driftHistory s' = driftHistory s -> alignmentHistory s' = alignmentHistory s ->
     agents_ok (agents s') ->
     (forall i a a', nth_error (agents s) i = Some a -> nth_error (agents s') i = Some a' ->
                     trustScores a' = trustScores a /\ memory a' = memory a) ->
     (kind = symbol_redefinition ->
      randoms w' = (k + 14)%nat /\
      forall i a a', nth_error (agents s) i = Some a -> nth_error (agents s') i = Some a' ->
                     redefined rnd (k + 2 + 3 * i) (symbol_of_draw (rnd (S k))) a a') ->
     (kind <> symbol_redefinition -> agents s' = agents s /\ randoms w' = S k) ->
     Q s' w') ->
  yields (triggerContextShift rnd clk s) w Q.
Proof.
  intros Hok H. unfold triggerContextShift.
  apply yields_bind.
  eapply yields_weaken; [apply chooseShift_ok |].
  intros shift w0 Hch.
  eapply yields_weaken.
  - apply (applyShift_ok rnd clk (step s) shift s w0 Hok).
    intros target Et. apply (shift_chosen_target rnd w shift w0 target Hch Et).
  - intros s' w' [Y1 Y2 Y3 Y4 Y5 Y6 Y7 Y8 Y9 Y10].
    destruct Hch as [C1 C2 C3 C4].
    apply H; auto.
    + rewrite Y1, C1, C2. reflexivity.
    + intro Ek. destruct (C3 Ek) as [Et Ew0].
      destruct (Y9 _ Et) as [Ew' Hred]. split; [lia |].
      intros i a a' Ha Ha'.
      replace (randoms w + 2 + 3 * i)%nat with (randoms w0 + 3 * i)%nat by lia.
      apply (Hred i a a' Ha Ha').
    + intro Ek. destruct (C4 Ek) as [Et Ew0].
      destruct (Y10 Et) as [Ea Ew']. split; [exact Ea | lia].
Qed.

(** ** Metrics *)

Lemma calculateDriftMetrics_fields (s : State) :
  step (calculateDriftMetrics s) = step s /\
  agents (calculateDriftMetrics s) = agents s /\
  communications (calculateDriftMetrics s) = communications s /\
  contextShifts (calculateDriftMetrics s) = contextShifts s /\
  syntaxPatterns (calculateDriftMetrics s) = syntaxPatterns s.
Proof. unfold calculateDriftMetrics, recordMetrics. destruct (agents s) eqn:E; simpl; auto. Qed.

Lemma calculateDriftMetrics_histories (s : State) :
  agents s <> [] ->
  driftHistory (calculateDriftMetrics s)
  = (slice_last 99 (driftHistory s)
       ++ [{| drift_step := step s; drift := avgDrift (agents s) |}])%list /\
  alignmentHistory (calculateDriftMetrics s)
  = (slice_last 99 (alignmentHistory s)
       ++ [{| align_step := step s;
              alignment := Num.max (Fin 0)
                             (Num.mul (Num.sub (Fin 1) (avgDrift (agents s))) (Fin 100)) |}])%list.
Proof.
  intro Hne. unfold calculateDriftMetrics, recordMetrics.
  destruct (agents s) eqn:E; [congruence |]. simpl. auto.
Qed.

Lemma recordMetrics_fields (seen : list Agent) (st : Z) (s : State) :
  step (recordMetrics seen st s) = step s /\
  agents (recordMetrics seen st s) = agents s /\
  communications (recordMetrics seen st s) = communications s /\
  contextShifts (recordMetrics seen st s) = contextShifts s /\
  syntaxPatterns (recordMetrics seen st s) = syntaxPatterns s.
Proof. unfold recordMetrics. destruct seen; simpl; auto. Qed.

Lemma recordMetrics_histories (seen : list Agent) (st : Z) (s : State) :
  seen <> [] ->
  driftHistory (recordMetrics seen st s)
  = (slice_last 99 (driftHistory s)
       ++ [{| drift_step := st; drift := avgDrift seen |}])%list /\
  alignmentHistory (recordMetrics seen st s)
  = (slice_last 99 (alignmentHistory s)
       ++ [{| align_step := st;
              alignment := Num.max (Fin 0)
                             (Num.mul (Num.sub (Fin 1) (avgDrift seen)) (Fin 100)) |}])%list.
Proof.
  intro Hne. unfold recordMetrics. destruct seen; [congruence |]. simpl. auto.
Qed.

Lemma agents_ok_nonempty (l : list Agent) : agents_ok l -> l <> [].
Proof. intros [Hlen _] ->. discriminate. Qed.

(** ** The step *)

Lemma triggerContextShift_applied (rnd : nat -> Draw) (clk : nat -> Z) (s : State) w :
  agents_ok (agents s) ->
  yields (triggerContextShift rnd clk s) w (shift_applied rnd clk s w).
Proof.
  intro Hok. apply triggerContextShift_ok; [exact Hok |].
  intros s' w' k kind; intros. constructor; assumption.
Qed.

Lemma memories_kept_newest_after (l l' l'' : list Agent) :
  List.length l' = List.length l ->
  (forall i a a', nth_error l i = Some a -> nth_error l' i = Some a' -> memory a' = memory a) ->
  memories_kept_newest l' l'' -> memories_kept_newest l l''.
Proof.
  intros Hlen Hsame Hk i a a'' Ha Ha''.
  assert (Hi : (i < List.length l')%nat)
    by (rewrite Hlen; apply nth_error_Some; congruence).
  destruct (nth_error l' i) as [a'|] eqn:Ha'; [| apply nth_error_None in Ha'; lia].
  rewrite <- (Hsame i a a' Ha Ha'). apply (Hk i a' a'' Ha' Ha'').
Qed.

Lemma exchangeRound_ok (rnd : nat -> Draw) (clk : nat -> Z) (s : State) w :
  state_ok s -> yields (exchangeRound rnd clk s) w (fun s1 _ => exchanged s s1).
Proof.
  intros [Hag Hc Hd Ha]. unfold exchangeRound.
  apply yields_bind, applyForgetting_ok; [exact Hag |].
  intros l' w1 Hok' Hsame.
  assert (Hlen : List.length l' = List.length (agents s))
    by (rewrite (proj1 Hok'), (proj1 Hag); reflexivity).
  assert (Htr : trust_nondecreasing (agents s) l').
  { apply trust_untouched_nondecreasing; [exact Hag |].
    intros i a a' Hi Hi'. apply (Hsame i a a' Hi Hi'). }
  assert (Hmem : forall i a a', nth_error (agents s) i = Some a ->
                                nth_error l' i = Some a' -> memory a' = memory a).
  { intros i a a' Hi Hi'. apply (Hsame i a a' Hi Hi'). }
  apply yields_bind, yields_randomIndex. intros sender Hs _.
  apply yields_bind, yields_randomIndex. intros receiver Hr _.
  rewrite (proj1 Hok') in Hs, Hr. specialize (Hs ltac:(lia)). specialize (Hr ltac:(lia)).
  destruct (Nat.eqb_spec sender receiver) as [E | Hne].
  - apply yields_ret. constructor; simpl; auto.
    + intros i a a' Hi Hi'. rewrite (Hmem i a a' Hi Hi').
      apply kept_newest_same, (ok_memory i a (proj2 Hag i a Hi)).
    + now apply kept_newest_same.
  - eapply yields_weaken; [apply (communicate_ok rnd clk s l' sender receiver _ Hok' Hne Hs Hr) |].
    intros s1 _ (H1 & H2 & H3 & H4 & H5 & H6 & H7 & sq & avg & r & t & _ & _ & _ & _ & H8).
    constructor; auto.
    + eapply trust_nondecreasing_trans; [exact Hlen | exact Htr | exact H2].
    + eapply memories_kept_newest_after; [exact Hlen | exact Hmem | exact H3].
    + rewrite H8. apply kept_newest_snoc.
Qed.

Lemma simulateStep_ok (rnd : nat -> Draw) (clk : nat -> Z) (s : State) w :
  state_ok s -> yields (simulateStep rnd clk s) w (stepped rnd clk s w).
Proof.
  intro Hs. unfold simulateStep.
  pose proof (agents_ok_nonempty _ (ok_agents s Hs)) as Hne.
  destruct (agents s) as [| a0 l0] eqn:E; [congruence |]. rewrite <- E in *.
  unfold stepped.
  destruct (shiftDue (step s)).
  - apply yields_bind. apply yields_bind.
    eapply yields_weaken; [apply yields_graph, chooseShift_ok |].
    intros x w0 [Ech Hch]. apply yields_ret.
    apply yields_bind.
    eapply yields_weaken; [apply yields_graph, (exchangeRound_ok rnd clk s w0 Hs) |].
    intros s1 w1 [Hrun Hex]. apply yields_bind.
    eapply yields_weaken.
    + apply (applyShift_ok rnd clk (step s) x s1 w1 (ex_agents s s1 Hex)).
      intros target Et. apply (shift_chosen_target rnd w x w0 target Hch Et).
    + intros s2 w2 Hsh. apply yields_ret. exists (Some x), w0, s1, w1, s2.
      split; [exists x; auto |]. auto.
  - apply yields_bind, yields_ret. apply yields_bind.
    eapply yields_weaken; [apply yields_graph, (exchangeRound_ok rnd clk s w Hs) |].
    intros s1 w1 [Hrun Hex]. apply yields_bind, yields_ret. apply yields_ret.
    exists None, w, s1, w1, s1. auto 10.
Qed.

(** A step keeps the invariant and only appends to the bounded logs. *)
Lemma stepped_facts (rnd : nat -> Draw) (clk : nat -> Z) (s : State) (w : World)
  (s' : State) (w' : World) :
  state_ok s -> stepped rnd clk s w s' w' ->
  state_ok s' /\ step s' = step s /\
  trust_nondecreasing (agents s) (agents s') /\
  memories_kept_newest (agents s) (agents s') /\
  kept_newest 30 (communications s) (communications s') /\
  kept_newest 100 (driftHistory s) (driftHistory s') /\
  kept_newest 100 (alignmentHistory s) (alignmentHistory s').
Proof.
  intros Hs (shift & w0 & s1 & w1 & s2 & _ & _ & Hex & Hsh & ->).
  destruct Hex as [X1 X2 X3 X4 X5 X6 X7 X8].
  assert (H2 : agents_ok (agents s2) /\ step s2 = step s /\
               trust_nondecreasing (agents s) (agents s2) /\
               memories_kept_newest (agents s) (agents s2) /\
               communications s2 = communications s1 /\
               driftHistory s2 = driftHistory s /\
               alignmentHistory s2 = alignmentHistory s).
  { destruct shift as [x |].
    - destruct Hsh as [Y1 Y2 Y3 Y4 Y5 Y5' Y6 Y7 _ _].
      assert (Hlen : List.length (agents s1) = List.length (agents s))
        by (rewrite (proj1 X1), (proj1 (ok_agents s Hs)); reflexivity).
      split; [exact Y6 |]. split; [congruence |].
      split; [| split; [| split; [congruence | split; congruence]]].
      + eapply trust_nondecreasing_trans; [exact Hlen | exact X2 |].
        apply trust_untouched_nondecreasing; [exact X1 |].
        intros i a a' Hi Hi'. apply (Y7 i a a' Hi Hi').
      + intros i a a2 Hi Hi2.
        assert (Hi1 : (i < List.length (agents s1))%nat)
          by (rewrite Hlen; apply nth_error_Some; congruence).
        destruct (nth_error (agents s1) i) as [a1|] eqn:Ha1;
          [| apply nth_error_None in Ha1; lia].
        rewrite (proj2 (Y7 i a1 a2 Ha1 Hi2)). apply (X3 i a a1 Hi Ha1).
    - destruct Hsh as [-> _]. auto 10. }
  destruct H2 as (A1 & A2 & A3 & A4 & A5 & A6 & A7).
  destruct (recordMetrics_fields (agents s) (step s) s2) as (F1 & F2 & F3 & F4 & F5).
  destruct (recordMetrics_histories (agents s) (step s) s2
              (agents_ok_nonempty _ (ok_agents s Hs))) as [G1 G2].
  assert (K3 : kept_newest 30 (communications s)
                 (communications (recordMetrics (agents s) (step s) s2)))
    by (rewrite F3, A5; exact X8).
  assert (K4 : kept_newest 100 (driftHistory s)
                 (driftHistory (recordMetrics (agents s) (step s) s2)))
    by (rewrite G1, A6; apply kept_newest_snoc).
  assert (K5 : kept_newest 100 (alignmentHistory s)
                 (alignmentHistory (recordMetrics (agents s) (step s) s2)))
    by (rewrite G2, A7; apply kept_newest_snoc).
  split; [| rewrite F1, F2; auto 10].
  constructor.
  - now rewrite F2.
  - exact (kept_newest_length _ _ _ K3).
  - exact (kept_newest_length _ _ _ K4).
  - exact (kept_newest_length _ _ _ K5).
Qed.

Lemma tick_stepped (rnd : nat -> Draw) (clk : nat -> Z) (s : State) w :
  state_ok s ->
  yields (tick rnd clk s) w
    (fun s' w' => exists s0, stepped rnd clk s w s0 w' /\ s' = with_step s0 (step s + 1)%Z).
Proof.
  intro Hs. unfold tick. apply yields_bind.
  eapply yields_weaken; [apply (simulateStep_ok rnd clk s w Hs) |].
  intros s0 w' Hst. apply yields_ret. eauto.
Qed.

Lemma tick_ok (rnd : nat -> Draw) (clk : nat -> Z) (s : State) w :
  state_ok s ->
  yields (tick rnd clk s) w
    (fun s' _ =>
       state_ok s' /\ step s' = (step s + 1)%Z /\
       trust_nondecreasing (agents s) (agents s') /\
       memories_kept_newest (agents s) (agents s') /\
       kept_newest 30 (communications s) (communications s') /\
       kept_newest 100 (driftHistory s) (driftHistory s') /\
       kept_newest 100 (alignmentHistory s) (alignmentHistory s')).
Proof.
  intro Hs. eapply yields_weaken; [apply (tick_stepped rnd clk s w Hs) |].
  intros s' w' (s0 & Hst & ->).
  destruct (stepped_facts rnd clk s w s0 w' Hs Hst) as (B1 & B2 & B3 & B4 & B5 & B6 & B7).
  simpl. split; [| auto 10].
  destruct B1 as [C1 C2 C3 C4]. constructor; assumption.
Qed.

Lemma ticks_S (rnd : nat -> Draw) (clk : nat -> Z) (n : nat) (s : State) (w : World) :
  ticks rnd clk (S n) s w
  = match ticks rnd clk n s w with
    | Some (s', w') => tick rnd clk s' w'
    | None => None
    end.
Proof. reflexivity. Qed.

Lemma run_step (rnd : nat -> Draw) (clk : nat -> Z) (n : nat) (s : State) (w : World) :
  run rnd clk n = Some (s, w) -> run rnd clk (S n) = tick rnd clk s w.
Proof.
  unfold run, bind.
  destruct (mount rnd {| randoms := 0; clocks := 0 |}) as [[s0 w0]|]; [| discriminate].
  rewrite ticks_S. now intros ->.
Qed.

(** Every run returns, in a state that satisfies the invariant and whose
    step counter is the number of ticks. *)
Lemma run_ok (rnd : nat -> Draw) (clk : nat -> Z) (n : nat) :
  exists s w, run rnd clk n = Some (s, w) /\ state_ok s /\ step s = Z.of_nat n.
Proof.
  induction n as [| n (s & w & Hrun & Hs & Hst)].
  - assert (Y : yields (bind (mount rnd) (fun s => ticks rnd clk 0 s)) world0
                  (fun s _ => state_ok s /\ step s = 0%Z)).
    { apply yields_bind, mount_ok. intros s w' Hs _ Hst _ _ _ _.
      apply yields_ret. auto. }
    destruct Y as (s & w & E & H). exists s, w. auto.
  - rewrite (run_step rnd clk n s w Hrun).
    destruct (tick_ok rnd clk s w Hs) as (s' & w' & Et & Hs' & Hst' & _).
    exists s', w'. split; [exact Et | split; [exact Hs' |]].
    rewrite Hst', Hst. lia.
Qed.

(** ** The cursors only move forward *)

Lemma advances_ret {A : Type} (a : A) : advances (ret a).
Proof. intros w a' w' E. inversion E; subst. lia. Qed.

Lemma advances_throw {A : Type} : advances (@throw A).
Proof. intros w a w' E. discriminate. Qed.

Lemma advances_defined {A : Type} (x : option A) : advances (defined x).
Proof. destruct x; [apply advances_ret | apply advances_throw]. Qed.

Lemma advances_bind {A B : Type} (m : M A) (f : A -> M B) :
  advances m -> (forall a, advances (f a)) -> advances (bind m f).
Proof.
  intros Hm Hf w b w' E. unfold bind in E.
  destruct (m w) as [[a w1]|] eqn:Em; [| discriminate].
  destruct (Hm w a w1 Em). destruct (Hf a w1 b w' E). lia.
Qed.

Lemma advances_mapM {A B : Type} (f : A -> M B) (l : list A) :
  (forall x, advances (f x)) -> advances (mapM f l).
Proof.
  intro Hf. induction l as [| x l IH]; simpl.
  - apply advances_ret.
  - apply advances_bind; [apply Hf |]. intro y.
    apply advances_bind; [exact IH |]. intro ys. apply advances_ret.
Qed.

Lemma advances_foldM {A B : Type} (f : B -> A -> M B) (l : list A) :
  (forall b x, advances (f b x)) -> forall acc, advances (foldM f l acc).
Proof.
  intro Hf. induction l as [| x l IH]; intro acc; simpl.
  - apply advances_ret.
  - apply advances_bind; [apply Hf | exact IH].
Qed.

Lemma advances_replicateM {A : Type} (f : M A) (n : nat) :
  advances f -> advances (replicateM n f).
Proof.
  intro Hf. induction n as [| n IH]; simpl.
  - apply advances_ret.
  - apply advances_bind; [exact Hf |]. intro y.
    apply advances_bind; [exact IH |]. intro ys. apply advances_ret.
Qed.

Lemma advances_random (rnd : nat -> Draw) : advances (random rnd).
Proof. intros w a w' E. inversion E; subst. simpl. lia. Qed.

Lemma advances_now (clk : nat -> Z) : advances (now clk).
Proof. intros w a w' E. inversion E; subst. simpl. lia. Qed.

(** Decompose a computation along its binds, loops and branches. *)
Ltac advances_tac :=
  repeat first
    [ apply advances_ret
    | apply advances_throw
    | apply advances_defined
    | apply advances_random
    | apply advances_now
    | apply advances_bind
    | apply advances_mapM
    | apply advances_foldM
    | apply advances_replicateM
    | progress intros
    | match goal with
      | |- advances (if ?b then _ else _) => destruct b
      | |- advances (match ?x with _ => _ end) => destruct x
      end ].

Lemma advances_exchangeRound (rnd : nat -> Draw) (clk : nat -> Z) (s : State) :
  advances (exchangeRound rnd clk s).
Proof.
  unfold exchangeRound, applyForgetting, forgetAgent, forget, jitter, randomIndex,
    communicate, drawSequence, randomSymbol, randomIndex, adaptSymbol, repair, jitter.
  advances_tac.
Qed.

Lemma advances_chooseShift (rnd : nat -> Draw) : advances (chooseShift rnd).
Proof.
  unfold chooseShift, randomSymbol, randomIndex.
  advances_tac.
Qed.

Lemma advances_applyShift (rnd : nat -> Draw) (clk : nat -> Z) (st : Z)
  (shift : ShiftType * option string) (s : State) :
  advances (applyShift rnd clk st shift s).
Proof.
  unfold applyShift, redefine, randomVector.
  advances_tac.
Qed.

Lemma advances_triggerContextShift (rnd : nat -> Draw) (clk : nat -> Z) (s : State) :
  advances (triggerContextShift rnd clk s).
Proof.
  unfold triggerContextShift.
  apply advances_bind; [apply advances_chooseShift |].
  intro shift. apply advances_applyShift.
Qed.

Lemma advances_tick (rnd : nat -> Draw) (clk : nat -> Z) (s : State) :
  advances (tick rnd clk s).
Proof.
  unfold tick, simulateStep.
  apply advances_bind; [| intro; apply advances_ret].
  destruct (agents s); [apply advances_ret |].
  apply advances_bind.
  { destruct (shiftDue (step s)); [| apply advances_ret].
    apply advances_bind; [apply advances_chooseShift | intro; apply advances_ret]. }
  intro shift.
  apply advances_bind; [apply advances_exchangeRound |]. intro s1.
  apply advances_bind; [| intro; apply advances_ret].
  destruct shift; [apply advances_applyShift | apply advances_ret].
Qed.

(** * The invariants of a run *)

(** C4. After any number of steps, every agent has a mapping for every
    vocabulary symbol and a trust toward each of the three other agents, and
    every confidence and every trust value is a number within [0, 1]. *)
Theorem confidence_and_trust_in_unit_interval (rnd : nat -> Draw) (clk : nat -> Z) (n : nat) :
  exists s w,
    run rnd clk n = Some (s, w) /\
    List.length (agents s) = 4%nat /\
    forall i a, nth_error (agents s) i = Some a ->
      (forall symbol, In symbol symbols -> get_mapping a symbol <> None) /\
      (forall j, (j < 4)%nat -> j <> i -> get_trust a j <> None) /\
      (forall symbol m, get_mapping a symbol = Some m -> Num.between 0 1 (confidence m)) /\
      (forall peer t, get_trust a peer = Some t -> Num.between 0 1 t).
Proof.
  destruct (run_ok rnd clk n) as (s & w & Hrun & Hs & _).
  exists s, w. split; [exact Hrun |].
  destruct Hs as [[Hlen Hall] _ _ _]. split; [exact Hlen |].
  intros i a Hi. pose proof (Hall i a Hi) as Hok.
  split; [| split; [| split]].
  - intros symbol Hin.
    destruct (get_mapping_defined i a symbol Hok Hin) as (m & -> & _). discriminate.
  - apply (ok_peers i a Hok).
  - intros symbol m Hm.
    apply (dict_get_Forall String.eqb mapping_ok _ symbol m (ok_mappings i a Hok) Hm).
  - intros peer t Ht.
    apply (between_weaken 0.5 1); [lra | lra |].
    apply (get_trust_between i a peer t Hok Ht).
Qed.

(** The trust table after a successful exchange on one symbol: the
    receiver's entry for the sender went up by 0.02, capped at 1; no other
    entry changed. *)
Lemma adaptSymbol_success_trust (rnd : nat -> Draw) (st : Z) (sender receiver : nat)
  (l : list Agent) (symbol : string) w :
  agents_ok l -> sender <> receiver -> (sender < 4)%nat -> (receiver < 4)%nat ->
  In symbol symbols ->
  yields (adaptSymbol rnd st sender receiver true l symbol) w
    (fun l' _ =>
       forall i a a' j,
         nth_error l i = Some a -> nth_error l' i = Some a' ->
         get_trust a' j =
           if Nat.eqb i receiver && Nat.eqb j sender
           then Some (Num.min (Fin 1) (Num.add (as_num (get_trust a j)) (Fin 0.02)))
           else get_trust a j).
Proof.
  intros Hok Hne Hs Hr Hin.
  destruct (agents_ok_nth l sender Hok Hs) as (s & Hsn & Hsok).
  destruct (agents_ok_nth l receiver Hok Hr) as (r & Hrn & Hrok).
  destruct (get_mapping_defined sender s symbol Hsok Hin) as (sm & Hsm & _).
  destruct (get_mapping_defined receiver r symbol Hrok Hin) as (rm & Hrm & _).
  pose proof (proj1 Hok) as Hlen.
  eexists _, _. split; [apply (adaptSymbol_success_run rnd st _ _ l symbol s r sm rm w); eauto |].
  intros i a a' j Ha. rewrite nth_error_two_sets by lia.
  destruct (Nat.eqb_spec i receiver) as [-> | Hir]; simpl.
  - intro E. inversion E; subst a'. rewrite Hrn in Ha. inversion Ha; subst a.
    unfold get_trust at 1. simpl.
    destruct (Nat.eqb_spec j sender) as [-> | Hjs].
    + apply (dict_get_set_same Nat.eqb Nat.eqb_eq).
    + apply (dict_get_set_other Nat.eqb Nat.eqb_eq). congruence.
  - destruct (Nat.eqb_spec i sender) as [-> | His].
    + intro E. inversion E; subst a'. rewrite Hsn in Ha. inversion Ha; subst a. reflexivity.
    + intro E. rewrite Ha in E. inversion E. reflexivity.
Qed.

(** C10. Every trust value starts at exactly 0.5; from any reached state the
    next step lowers no trust value, and every trust value lies in
    [0.5, 1].  Operation by operation: forgetting, a failed exchange and a
    context shift write no trust table; a successful exchange raises, for
    each symbol, the receiver's trust toward the sender by 0.02 capped at 1
    and changes no other entry.  A reset starts the next run with every
    trust value at exactly 0.5 again. *)
Theorem trust_never_decreases (rnd : nat -> Draw) (clk : nat -> Z) (n : nat) :
  (exists s0 w0, run rnd clk 0 = Some (s0, w0) /\ trust_initial (agents s0)) /\
  (exists s w s' w',
      run rnd clk n = Some (s, w) /\ run rnd clk (S n) = Some (s', w') /\
      trust_nondecreasing (agents s) (agents s') /\
      (forall i a j, nth_error (agents s) i = Some a -> (j < 4)%nat -> j <> i ->
                     exists t, get_trust a j = Some t /\ Num.between 0.5 1 t) /\
      (forall i a j t, nth_error (agents s) i = Some a -> get_trust a j = Some t ->
                       Num.between 0.5 1 t)) /\
  (forall (l : list Agent) (st : Z) (w : World),
      agents_ok l ->
      yields (applyForgetting rnd st l) w (fun l' _ => trust_untouched l l') /\
      (forall s, agents s = l ->
                 yields (triggerContextShift rnd clk s) w
                   (fun s' _ => trust_untouched l (agents s'))) /\
      (forall sender receiver symbol,
          sender <> receiver -> (sender < 4)%nat -> (receiver < 4)%nat ->
          In symbol symbols ->
          yields (adaptSymbol rnd st sender receiver false l symbol) w
            (fun l' _ => trust_untouched l l') /\
          yields (adaptSymbol rnd st sender receiver true l symbol) w
            (fun l' _ =>
               forall i a a' j,
                 nth_error l i = Some a -> nth_error l' i = Some a' ->
                 get_trust a' j =
                   if Nat.eqb i receiver && Nat.eqb j sender
                   then Some (Num.min (Fin 1) (Num.add (as_num (get_trust a j)) (Fin 0.02)))
                   else get_trust a j))) /\
  (forall (s : State) (w : World),
      state_ok s ->
      yields (reset rnd s) w (fun s' _ => state_ok s' /\ trust_initial (agents s'))).
Proof.
  split; [| split; [| split]]; [| | | intros s w Hs; apply reset_ok; auto].
  - unfold run.
    assert (Y : yields (bind (mount rnd) (fun s => ticks rnd clk 0 s)) world0
                  (fun s _ => trust_initial (agents s))).
    { apply yields_bind, mount_ok. intros s w' _ Ht _ _ _ _ _. apply yields_ret, Ht. }
    destruct Y as (s0 & w0 & E & H). exists s0, w0. auto.
  - destruct (run_ok rnd clk n) as (s & w & Hrun & Hs & _).
    destruct (tick_ok rnd clk s w Hs) as (s' & w' & Et & _ & _ & Htr & _).
    exists s, w, s', w'. rewrite (run_step rnd clk n s w Hrun).
    split; [exact Hrun | split; [exact Et | split; [exact Htr | split]]].
    + intros i a j Ha Hj Hne.
      apply (get_trust_defined i a j (proj2 (ok_agents s Hs) i a Ha) Hj Hne).
    + intros i a j t Ha Ht.
      apply (get_trust_between i a j t (proj2 (ok_agents s Hs) i a Ha) Ht).
  - intros l st w Hok. split; [| split].
    + apply applyForgetting_ok; [exact Hok |].
      intros l' w' _ Hsame i a a' Ha Ha'. apply (Hsame i a a' Ha Ha').
    + intros s <-. eapply yields_weaken; [apply (triggerContextShift_applied rnd clk s w Hok) |].
      intros s' w' Hsh i a a' Ha Ha'. apply (sh_kept _ _ _ _ _ _ Hsh i a a' Ha Ha').
    + intros sender receiver symbol Hne Hs Hr Hin. split.
      * eapply yields_weaken;
          [apply (adaptSymbol_ok rnd st sender receiver false l symbol w Hok Hne Hs Hr Hin) |].
        intros l' _ (_ & _ & _ & Hu). apply Hu. reflexivity.
      * apply adaptSymbol_success_trust; assumption.
Qed.

(** * Context shifts *)

Lemma shiftDue_spec (st : Z) :
  (0 <= st)%Z -> (shiftDue st = true <-> (0 < st)%Z /\ (st mod 100 = 0)%Z).
Proof.
  intro Hst. unfold shiftDue.
  rewrite andb_true_iff, Z.ltb_lt, Z.eqb_eq, Z.rem_mod_nonneg by lia. tauto.
Qed.

(** Each vocabulary symbol is picked on one sixth of the unit interval. *)
Lemma symbol_of_draw_sixths (d : Draw) (i : nat) :
  (i < 6)%nat ->
  (symbol_of_draw d = nth i symbols "undefined"%string <-> INR i / 6 <= d < (INR i + 1) / 6).
Proof.
  intro Hi. unfold symbol_of_draw.
  change (INR (List.length symbols)) with (INR 6).
  assert (H6 : INR 6 = 6) by (simpl; lra). rewrite H6.
  pose proof (draw_index_lt d 6 ltac:(lia)) as Hlt. rewrite H6 in Hlt.
  pose proof (Zfloor_bound (d * 6)) as [Hlo Hhi].
  assert (Hge : (0 <= Zfloor (d * 6))%Z).
  { apply Zfloor_lub. destruct d as [r [H0 H1]]. simpl. lra. }
  split.
  - intro E. apply (proj1 (NoDup_nth symbols "undefined"%string) symbols_NoDup) in E;
      [| exact Hlt | exact Hi].
    assert (Ez : Zfloor (d * 6) = Z.of_nat i) by lia.
    rewrite Ez, <- INR_IZR_INZ in Hlo, Hhi. lra.
  - intros [A B]. rewrite (Zfloor_eq (Z.of_nat i)).
    + now rewrite Nat2Z.id.
    + rewrite <- INR_IZR_INZ. lra.
Qed.

(** C8.  The tick taken at step [n] appends a context-shift record exactly
    when [n > 0] and [n mod 100 = 0], and then exactly one, with the step
    number, a value of the clock as [id], and a kind picked by the first
    draw of the tick, each kind on one third of the unit interval.  When the
    kind is [symbol_redefinition], the second draw of the tick picks one
    vocabulary symbol, each symbol on one sixth of the unit interval, and
    after the tick every agent's mapping for that symbol has confidence 0.3
    and a vector made of three draws of its own: they are the last twelve
    draws of the tick, taken once the exchange round has taken its own. *)
Theorem context_shift_schedule (rnd : nat -> Draw) (clk : nat -> Z) (n : nat) :
  exists s w s' w',
    run rnd clk n = Some (s, w) /\ step s = Z.of_nat n /\
    run rnd clk (S n) = Some (s', w') /\
    ((0 < step s)%Z /\ (step s mod 100 = 0)%Z ->
     exists j,
       contextShifts s' =
         (contextShifts s ++
            [{| shift_step := step s; shift_type := kind_of_draw (rnd (randoms w));
                shift_id := clk j |}])%list /\
       (kind_of_draw (rnd (randoms w)) = symbol_redefinition ->
        In (symbol_of_draw (rnd (S (randoms w)))) symbols /\
        exists k,
          (randoms w + 2 <= k)%nat /\ randoms w' = (k + 12)%nat /\
          forall i a', nth_error (agents s') i = Some a' ->
            exists m',
              get_mapping a' (symbol_of_draw (rnd (S (randoms w)))) = Some m' /\
              confidence m' = Fin 0.3 /\
              vector m' = [Fin (rnd (k + 3 * i)%nat * 2 - 1);
                           Fin (rnd (S (k + 3 * i)) * 2 - 1);
                           Fin (rnd (S (S (k + 3 * i))) * 2 - 1)])) /\
    (~ ((0 < step s)%Z /\ (step s mod 100 = 0)%Z) -> contextShifts s' = contextShifts s) /\
    (forall d : Draw,
        (kind_of_draw d = symbol_redefinition <-> d < 1 / 3) /\
        (kind_of_draw d = new_agent <-> 1 / 3 <= d < 2 / 3) /\
        (kind_of_draw d = task_change <-> 2 / 3 <= d)) /\
    (forall (d : Draw) i, (i < 6)%nat ->
        (symbol_of_draw d = nth i symbols "undefined"%string
         <-> INR i / 6 <= d < (INR i + 1) / 6)).
Proof.
  destruct (run_ok rnd clk n) as (s & w & Hrun & Hs & Hst).
  destruct (tick_stepped rnd clk s w Hs) as (s' & w' & Et & s0 & Hstep & ->).
  exists s, w, (with_step s0 (step s + 1)%Z), w'.
  rewrite (run_step rnd clk n s w Hrun).
  split; [exact Hrun | split; [exact Hst | split; [exact Et |]]].
  destruct Hstep as (shift & w0 & s1 & w1 & s2 & Hch & Hex & Hexd & Hsh & ->).
  destruct (recordMetrics_fields (agents s) (step s) s2) as (F1 & F2 & F3 & F4 & F5).
  pose proof (shiftDue_spec (step s) ltac:(lia)) as Hdue.
  destruct (advances_exchangeRound rnd clk s w0 s1 w1 Hex) as [Hadv _].
  split; [| split; [| split]].
  - intro Hcond. apply Hdue in Hcond. rewrite Hcond in Hch.
    destruct Hch as (x & _ & -> & [C1 C2 C3 C4]).
    destruct Hsh as [Y1 Y2 Y3 Y4 Y5 Y5' Y6 Y7 Y8 Y9].
    exists (clocks w1). split.
    + simpl. rewrite F4, Y1, (ex_shifts s s1 Hexd), C1. reflexivity.
    + intro Hk. destruct (C3 Hk) as [Ex Ew0]. destruct (Y8 _ Ex) as [Hw' Hred].
      split; [apply symbol_of_draw_In |].
      exists (randoms w1). split; [lia | split; [exact Hw' |]].
      intros i a' Ha'. simpl in Ha'. rewrite F2 in Ha'.
      assert (Hlen : List.length (agents s2) = List.length (agents s1))
        by (rewrite (proj1 Y6), (proj1 (ex_agents s s1 Hexd)); reflexivity).
      destruct (nth_error_same_length (agents s1) (agents s2) i a' Hlen Ha') as (a & Ha).
      destruct (Hred i a a' Ha Ha') as ((m' & Hm & Hc & Hv) & _).
      exists m'. auto.
  - intro Hcond.
    assert (Hfalse : shiftDue (step s) = false).
    { destruct (shiftDue (step s)); [exfalso; apply Hcond, Hdue; reflexivity | reflexivity]. }
    rewrite Hfalse in Hch. destruct Hch as [-> ->]. destruct Hsh as [-> _].
    simpl. rewrite F4. apply (ex_shifts s s1 Hexd).
  - intro d. apply shift_kind_thirds.
  - intros d i Hi. now apply symbol_of_draw_sixths.
Qed.

(** * An empty population *)

(** C9, as the code has it.  A tick on a state without agents returns the
    same state with the step counter advanced by one: nothing is appended to
    the drift and alignment histories, no draw and no clock value is
    consumed, and it is not an error.  The degenerate metrics are those of a
    population of one: [calculateDriftMetrics] then appends drift 0 and
    alignment 100. *)
Theorem tick_without_agents (rnd : nat -> Draw) (clk : nat -> Z) (s : State) (w : World) :
  agents s = [] ->
  tick rnd clk s w = Some (with_step s (step s + 1)%Z, w) /\
  forall (s1 : State) (a : Agent),
    agents s1 = [a] ->
    driftHistory (calculateDriftMetrics s1)
    = (slice_last 99 (driftHistory s1) ++ [{| drift_step := step s1; drift := Fin 0 |}])%list /\
    alignmentHistory (calculateDriftMetrics s1)
    = (slice_last 99 (alignmentHistory s1)
         ++ [{| align_step := step s1; alignment := Fin 100 |}])%list.
Proof.
  intro E. split.
  - unfold tick, simulateStep, bind. rewrite E. reflexivity.
  - intros s1 a E1.
    destruct (calculateDriftMetrics_histories s1) as [-> ->]; [rewrite E1; discriminate |].
    rewrite E1. unfold avgDrift. simpl.
    replace (Rmax 0 ((1 - 0) * 100)) with 100; [auto |].
    unfold Rmax. destruct (Rle_dec 0 ((1 - 0) * 100)); lra.
Qed.

Lemma tick_without_agents_witness :
  agents emptyState = [] /\
  tick rnd_half clk_zero emptyState world0
  = Some (with_step emptyState (step emptyState + 1)%Z, world0).
Proof.
  split; [reflexivity |].
  apply (tick_without_agents rnd_half clk_zero emptyState world0). reflexivity.
Defined.

(** The claim of C9 fails on the state without agents: the tick appends no
    drift sample. *)
Lemma no_metrics_without_agents :
  ~ exists s' w' d,
      tick rnd_half clk_zero emptyState world0 = Some (s', w') /\
      driftHistory s' = (driftHistory emptyState ++ [d])%list /\ drift d = Fin 0.
Proof.
  intros (s' & w' & d & Et & Hd & _).
  assert (E : tick rnd_half clk_zero emptyState world0
              = Some (with_step emptyState (step emptyState + 1)%Z, world0))
    by reflexivity.
  rewrite E in Et. inversion Et; subst s'. simpl in Hd.
  destruct (driftHistory emptyState); discriminate.
Qed.

(** * The distance of a vector of zero magnitude *)

Lemma zero_vector_distance_instance :
  calculateVectorDistance [Fin 0; Fin 0; Fin 0] [Fin 1; Fin 0; Fin 0] = NaN /\
  Num.ltb NaN (Fin 0.5) = false.
Proof.
  split; [| reflexivity].
  apply (distance_zero_magnitude [0; 0; 0] [1; 0; 0]); [reflexivity |].
  left. simpl. lra.
Qed.

(** C2, where the code departs from it.  [calculateVectorDistance] of the
    zero vector and a unit vector is [NaN]; so it is whenever one of two
    finite vectors of equal length has zero magnitude.  When both magnitudes
    are non-zero the result is one minus the cosine, within [0, 2]. *)
Theorem distance_zero_vector_is_NaN :
  calculateVectorDistance [Fin 0; Fin 0; Fin 0] [Fin 1; Fin 0; Fin 0] = NaN /\
  (forall a b : list R,
      List.length a = List.length b -> sumsq a = 0 \/ sumsq b = 0 ->
      calculateVectorDistance (map Fin a) (map Fin b) = NaN) /\
  (forall a b : list R,
      List.length a = List.length b -> sumsq a <> 0 -> sumsq b <> 0 ->
      calculateVectorDistance (map Fin a) (map Fin b)
      = Fin (1 - dot a b / (sqrt (sumsq a) * sqrt (sumsq b))) /\
      0 <= 1 - dot a b / (sqrt (sumsq a) * sqrt (sumsq b)) <= 2).
Proof.
  split; [| split].
  - apply zero_vector_distance_instance.
  - apply distance_zero_magnitude.
  - apply distance_nonzero.
Qed.

(** The zero vector reaches [calculateVectorDistance] from
    [calculateDriftMetrics], which substitutes it for a missing mapping: the
    drift of such a pair of agents is [NaN], and so is the alignment. *)
Lemma pairDrift_missing_mapping (a b : Agent) :
  symbolMappings a = [] ->
  (forall symbol, In symbol symbols -> vectorOf b symbol = [Fin 1; Fin 0; Fin 0]) ->
  pairDrift a b = NaN /\
  avgDrift [a; b] = NaN /\
  Num.max (Fin 0) (Num.mul (Num.sub (Fin 1) (avgDrift [a; b])) (Fin 100)) = NaN.
Proof.
  intros Ha Hb.
  assert (Hp : pairDrift a b = NaN).
  { unfold pairDrift.
    assert (Hfold : forall l acc,
               (forall symbol, In symbol l -> In symbol symbols) -> l <> [] ->
               fold_left
                 (fun acc symbol =>
                    Num.add acc (calculateVectorDistance (vectorOf a symbol) (vectorOf b symbol)))
                 l acc = NaN).
    { induction l as [| x l IH]; intros acc Hin Hne; [congruence |].
      cbn [fold_left].
      assert (Hx : calculateVectorDistance (vectorOf a x) (vectorOf b x) = NaN).
      { rewrite (Hb x (Hin x (or_introl eq_refl))).
        unfold vectorOf, get_mapping. rewrite Ha. cbn [dict_get].
        apply (proj1 zero_vector_distance_instance). }
      rewrite Hx.
      replace (Num.add acc NaN) with NaN by (destruct acc; reflexivity).
      destruct l as [| y l']; [reflexivity |].
      apply IH; [intros s Hs; apply Hin; now right | discriminate]. }
    rewrite Hfold; [reflexivity | auto | discriminate]. }
  split; [exact Hp |].
  assert (Hd : avgDrift [a; b] = NaN).
  { unfold avgDrift. cbn [agentPairs map app List.length fold_left fst snd Nat.ltb Nat.leb].
    rewrite Hp. reflexivity. }
  split; [exact Hd |]. rewrite Hd. reflexivity.
Qed.

(** * One exchange *)












(** The sample population satisfies the data-model invariant. *)
Lemma sampleAgent_ok (i : nat) : (i < 4)%nat -> agent_ok i (sampleAgent i).
Proof.
  intro Hi. destruct (initialTrust_ok i Hi) as [Hp Ht].
  assert (Hm : mapping_ok sampleMapping).
  { split; [split; [reflexivity | repeat constructor] | simpl; lra]. }
  constructor; simpl; auto; try lra; try lia.
  - repeat (constructor; [exact Hm |]). constructor.
  - eapply Forall_impl; [| exact Ht]. intros e ->. simpl. lra.
Qed.

Lemma sampleAgents_nth (i : nat) :
  (i < 4)%nat -> nth_error sampleAgents i = Some (sampleAgent i).
Proof.
  intro Hi. unfold sampleAgents. rewrite nth_error_map.
  rewrite nth_error_nth' with (d := 0%nat) by (rewrite length_seq; exact Hi).
  rewrite seq_nth by exact Hi. reflexivity.
Qed.

Lemma sampleAgents_ok : agents_ok sampleAgents.
Proof.
  split; [reflexivity |]. intros i a Ha.
  assert (Hi : (i < List.length sampleAgents)%nat) by (apply nth_error_Some; congruence).
  unfold sampleAgents in Hi. rewrite length_map, length_seq in Hi.
  rewrite (sampleAgents_nth i Hi) in Ha. inversion Ha. now apply sampleAgent_ok.
Qed.

Lemma constant_dict_get {V : Type} (v : V) (l : list string) (symbol : string) :
  In symbol l -> dict_get String.eqb (map (fun x => (x, v)) l) symbol = Some v.
Proof.
  induction l as [| x l IH]; intro Hin; [contradiction |].
  cbn [map dict_get].
  destruct (String.eqb_spec x symbol); [reflexivity |].
  apply IH. destruct Hin; [contradiction | assumption].
Qed.

Lemma sampleAgent_mapping (i : nat) (symbol : string) :
  In symbol symbols -> get_mapping (sampleAgent i) symbol = Some sampleMapping.
Proof. intro Hin. unfold get_mapping, sampleAgent. cbn [symbolMappings]. now apply constant_dict_get. Qed.




(** * Determinism *)

Lemma slice_last_map {A B : Type} (f : A -> B) (n : nat) (l : list A) :
  map f (slice_last n l) = slice_last n (map f l).
Proof. unfold slice_last. now rewrite length_map, skipn_map. Qed.

Lemma same_outcome_refl_agents (s1 s2 : State) (l : list Agent) (w : World) :
  same_but_ids s1 s2 ->
  same_outcome (Some (with_agents s1 l, w)) (Some (with_agents s2 l, w)).
Proof.
  intros [H1 H2 H3 H4 H5 H6 H7]. split; [| reflexivity]. constructor; simpl; auto.
Qed.

(** The clock only reaches the [id] of the appended record. *)
Lemma communicate_clock (rnd : nat -> Draw) (clk1 clk2 : nat -> Z) (s1 s2 : State)
  (l : list Agent) (sender receiver : nat) (w : World) :
  same_but_ids s1 s2 ->
  same_outcome (communicate rnd clk1 s1 l sender receiver w)
               (communicate rnd clk2 s2 l sender receiver w).
Proof.
  intros [H1 H2 H3 H4 H5 H6 H7]. unfold communicate, bind.
  destruct (drawSequence rnd w) as [[sequence w1]|]; [| exact I].
  destruct (avgDistance l sender receiver sequence) as [avg|]; [| exact I].
  simpl. rewrite H1.
  destruct (foldM _ sequence l _) as [[l' w2]|]; [| exact I].
  destruct (nth_error _ receiver) as [r|]; [| exact I]. simpl.
  split; [| reflexivity]. constructor; simpl; auto.
  - rewrite !map_app, !slice_last_map, H3. simpl.
    unfold comm_content. simpl. reflexivity.
  - now rewrite H6.
Qed.

Lemma exchangeRound_clock (rnd : nat -> Draw) (clk1 clk2 : nat -> Z) (s1 s2 : State)
  (w : World) :
  same_but_ids s1 s2 ->
  same_outcome (exchangeRound rnd clk1 s1 w) (exchangeRound rnd clk2 s2 w).
Proof.
  intros H. unfold exchangeRound, bind.
  rewrite (sb_step _ _ H), (sb_agents _ _ H).
  destruct (applyForgetting rnd (step s2) (agents s2) w) as [[l w1]|]; [| exact I].
  destruct (randomIndex rnd (List.length l) w1) as [[sender w2]|]; [| exact I].
  destruct (randomIndex rnd (List.length l) w2) as [[receiver w3]|]; [| exact I].
  destruct (Nat.eqb sender receiver).
  - now apply same_outcome_refl_agents.
  - now apply communicate_clock.
Qed.

Lemma applyShift_clock (rnd : nat -> Draw) (clk1 clk2 : nat -> Z) (st : Z)
  (shift : ShiftType * option string) (s1 s2 : State) (w : World) :
  same_but_ids s1 s2 ->
  same_outcome (applyShift rnd clk1 st shift s1 w) (applyShift rnd clk2 st shift s2 w).
Proof.
  intros [H1 H2 H3 H4 H5 H6 H7]. unfold applyShift, bind, now. rewrite H2.
  destruct (match snd shift with
            | Some targetSymbol => mapM (redefine rnd targetSymbol) (agents s2)
            | None => ret (agents s2)
            end w) as [[l' w1]|]; [| exact I].
  split; [| reflexivity]. constructor; simpl; auto.
  rewrite !map_app, H7. reflexivity.
Qed.

Lemma triggerContextShift_clock (rnd : nat -> Draw) (clk1 clk2 : nat -> Z) (s1 s2 : State)
  (w : World) :
  same_but_ids s1 s2 ->
  same_outcome (triggerContextShift rnd clk1 s1 w) (triggerContextShift rnd clk2 s2 w).
Proof.
  intros H. unfold triggerContextShift, bind. rewrite (sb_step _ _ H).
  destruct (chooseShift rnd w) as [[shift w1]|]; [| exact I].
  now apply applyShift_clock.
Qed.

Lemma recordMetrics_clock (seen : list Agent) (st : Z) (s1 s2 : State) :
  same_but_ids s1 s2 ->
  same_but_ids (recordMetrics seen st s1) (recordMetrics seen st s2).
Proof.
  intros [H1 H2 H3 H4 H5 H6 H7]. unfold recordMetrics.
  destruct seen; constructor; simpl; rewrite ?H4, ?H5; auto.
Qed.

Lemma calculateDriftMetrics_clock (s1 s2 : State) :
  same_but_ids s1 s2 -> same_but_ids (calculateDriftMetrics s1) (calculateDriftMetrics s2).
Proof.
  intros H. unfold calculateDriftMetrics.
  rewrite (sb_agents _ _ H), (sb_step _ _ H). now apply recordMetrics_clock.
Qed.

(** [same_outcome] along a bind: after the same computation, and after two
    computations with the same outcome. *)
Lemma same_outcome_after {A : Type} (m : M A) (f1 f2 : A -> M State) (w : World) :
  (forall a w', same_outcome (f1 a w') (f2 a w')) ->
  same_outcome (bind m f1 w) (bind m f2 w).
Proof.
  intro H. unfold bind. destruct (m w) as [[a w']|]; [apply H | exact I].
Qed.

Lemma same_outcome_bind (m1 m2 : M State) (f1 f2 : State -> M State) (w : World) :
  same_outcome (m1 w) (m2 w) ->
  (forall x1 x2 w', same_but_ids x1 x2 -> same_outcome (f1 x1 w') (f2 x2 w')) ->
  same_outcome (bind m1 f1 w) (bind m2 f2 w).
Proof.
  intros Hm Hf. unfold bind. unfold same_outcome in Hm.
  destruct (m1 w) as [[x1 w1]|], (m2 w) as [[x2 w2]|]; try contradiction; [| exact I].
  destruct Hm as [Hx ->]. now apply Hf.
Qed.

Lemma same_outcome_ret (x1 x2 : State) (w : World) :
  same_but_ids x1 x2 -> same_outcome (ret x1 w) (ret x2 w).
Proof. intro H. split; [exact H | reflexivity]. Qed.

Lemma tick_clock (rnd : nat -> Draw) (clk1 clk2 : nat -> Z) (s1 s2 : State) (w : World) :
  same_but_ids s1 s2 ->
  same_outcome (tick rnd clk1 s1 w) (tick rnd clk2 s2 w).
Proof.
  intro H. unfold tick. rewrite (sb_step _ _ H).
  apply same_outcome_bind.
  - unfold simulateStep. rewrite (sb_agents _ _ H), (sb_step _ _ H).
    destruct (agents s2) as [| a0 l0] eqn:Ea; [now apply same_outcome_ret |].
    apply same_outcome_after. intros shift w0.
    apply same_outcome_bind; [now apply exchangeRound_clock |].
    intros x1 x2 w1 Hx.
    apply same_outcome_bind.
    + destruct shift; [now apply applyShift_clock | now apply same_outcome_ret].
    + intros y1 y2 w2 Hy. apply same_outcome_ret. now apply recordMetrics_clock.
  - intros x1 x2 w' [H1 H2 H3 H4 H5 H6 H7]. apply same_outcome_ret.
    constructor; simpl; auto.
Qed.

Lemma same_outcome_refl (x : option (State * World)) : same_outcome x x.
Proof.
  destruct x as [[s w]|]; simpl; [| exact I].
  split; [| reflexivity]. constructor; reflexivity.
Qed.

Lemma run_zero_clock (rnd : nat -> Draw) (clk1 clk2 : nat -> Z) :
  run rnd clk1 0 = run rnd clk2 0.
Proof.
  unfold run, bind.
  destruct (mount rnd {| randoms := 0; clocks := 0 |}) as [[s w]|]; reflexivity.
Qed.

Lemma run_clock (rnd : nat -> Draw) (clk1 clk2 : nat -> Z) (n : nat) :
  same_outcome (run rnd clk1 n) (run rnd clk2 n).
Proof.
  induction n as [| n IH].
  - rewrite (run_zero_clock rnd clk1 clk2). apply same_outcome_refl.
  - destruct (run_ok rnd clk1 n) as (s1 & w1 & E1 & _).
    destruct (run_ok rnd clk2 n) as (s2 & w2 & E2 & _).
    rewrite E1, E2 in IH. destruct IH as [Hs ->].
    rewrite (run_step rnd clk1 n s1 w2 E1), (run_step rnd clk2 n s2 w2 E2).
    now apply tick_clock.
Qed.

Lemma Forall_slice_last {A : Type} (P : A -> Prop) (n : nat) (l : list A) :
  Forall P l -> Forall P (slice_last n l).
Proof.
  intro H. unfold slice_last.
  rewrite <- (firstn_skipn (List.length l - n) l) in H.
  apply Forall_app in H. apply H.
Qed.

Lemma communicate_stamped (rnd : nat -> Draw) (clk : nat -> Z) (s : State)
  (l : list Agent) (sender receiver : nat) (w : World) (s' : State) (w' : World) :
  communicate rnd clk s l sender receiver w = Some (s', w') ->
  stamped clk s -> stamped clk s'.
Proof.
  unfold communicate, bind, now.
  destruct (drawSequence rnd w) as [[sequence w1]|]; [| discriminate].
  destruct (avgDistance l sender receiver sequence) as [avg|]; [| discriminate].
  cbv beta iota. cbn [defined ret].
  destruct (foldM _ sequence l _) as [[l' w2]|]; [| discriminate].
  destruct (nth_error _ receiver) as [r|]; [| discriminate]. cbn [defined ret].
  intros E [Hc Hs]. inversion E; subst s' w'. split; simpl; [| exact Hs].
  apply Forall_app. split; [now apply Forall_slice_last |].
  constructor; [| constructor]. simpl. eauto.
Qed.

Lemma applyShift_stamped (rnd : nat -> Draw) (clk : nat -> Z) (st : Z)
  (shift : ShiftType * option string) (s : State)
  (w : World) (s' : State) (w' : World) :
  applyShift rnd clk st shift s w = Some (s', w') ->
  stamped clk s -> stamped clk s'.
Proof.
  unfold applyShift, bind, now.
  destruct (match snd shift with
            | Some targetSymbol => mapM (redefine rnd targetSymbol) (agents s)
            | None => ret (agents s)
            end w) as [[l' w1]|]; [| discriminate].
  unfold ret. intros E [Hc Hs]. inversion E; subst s' w'. split; simpl; [exact Hc |].
  apply Forall_app. split; [exact Hs |]. constructor; [| constructor]. simpl. eauto.
Qed.

Lemma triggerContextShift_stamped (rnd : nat -> Draw) (clk : nat -> Z) (s : State)
  (w : World) (s' : State) (w' : World) :
  triggerContextShift rnd clk s w = Some (s', w') ->
  stamped clk s -> stamped clk s'.
Proof.
  unfold triggerContextShift, bind.
  destruct (chooseShift rnd w) as [[shift w1]|]; [| discriminate].
  apply applyShift_stamped.
Qed.

Lemma exchangeRound_stamped (rnd : nat -> Draw) (clk : nat -> Z) (s : State)
  (w : World) (s1 : State) (w1 : World) :
  exchangeRound rnd clk s w = Some (s1, w1) ->
  stamped clk s -> stamped clk s1.
Proof.
  intros Ex Hst. unfold exchangeRound, bind in Ex.
  destruct (applyForgetting rnd (step s) (agents s) w) as [[l w2]|]; [| discriminate].
  destruct (randomIndex rnd (List.length l) w2) as [[sender w3]|]; [| discriminate].
  destruct (randomIndex rnd (List.length l) w3) as [[receiver w4]|]; [| discriminate].
  destruct (Nat.eqb sender receiver).
  - inversion Ex; subst s1 w1. exact Hst.
  - exact (communicate_stamped rnd clk s l sender receiver w4 s1 w1 Ex Hst).
Qed.

Lemma tick_stamped (rnd : nat -> Draw) (clk : nat -> Z) (s : State) (w : World)
  (s' : State) (w' : World) :
  tick rnd clk s w = Some (s', w') -> stamped clk s -> stamped clk s'.
Proof.
  unfold tick, simulateStep. intros E Hst.
  destruct (agents s) as [| a0 l0] eqn:Ea.
  - inversion E; subst s' w'. exact Hst.
  - rewrite <- Ea in E. clear Ea.
    apply bind_Some in E. destruct E as (s0 & v0 & E & Er).
    unfold ret in Er. inversion Er; subst s' w'.
    apply bind_Some in E. destruct E as (shift & w0 & _ & E).
    apply bind_Some in E. destruct E as (s1 & w1 & Ex & E).
    apply bind_Some in E. destruct E as (s2 & w2 & Esh & Er2).
    unfold ret in Er2. inversion Er2; subst s0 v0.
    pose proof (exchangeRound_stamped rnd clk s w0 s1 w1 Ex Hst) as H1.
    assert (H2 : stamped clk s2).
    { destruct shift.
      - exact (applyShift_stamped rnd clk _ _ s1 w1 s2 w2 Esh H1).
      - inversion Esh; subst s2 w2. exact H1. }
    destruct (recordMetrics_fields (agents s) (step s) s2) as (_ & _ & F3 & F4 & _).
    destruct H2 as [Hc Hs].
    split; unfold with_step; cbn [communications contextShifts];
      [now rewrite F3 | now rewrite F4].
Qed.

Lemma run_zero_mount (rnd : nat -> Draw) (clk : nat -> Z) (s : State) (w : World) :
  run rnd clk 0 = Some (s, w) -> mount rnd {| randoms := 0; clocks := 0 |} = Some (s, w).
Proof.
  unfold run, bind.
  destruct (mount rnd {| randoms := 0; clocks := 0 |}) as [[s0 w0]|]; [| discriminate].
  exact (fun E => E).
Qed.

Lemma run_stamped (rnd : nat -> Draw) (clk : nat -> Z) (n : nat) (s : State) (w : World) :
  run rnd clk n = Some (s, w) -> stamped clk s.
Proof.
  revert s w. induction n as [| n IH]; intros s w E.
  - apply run_zero_mount in E.
    assert (Y : yields (mount rnd) {| randoms := 0; clocks := 0 |}
                  (fun s0 _ => communications s0 = [] /\ contextShifts s0 = [])).
    { apply mount_ok. intros s0 w0 _ _ _ Hc _ _ Hs. split; assumption. }
    destruct (yields_result _ _ _ s w Y E) as [Hc Hs].
    split; [rewrite Hc | rewrite Hs]; constructor.
  - destruct (run_ok rnd clk n) as (s0 & w0 & E0 & _).
    rewrite (run_step rnd clk n s0 w0 E0) in E.
    exact (tick_stamped rnd clk s0 w0 s w E (IH s0 w0 E0)).
Qed.

(** C1, as the code has it.  The code takes no seed: its external inputs are
    the values of [Math.random()] and of [Date.now()].  For the same values
    of [Math.random()] and the same number of steps, two runs return in the
    same world with the same agents, the same drift and alignment histories
    and the same syntax patterns, and with communication and context-shift
    logs that agree on every field but [id], whatever [Date.now()] returns
    in either run; every [id] is a value that [Date.now()] returned in its
    run. *)
Theorem runs_agree_up_to_timestamps (rnd : nat -> Draw) (clk1 clk2 : nat -> Z) (n : nat) :
  exists s1 s2 w,
    run rnd clk1 n = Some (s1, w) /\ run rnd clk2 n = Some (s2, w) /\
    map comm_content (communications s1) = map comm_content (communications s2) /\
    driftHistory s1 = driftHistory s2 /\
    alignmentHistory s1 = alignmentHistory s2 /\
    map shift_content (contextShifts s1) = map shift_content (contextShifts s2) /\
    agents s1 = agents s2 /\ syntaxPatterns s1 = syntaxPatterns s2 /\ step s1 = step s2 /\
    stamped clk1 s1 /\ stamped clk2 s2.
Proof.
  pose proof (run_clock rnd clk1 clk2 n) as H.
  destruct (run_ok rnd clk1 n) as (s1 & w1 & E1 & _).
  destruct (run_ok rnd clk2 n) as (s2 & w2 & E2 & _).
  pose proof (run_stamped rnd clk1 n s1 w1 E1) as S1.
  pose proof (run_stamped rnd clk2 n s2 w2 E2) as S2.
  rewrite E1, E2 in H. destruct H as [[H1 H2 H3 H4 H5 H6 H7] ->].
  exists s1, s2, w2. auto 12.
Qed.

(** The record a due context shift appends carries a value of the clock. *)
Lemma tick_shift_id (rnd : nat -> Draw) (clk : nat -> Z) (s : State) (w : World) :
  state_ok s -> shiftDue (step s) = true ->
  yields (tick rnd clk s) w
    (fun s' _ => exists pre c k, contextShifts s' = (pre ++ [c])%list /\ shift_id c = clk k).
Proof.
  intros Hs Hdue.
  eapply yields_weaken; [apply (tick_stepped rnd clk s w Hs) |].
  intros s' w' (s0 & (shift & w0 & s1 & w1 & s2 & Hch & _ & _ & Hsh & ->) & ->).
  rewrite Hdue in Hch. destruct Hch as (x & _ & -> & _).
  destruct (recordMetrics_fields (agents s) (step s) s2) as (_ & _ & _ & F4 & _).
  eexists _, _, (clocks w1). simpl. rewrite F4, (sc_record _ _ _ _ _ _ _ _ Hsh).
  split; reflexivity.
Qed.

(** The claim of C1 fails on the ContextShift sequence: with the same values
    of [Math.random()], 101 ticks under two clocks give different
    sequences. *)
Lemma runs_differ_in_timestamps :
  exists s1 w1 s2 w2,
    run rnd_half clk_zero 101 = Some (s1, w1) /\
    run rnd_half clk_one 101 = Some (s2, w2) /\
    contextShifts s1 <> contextShifts s2.
Proof.
  destruct (run_ok rnd_half clk_zero 100) as (a1 & v1 & E1 & Ha1 & St1).
  destruct (run_ok rnd_half clk_one 100) as (a2 & v2 & E2 & Ha2 & St2).
  assert (D1 : shiftDue (step a1) = true) by (rewrite St1; reflexivity).
  assert (D2 : shiftDue (step a2) = true) by (rewrite St2; reflexivity).
  destruct (tick_shift_id rnd_half clk_zero a1 v1 Ha1 D1)
    as (s1 & w1 & T1 & pre1 & c1 & k1 & C1 & I1).
  destruct (tick_shift_id rnd_half clk_one a2 v2 Ha2 D2)
    as (s2 & w2 & T2 & pre2 & c2 & k2 & C2 & I2).
  exists s1, w1, s2, w2.
  rewrite (run_step rnd_half clk_zero 100 a1 v1 E1).
  rewrite (run_step rnd_half clk_one 100 a2 v2 E2).
  split; [exact T1 | split; [exact T2 |]].
  rewrite C1, C2. intro E. apply app_inj_tail in E. destruct E as [_ E].
  rewrite E in I1. rewrite I1 in I2. unfold clk_zero, clk_one in I2. discriminate.
Qed.

(** * Examples *)

Example distance_orthogonal :
  calculateVectorDistance [Fin 1; Fin 0; Fin 0] [Fin 0; Fin 1; Fin 0] = Fin 1.
Proof.
  destruct (distance_nonzero [1; 0; 0] [0; 1; 0]) as [E _];
    [reflexivity | simpl; lra | simpl; lra |].
  simpl map in E. rewrite E. f_equal. simpl.
  replace (1 * 0 + (0 * 1 + (0 * 0 + 0))) with 0 by lra.
  unfold Rdiv. rewrite Rmult_0_l. lra.
Qed.

Example distance_opposite :
  calculateVectorDistance [Fin 1; Fin 0; Fin 0] [Fin (-1); Fin 0; Fin 0] = Fin 2.
Proof.
  destruct (distance_nonzero [1; 0; 0] [-1; 0; 0]) as [E _];
    [reflexivity | simpl; lra | simpl; lra |].
  simpl map in E. rewrite E. f_equal. simpl.
  replace (1 * 1 + (0 * 0 + (0 * 0 + 0))) with 1 by lra.
  replace (-1 * -1 + (0 * 0 + (0 * 0 + 0))) with 1 by lra.
  replace (1 * -1 + (0 * 0 + (0 * 0 + 0))) with (-1) by lra.
  rewrite sqrt_1. lra.
Qed.

Example distance_same :
  calculateVectorDistance [Fin 3; Fin 4; Fin 0] [Fin 3; Fin 4; Fin 0] = Fin 0.
Proof. apply (distance_self [3; 4; 0]). simpl. lra. Qed.

Example slice_last_example : slice_last 2 [1; 2; 3]%nat = [2; 3]%nat.
Proof. reflexivity. Qed.

Example kind_of_half : kind_of_draw half = new_agent.
Proof. apply (shift_kind_thirds half). simpl. lra. Qed.

Example initialTrust_example :
  initialTrust 1 = [(0%nat, Fin 0.5); (2%nat, Fin 0.5); (3%nat, Fin 0.5)].
Proof. reflexivity. Qed.

Example recordPattern_pair :
  recordPattern ["α"; "β"]%string [] = [("α-β"%string, 1%Z)].
Proof. reflexivity. Qed.

Example recordPattern_single :
  recordPattern ["α"]%string [] = [].
Proof. reflexivity. Qed.

Example shiftDue_examples :
  shiftDue 0 = false /\ shiftDue 100 = true /\ shiftDue 150 = false /\ shiftDue 200 = true.
Proof. repeat split; reflexivity. Qed.

Example agentName_example : agentName 2 = "Agent-C"%string.
Proof. reflexivity. Qed.

(** * Further properties of the vector distance *)

Lemma dot_comm (a b : list R) : dot a b = dot b a.
Proof.
  revert b. induction a as [| x a IH]; intros [| y b]; simpl; try reflexivity.
  rewrite IH. ring.
Qed.

(** The distance of finite vectors of equal length does not depend on the
    order of its arguments. *)
Lemma distance_comm_reals (a b : list R) :
  List.length a = List.length b ->
  calculateVectorDistance (map Fin a) (map Fin b)
  = calculateVectorDistance (map Fin b) (map Fin a).
Proof.
  intro Hlen.
  rewrite (distance_reals a b Hlen), (distance_reals b a (eq_sym Hlen)).
  now rewrite (dot_comm a b), (Rmult_comm (sqrt (sumsq a))).
Qed.

(** X1. [calculateVectorDistance] is symmetric on vectors of numbers of the
    same length: exchanging its arguments does not change the result, be it
    a distance or [NaN]. *)
Theorem distance_symmetric (vec1 vec2 : list num) :
  Forall Num.is_fin vec1 -> Forall Num.is_fin vec2 ->
  List.length vec1 = List.length vec2 ->
  calculateVectorDistance vec1 vec2 = calculateVectorDistance vec2 vec1.
Proof.
  intros H1 H2 Hlen.
  destruct (finite_vector vec1 H1) as (a & ->).
  destruct (finite_vector vec2 H2) as (b & ->).
  rewrite !length_map in Hlen. exact (distance_comm_reals a b Hlen).
Qed.

Lemma distance_symmetric_witness :
  calculateVectorDistance [Fin 1; Fin 2; Fin 0] [Fin 0; Fin 1; Fin 3]
  = calculateVectorDistance [Fin 0; Fin 1; Fin 3] [Fin 1; Fin 2; Fin 0].
Proof.
  apply distance_symmetric; [repeat constructor | repeat constructor | reflexivity].
Defined.

Lemma reduce_past_end (vec2 : list num) (l : list num) :
  forall i acc,
    l <> [] -> (List.length vec2 < i + List.length l)%nat ->
    reduce_from (fun sum val i => Num.add sum (Num.mul val (at_index vec2 i))) i l acc = NaN.
Proof.
  induction l as [| x l IH]; intros i acc Hne Hlen; [congruence |].
  simpl. destruct l as [| y l].
  - simpl in *. unfold at_index. rewrite nth_overflow by lia.
    destruct x, acc; reflexivity.
  - apply IH; [discriminate | simpl in *; lia].
Qed.

(** X3. The second vector is read at every index of the first: when it is
    the shorter one, the components it lacks are [undefined] and the result
    is [NaN], whatever the vectors hold. *)
Theorem distance_short_second_vector (vec1 vec2 : list num) :
  (List.length vec2 < List.length vec1)%nat ->
  calculateVectorDistance vec1 vec2 = NaN.
Proof.
  intro Hlen. unfold calculateVectorDistance, reduce.
  rewrite (reduce_past_end vec2 vec1 0 (Fin 0)).
  - reflexivity.
  - destruct vec1; [simpl in Hlen; lia | discriminate].
  - simpl. exact Hlen.
Qed.

Lemma distance_short_second_vector_witness :
  calculateVectorDistance [Fin 1; Fin 0; Fin 0] [Fin 1; Fin 0] = NaN.
Proof. apply distance_short_second_vector. simpl. lia. Defined.

(** * Initialisation and reset in detail *)

Lemma foldM_preserves {A B : Type} (f : B -> A -> M B) (P : B -> Prop) (l : list A) :
  (forall b x w b' w', In x l -> P b -> f b x w = Some (b', w') -> P b') ->
  forall acc w acc' w', P acc -> foldM f l acc w = Some (acc', w') -> P acc'.
Proof.
  induction l as [| x l IH]; intros Hf acc w acc' w' Hacc E; simpl in E.
  - inversion E; subst. exact Hacc.
  - apply bind_Some in E. destruct E as (b & w1 & E1 & E2).
    apply (IH (fun b0 x0 w0 b1 w2 Hin => Hf b0 x0 w0 b1 w2 (or_intror Hin)) b w1 acc' w');
      [| exact E2].
    + eapply Hf; [left; reflexivity | exact Hacc | exact E1].
Qed.

Lemma foldM_draws {A B : Type} (f : B -> A -> M B) (k : nat) (l : list A) :
  (forall b x w b' w', f b x w = Some (b', w') ->
                       randoms w' = (randoms w + k)%nat /\ clocks w' = clocks w) ->
  forall acc w acc' w',
    foldM f l acc w = Some (acc', w') ->
    randoms w' = (randoms w + k * List.length l)%nat /\ clocks w' = clocks w.
Proof.
  intro Hf. induction l as [| x l IH]; intros acc w acc' w' E; simpl in E.
  - inversion E; subst. simpl. split; [lia | reflexivity].
  - apply bind_Some in E. destruct E as (b & w1 & E1 & E2).
    destruct (Hf _ _ _ _ _ E1) as [R1 C1]. destruct (IH _ _ _ _ E2) as [R2 C2].
    simpl. split; [lia | congruence].
Qed.

Lemma mapM_draws {A B : Type} (f : A -> M B) (k : nat) (l : list A) :
  (forall x w y w', f x w = Some (y, w') ->
                    randoms w' = (randoms w + k)%nat /\ clocks w' = clocks w) ->
  forall w l' w',
    mapM f l w = Some (l', w') ->
    randoms w' = (randoms w + k * List.length l)%nat /\ clocks w' = clocks w.
Proof.
  intro Hf. induction l as [| x l IH]; intros w l' w' E; simpl in E.
  - inversion E; subst. simpl. split; [lia | reflexivity].
  - apply bind_Some in E. destruct E as (y & w1 & E1 & E2).
    apply bind_Some in E2. destruct E2 as (ys & w2 & E2 & E3).
    inversion E3; subst.
    destruct (Hf _ _ _ _ E1) as [R1 C1]. destruct (IH _ _ _ E2) as [R2 C2].
    simpl. split; [lia | congruence].
Qed.

Lemma mapM_pointwise {A B : Type} (f : A -> M B) (R : A -> B -> Prop) (l : list A) :
  (forall x w y w', In x l -> f x w = Some (y, w') -> R x y) ->
  forall w l' w', mapM f l w = Some (l', w') -> Forall2 R l l'.
Proof.
  induction l as [| x l IH]; intros Hf w l' w' E; simpl in E.
  - inversion E; subst. constructor.
  - apply bind_Some in E. destruct E as (y & w1 & E1 & E2).
    apply bind_Some in E2. destruct E2 as (ys & w2 & E2 & E3).
    inversion E3; subst. constructor.
    + eapply Hf; [left; reflexivity | exact E1].
    + eapply (IH (fun x0 w0 y0 w3 Hin => Hf x0 w0 y0 w3 (or_intror Hin))). exact E2.
Qed.

Lemma Forall2_nth {A B : Type} (R : A -> B -> Prop) (l : list A) (l' : list B) :
  Forall2 R l l' ->
  forall i x y, nth_error l i = Some x -> nth_error l' i = Some y -> R x y.
Proof.
  induction 1 as [| a b l l' Hab Hl IH]; intros [| i] x y Hx Hy; simpl in *;
    try discriminate.
  - inversion Hx; inversion Hy; subst. exact Hab.
  - apply (IH i x y Hx Hy).
Qed.

Lemma newMapping_run (rnd : nat -> Draw) w :
  newMapping rnd w
  = Some ({| vector := [Fin (rnd (randoms w) * 2 - 1);
                        Fin (rnd (S (randoms w)) * 2 - 1);
                        Fin (rnd (S (S (randoms w))) * 2 - 1)];
             confidence := Fin (0.3 + rnd (S (S (S (randoms w)))) * 0.4);
             usageCount := Some 0%Z; lastUsed := Some 0%Z |},
          {| randoms := S (S (S (S (randoms w)))); clocks := clocks w |}).
Proof. reflexivity. Qed.

Lemma newMapping_initial (rnd : nat -> Draw) w m w' :
  newMapping rnd w = Some (m, w') ->
  mapping_initial m /\ randoms w' = (randoms w + 4)%nat /\ clocks w' = clocks w.
Proof.
  rewrite newMapping_run. intro E. inversion E; subst. simpl.
  split; [| split; [lia | reflexivity]].
  split; [| split; [| split; reflexivity]].
  - eexists _, _, _. split; [reflexivity |].
    pose proof (draw_range (rnd (randoms w))).
    pose proof (draw_range (rnd (S (randoms w)))).
    pose proof (draw_range (rnd (S (S (randoms w))))). lra.
  - eexists. split; [reflexivity |].
    pose proof (draw_range (rnd (S (S (S (randoms w)))))). lra.
Qed.

Lemma newMappings_unfold (rnd : nat -> Draw) :
  newMappings rnd
  = foldM (fun mappings symbol =>
             m <- newMapping rnd ;; ret (dict_set String.eqb mappings symbol m))
          symbols [].
Proof. reflexivity. Qed.

Lemma newMappings_initial (rnd : nat -> Draw) w ms w' :
  newMappings rnd w = Some (ms, w') ->
  map fst ms = symbols /\ Forall (fun e => mapping_initial (snd e)) ms /\
  randoms w' = (randoms w + 24)%nat /\ clocks w' = clocks w.
Proof.
  intro E.
  assert (Hk : map fst ms = symbols).
  { refine (yields_result (newMappings rnd) w (fun ms _ => map fst ms = symbols) ms w' _ E).
    apply newMappings_ok. auto. }
  split; [exact Hk |]. rewrite newMappings_unfold in E. split.
  - refine (foldM_preserves _ (Forall (fun e => mapping_initial (snd e))) symbols _
              [] w ms w' (Forall_nil _) E).
    intros b x w0 b' w1 _ Hb E1.
    apply bind_Some in E1. destruct E1 as (m & w2 & E1 & E2). inversion E2; subst.
    apply (dict_set_Forall String.eqb mapping_initial); [exact Hb |].
    apply (newMapping_initial rnd w0 m w1 E1).
  - refine (foldM_draws _ 4 symbols _ [] w ms w' E).
    intros b x w0 b' w1 E1.
    apply bind_Some in E1. destruct E1 as (m & w2 & E1 & E2). inversion E2; subst.
    apply (newMapping_initial rnd w0 m w1 E1).
Qed.

(** The trust table of a fresh agent: 0.5 toward each of the other agents
    among the four, nothing toward itself. *)
Lemma initialTrust_lookup (i j : nat) :
  dict_get Nat.eqb (initialTrust i) j
  = if (j <? 4)%nat && negb (j =? i)%nat then Some (Fin 0.5) else None.
Proof.
  destruct i as [| [| [| [| i]]]];
    destruct j as [| [| [| [| j]]]]; reflexivity.
Qed.

Lemma freshAgent_run (rnd : nat -> Draw) (i : nat) (nm : string) w :
  freshAgent rnd i nm w
  = match newMappings rnd w with
    | Some (mappings, w1) =>
        Some ({| id := i; name := nm;
                 symbolMappings := mappings;
                 trustScores := initialTrust i;
                 memory := [];
                 adaptability := Fin (0.2 + rnd (randoms w1) * 0.6);
                 convergenceSpeed := Fin (0.1 + rnd (S (randoms w1)) * 0.3);
                 forgettingRate := Fin (0.001 + rnd (S (S (randoms w1))) * 0.004) |},
              {| randoms := S (S (S (randoms w1))); clocks := clocks w1 |})
    | None => None
    end.
Proof.
  unfold freshAgent, bind. destruct (newMappings rnd w) as [[ms w1]|]; reflexivity.
Qed.

Lemma freshAgent_initial (rnd : nat -> Draw) (i : nat) (nm : string) w a w' :
  freshAgent rnd i nm w = Some (a, w') ->
  agent_initial i nm a /\ randoms w' = (randoms w + 27)%nat /\ clocks w' = clocks w.
Proof.
  rewrite freshAgent_run.
  destruct (newMappings rnd w) as [[ms w1]|] eqn:E1; [| discriminate].
  destruct (newMappings_initial rnd w ms w1 E1) as (Hk & Hm & Hr & Hc).
  intro E. inversion E; subst. simpl.
  split; [| split; [lia | exact Hc]].
  constructor; simpl; auto.
  - intro j. apply (initialTrust_lookup i j).
  - eexists. split; [reflexivity |]. draw_range_tac; lra.
  - eexists. split; [reflexivity |]. draw_range_tac; lra.
  - eexists. split; [reflexivity |]. draw_range_tac; lra.
Qed.

Lemma freshAgent_defined (rnd : nat -> Draw) (i : nat) (nm : string) w :
  exists a w', freshAgent rnd i nm w = Some (a, w').
Proof.
  rewrite freshAgent_run.
  destruct (newMappings_ok rnd w (fun _ _ => True)) as (ms & w1 & E & _); [auto |].
  rewrite E. eauto.
Qed.

(** A population made by [freshAgent] from a list of identities. *)
Lemma freshAgents_initial {A : Type} (rnd : nat -> Draw) (idx : A -> nat) (nm : A -> string)
  (l : list A) w :
  exists l' w',
    mapM (fun x => freshAgent rnd (idx x) (nm x)) l w = Some (l', w') /\
    Forall2 (fun x a => agent_initial (idx x) (nm x) a) l l' /\
    randoms w' = (randoms w + 27 * List.length l)%nat /\ clocks w' = clocks w.
Proof.
  destruct (yields_mapM (fun x => freshAgent rnd (idx x) (nm x)) l
              (fun _ _ => True) (fun _ _ _ => True) w I) as (l' & w' & E & _).
  { intros k x w0 _ _. destruct (freshAgent_defined rnd (idx x) (nm x) w0) as (a & w1 & E).
    exists a, w1. auto. }
  exists l', w'. split; [exact E |]. split.
  - refine (mapM_pointwise _ _ l _ w l' w' E).
    intros x w0 a w1 _ E1. apply (freshAgent_initial rnd _ _ w0 a w1 E1).
  - refine (mapM_draws _ 27 l _ w l' w' E).
    intros x w0 a w1 E1. apply (freshAgent_initial rnd _ _ w0 a w1 E1).
Qed.

Lemma initAgents_unfold (rnd : nat -> Draw) :
  initAgents rnd = mapM (fun i => freshAgent rnd i (agentName i)) (seq 0 4).
Proof. reflexivity. Qed.

Lemma Forall2_length_eq {A B : Type} (R : A -> B -> Prop) (l : list A) (l' : list B) :
  Forall2 R l l' -> List.length l' = List.length l.
Proof. induction 1; simpl; congruence. Qed.

(** The state of the mounted component. *)
Lemma mount_initial (rnd : nat -> Draw) (w : World) :
  yields (mount rnd) w
    (fun s w' =>
       List.length (agents s) = 4%nat /\
       (forall i a, nth_error (agents s) i = Some a -> agent_initial i (agentName i) a) /\
       step s = 0%Z /\ communications s = [] /\ driftHistory s = [] /\
       alignmentHistory s = [] /\ syntaxPatterns s = [] /\ contextShifts s = [] /\
       randoms w' = (randoms w + 108)%nat /\ clocks w' = clocks w).
Proof.
  destruct (freshAgents_initial rnd (fun i => i) agentName (seq 0 4) w)
    as (l & w' & E & Hall & Hr & Hc).
  unfold mount. rewrite initAgents_unfold. apply yields_bind.
  exists l, w'. split; [exact E |]. apply yields_ret. simpl.
  pose proof (Forall2_length_eq _ _ _ Hall) as Hlen.
  split; [exact Hlen |]. split; [| auto 10].
  intros i a Ha.
  destruct (nth_error_same_length (seq 0 4) l i a Hlen Ha) as (x & Hx).
  pose proof (Forall2_nth _ _ _ Hall i x a Hx Ha) as Hin.
  apply seq_nth_error in Hx. destruct Hx as [-> _]. exact Hin.
Qed.



(** * Forgetting, idle rounds and context shifts in detail *)

Lemma mapM_unchanged {A : Type} (f : A -> M A) (l : list A) :
  (forall x w, In x l -> f x w = Some (x, w)) ->
  forall w, mapM f l w = Some (l, w).
Proof.
  induction l as [| x l IH]; intros Hf w; [reflexivity |].
  simpl. unfold bind. rewrite (Hf x w (or_introl eq_refl)).
  rewrite (IH (fun y w0 Hin => Hf y w0 (or_intror Hin)) w). reflexivity.
Qed.

Lemma forgetAgent_recent (rnd : nat -> Draw) (st : Z) (a : Agent) w :
  (forall symbol m, In (symbol, m) (symbolMappings a) ->
                    exists u, lastUsed m = Some u /\ (st - u <= 20)%Z) ->
  forgetAgent rnd st a w = Some (a, w).
Proof.
  intro H. unfold forgetAgent, bind.
  rewrite mapM_unchanged.
  - destruct a; reflexivity.
  - intros [symbol m] w0 Hin. destruct (H symbol m Hin) as (u & Hu & Hle).
    unfold bind, forget, pastThreshold. simpl. rewrite Hu.
    replace (20 <? st - u)%Z with false by (symmetry; apply Z.ltb_ge; lia).
    reflexivity.
Qed.

Lemma applyForgetting_recent (rnd : nat -> Draw) (st : Z) (l : list Agent) w :
  recently_used st l -> applyForgetting rnd st l w = Some (l, w).
Proof.
  intro H. unfold applyForgetting. apply mapM_unchanged.
  intros a w0 Hin. apply forgetAgent_recent.
  intros symbol m Hm. apply (H a symbol m Hin Hm).
Qed.

Lemma sample_recently_used (st : Z) : (st <= 20)%Z -> recently_used st sampleAgents.
Proof.
  intros Hst a symbol m Ha Hm.
  unfold sampleAgents in Ha. apply in_map_iff in Ha. destruct Ha as (i & <- & _).
  simpl in Hm.
  repeat (destruct Hm as [Hm | Hm];
          [inversion Hm; subst; exists 0%Z; split; [reflexivity | lia] |]).
  contradiction.
Qed.

(** X7. Forgetting spares what was used recently: when every mapping of the
    population was last used at most twenty steps before the current step,
    the forgetting pass returns the population as it is and takes no value
    of [Math.random()]. *)
Theorem forgetting_spares_recent (rnd : nat -> Draw) (st : Z) (l : list Agent) (w : World) :
  recently_used st l -> applyForgetting rnd st l w = Some (l, w).
Proof.
  intro H. unfold applyForgetting. apply mapM_unchanged.
  intros a w0 Hin. apply forgetAgent_recent.
  intros symbol m Hm. apply (H a symbol m Hin Hm).
Qed.

Lemma forgetting_spares_recent_witness :
  applyForgetting rnd_half 20 sampleAgents world0 = Some (sampleAgents, world0).
Proof.
  apply forgetting_spares_recent. apply sample_recently_used. lia.
Defined.

(** X8. Forgetting a mapping that was last used more than twenty steps ago
    multiplies its confidence by [1 - forgettingRate] of the agent, a factor
    between 0.995 and 0.999; adds to component [k] of its vector the noise
    [(Math.random() - 0.5) * 0.01] of draw [k], at most 0.005 either way;
    leaves both usage counters as they were, so that the mapping is
    forgotten again at every step until it is used; and takes three values
    of [Math.random()]. *)
Theorem forgetting_decays (rnd : nat -> Draw) (st : Z) (i : nat) (a : Agent)
  (m : SymbolMapping) (w : World) :
  agent_ok i a -> mapping_ok m -> pastThreshold st m = true ->
  exists m',
    forget rnd st a m w
    = Some (m', {| randoms := randoms w + 3; clocks := clocks w |}) /\
    usageCount m' = usageCount m /\ lastUsed m' = lastUsed m /\
    pastThreshold (st + 1) m' = true /\
    (exists c f,
        confidence m = Fin c /\ forgettingRate a = Fin f /\
        confidence m' = Fin (c * (1 - f)) /\
        0.995 <= 1 - f <= 0.999 /\ 0 <= c * (1 - f) <= c) /\
    List.length (vector m') = 3%nat /\
    forall k x, nth_error (vector m) k = Some (Fin x) ->
                nth_error (vector m') k
                = Some (Fin (x + (rnd (randoms w + k)%nat - 0.5) * 0.01)) /\
                -0.005 <= (rnd (randoms w + k)%nat - 0.5) * 0.01 <= 0.005.
Proof.
  intros Hok [[Hlen Hfin] Hc] Hpast.
  unfold forget, bind. rewrite Hpast, jitter_run, Hlen.
  eexists. split; [reflexivity |]. simpl.
  split; [reflexivity |]. split; [reflexivity |]. split; [| split; [| split]].
  - unfold pastThreshold in *. simpl. destruct (lastUsed m) as [u|]; [| discriminate].
    apply Z.ltb_lt in Hpast. apply Z.ltb_lt. lia.
  - pose proof (ok_forgettingRate i a Hok) as Hf.
    destruct (confidence m) as [c|], (forgettingRate a) as [f|]; simpl in *; try tauto.
    exists c, f. split; [reflexivity |]. split; [reflexivity |].
    split; [reflexivity |]. split; [lra | nra].
  - now rewrite mapi_from_length.
  - intros k x Hk. rewrite (mapi_from_nth _ _ _ _ _ Hk). simpl.
    split; [reflexivity |].
    pose proof (noise_bound (rnd (randoms w + k)%nat) 0.01 ltac:(lra)). lra.
Qed.

Lemma forgetting_decays_witness :
  exists m',
    forget rnd_half 21 (sampleAgent 0) sampleMapping world0
    = Some (m', {| randoms := 3; clocks := 0 |}) /\
    usageCount m' = Some 0%Z /\ lastUsed m' = Some 0%Z /\
    exists c f,
      confidence sampleMapping = Fin c /\ forgettingRate (sampleAgent 0) = Fin f /\
      confidence m' = Fin (c * (1 - f)).
Proof.
  destruct (forgetting_decays rnd_half 21 0 (sampleAgent 0) sampleMapping world0)
    as (m' & E & Hu & Hl & _ & (c & f & Hc & Hf & Hc' & _) & _).
  - apply sampleAgent_ok. lia.
  - split; [split; [reflexivity | repeat constructor] | simpl; lra].
  - reflexivity.
  - exists m'. split; [exact E |]. split; [exact Hu |]. split; [exact Hl |].
    exists c, f. auto.
Defined.

Lemma kind_of_draw_other (d : Draw) :
  1 / 3 <= d ->
  kind_of_draw d = (if Rlt_dec d (2 / 3) then new_agent else task_change).
Proof.
  intro Hd. destruct (shift_kind_thirds d) as (H1 & H2 & H3).
  unfold kind_of_draw.
  destruct (Rlt_dec d (2 / 3)) as [Hlt | Hge].
  - apply H2. lra.
  - apply H3. lra.
Qed.

(** X9. Two of the three kinds of context shift only write the log: when
    the draw that picks the kind is at least 1/3, the kind is [new_agent]
    (below 2/3) or [task_change], and [triggerContextShift] returns the
    state it was given with one record appended to the shift log.  No agent
    is added, removed or changed, whatever the state; one value of
    [Math.random()] and one of [Date.now()] are taken. *)
Theorem shift_without_redefinition (rnd : nat -> Draw) (clk : nat -> Z) (s : State)
  (w : World) :
  1 / 3 <= rnd (randoms w) ->
  triggerContextShift rnd clk s w
  = Some ({| step := step s; agents := agents s; communications := communications s;
             driftHistory := driftHistory s; alignmentHistory := alignmentHistory s;
             syntaxPatterns := syntaxPatterns s;
             contextShifts :=
               (contextShifts s ++
                  [{| shift_step := step s;
                      shift_type := if Rlt_dec (rnd (randoms w)) (2 / 3)
                                    then new_agent else task_change;
                      shift_id := clk (clocks w) |}])%list |},
          {| randoms := S (randoms w); clocks := S (clocks w) |}).
Proof.
  intro Hd. pose proof (kind_of_draw_other (rnd (randoms w)) Hd) as Hk.
  unfold kind_of_draw in Hk.
  unfold triggerContextShift, chooseShift, applyShift, randomIndex, bind, random, ret, now.
  cbv beta iota. cbn [randoms clocks].
  rewrite Hk. destruct (Rlt_dec (rnd (randoms w)) (2 / 3)); reflexivity.
Qed.

Lemma shift_without_redefinition_witness :
  contextShifts emptyState = [] /\
  exists s' w',
    triggerContextShift rnd_half clk_one emptyState world0 = Some (s', w') /\
    agents s' = [] /\
    contextShifts s' = [{| shift_step := 0; shift_type := new_agent; shift_id := 1 |}].
Proof.
  split; [reflexivity |].
  eexists _, _. split.
  - apply shift_without_redefinition. unfold rnd_half, half. simpl. lra.
  - split; [reflexivity |]. simpl.
    destruct (Rlt_dec (1 / 2) (2 / 3)) as [_ | N]; [reflexivity | exfalso; lra].
Defined.

Lemma with_agents_same (s : State) : with_agents s (agents s) = s.
Proof. destruct s; reflexivity. Qed.

Lemma exchangeRound_idle (rnd : nat -> Draw) (clk : nat -> Z) (s : State) (w : World) :
  recently_used (step s) (agents s) ->
  index_of_draw (List.length (agents s)) (rnd (randoms w))
  = index_of_draw (List.length (agents s)) (rnd (S (randoms w))) ->
  exchangeRound rnd clk s w
  = Some (s, {| randoms := S (S (randoms w)); clocks := clocks w |}).
Proof.
  intros Hrec Hidx. unfold exchangeRound, bind.
  rewrite (applyForgetting_recent rnd (step s) (agents s) w Hrec).
  unfold randomIndex, bind, random, ret. cbn [randoms clocks].
  unfold index_of_draw in Hidx. rewrite Hidx, Nat.eqb_refl, with_agents_same.
  reflexivity.
Qed.

(** X10. A tick whose two index draws name the same agent is idle.  On a
    populated state whose mappings were all used within the last twenty
    steps, at a step where no context shift is due, it exchanges nothing:
    agents, communication log, syntax patterns and shift log stay as they
    are; the metrics of the unchanged population are appended and the step
    counter is incremented; two values of [Math.random()] are taken and
    none of [Date.now()]. *)
Theorem idle_tick (rnd : nat -> Draw) (clk : nat -> Z) (s : State) (w : World) :
  agents s <> [] ->
  recently_used (step s) (agents s) ->
  shiftDue (step s) = false ->
  index_of_draw (List.length (agents s)) (rnd (randoms w))
  = index_of_draw (List.length (agents s)) (rnd (S (randoms w))) ->
  tick rnd clk s w
  = Some (with_step (calculateDriftMetrics s) (step s + 1)%Z,
          {| randoms := S (S (randoms w)); clocks := clocks w |}).
Proof.
  intros Hne Hrec Hdue Hidx. unfold tick, simulateStep, calculateDriftMetrics.
  destruct (agents s) as [| a0 l0] eqn:Ea; [congruence |].
  rewrite <- Ea in *. rewrite Hdue. unfold bind, ret.
  rewrite (exchangeRound_idle rnd clk s w Hrec Hidx). reflexivity.
Qed.

Lemma idle_tick_witness :
  tick rnd_half clk_zero sampleState world0
  = Some (with_step (calculateDriftMetrics sampleState) 1,
          {| randoms := 2; clocks := 0 |}).
Proof.
  apply (idle_tick rnd_half clk_zero sampleState world0).
  - discriminate.
  - apply sample_recently_used. simpl. lia.
  - reflexivity.
  - reflexivity.
Defined.
(** * The metrics *)

Lemma vectorOf_ok i (a : Agent) (symbol : string) :
  agent_ok i a -> In symbol symbols -> vector_ok (vectorOf a symbol).
Proof.
  intros Hok Hin. unfold vectorOf.
  destruct (get_mapping_defined i a symbol Hok Hin) as (m & -> & Hm & _). exact Hm.
Qed.

Lemma agentPairs_In (l : list Agent) (p : Agent * Agent) :
  In p (agentPairs l) -> In (fst p) l /\ In (snd p) l.
Proof.
  induction l as [| a l IH]; simpl; [tauto |].
  intro H. apply in_app_or in H. destruct H as [H | H].
  - apply in_map_iff in H. destruct H as (b & <- & Hb). simpl. auto.
  - destruct (IH H). auto.
Qed.

(** * The logs of a run *)

(** Induction over the ticks of a run. *)
Lemma run_induction (rnd : nat -> Draw) (clk : nat -> Z) (Inv : nat -> State -> Prop) :
  (forall s w, mount rnd {| randoms := 0; clocks := 0 |} = Some (s, w) -> Inv 0%nat s) ->
  (forall n s w s' w',
      state_ok s -> step s = Z.of_nat n -> Inv n s ->
      tick rnd clk s w = Some (s', w') -> Inv (S n) s') ->
  forall n, exists s w,
      run rnd clk n = Some (s, w) /\ state_ok s /\ step s = Z.of_nat n /\ Inv n s.
Proof.
  intros H0 HS n. induction n as [| n IH].
  - destruct (run_ok rnd clk 0) as (s & w & E & Hs & Hst).
    exists s, w. split; [exact E | split; [exact Hs | split; [exact Hst |]]].
    apply (H0 s w). apply run_zero_mount with (clk := clk). exact E.
  - destruct IH as (s & w & E & Hs & Hst & HI).
    destruct (run_ok rnd clk (S n)) as (s' & w' & E' & Hs' & Hst').
    exists s', w'. split; [exact E' | split; [exact Hs' | split; [exact Hst' |]]].
    rewrite (run_step rnd clk n s w E) in E'.
    apply (HS n s w s' w' Hs Hst HI E').
Qed.

(** What one tick writes to the histories and to the shift log. *)
Lemma tick_logs (rnd : nat -> Draw) (clk : nat -> Z) (s : State) (w : World) :
  state_ok s ->
  yields (tick rnd clk s) w
    (fun s' _ =>
       driftHistory s'
       = (slice_last 99 (driftHistory s)
            ++ [{| drift_step := step s; drift := avgDrift (agents s) |}])%list /\
       alignmentHistory s'
       = (slice_last 99 (alignmentHistory s)
            ++ [{| align_step := step s;
                   alignment := alignment_of (avgDrift (agents s)) |}])%list /\
       map shift_step (contextShifts s')
       = (map shift_step (contextShifts s)
            ++ (if shiftDue (step s) then [step s] else []))%list).
Proof.
  intro Hs.
  eapply yields_weaken; [apply (tick_stepped rnd clk s w Hs) |].
  intros s' w' (s0 & (shift & w0 & s1 & w1 & s2 & Hch & _ & Hex & Hsh & ->) & ->).
  destruct (recordMetrics_fields (agents s) (step s) s2) as (_ & _ & _ & F4 & _).
  assert (H2 : driftHistory s2 = driftHistory s /\
               alignmentHistory s2 = alignmentHistory s /\
               map shift_step (contextShifts s2)
               = (map shift_step (contextShifts s)
                    ++ (if shiftDue (step s) then [step s] else []))%list).
  { destruct Hex as [X1 _ _ X4 X5 X6 X7 _].
    destruct (shiftDue (step s)).
    - destruct Hch as (x & _ & -> & _).
      destruct Hsh as [Y1 Y2 _ Y4 Y5 _ Y6 _ _ _].
      rewrite Y1, Y4, Y5, X5, X6, X7, map_app. simpl. auto.
    - destruct Hch as [-> _]. destruct Hsh as [-> _].
      rewrite X5, X6, X7, app_nil_r. auto. }
  destruct H2 as (Hd & Ha & Hc).
  destruct (recordMetrics_histories (agents s) (step s) s2
              (agents_ok_nonempty _ (ok_agents s Hs))) as [Ed Ea].
  unfold with_step. cbn [driftHistory alignmentHistory contextShifts].
  rewrite Ed, Ea, F4, Hd, Ha, Hc. auto.
Qed.

Lemma steps_taken_S (n : nat) :
  steps_taken (S n) = (steps_taken n ++ [Z.of_nat n])%list.
Proof. unfold steps_taken. rewrite seq_S, map_app. reflexivity. Qed.

Lemma slice_last_slice {A : Type} (n m : nat) (l : list A) :
  (n <= m)%nat -> slice_last n (slice_last m l) = slice_last n l.
Proof.
  intro Hle. unfold slice_last. rewrite skipn_skipn, length_skipn.
  f_equal. lia.
Qed.

Lemma Forall2_skipn {A B : Type} (R : A -> B -> Prop) (k : nat) :
  forall (l : list A) (l' : list B),
    Forall2 R l l' -> Forall2 R (skipn k l) (skipn k l').
Proof.
  induction k as [| k IH]; intros l l' H; [exact H |].
  destruct H as [| x y l l' Hxy H]; simpl; [constructor | apply IH, H].
Qed.

Lemma Forall2_slice_last {A B : Type} (R : A -> B -> Prop) (n : nat)
  (l : list A) (l' : list B) :
  Forall2 R l l' -> Forall2 R (slice_last n l) (slice_last n l').
Proof.
  intro H. unfold slice_last. rewrite (Forall2_length_eq R l l' H).
  apply Forall2_skipn, H.
Qed.

Lemma shift_steps_of_run (rnd : nat -> Draw) (clk : nat -> Z) (n : nat) :
  exists s w,
    run rnd clk n = Some (s, w) /\ state_ok s /\ step s = Z.of_nat n /\
    map shift_step (contextShifts s) = filter shiftDue (steps_taken n).
Proof.
  apply (run_induction rnd clk
           (fun n s => map shift_step (contextShifts s) = filter shiftDue (steps_taken n))).
  - intros s w E.
    destruct (yields_result _ _ _ s w (mount_initial rnd _) E)
      as (_ & _ & _ & _ & _ & _ & _ & Hc & _).
    rewrite Hc. reflexivity.
  - intros k s w s' w' Hs Hst IH E.
    destruct (yields_result _ _ _ s' w' (tick_logs rnd clk s w Hs) E)
      as (_ & _ & Hc).
    rewrite Hc, IH, steps_taken_S, filter_app, Hst. simpl.
    destruct (shiftDue (Z.of_nat k)); reflexivity.
Qed.

(** X12. The shift log of a run: after [n] ticks from the mounted
    component it holds one record for each of the steps [0], ..., [n - 1]
    at which a shift was due (the positive multiples of 100), in order, and
    nothing else; the log is never trimmed. *)
Theorem shift_log_of_run (rnd : nat -> Draw) (clk : nat -> Z) (n : nat) :
  exists s w,
    run rnd clk n = Some (s, w) /\
    map shift_step (contextShifts s) = filter shiftDue (steps_taken n).
Proof.
  destruct (shift_steps_of_run rnd clk n) as (s & w & E & _ & _ & H).
  exists s, w. auto.
Qed.

(** After 500 ticks the steps taken are 0 to 499 and the log holds four
    records. *)
Example shift_log_after_500 (rnd : nat -> Draw) (clk : nat -> Z) :
  exists s w,
    run rnd clk 500 = Some (s, w) /\
    map shift_step (contextShifts s) = [100; 200; 300; 400]%Z.
Proof.
  destruct (shift_steps_of_run rnd clk 500) as (s & w & E & _ & _ & H).
  exists s, w. split; [exact E |]. rewrite H.
  vm_compute. reflexivity.
Qed.

Lemma histories_of_run (rnd : nat -> Draw) (clk : nat -> Z) (n : nat) :
  exists s w,
    run rnd clk n = Some (s, w) /\ state_ok s /\ step s = Z.of_nat n /\
    (map drift_step (driftHistory s) = slice_last 100 (steps_taken n) /\
     Forall2 samples_ok (driftHistory s) (alignmentHistory s)).
Proof.
  apply (run_induction rnd clk
           (fun n s => map drift_step (driftHistory s) = slice_last 100 (steps_taken n) /\
                       Forall2 samples_ok (driftHistory s) (alignmentHistory s))).
  - intros s w E.
    destruct (yields_result _ _ _ s w (mount_initial rnd _) E)
      as (_ & _ & _ & _ & Hd & Ha & _).
    rewrite Hd, Ha. split; [reflexivity | constructor].
  - intros k s w s' w' Hs Hst [IH1 IH2] E.
    destruct (yields_result _ _ _ s' w' (tick_logs rnd clk s w Hs) E)
      as (Hd & Ha & _).
    rewrite Hd, Ha. split.
    + rewrite map_app, steps_taken_S, <- slice_last_snoc. simpl. rewrite Hst.
      f_equal. unfold slice_last at 1.
      rewrite <- (length_map drift_step), <- skipn_map.
      change (slice_last 99 (map drift_step (driftHistory s))
              = slice_last 99 (steps_taken k)).
      rewrite IH1. apply slice_last_slice. lia.
    + apply Forall2_app; [apply Forall2_slice_last, IH2 |].
      constructor; [| constructor].
      split; reflexivity.
Qed.

(** X13. The histories of a run: after [n] ticks the drift history holds
    one sample for each of the last 100 steps taken, in order, and the
    alignment history one sample for each of the same steps; so each holds
    [n] samples up to 100, and 100 from then on. *)
Theorem history_steps_of_run (rnd : nat -> Draw) (clk : nat -> Z) (n : nat) :
  exists s w,
    run rnd clk n = Some (s, w) /\
    map drift_step (driftHistory s) = slice_last 100 (steps_taken n) /\
    map align_step (alignmentHistory s) = slice_last 100 (steps_taken n) /\
    List.length (driftHistory s) = Nat.min 100 n /\
    List.length (alignmentHistory s) = Nat.min 100 n.
Proof.
  destruct (histories_of_run rnd clk n) as (s & w & E & _ & _ & Hd & Hall).
  exists s, w. split; [exact E |]. split; [exact Hd |].
  assert (Ha : map align_step (alignmentHistory s) = map drift_step (driftHistory s)).
  { clear Hd. induction Hall as [| d a ld la (H1 & _) _ IH]; [reflexivity |].
    simpl. now rewrite H1, IH. }
  assert (Hlen : List.length (driftHistory s) = Nat.min 100 n).
  { rewrite <- (length_map drift_step), Hd, slice_last_length.
    unfold steps_taken. now rewrite length_map, length_seq. }
  split; [now rewrite Ha |]. split; [exact Hlen |].
  now rewrite (Forall2_length_eq _ _ _ Hall).
Qed.

(** [Math.max(0, x)] is [NaN] or not negative. *)
Lemma alignment_of_clamped (d : num) :
  alignment_of d = NaN \/ Num.le (Fin 0) (alignment_of d).
Proof.
  destruct d as [x |]; [right | left; reflexivity].
  unfold alignment_of. simpl. apply Rmax_l.
Qed.

(** X14. The samples of a run.  The tick taken at step [n] measures the
    agents as they are before it, not as it leaves them: it appends the
    average drift of the population of step [n], and the alignment
    [Math.max(0, (1 - drift) * 100)] computed from that drift.  So in every
    history entry the alignment is the one computed from the drift of the
    same position and step, and it is [NaN] or not negative. *)
Theorem metric_samples_of_run (rnd : nat -> Draw) (clk : nat -> Z) (n : nat) :
  exists s w s' w',
    run rnd clk n = Some (s, w) /\ run rnd clk (S n) = Some (s', w') /\
    driftHistory s'
    = (slice_last 99 (driftHistory s)
         ++ [{| drift_step := Z.of_nat n; drift := avgDrift (agents s) |}])%list /\
    alignmentHistory s'
    = (slice_last 99 (alignmentHistory s)
         ++ [{| align_step := Z.of_nat n;
                alignment := Num.max (Fin 0)
                               (Num.mul (Num.sub (Fin 1) (avgDrift (agents s)))
                                        (Fin 100)) |}])%list /\
    Forall2 (fun d a =>
               align_step a = drift_step d /\
               alignment a
               = Num.max (Fin 0) (Num.mul (Num.sub (Fin 1) (drift d)) (Fin 100)) /\
               (alignment a = NaN \/ Num.le (Fin 0) (alignment a)))
            (driftHistory s') (alignmentHistory s').
Proof.
  destruct (histories_of_run rnd clk n) as (s & w & E & Hs & Hst & _).
  destruct (histories_of_run rnd clk (S n)) as (s' & w' & E' & _ & _ & _ & Hall).
  exists s, w, s', w'. split; [exact E |]. split; [exact E' |].
  rewrite (run_step rnd clk n s w E) in E'.
  destruct (yields_result _ _ _ s' w' (tick_logs rnd clk s w Hs) E') as (Hd & Ha & _).
  rewrite Hst in Hd, Ha.
  split; [exact Hd |]. split; [exact Ha |].
  eapply Forall2_impl; [| exact Hall].
  intros d a (H1 & H2). split; [exact H1 |]. split; [exact H2 |].
  rewrite H2. apply alignment_of_clamped.
Qed.
(** * The stages of a tick *)

Lemma communicate_stages (rnd : nat -> Draw) (clk : nat -> Z) (s : State) (l : list Agent)
  (sender receiver : nat) (w : World) (s' : State) (w' : World) :
  communicate rnd clk s l sender receiver w = Some (s', w') ->
  exists sequence w1 avg r l',
    drawSequence rnd w = Some (sequence, w1) /\
    avgDistance l sender receiver sequence = Some avg /\
    nth_error (agents s') receiver = Some r /\
    foldM (adaptSymbol rnd (step s) sender receiver (Num.ltb avg (Fin 0.5))) sequence l
          {| randoms := randoms w1; clocks := S (clocks w1) |} = Some (l', w') /\
    s' = {| step := step s;
            agents :=
              list_update
                (list_update l' sender
                   (remember {| mem_step := step s; mem_action := sent;
                                mem_sequence := sequence;
                                mem_success := Num.ltb avg (Fin 0.5);
                                mem_partner := receiver |}))
                receiver
                (remember {| mem_step := step s; mem_action := received;
                             mem_sequence := sequence;
                             mem_success := Num.ltb avg (Fin 0.5);
                             mem_partner := sender |});
            communications :=
              (slice_last 29 (communications s) ++
                 [{| comm_id := clk (clocks w1); comm_sender := sender;
                     comm_receiver := receiver; comm_sequence := sequence;
                     comm_success := Num.ltb avg (Fin 0.5); comm_step := step s;
                     comm_distance := avg; comm_trustBefore := get_trust r sender;
                     comm_sequenceLength := List.length sequence |}])%list;
            driftHistory := driftHistory s; alignmentHistory := alignmentHistory s;
            syntaxPatterns := recordPattern sequence (syntaxPatterns s);
            contextShifts := contextShifts s |}.
Proof.
  unfold communicate, bind, now.
  destruct (drawSequence rnd w) as [[sequence w1]|] eqn:Ed; [| discriminate].
  destruct (avgDistance l sender receiver sequence) as [avg|] eqn:Ea; [| discriminate].
  cbv beta iota. cbn [defined ret].
  destruct (foldM _ sequence l _) as [[l' w2]|] eqn:Ef; [| discriminate].
  destruct (nth_error _ receiver) as [r|] eqn:Er; [| discriminate]. cbn [defined ret].
  intro E. unfold ret in E. inversion E; subst s' w'.
  exists sequence, w1, avg, r, l'.
  split; [reflexivity | split; [exact Ea | split; [exact Er | split; [exact Ef |]]]].
  reflexivity.
Qed.

Lemma exchangeRound_stages (rnd : nat -> Draw) (clk : nat -> Z) (s : State)
  (w : World) (s1 : State) (w1 : World) :
  exchangeRound rnd clk s w = Some (s1, w1) ->
  exists l w0,
    applyForgetting rnd (step s) (agents s) w = Some (l, w0) /\
    let sender := index_of_draw (List.length l) (rnd (randoms w0)) in
    let receiver := index_of_draw (List.length l) (rnd (S (randoms w0))) in
    let w2 := {| randoms := S (S (randoms w0)); clocks := clocks w0 |} in
    if Nat.eqb sender receiver then s1 = with_agents s l /\ w1 = w2
    else communicate rnd clk s l sender receiver w2 = Some (s1, w1).
Proof.
  unfold exchangeRound, bind.
  destruct (applyForgetting rnd (step s) (agents s) w) as [[l w0]|]; [| discriminate].
  unfold randomIndex, bind, random, ret. cbn [randoms clocks].
  intro E. exists l, w0. split; [reflexivity |]. cbv zeta. unfold index_of_draw.
  destruct (Nat.eqb _ _); [inversion E; auto | exact E].
Qed.

(** The stages of a tick on a populated state: the draws of a due context
    shift, the exchange round, the updaters of the shift, the samples. *)
Lemma tick_stages (rnd : nat -> Draw) (clk : nat -> Z) (s : State) (w : World)
  (s' : State) (w' : World) :
  agents s <> [] ->
  tick rnd clk s w = Some (s', w') ->
  exists (shift : option (ShiftType * option string)) w0 s1 w1 s2,
    (if shiftDue (step s)
     then exists x, chooseShift rnd w = Some (x, w0) /\ shift = Some x
     else shift = None /\ w0 = w) /\
    exchangeRound rnd clk s w0 = Some (s1, w1) /\
    match shift with
    | Some x => applyShift rnd clk (step s) x s1 w1 = Some (s2, w')
    | None => s2 = s1 /\ w' = w1
    end /\
    s' = with_step (recordMetrics (agents s) (step s) s2) (step s + 1)%Z.
Proof.
  intros Hne. unfold tick, simulateStep.
  destruct (agents s) as [| a0 l0] eqn:Ea; [congruence |]. rewrite <- Ea. clear Ea.
  intro E.
  apply bind_Some in E. destruct E as (s0 & v0 & E & Er).
  unfold ret in Er. inversion Er; subst s' w'.
  apply bind_Some in E. destruct E as (shift & w0 & Ech & E).
  apply bind_Some in E. destruct E as (s1 & w1 & Ex & E).
  apply bind_Some in E. destruct E as (s2 & w2 & Esh & Er2).
  unfold ret in Er2. inversion Er2; subst s0 v0.
  exists shift, w0, s1, w1, s2.
  split; [| split; [exact Ex | split; [| reflexivity]]].
  - destruct (shiftDue (step s)).
    + apply bind_Some in Ech. destruct Ech as (x & w00 & Ec & Er3).
      unfold ret in Er3. inversion Er3; subst shift w00. exists x. auto.
    + unfold ret in Ech. inversion Ech. auto.
  - destruct shift; [exact Esh |]. unfold ret in Esh. inversion Esh. auto.
Qed.

(** What [chooseShift] returns: a vocabulary symbol or none, at the cost of
    one or two draws. *)
Lemma chooseShift_stages (rnd : nat -> Draw) (w : World)
  (shift : ShiftType * option string) (w0 : World) :
  chooseShift rnd w = Some (shift, w0) ->
  clocks w0 = clocks w /\
  match snd shift with
  | Some target => In target symbols /\ randoms w0 = S (S (randoms w))
  | None => randoms w0 = S (randoms w)
  end.
Proof.
  intro E.
  pose proof (yields_result _ _ _ shift w0 (chooseShift_ok rnd w) E) as Hch.
  split; [exact (ch_clock _ _ _ _ Hch) |].
  destruct (snd shift) as [target |] eqn:Et.
  - destruct (shift_chosen_target rnd w shift w0 target Hch Et) as (Hk & _ & Hin).
    split; [exact Hin |]. apply (ch_redefinition _ _ _ _ Hch Hk).
  - destruct (kind_of_draw (rnd (randoms w))) eqn:Hk.
    + destruct (ch_redefinition _ _ _ _ Hch Hk) as [C _]. congruence.
    + apply (ch_other _ _ _ _ Hch). congruence.
    + apply (ch_other _ _ _ _ Hch). congruence.
Qed.

Lemma applyShift_stages (rnd : nat -> Draw) (clk : nat -> Z) (st : Z)
  (shift : ShiftType * option string) (s : State)
  (w : World) (s' : State) (w' : World) :
  applyShift rnd clk st shift s w = Some (s', w') ->
  step s' = step s /\ communications s' = communications s /\
  syntaxPatterns s' = syntaxPatterns s /\
  match snd shift with
  | Some target =>
      exists w2, mapM (redefine rnd target) (agents s) w = Some (agents s', w2) /\
                 w' = {| randoms := randoms w2; clocks := S (clocks w2) |}
  | None => agents s' = agents s /\
            w' = {| randoms := randoms w; clocks := S (clocks w) |}
  end.
Proof.
  unfold applyShift. intro E.
  apply bind_Some in E. destruct E as (l' & w1 & El & E).
  unfold bind, now, ret in E. inversion E; subst s' w'. cbn [step communications
    syntaxPatterns agents].
  split; [reflexivity |]. split; [reflexivity |]. split; [reflexivity |].
  destruct (snd shift) as [target |].
  - exists w1. split; [exact El | reflexivity].
  - unfold ret in El. inversion El; subst. auto.
Qed.

(** * The books of a run: usage counters, memories and identities *)

Lemma increasing_skipn (k : nat) (l : list Z) : increasing l -> increasing (skipn k l).
Proof.
  revert l. induction k as [| k IH]; intros l H; [exact H |].
  destruct l as [| x l]; [exact H |]. simpl. apply IH, H.
Qed.

Lemma increasing_snoc (l : list Z) (x : Z) :
  increasing l -> Forall (fun y => (y < x)%Z) l -> increasing (l ++ [x]).
Proof.
  induction l as [| y l IH]; intros Hinc Hlt; simpl.
  - split; [constructor | exact I].
  - destruct Hinc as [Hy Hinc]. inversion Hlt; subst. split.
    + apply Forall_app. split; [exact Hy | constructor; [assumption | constructor]].
    + apply IH; assumption.
Qed.

Lemma Forall_skipn_list {A : Type} (P : A -> Prop) (k : nat) (l : list A) :
  Forall P l -> Forall P (skipn k l).
Proof.
  intro H. rewrite <- (firstn_skipn k l) in H. apply Forall_app in H. apply H.
Qed.

Lemma usage_ok_mono (b b' : Z) (m : SymbolMapping) :
  (b <= b')%Z -> usage_ok b m -> usage_ok b' m.
Proof.
  intros Hle (u & l & Hu & Hl & H0 & H1). exists u, l.
  split; [exact Hu | split; [exact Hl | split; lia]].
Qed.

Lemma entry_ok_mono (i : nat) (b b' : Z) (e : MemoryEntry) :
  (b <= b')%Z -> entry_ok i b e -> entry_ok i b' e.
Proof.
  intros Hle (H1 & H2 & H3 & H4). split; [exact H1 | split; [exact H2 | split; [lia | exact H4]]].
Qed.

Lemma agent_book_mono (i : nat) (b b' : Z) (a : Agent) :
  (b <= b')%Z -> agent_book i b a -> agent_book i b' a.
Proof.
  intros Hle [H1 H2 H3]. constructor; [| | exact H3].
  - eapply Forall_impl; [| exact H1]. intros e. now apply usage_ok_mono.
  - eapply Forall_impl; [| exact H2]. intros e. now apply entry_ok_mono.
Qed.

(** Two mappings with the same usage counters. *)
Lemma usage_ok_same (b : Z) (m m' : SymbolMapping) :
  usageCount m' = usageCount m -> lastUsed m' = lastUsed m ->
  usage_ok b m -> usage_ok b m'.
Proof. intros Hu Hl. unfold usage_ok. now rewrite Hu, Hl. Qed.

Lemma usage_ok_touch (b st : Z) (m : SymbolMapping) :
  (0 <= st <= b)%Z -> usage_ok b m -> usage_ok b (touch st m).
Proof.
  intros Hst (u & l & Hu & Hl & H0 & H1). exists (Z.succ u), st. simpl.
  rewrite Hu. split; [reflexivity | split; [reflexivity | split; lia]].
Qed.

Lemma repaired_usage (rnd : nat -> Draw) (k sender : nat) (sm : SymbolMapping) (r : Agent)
  (rm : SymbolMapping) :
  usageCount (repaired rnd k sender sm r rm) = usageCount rm /\
  lastUsed (repaired rnd k sender sm r rm) = lastUsed rm.
Proof. unfold repaired. destruct (Num.ltb _ _); split; reflexivity. Qed.

Lemma forget_usage (rnd : nat -> Draw) (st : Z) (a : Agent) (m : SymbolMapping) w m' w' :
  forget rnd st a m w = Some (m', w') ->
  usageCount m' = usageCount m /\ lastUsed m' = lastUsed m.
Proof.
  unfold forget. destruct (pastThreshold st m).
  - intro E. apply bind_Some in E. destruct E as (v & w1 & _ & E).
    unfold ret in E. inversion E; subst. split; reflexivity.
  - unfold ret. intro E. inversion E; subst. split; reflexivity.
Qed.

Lemma Forall2_Forall {A B : Type} (R : A -> B -> Prop) (P : A -> Prop) (Q : B -> Prop)
  (l : list A) (l' : list B) :
  (forall x y, R x y -> P x -> Q y) -> Forall2 R l l' -> Forall P l -> Forall Q l'.
Proof.
  intros H HR. induction HR as [| x y l l' Hxy _ IH]; intro HP; constructor;
    inversion HP; subst; eauto.
Qed.

Lemma forgetAgent_book (rnd : nat -> Draw) (st : Z) (a : Agent) w a' w' :
  forgetAgent rnd st a w = Some (a', w') ->
  identity a' = identity a /\ memory a' = memory a /\
  forall b, Forall (fun e => usage_ok b (snd e)) (symbolMappings a) ->
            Forall (fun e => usage_ok b (snd e)) (symbolMappings a').
Proof.
  unfold forgetAgent. intro E. apply bind_Some in E. destruct E as (ms & w1 & E1 & E).
  unfold ret in E. inversion E; subst a' w'.
  split; [reflexivity | split; [reflexivity |]]. intros b Hb. simpl.
  refine (Forall2_Forall _ _ _ _ _ _ (mapM_pointwise _
            (fun e e' => usageCount (snd e') = usageCount (snd e) /\
                         lastUsed (snd e') = lastUsed (snd e))
            _ _ w ms w1 E1) Hb).
  - intros e e' [Hu Hl]. now apply usage_ok_same.
  - intros e w0 e' w2 _ E2. apply bind_Some in E2. destruct E2 as (m' & w3 & E2 & E3).
    unfold ret in E3. inversion E3; subst. simpl.
    apply (forget_usage rnd st a (snd e) w0 m' w2 E2).
Qed.

Lemma pointwise_books (b : Z) (l l' : list Agent) :
  Forall2 (fun a a' => forall i, agent_book i b a -> agent_book i b a') l l' ->
  books b l -> books b l'.
Proof.
  intros Hall Hb i a' Ha'.
  destruct (nth_error_same_length l l' i a' (Forall2_length_eq _ _ _ Hall) Ha')
    as (a & Ha).
  apply (Forall2_nth _ _ _ Hall i a a' Ha Ha'), (Hb i a Ha).
Qed.

Lemma pointwise_identity (l l' : list Agent) :
  Forall2 (fun a a' => identity a' = identity a) l l' ->
  map identity l' = map identity l.
Proof. induction 1 as [| a a' l l' H _ IH]; simpl; [reflexivity | now rewrite H, IH]. Qed.

Lemma applyForgetting_book (rnd : nat -> Draw) (st : Z) (l : list Agent) w l' w' :
  applyForgetting rnd st l w = Some (l', w') ->
  map identity l' = map identity l /\ forall b, books b l -> books b l'.
Proof.
  unfold applyForgetting. intro E.
  pose proof (mapM_pointwise _
                (fun a a' => identity a' = identity a /\ memory a' = memory a /\
                             forall b, Forall (fun e => usage_ok b (snd e)) (symbolMappings a) ->
                                       Forall (fun e => usage_ok b (snd e)) (symbolMappings a'))
                l (fun a w0 a' w1 _ E1 => forgetAgent_book rnd st a w0 a' w1 E1)
                w l' w' E) as Hall.
  split.
  - apply pointwise_identity. eapply Forall2_impl; [| exact Hall]. intros a a' H. apply H.
  - intros b. apply pointwise_books. eapply Forall2_impl; [| exact Hall].
    intros a a' (_ & Hm & Hu) i [H1 H2 H3]. constructor.
    + apply Hu, H1.
    + now rewrite Hm.
    + now rewrite Hm.
Qed.

Lemma agent_book_with_mapping (i : nat) (b : Z) (a : Agent) (symbol : string)
  (m : SymbolMapping) :
  agent_book i b a -> usage_ok b m -> agent_book i b (with_mapping a symbol m).
Proof.
  intros [H1 H2 H3] Hm. constructor; simpl; [| exact H2 | exact H3].
  apply (dict_set_Forall String.eqb (usage_ok b)); assumption.
Qed.

Lemma agent_book_with_trust (i : nat) (b : Z) (a : Agent) (j : nat) (t : num) :
  agent_book i b a -> agent_book i b (with_trust a j t).
Proof. intros [H1 H2 H3]. constructor; assumption. Qed.

Lemma identity_with_trust (a : Agent) (j : nat) (t : num) :
  get_trust a j <> None -> identity (with_trust a j t) = identity a.
Proof.
  intro H. unfold identity. simpl.
  now rewrite (dict_set_keys Nat.eqb (trustScores a) j t H).
Qed.

Lemma books_two_sets (b : Z) (l : list Agent) (sender receiver : nat) (s' r' : Agent) :
  sender <> receiver ->
  (sender < List.length l)%nat -> (receiver < List.length l)%nat ->
  books b l -> agent_book sender b s' -> agent_book receiver b r' ->
  books b (list_set (list_set l sender s') receiver r').
Proof.
  intros Hne Hs Hr Hb Hs' Hr' i a'. rewrite nth_error_two_sets by assumption.
  destruct (Nat.eqb_spec i receiver) as [-> |]; [intro E; inversion E; subst; exact Hr' |].
  destruct (Nat.eqb_spec i sender) as [-> |]; [intro E; inversion E; subst; exact Hs' |].
  apply Hb.
Qed.

Lemma identity_two_sets (l : list Agent) (sender receiver : nat) (s r s' r' : Agent) :
  sender <> receiver ->
  nth_error l sender = Some s -> nth_error l receiver = Some r ->
  identity s' = identity s -> identity r' = identity r ->
  map identity (list_set (list_set l sender s') receiver r') = map identity l.
Proof.
  intros Hne Hs Hr Es Er.
  assert (Hsl : (sender < List.length l)%nat) by (apply nth_error_Some; congruence).
  assert (Hrl : (receiver < List.length l)%nat) by (apply nth_error_Some; congruence).
  apply pointwise_map; [now rewrite !list_set_length |].
  intros i a a' Ha. rewrite nth_error_two_sets by assumption.
  destruct (Nat.eqb_spec i receiver) as [-> |]; [intro E; inversion E; congruence |].
  destruct (Nat.eqb_spec i sender) as [-> |]; [intro E; inversion E; congruence |].
  congruence.
Qed.

Lemma adaptSymbol_book (rnd : nat -> Draw) (st : Z) (sender receiver : nat) (success : bool)
  (l : list Agent) (symbol : string) w l' w' (b : Z) :
  agents_ok l -> sender <> receiver -> (sender < 4)%nat -> (receiver < 4)%nat ->
  In symbol symbols -> (0 <= st <= b)%Z ->
  adaptSymbol rnd st sender receiver success l symbol w = Some (l', w') ->
  map identity l' = map identity l /\ (books b l -> books b l').
Proof.
  intros Hok Hne Hs Hr Hin Hst E.
  destruct (agents_ok_nth l sender Hok Hs) as (s & Hsn & Hsok).
  destruct (agents_ok_nth l receiver Hok Hr) as (r & Hrn & Hrok).
  destruct (get_mapping_defined sender s symbol Hsok Hin) as (sm & Hsm & _).
  destruct (get_mapping_defined receiver r symbol Hrok Hin) as (rm & Hrm & _).
  pose proof (proj1 Hok) as Hlen.
  assert (Hsl : (sender < List.length l)%nat) by lia.
  assert (Hrl : (receiver < List.length l)%nat) by lia.
  assert (Husage : books b l -> usage_ok b (touch st sm) /\ usage_ok b (touch st rm)).
  { intro Hb. split; apply usage_ok_touch; try exact Hst.
    - apply (dict_get_Forall String.eqb (usage_ok b) _ symbol sm
               (bk_usage _ _ _ (Hb sender s Hsn)) Hsm).
    - apply (dict_get_Forall String.eqb (usage_ok b) _ symbol rm
               (bk_usage _ _ _ (Hb receiver r Hrn)) Hrm). }
  destruct success.
  - rewrite (adaptSymbol_success_run rnd st _ _ l symbol s r sm rm w Hsn Hrn Hsm Hrm) in E.
    inversion E; subst l' w'. split.
    + apply (identity_two_sets l sender receiver s r); try assumption; [reflexivity |].
      apply (identity_with_trust r sender). apply (ok_peers receiver r Hrok); assumption.
    + intro Hb. destruct (Husage Hb) as [Us Ur].
      apply books_two_sets; try assumption.
      * apply agent_book_with_mapping; [apply (Hb sender s Hsn) |].
        apply (usage_ok_same b (touch st sm)); [reflexivity | reflexivity | exact Us].
      * apply agent_book_with_mapping;
          [apply agent_book_with_trust, (Hb receiver r Hrn) |].
        apply (usage_ok_same b (touch st rm)); [reflexivity | reflexivity | exact Ur].
  - destruct (adaptSymbol_failure_run rnd st _ _ l symbol s r sm rm w Hsn Hrn Hsm Hrm)
      as (n & Hrun).
    rewrite Hrun in E. inversion E; subst l' w'. split.
    + apply (identity_two_sets l sender receiver s r); try assumption; reflexivity.
    + intro Hb. destruct (Husage Hb) as [Us Ur].
      apply books_two_sets; try assumption.
      * apply agent_book_with_mapping; [apply (Hb sender s Hsn) | exact Us].
      * apply agent_book_with_mapping; [apply (Hb receiver r Hrn) |].
        destruct (repaired_usage rnd (randoms w) sender (touch st sm) r (touch st rm))
          as [Eu El].
        apply (usage_ok_same b (touch st rm)); assumption.
Qed.

(** The loop over the symbols of the sequence. *)
Lemma adaptSequence_book (rnd : nat -> Draw) (st : Z) (sender receiver : nat)
  (success : bool) (sequence : list string) (b : Z) :
  sender <> receiver -> (sender < 4)%nat -> (receiver < 4)%nat ->
  Forall (fun symbol => In symbol symbols) sequence -> (0 <= st <= b)%Z ->
  forall l w l' w',
    agents_ok l ->
    foldM (adaptSymbol rnd st sender receiver success) sequence l w = Some (l', w') ->
    agents_ok l' /\ map identity l' = map identity l /\
    (forall i a a', nth_error l i = Some a -> nth_error l' i = Some a' ->
                    memory a' = memory a) /\
    (books b l -> books b l').
Proof.
  intros Hne Hs Hr Hseq Hst. induction Hseq as [| symbol rest Hin _ IH];
    intros l w l' w' Hok E; simpl in E.
  - unfold ret in E. inversion E; subst. split; [exact Hok |].
    split; [reflexivity | split; [congruence | auto]].
  - apply bind_Some in E. destruct E as (l1 & w1 & E1 & E2).
    pose proof (yields_result _ _ _ l1 w1
                  (adaptSymbol_ok rnd st sender receiver success l symbol w
                     Hok Hne Hs Hr Hin) E1) as (Hok1 & _ & Hmem1 & _).
    destruct (adaptSymbol_book rnd st sender receiver success l symbol w l1 w1 b
                Hok Hne Hs Hr Hin Hst E1) as [Hid1 Hb1].
    destruct (IH l1 w1 l' w' Hok1 E2) as (Hok' & Hid' & Hmem' & Hb').
    split; [exact Hok' | split; [congruence | split; [| auto]]].
    intros i a a' Ha Ha'.
    destruct (nth_error_same_length l1 l' i a') as (a1 & Ha1);
      [rewrite (proj1 Hok1), (proj1 Hok'); reflexivity | exact Ha' |].
    rewrite (Hmem' i a1 a' Ha1 Ha'). apply (Hmem1 i a a1 Ha Ha1).
Qed.

Lemma remember_book (i : nat) (b : Z) (a : Agent) (e : MemoryEntry) :
  agent_book i b a -> entry_ok i (b + 1) e -> mem_step e = b ->
  agent_book i (b + 1) (remember e a).
Proof.
  intros Ha He Hst. destruct (agent_book_mono i b (b + 1) a ltac:(lia) Ha) as [H1 H2 _].
  assert (Hall : Forall (entry_ok i (b + 1)) (memory a ++ [e])).
  { apply Forall_app. split; [exact H2 | constructor; [exact He | constructor]]. }
  assert (Hinc : increasing (map mem_step (memory a ++ [e]))).
  { rewrite map_app. apply increasing_snoc; [apply (bk_order i b a Ha) |].
    apply Forall_map. eapply Forall_impl; [| apply (bk_memory i b a Ha)].
    intros x (_ & _ & Hx & _). simpl. lia. }
  unfold remember. constructor; cbn [with_memory symbolMappings memory].
  - exact H1.
  - destruct (50 <? _)%nat; [| exact Hall].
    apply (Forall_skipn_list _ 1 _ Hall).
  - destruct (50 <? _)%nat; [| exact Hinc].
    replace (map mem_step (tl (memory a ++ [e])))
      with (skipn 1 (map mem_step (memory a ++ [e])))
      by (destruct (memory a ++ [e])%list; reflexivity).
    apply increasing_skipn, Hinc.
Qed.

Lemma drawSequence_sequence (rnd : nat -> Draw) w sequence w1 :
  drawSequence rnd w = Some (sequence, w1) -> sequence_ok sequence.
Proof.
  intro E.
  refine (yields_result _ _ (fun sq _ => sequence_ok sq) sequence w1 _ E).
  apply drawSequence_ok. intros sq w' Hlen Hall _. split; assumption.
Qed.

Lemma communicate_book (rnd : nat -> Draw) (clk : nat -> Z) (s : State) (l : list Agent)
  (sender receiver : nat) w s' w' :
  agents_ok l -> sender <> receiver -> (sender < 4)%nat -> (receiver < 4)%nat ->
  (0 <= step s)%Z ->
  communicate rnd clk s l sender receiver w = Some (s', w') ->
  map identity (agents s') = map identity l /\
  (books (step s) l -> books (step s + 1) (agents s')).
Proof.
  intros Hok Hne Hs Hr Hst E.
  destruct (communicate_stages rnd clk s l sender receiver w s' w' E)
    as (sequence & w1 & avg & r & l' & Ed & Ea & Er & Ef & ->).
  pose proof (drawSequence_sequence rnd w sequence w1 Ed) as Hseq.
  destruct (adaptSequence_book rnd (step s) sender receiver (Num.ltb avg (Fin 0.5))
              sequence (step s) Hne Hs Hr (proj2 Hseq) ltac:(lia) l _ l' w' Hok Ef)
    as (Hok' & Hid & _ & Hb).
  cbn [agents].
  set (sentEntry := {| mem_step := step s; mem_action := sent; mem_sequence := sequence;
                       mem_success := Num.ltb avg (Fin 0.5); mem_partner := receiver |}).
  set (receivedEntry := {| mem_step := step s; mem_action := received;
                           mem_sequence := sequence;
                           mem_success := Num.ltb avg (Fin 0.5); mem_partner := sender |}).
  assert (Hnew : forall i a a',
             nth_error l' i = Some a ->
             nth_error (list_update (list_update l' sender (remember sentEntry))
                                    receiver (remember receivedEntry)) i = Some a' ->
             (i = receiver /\ a' = remember receivedEntry a) \/
             (i = sender /\ a' = remember sentEntry a) \/ a' = a).
  { intros i a a' Ha.
    destruct (Nat.eq_dec receiver i) as [<- | Hri].
    - rewrite (list_update_same _ receiver _ a).
      + intro E0. inversion E0. auto.
      + rewrite list_update_other by exact Hne. exact Ha.
    - rewrite list_update_other by exact Hri.
      destruct (Nat.eq_dec sender i) as [<- | Hsi].
      + rewrite (list_update_same _ sender _ a Ha). intro E0. inversion E0. auto.
      + rewrite list_update_other by exact Hsi. rewrite Ha. intro E0. inversion E0. auto. }
  assert (Hlen' : List.length (list_update (list_update l' sender (remember sentEntry))
                                           receiver (remember receivedEntry))
                  = List.length l') by now rewrite !list_update_length.
  split.
  - rewrite <- Hid. apply pointwise_map; [exact Hlen' |].
    intros i a a' Ha Ha'.
    destruct (Hnew i a a' Ha Ha') as [[_ ->] | [[_ ->] | ->]]; reflexivity.
  - intros Hbk i a' Ha'.
    destruct (nth_error_same_length l' _ i a' Hlen' Ha') as (a & Ha).
    pose proof (Hb Hbk i a Ha) as Hbook.
    destruct (Hnew i a a' Ha Ha') as [[-> ->] | [[-> ->] | ->]].
    + apply remember_book; [exact Hbook | | reflexivity].
      split; [simpl; congruence | split; [exact Hs | split; [simpl; lia | exact Hseq]]].
    + apply remember_book; [exact Hbook | | reflexivity].
      split; [simpl; congruence | split; [exact Hr | split; [simpl; lia | exact Hseq]]].
    + apply (agent_book_mono i (step s)); [lia | exact Hbook].
Qed.

Lemma redefine_book (rnd : nat -> Draw) (target : string) i (a : Agent) w a' w' :
  agent_ok i a -> In target symbols ->
  redefine rnd target a w = Some (a', w') ->
  identity a' = identity a /\ forall j b, agent_book j b a -> agent_book j b a'.
Proof.
  intros Hok Hin E. unfold redefine in E.
  apply bind_Some in E. destruct E as (v & w1 & _ & E).
  destruct (get_mapping_defined i a target Hok Hin) as (m & Hm & _).
  rewrite Hm in E. unfold ret in E. inversion E; subst a' w'.
  split; [reflexivity |]. intros j b Hb.
  apply agent_book_with_mapping; [exact Hb |].
  apply (usage_ok_same b m); [reflexivity | reflexivity |].
  apply (dict_get_Forall String.eqb (usage_ok b) _ target m (bk_usage _ _ _ Hb) Hm).
Qed.

Lemma applyShift_book (rnd : nat -> Draw) (clk : nat -> Z) (st : Z)
  (shift : ShiftType * option string) (s : State) w s' w' :
  agents_ok (agents s) ->
  (forall target, snd shift = Some target -> In target symbols) ->
  applyShift rnd clk st shift s w = Some (s', w') ->
  map identity (agents s') = map identity (agents s) /\
  forall b, books b (agents s) -> books b (agents s').
Proof.
  intros Hok Htarget E.
  destruct (applyShift_stages rnd clk st shift s w s' w' E) as (_ & _ & _ & Hrest).
  destruct (snd shift) as [target |]; [| destruct Hrest as [-> _]; auto].
  destruct Hrest as (w2 & Em & _).
  pose proof (Htarget target eq_refl) as Hin.
  pose proof (mapM_pointwise _
                (fun a a' => identity a' = identity a /\
                             forall j b, agent_book j b a -> agent_book j b a')
                (agents s)
                (fun a w0 a' w3 Ha E1 =>
                   match In_nth_error _ _ Ha with
                   | ex_intro _ i Hi =>
                       redefine_book rnd target i a w0 a' w3 (proj2 Hok i a Hi) Hin E1
                   end)
                w (agents s') w2 Em) as Hall.
  split.
  - apply pointwise_identity. eapply Forall2_impl; [| exact Hall]. intros a a' H. apply H.
  - intro b. apply pointwise_books. eapply Forall2_impl; [| exact Hall].
    intros a a' [_ H] i. apply H.
Qed.

Lemma exchangeRound_book (rnd : nat -> Draw) (clk : nat -> Z) (s : State) w s1 w1 :
  state_ok s -> (0 <= step s)%Z ->
  exchangeRound rnd clk s w = Some (s1, w1) ->
  map identity (agents s1) = map identity (agents s) /\
  (books (step s) (agents s) -> books (step s + 1) (agents s1)).
Proof.
  intros Hs Hst E.
  destruct (exchangeRound_stages rnd clk s w s1 w1 E) as (l & w0 & Ef & Hrest).
  cbv zeta in Hrest.
  assert (Hok : agents_ok l).
  { refine (yields_result _ _ (fun l _ => agents_ok l) l w0 _ Ef).
    apply applyForgetting_ok; [apply (ok_agents s Hs) | auto]. }
  destruct (applyForgetting_book rnd (step s) (agents s) w l w0 Ef) as [Hid Hb].
  destruct (Nat.eqb_spec (index_of_draw (List.length l) (rnd (randoms w0)))
                         (index_of_draw (List.length l) (rnd (S (randoms w0)))))
    as [_ | Hne].
  - destruct Hrest as [-> ->]. simpl. split; [exact Hid |].
    intros Hbk i a Ha. apply (agent_book_mono i (step s)); [lia |]. apply (Hb _ Hbk i a Ha).
  - rewrite (proj1 Hok) in Hrest, Hne.
    destruct (communicate_book rnd clk s l _ _ _ s1 w1 Hok Hne
                (draw_index_lt _ 4 ltac:(lia)) (draw_index_lt _ 4 ltac:(lia)) Hst Hrest)
      as [Hid' Hb'].
    split; [congruence | auto].
Qed.

Lemma tick_book (rnd : nat -> Draw) (clk : nat -> Z) (s : State) w s' w' :
  state_ok s -> (0 <= step s)%Z ->
  tick rnd clk s w = Some (s', w') ->
  map identity (agents s') = map identity (agents s) /\
  (books (step s) (agents s) -> books (step s + 1) (agents s')).
Proof.
  intros Hs Hst E.
  destruct (tick_stages rnd clk s w s' w' (agents_ok_nonempty _ (ok_agents s Hs)) E)
    as (shift & w0 & s1 & w1 & s2 & Hch & Ex & Hsh & ->).
  destruct (exchangeRound_book rnd clk s w0 s1 w1 Hs Hst Ex) as [Hid1 Hb1].
  pose proof (yields_result _ _ _ s1 w1 (exchangeRound_ok rnd clk s w0 Hs) Ex) as Hex.
  destruct (recordMetrics_fields (agents s) (step s) s2) as (_ & F2 & _).
  cbn [with_step agents]. rewrite F2.
  destruct shift as [x |].
  - assert (Htarget : forall target, snd x = Some target -> In target symbols).
    { intros target Et. destruct (shiftDue (step s)).
      - destruct Hch as (x0 & Ec & Ex0). inversion Ex0; subst x0.
        pose proof (chooseShift_stages rnd w x w0 Ec) as [_ H]. rewrite Et in H. apply H.
      - destruct Hch as [C _]. discriminate. }
    destruct (applyShift_book rnd clk (step s) x s1 w1 s2 w' (ex_agents s s1 Hex)
                Htarget Hsh) as [Hid2 Hb2].
    split; [congruence | auto].
  - destruct Hsh as [-> _]. auto.
Qed.

Lemma dict_get_In {K V : Type} (eqb : K -> K -> bool)
  (eqb_eq : forall a b, eqb a b = true <-> a = b) (d : list (K * V)) (k : K) :
  dict_get eqb d k <> None <-> In k (map fst d).
Proof.
  split; [| apply (dict_get_key eqb eqb_eq)].
  induction d as [| [k' v] d IH]; simpl; [congruence |].
  destruct (eqb k' k) eqn:E; [left; now apply eqb_eq | right; auto].
Qed.

Lemma initial_books (l : list Agent) :
  (forall i a, nth_error l i = Some a -> agent_initial i (agentName i) a) -> books 0 l.
Proof.
  intros H i a Ha. destruct (H i a Ha) as [_ _ _ Hm _ Hmem _ _ _].
  constructor.
  - eapply Forall_impl; [| exact Hm].
    intros e (_ & _ & Hu & Hl). exists 0%Z, 0%Z. repeat split; auto; lia.
  - rewrite Hmem. constructor.
  - rewrite Hmem. exact I.
Qed.

Lemma books_of_run (rnd : nat -> Draw) (clk : nat -> Z) (n : nat) :
  exists s w,
    run rnd clk n = Some (s, w) /\ state_ok s /\ step s = Z.of_nat n /\
    (books (Z.of_nat n) (agents s) /\
     forall s0 w0, mount rnd {| randoms := 0; clocks := 0 |} = Some (s0, w0) ->
                   map identity (agents s) = map identity (agents s0)).
Proof.
  apply (run_induction rnd clk
           (fun n s =>
              books (Z.of_nat n) (agents s) /\
              forall s0 w0, mount rnd {| randoms := 0; clocks := 0 |} = Some (s0, w0) ->
                            map identity (agents s) = map identity (agents s0))).
  - intros s w E. split.
    + destruct (yields_result _ _ _ s w (mount_initial rnd _) E) as (_ & Hall & _).
      apply initial_books, Hall.
    + intros s0 w0 E0. congruence.
  - intros k s w s' w' Hs Hst [Hb Hid] E.
    destruct (tick_book rnd clk s w s' w' Hs ltac:(lia) E) as [Hid' Hb'].
    split.
    + rewrite Nat2Z.inj_succ, <- Hst. unfold Z.succ. apply Hb'. now rewrite Hst.
    + intros s0 w0 E0. rewrite Hid'. apply (Hid s0 w0 E0).
Qed.

(** X15. The usage counters of a run: after [n] ticks every mapping of
    every agent has both counters set ([usageCount] is never [NaN],
    [lastUsed] never [undefined]); the counter is not negative and the last
    use is a step of the run, between 0 and [n], so that the age
    [step - lastUsed] compared by the forgetting pass is never negative. *)
Theorem usage_counters_of_run (rnd : nat -> Draw) (clk : nat -> Z) (n : nat) :
  exists s w,
    run rnd clk n = Some (s, w) /\
    forall a symbol m,
      In a (agents s) -> get_mapping a symbol = Some m ->
      exists u l,
        usageCount m = Some u /\ lastUsed m = Some l /\
        (0 <= u)%Z /\ (0 <= l <= Z.of_nat n)%Z /\ (0 <= step s - l)%Z.
Proof.
  destruct (books_of_run rnd clk n) as (s & w & E & _ & Hst & Hb & _).
  exists s, w. split; [exact E |]. intros a symbol m Ha Hm.
  apply In_nth_error in Ha. destruct Ha as (i & Ha).
  destruct (dict_get_Forall String.eqb (usage_ok (Z.of_nat n)) _ symbol m
              (bk_usage _ _ _ (Hb i a Ha)) Hm) as (u & l & Hu & Hl & H0 & H1).
  exists u, l. rewrite Hst. repeat split; auto; lia.
Qed.

(** X16. The memories of a run: after [n] ticks every entry in the memory
    of agent [i] records an exchange with another of the four agents, at a
    step of the run before the current one, of a sequence of one or two
    vocabulary symbols; and the entries of a memory are in strictly
    increasing order of step, at most one for each step. *)
Theorem memories_of_run (rnd : nat -> Draw) (clk : nat -> Z) (n : nat) :
  exists s w,
    run rnd clk n = Some (s, w) /\
    forall i a,
      nth_error (agents s) i = Some a ->
      Forall (fun e =>
                mem_partner e <> i /\ (mem_partner e < 4)%nat /\
                (0 <= mem_step e < Z.of_nat n)%Z /\
                (List.length (mem_sequence e) = 1%nat \/
                 List.length (mem_sequence e) = 2%nat) /\
                Forall (fun symbol => In symbol symbols) (mem_sequence e))
             (memory a) /\
      increasing (map mem_step (memory a)).
Proof.
  destruct (books_of_run rnd clk n) as (s & w & E & _ & _ & Hb & _).
  exists s, w. split; [exact E |]. intros i a Ha.
  destruct (Hb i a Ha) as [_ Hm Ho]. split; [| exact Ho].
  eapply Forall_impl; [| exact Hm].
  intros e (H1 & H2 & H3 & H4 & H5). auto.
Qed.

(** X17. What a run never writes: after any number of ticks each agent
    has the identifier, the name, the adaptability, the convergence speed
    and the forgetting rate it was given when the component was mounted,
    and keeps a trust for the same peers; agent [i] has identifier [i], is
    named [Agent-A] to [Agent-D], and has a trust toward each of the three
    other agents and toward nobody else, itself included. *)
Theorem identity_of_run (rnd : nat -> Draw) (clk : nat -> Z) (n : nat) :
  exists s0 w0 s w,
    mount rnd {| randoms := 0; clocks := 0 |} = Some (s0, w0) /\
    run rnd clk n = Some (s, w) /\
    map identity (agents s) = map identity (agents s0) /\
    forall i a,
      nth_error (agents s) i = Some a ->
      id a = i /\ name a = agentName i /\
      forall j, get_trust a j <> None <-> (j < 4)%nat /\ j <> i.
Proof.
  destruct (mount_initial rnd {| randoms := 0; clocks := 0 |})
    as (s0 & w0 & E0 & Hlen0 & Hall0 & _).
  destruct (books_of_run rnd clk n) as (s & w & E & _ & _ & _ & Hid).
  exists s0, w0, s, w. split; [exact E0 | split; [exact E |]].
  specialize (Hid s0 w0 E0). split; [exact Hid |].
  intros i a Ha.
  assert (Hi : nth_error (map identity (agents s)) i = Some (identity a))
    by (rewrite nth_error_map, Ha; reflexivity).
  rewrite Hid, nth_error_map in Hi.
  destruct (nth_error (agents s0) i) as [a0|] eqn:Ha0; [| discriminate].
  simpl in Hi. injection Hi as H1 H2 _ _ _ H6.
  destruct (Hall0 i a0 Ha0) as [I1 I2 _ _ I5 _ _ _ _].
  split; [congruence | split; [congruence |]].
  intro j. unfold get_trust.
  rewrite (dict_get_In Nat.eqb Nat.eqb_eq), <- H6, <- (dict_get_In Nat.eqb Nat.eqb_eq).
  fold (get_trust a0 j). rewrite (I5 j).
  destruct (Nat.ltb_spec j 4), (Nat.eqb_spec j i); simpl; split;
    try congruence; try (intros [? ?]; lia); try (intros; split; [lia | assumption]).
Qed.

(** * The books of a run: communication log and syntax patterns *)

Lemma record_ok_mono (b b' : Z) (c : Communication) :
  (b <= b')%Z -> record_ok b c -> record_ok b' c.
Proof. intros Hle [H1 H2 H3 H4 H5 H6 H7 H8]. constructor; auto. lia. Qed.

Lemma log_ok_mono (b b' : Z) (log : list Communication) :
  (b <= b')%Z -> log_ok b log -> log_ok b' log.
Proof.
  intros Hle [H1 H2]. split; [| exact H2].
  eapply Forall_impl; [| exact H1]. intro c. now apply record_ok_mono.
Qed.

Lemma log_ok_append (b : Z) (log : list Communication) (c : Communication) :
  log_ok b log -> record_ok (b + 1) c -> comm_step c = b ->
  log_ok (b + 1) (slice_last 29 log ++ [c]).
Proof.
  intros [H1 H2] Hc Hst. split.
  - apply Forall_app. split; [| constructor; [exact Hc | constructor]].
    apply Forall_slice_last. eapply Forall_impl; [| exact H1].
    intro x. apply record_ok_mono. lia.
  - rewrite map_app. apply increasing_snoc.
    + unfold slice_last. rewrite <- skipn_map. apply increasing_skipn, H2.
    + apply Forall_map, Forall_slice_last. eapply Forall_impl; [| exact H1].
      intros x Hx. simpl. rewrite Hst. apply (rc_step b x Hx).
Qed.

Lemma dict_set_keys_In {K V : Type} (eqb : K -> K -> bool) (d : list (K * V)) k v x :
  In x (map fst (dict_set eqb d k v)) -> x = k \/ In x (map fst d).
Proof.
  induction d as [| [k' v'] d IH]; simpl.
  - intros [<- | []]. now left.
  - destruct (eqb k' k); simpl; [auto |].
    intros [<- | H]; [auto |]. destruct (IH H); auto.
Qed.

Lemma dict_set_NoDup {K V : Type} (eqb : K -> K -> bool)
  (eqb_eq : forall a b, eqb a b = true <-> a = b) (d : list (K * V)) k v :
  NoDup (map fst d) -> NoDup (map fst (dict_set eqb d k v)).
Proof.
  induction d as [| [k' v'] d IH]; simpl; intro H.
  - constructor; [intros [] | constructor].
  - inversion H as [| ? ? Hn Hd]; subst.
    destruct (eqb k' k) eqn:E; simpl; [constructor; assumption |].
    constructor; [| apply IH, Hd].
    intro Hin. apply dict_set_keys_In in Hin. destruct Hin as [-> | Hin]; [| contradiction].
    assert (Ek : eqb k k = true) by now apply eqb_eq. congruence.
Qed.

Lemma pattern_In (x y : string) :
  In x symbols -> In y symbols -> In (String.concat "-" [x; y]) allPatterns.
Proof.
  intros Hx Hy. unfold allPatterns. apply in_flat_map. exists x. split; [exact Hx |].
  apply in_map_iff. exists y. split; [reflexivity | exact Hy].
Qed.

Lemma recordPattern_ok (sequence : list string) (patterns : list (string * Z)) :
  sequence_ok sequence -> patterns_ok patterns ->
  patterns_ok (recordPattern sequence patterns).
Proof.
  intros [Hlen Hall] (H1 & H2 & H3). unfold recordPattern.
  destruct sequence as [| x [| y [| z rest]]]; simpl in Hlen; try lia;
    [split; [exact H1 | split; [exact H2 | exact H3]] |].
  change (1 <? List.length [x; y])%nat with true. cbv iota.
  inversion Hall as [| ? ? Hx Hall']; subst. inversion Hall' as [| ? ? Hy _]; subst.
  split; [| split].
  - apply (dict_set_NoDup String.eqb String.eqb_eq), H1.
  - intros p Hp. apply dict_set_keys_In in Hp. destruct Hp as [-> | Hp]; [| auto].
    now apply pattern_In.
  - apply (dict_set_Forall String.eqb (fun n => (1 <= n)%Z)); [exact H3 |].
    destruct (dict_get String.eqb patterns _) as [c|] eqn:Ec; [| lia].
    pose proof (dict_get_Forall String.eqb (fun n => (1 <= n)%Z) _ _ c H3 Ec) as Hc.
    cbv beta in Hc. lia.
Qed.

Lemma recordPattern_count (sequence : list string) (patterns : list (string * Z))
  (p : string) :
  patternCount (recordPattern sequence patterns) p
  = (patternCount patterns p
     + if (1 <? List.length sequence)%nat && String.eqb (String.concat "-" sequence) p
       then 1 else 0)%Z.
Proof.
  unfold recordPattern, patternCount.
  destruct (1 <? List.length sequence)%nat; simpl; [| lia].
  destruct (String.eqb_spec (String.concat "-" sequence) p) as [<- | Hne].
  - rewrite (dict_get_set_same String.eqb String.eqb_eq). reflexivity.
  - rewrite (dict_get_set_other String.eqb String.eqb_eq) by exact Hne. lia.
Qed.

Lemma communicate_log (rnd : nat -> Draw) (clk : nat -> Z) (s : State) (l : list Agent)
  (sender receiver : nat) w s' w' :
  agents_ok l -> sender <> receiver -> (sender < 4)%nat -> (receiver < 4)%nat ->
  (0 <= step s)%Z ->
  communicate rnd clk s l sender receiver w = Some (s', w') ->
  (log_ok (step s) (communications s) -> log_ok (step s + 1) (communications s')) /\
  (patterns_ok (syntaxPatterns s) -> patterns_ok (syntaxPatterns s')) /\
  ((forall p, patternCount (syntaxPatterns s') p = patternCount (syntaxPatterns s) p) \/
   exists q, forall p,
       patternCount (syntaxPatterns s') p
       = (patternCount (syntaxPatterns s) p + if String.eqb q p then 1 else 0)%Z).
Proof.
  intros Hok Hne Hs Hr Hst E.
  pose proof (yields_result _ _ _ s' w'
                (communicate_ok rnd clk s l sender receiver w Hok Hne Hs Hr) E)
    as (Hok' & _).
  destruct (communicate_stages rnd clk s l sender receiver w s' w' E)
    as (sequence & w1 & avg & r & l' & Ed & Ea & Er & _ & Es').
  rewrite Es'.
  pose proof (drawSequence_sequence rnd w sequence w1 Ed) as Hseq.
  cbn [communications syntaxPatterns]. split; [| split].
  - intro Hlog. apply log_ok_append; [exact Hlog | | reflexivity].
    constructor; cbn; auto; try lia.
    apply (get_trust_defined receiver r sender (proj2 Hok' receiver r Er) Hs Hne).
  - apply recordPattern_ok, Hseq.
  - destruct (1 <? List.length sequence)%nat eqn:El.
    + right. exists (String.concat "-" sequence). intro p.
      now rewrite recordPattern_count, El.
    + left. intro p. rewrite recordPattern_count, El. simpl. lia.
Qed.

Lemma exchangeRound_log (rnd : nat -> Draw) (clk : nat -> Z) (s : State) w s1 w1 :
  state_ok s -> (0 <= step s)%Z ->
  exchangeRound rnd clk s w = Some (s1, w1) ->
  (log_ok (step s) (communications s) -> log_ok (step s + 1) (communications s1)) /\
  (patterns_ok (syntaxPatterns s) -> patterns_ok (syntaxPatterns s1)) /\
  ((forall p, patternCount (syntaxPatterns s1) p = patternCount (syntaxPatterns s) p) \/
   exists q, forall p,
       patternCount (syntaxPatterns s1) p
       = (patternCount (syntaxPatterns s) p + if String.eqb q p then 1 else 0)%Z).
Proof.
  intros Hs Hst E.
  destruct (exchangeRound_stages rnd clk s w s1 w1 E) as (l & w0 & Ef & Hrest).
  cbv zeta in Hrest.
  assert (Hok : agents_ok l).
  { refine (yields_result _ _ (fun l _ => agents_ok l) l w0 _ Ef).
    apply applyForgetting_ok; [apply (ok_agents s Hs) | auto]. }
  destruct (Nat.eqb_spec (index_of_draw (List.length l) (rnd (randoms w0)))
                         (index_of_draw (List.length l) (rnd (S (randoms w0)))))
    as [_ | Hne].
  - destruct Hrest as [-> ->]. simpl. split; [| split; [auto | left; reflexivity]].
    apply log_ok_mono. lia.
  - rewrite (proj1 Hok) in Hrest, Hne.
    apply (communicate_log rnd clk s l _ _ _ s1 w1 Hok Hne
             (draw_index_lt _ 4 ltac:(lia)) (draw_index_lt _ 4 ltac:(lia)) Hst Hrest).
Qed.

Lemma tick_log (rnd : nat -> Draw) (clk : nat -> Z) (s : State) w s' w' :
  state_ok s -> (0 <= step s)%Z ->
  tick rnd clk s w = Some (s', w') ->
  (log_ok (step s) (communications s) -> log_ok (step s + 1) (communications s')) /\
  (patterns_ok (syntaxPatterns s) -> patterns_ok (syntaxPatterns s')) /\
  ((forall p, patternCount (syntaxPatterns s') p = patternCount (syntaxPatterns s) p) \/
   exists q, forall p,
       patternCount (syntaxPatterns s') p
       = (patternCount (syntaxPatterns s) p + if String.eqb q p then 1 else 0)%Z).
Proof.
  intros Hs Hst E.
  destruct (tick_stages rnd clk s w s' w' (agents_ok_nonempty _ (ok_agents s Hs)) E)
    as (shift & w0 & s1 & w1 & s2 & _ & Ex & Hsh & ->).
  pose proof (exchangeRound_log rnd clk s w0 s1 w1 Hs Hst Ex) as H1.
  destruct (recordMetrics_fields (agents s) (step s) s2) as (_ & _ & F3 & _ & F5).
  cbn [with_step communications syntaxPatterns]. rewrite F3, F5.
  destruct shift as [x |].
  - destruct (applyShift_stages rnd clk (step s) x s1 w1 s2 w' Hsh) as (_ & -> & -> & _).
    exact H1.
  - destruct Hsh as [-> _]. exact H1.
Qed.

Lemma logs_of_run (rnd : nat -> Draw) (clk : nat -> Z) (n : nat) :
  exists s w,
    run rnd clk n = Some (s, w) /\ state_ok s /\ step s = Z.of_nat n /\
    (log_ok (Z.of_nat n) (communications s) /\ patterns_ok (syntaxPatterns s)).
Proof.
  apply (run_induction rnd clk
           (fun n s => log_ok (Z.of_nat n) (communications s) /\
                       patterns_ok (syntaxPatterns s))).
  - intros s w E.
    destruct (yields_result _ _ _ s w (mount_initial rnd _) E)
      as (_ & _ & _ & Hc & _ & _ & Hp & _).
    rewrite Hc, Hp. split; [split; [constructor | exact I] |].
    split; [constructor | split; [intros x [] | constructor]].
  - intros k s w s' w' Hs Hst [Hl Hp] E.
    destruct (tick_log rnd clk s w s' w' Hs ltac:(lia) E) as (H1 & H2 & _).
    split; [| auto].
    rewrite Nat2Z.inj_succ, <- Hst. unfold Z.succ. apply H1. now rewrite Hst.
Qed.

(** X18. The communication log of a run: after [n] ticks every record in
    the log names two different agents among the four, carries a sequence
    of one or two vocabulary symbols and its length, a step of the run
    before the current one, the outcome [distance < 0.5] of its distance (so
    a [NaN] distance is a failure), and a trust of the receiver in the
    sender within [[0.5, 1]]; and the records are in strictly increasing
    order of step, at most one for each step. *)
Theorem communication_log_of_run (rnd : nat -> Draw) (clk : nat -> Z) (n : nat) :
  exists s w,
    run rnd clk n = Some (s, w) /\
    Forall (record_ok (Z.of_nat n)) (communications s) /\
    increasing (map comm_step (communications s)).
Proof.
  destruct (logs_of_run rnd clk n) as (s & w & E & _ & _ & [H1 H2] & _).
  exists s, w. auto.
Qed.

(** X19. The table of syntax patterns of a run: after any number of ticks
    no key occurs twice, every key is [x-y] for two vocabulary symbols [x]
    and [y], and every count is at least 1; so the table, which is never
    trimmed, holds at most 36 entries. *)
Theorem syntax_patterns_of_run (rnd : nat -> Draw) (clk : nat -> Z) (n : nat) :
  exists s w,
    run rnd clk n = Some (s, w) /\
    NoDup (map fst (syntaxPatterns s)) /\
    (forall pattern count,
        In (pattern, count) (syntaxPatterns s) ->
        (1 <= count)%Z /\
        exists x y, In x symbols /\ In y symbols /\ pattern = (x ++ "-" ++ y)%string) /\
    (List.length (syntaxPatterns s) <= 36)%nat.
Proof.
  destruct (logs_of_run rnd clk n) as (s & w & E & _ & _ & _ & H1 & H2 & H3).
  exists s, w. split; [exact E |]. split; [exact H1 |]. split.
  - intros pattern count Hin. split.
    + rewrite Forall_forall in H3. apply (H3 _ Hin).
    + assert (Hk : In pattern allPatterns).
      { apply H2. apply in_map_iff. exists (pattern, count). auto. }
      unfold allPatterns in Hk. apply in_flat_map in Hk. destruct Hk as (x & Hx & Hk).
      apply in_map_iff in Hk. destruct Hk as (y & <- & Hy). eauto.
  - rewrite <- (length_map fst).
    change 36%nat with (List.length allPatterns).
    apply NoDup_incl_length; assumption.
Qed.

(** X20. The table of syntax patterns only grows: from one tick of a run
    to the next either no count changes or the count of exactly one pattern
    rises by 1; so no count ever decreases and a pattern seen once stays in
    the table. *)
Theorem pattern_counts_grow (rnd : nat -> Draw) (clk : nat -> Z) (n : nat) :
  exists s w s' w',
    run rnd clk n = Some (s, w) /\ run rnd clk (S n) = Some (s', w') /\
    ((forall p, patternCount (syntaxPatterns s') p = patternCount (syntaxPatterns s) p) \/
     exists q, forall p,
         patternCount (syntaxPatterns s') p
         = (patternCount (syntaxPatterns s) p + if String.eqb q p then 1 else 0)%Z) /\
    forall p,
      (patternCount (syntaxPatterns s) p <= patternCount (syntaxPatterns s') p)%Z.
Proof.
  destruct (run_ok rnd clk n) as (s & w & E & Hs & Hst).
  destruct (run_ok rnd clk (S n)) as (s' & w' & E' & _).
  exists s, w, s', w'. split; [exact E | split; [exact E' |]].
  rewrite (run_step rnd clk n s w E) in E'.
  destruct (tick_log rnd clk s w s' w' Hs ltac:(lia) E') as (_ & _ & H).
  split; [exact H |]. intro p.
  destruct H as [H | (q & H)]; rewrite H; [lia |].
  destruct (String.eqb q p); lia.
Qed.

(** * The read-outs of the overview *)

Lemma filter_length_le {A : Type} (f : A -> bool) (l : list A) :
  (List.length (filter f l) <= List.length l)%nat.
Proof. induction l as [| x l IH]; simpl; [lia |]. destruct (f x); simpl; lia. Qed.

Lemma filter_length_all {A : Type} (f : A -> bool) (l : list A) :
  List.length (filter f l) = List.length l <-> Forall (fun x => f x = true) l.
Proof.
  induction l as [| x l IH]; simpl; [split; auto |].
  pose proof (filter_length_le f l) as Hle.
  destruct (f x) eqn:E; simpl; split.
  - intro H. constructor; [exact E | apply IH; lia].
  - intro H. inversion H; subst. f_equal. now apply IH.
  - intro H. lia.
  - intro H. inversion H; subst. congruence.
Qed.

Lemma filter_length_none {A : Type} (f : A -> bool) (l : list A) :
  List.length (filter f l) = 0%nat <-> Forall (fun x => f x = false) l.
Proof.
  induction l as [| x l IH]; simpl; [split; auto |].
  destruct (f x) eqn:E; simpl; split.
  - discriminate.
  - intro H. inversion H; subst. congruence.
  - intro H. constructor; [exact E | now apply IH].
  - intro H. inversion H; subst. now apply IH.
Qed.

(** The rounding of [toFixed(1)] on a percentage. *)
Lemma tenths_percentage (k m : nat) :
  (0 < m)%nat -> (k <= m)%nat ->
  let x := INR k / INR m * 100 in
  (0 <= tenths x <= 1000)%Z /\
  - (1 / 20) < IZR (tenths x) / 10 - x <= 1 / 20 /\
  (k = m -> tenths x = 1000%Z) /\ (k = 0%nat -> tenths x = 0%Z).
Proof.
  intros Hm Hk x.
  assert (Hm' : 0 < INR m) by (apply lt_0_INR; exact Hm).
  assert (Hk0 : 0 <= INR k) by apply pos_INR.
  assert (Hkm : INR k <= INR m) by (apply le_INR; exact Hk).
  assert (Hx : 0 <= x <= 100).
  { unfold x. split.
    - apply Rmult_le_pos; [| lra]. apply Rmult_le_pos; [exact Hk0 |].
      apply Rlt_le, Rinv_0_lt_compat, Hm'.
    - assert (INR k / INR m <= 1); [| lra].
      apply (Rmult_le_reg_r (INR m)); [exact Hm' |].
      unfold Rdiv. rewrite Rmult_assoc, Rinv_l by lra. lra. }
  pose proof (Zfloor_bound (x * 10 + 1 / 2)) as [Hlo Hhi].
  fold (tenths x) in Hlo, Hhi.
  split; [| split; [| split]].
  - split.
    + apply Zfloor_lub. simpl. lra.
    + assert (Hlt : (tenths x < 1001)%Z) by (apply lt_IZR; lra). lia.
  - lra.
  - intros ->. apply Zfloor_eq.
    assert (E : x = 100).
    { unfold x. unfold Rdiv. rewrite Rinv_r by lra. lra. }
    rewrite E. lra.
  - intro E0. apply Zfloor_eq.
    assert (E : x = 0).
    { unfold x. rewrite E0. simpl. unfold Rdiv. lra. }
    rewrite E. simpl. lra.
Qed.

Lemma percentage_num (k m : nat) :
  (0 < m)%nat ->
  Num.mul (Num.div (Num.of_nat k) (Num.of_nat m)) (Fin 100) = Fin (INR k / INR m * 100).
Proof.
  intro Hm. unfold Num.div, Num.of_nat.
  destruct (Req_dec_T (INR m) 0) as [E | _]; [| reflexivity].
  pose proof (lt_0_INR m Hm). lra.
Qed.

Lemma toFixed1_percentage (k m : nat) :
  (0 < m)%nat -> (k <= m)%nat ->
  toFixed1 (Fin (INR k / INR m * 100)) = pointed (tenths (INR k / INR m * 100)).
Proof.
  intros Hm Hk. unfold toFixed1.
  destruct (Rlt_dec (INR k / INR m * 100) 0) as [Hneg | _]; [| reflexivity].
  exfalso.
  assert (0 <= INR k / INR m * 100); [| lra].
  apply Rmult_le_pos; [| lra]. apply Rmult_le_pos; [apply pos_INR |].
  apply Rlt_le, Rinv_0_lt_compat, lt_0_INR, Hm.
Qed.

(** X21. The success rate shown in the overview.  On an empty log
    [getSuccessRate] returns the number 0.  Otherwise it looks at the 20
    newest records only ([m] of them, [k] successful) and returns a text:
    the integer [n] nearest to [1000 k / m], between 0 and 1000, printed with
    a point before its last digit; the text is ["100.0"] when all of them
    succeeded and ["0.0"] when none did. *)
Theorem success_rate_readout (s : State) :
  (communications s = [] -> getSuccessRate s = Number (Fin 0)) /\
  (communications s <> [] ->
   let recent := slice_last 20 (communications s) in
   let k := List.length (filter comm_success recent) in
   let m := List.length recent in
   (0 < m <= 20)%nat /\ (k <= m)%nat /\
   (exists n,
       getSuccessRate s = Text (pointed n) /\ (0 <= n <= 1000)%Z /\
       - (1 / 20) < IZR n / 10 - INR k / INR m * 100 <= 1 / 20) /\
   (Forall (fun c => comm_success c = true) recent ->
    getSuccessRate s = Text "100.0") /\
   (Forall (fun c => comm_success c = false) recent ->
    getSuccessRate s = Text "0.0")).
Proof.
  split; [intro E; unfold getSuccessRate; now rewrite E |].
  intros Hne recent k m.
  assert (Hm : (0 < m <= 20)%nat).
  { unfold m, recent. rewrite slice_last_length.
    destruct (communications s) as [| c0 log] eqn:Ec; [congruence |].
    cbn [List.length]. lia. }
  assert (Hk : (k <= m)%nat) by apply filter_length_le.
  assert (E : getSuccessRate s = Text (pointed (tenths (INR k / INR m * 100)))).
  { unfold getSuccessRate. destruct (communications s) as [| c0 log] eqn:Ec; [congruence |].
    fold recent. fold k. fold m.
    now rewrite (percentage_num k m (proj1 Hm)), (toFixed1_percentage k m (proj1 Hm) Hk). }
  destruct (tenths_percentage k m (proj1 Hm) Hk) as (H1 & H2 & H3 & H4).
  cbv zeta in H1, H2, H3, H4.
  split; [exact Hm | split; [exact Hk | split; [| split]]].
  - exists (tenths (INR k / INR m * 100)). auto.
  - intro Hall. apply filter_length_all in Hall. rewrite E, (H3 Hall). reflexivity.
  - intro Hall. apply filter_length_none in Hall. rewrite E, (H4 Hall). reflexivity.
Qed.

Lemma nth_error_slice_last {A : Type} (n i : nat) (l : list A) :
  (n <= List.length l)%nat ->
  nth_error (slice_last n l) i = nth_error l (List.length l - n + i).
Proof. intros _. unfold slice_last. apply nth_error_skipn. Qed.

(** X22. The trend shown in the overview.  [getConvergenceSpeed] never
    fails.  With fewer than 10 alignment samples it returns
    ["Insufficient data"].  Otherwise it compares the newest sample with the
    sample nine places before it and nothing else: ["Converging"] when the
    alignment rose, by however little; ["Diverging"] when it fell by more
    than 1; ["Stable"] otherwise, in particular when either of the two
    alignments is [NaN]. *)
Theorem trend_classification (s : State) :
  exists text,
    getConvergenceSpeed s = Some text /\
    ((List.length (alignmentHistory s) < 10)%nat -> text = "Insufficient data"%string) /\
    ((10 <= List.length (alignmentHistory s))%nat ->
     exists oldest newest,
       nth_error (alignmentHistory s) (List.length (alignmentHistory s) - 10) = Some oldest /\
       nth_error (alignmentHistory s) (List.length (alignmentHistory s) - 1) = Some newest /\
       text = match alignment newest, alignment oldest with
              | Fin b, Fin a =>
                  if Rlt_dec a b then "Converging"
                  else if Rlt_dec b (a - 1) then "Diverging" else "Stable"
              | _, _ => "Stable"
              end%string).
Proof.
  unfold getConvergenceSpeed.
  destruct (Nat.ltb_spec (List.length (alignmentHistory s)) 10) as [Hlt | Hge].
  - eexists. split; [reflexivity |]. split; [reflexivity | lia].
  - set (h := alignmentHistory s) in *. cbv zeta.
    rewrite !nth_error_slice_last by exact Hge.
    rewrite slice_last_length.
    replace (List.length h - 10 + (Nat.min 10 (List.length h) - 1))%nat
      with (List.length h - 1)%nat by lia.
    replace (List.length h - 10 + 0)%nat with (List.length h - 10)%nat by lia.
    destruct (nth_error h (List.length h - 1)) as [newest|] eqn:En;
      [| apply nth_error_None in En; lia].
    destruct (nth_error h (List.length h - 10)) as [oldest|] eqn:Eo;
      [| apply nth_error_None in Eo; lia].
    eexists. split; [reflexivity |]. split; [lia |].
    intros _. exists oldest, newest. split; [reflexivity | split; [reflexivity |]].
    destruct (alignment newest) as [b|], (alignment oldest) as [a|]; simpl; try reflexivity.
    destruct (Rlt_dec 0 (b - a)), (Rlt_dec a b); try lra; try reflexivity.
    destruct (Rlt_dec (b - a) (-1)), (Rlt_dec b (a - 1)); try lra; reflexivity.
Qed.

(** X23. The trend over a run: after fewer than 10 ticks the overview
    shows ["Insufficient data"]; after 10 ticks or more it never does, and
    shows one of ["Converging"], ["Diverging"] and ["Stable"]. *)
Theorem convergence_readout_of_run (rnd : nat -> Draw) (clk : nat -> Z) (n : nat) :
  exists s w,
    run rnd clk n = Some (s, w) /\
    ((n < 10)%nat -> getConvergenceSpeed s = Some "Insufficient data"%string) /\
    ((10 <= n)%nat ->
     getConvergenceSpeed s = Some "Converging"%string \/
     getConvergenceSpeed s = Some "Diverging"%string \/
     getConvergenceSpeed s = Some "Stable"%string).
Proof.
  destruct (histories_of_run rnd clk n) as (s & w & E & _ & _ & Hd & Hall).
  exists s, w. split; [exact E |].
  assert (Hlen : List.length (alignmentHistory s) = Nat.min 100 n).
  { rewrite (Forall2_length_eq _ _ _ Hall), <- (length_map drift_step), Hd,
      slice_last_length.
    unfold steps_taken. now rewrite length_map, length_seq. }
  unfold getConvergenceSpeed. split.
  - intro Hn.
    destruct (Nat.ltb_spec (List.length (alignmentHistory s)) 10); [reflexivity | lia].
  - intro Hn.
    destruct (Nat.ltb_spec (List.length (alignmentHistory s)) 10) as [Hlt | Hge]; [lia |].
    cbv zeta. rewrite !nth_error_slice_last by exact Hge. rewrite slice_last_length.
    destruct (nth_error (alignmentHistory s) _) as [newest|] eqn:En;
      [| apply nth_error_None in En; lia].
    destruct (nth_error (alignmentHistory s) (_ + 0)) as [oldest|] eqn:Eo;
      [| apply nth_error_None in Eo; lia].
    destruct (Num.ltb (Fin 0) _); [auto |].
    destruct (Num.ltb _ (Fin (-1))); auto.
Qed.

(** * Who exchanges what *)

Lemma index_of_draw_spec (n : nat) (d : Draw) (i : nat) :
  (0 < n)%nat ->
  (index_of_draw n d = i <-> INR i / INR n <= d < (INR i + 1) / INR n).
Proof.
  intro Hn. unfold index_of_draw.
  assert (Hpos : 0 < INR n) by (apply lt_0_INR; exact Hn).
  pose proof (Zfloor_bound (d * INR n)) as [Hlo Hhi].
  assert (Hge : (0 <= Zfloor (d * INR n))%Z).
  { apply Zfloor_lub. destruct d as [r [H0 H1]]. simpl. nra. }
  split.
  - intro E.
    assert (Ez : Zfloor (d * INR n) = Z.of_nat i) by lia.
    rewrite Ez, <- INR_IZR_INZ in Hlo, Hhi. split.
    + apply (Rmult_le_reg_r (INR n)); [exact Hpos |].
      unfold Rdiv. rewrite Rmult_assoc, Rinv_l by lra. lra.
    + apply (Rmult_lt_reg_r (INR n)); [exact Hpos |].
      unfold Rdiv. rewrite (Rmult_assoc (INR i + 1)), Rinv_l by lra. lra.
  - intros [A B]. rewrite (Zfloor_eq (Z.of_nat i)).
    + now rewrite Nat2Z.id.
    + rewrite <- INR_IZR_INZ. split.
      * apply (Rmult_le_compat_r (INR n)) in A; [| lra].
        unfold Rdiv in A. rewrite Rmult_assoc, Rinv_l in A by lra. lra.
      * apply (Rmult_lt_compat_r (INR n)) in B; [| exact Hpos].
        unfold Rdiv in B. rewrite (Rmult_assoc (INR i + 1)), Rinv_l in B by lra. lra.
Qed.



Lemma drawSequence_run (rnd : nat -> Draw) (w : World) :
  drawSequence rnd w
  = if Rlt_dec (rnd (randoms w)) 0.8
    then Some ([symbol_of_draw (rnd (S (randoms w)))],
               {| randoms := S (S (randoms w)); clocks := clocks w |})
    else Some ([symbol_of_draw (rnd (S (randoms w)));
                symbol_of_draw (rnd (S (S (randoms w))))],
               {| randoms := S (S (S (randoms w))); clocks := clocks w |}).
Proof.
  unfold drawSequence, bind, random. cbn [randoms clocks].
  destruct (Rlt_dec (rnd (randoms w)) 0.8); reflexivity.
Qed.

Lemma sampleState_ok : state_ok sampleState.
Proof. constructor; simpl; [exact sampleAgents_ok | lia | lia | lia]. Qed.

Lemma adaptSequence_agents (rnd : nat -> Draw) (st : Z) (sender receiver : nat)
  (success : bool) (sequence : list string) (l : list Agent) w l' w' :
  sender <> receiver -> (sender < 4)%nat -> (receiver < 4)%nat ->
  Forall (fun symbol => In symbol symbols) sequence ->
  agents_ok l ->
  foldM (adaptSymbol rnd st sender receiver success) sequence l w = Some (l', w') ->
  agents_ok l'.
Proof.
  intros Hne Hs Hr Hseq Hok E.
  refine (foldM_preserves _ agents_ok sequence _ l w l' w' Hok E).
  intros l0 symbol w0 l1 w1 Hin Hok0 E1. rewrite Forall_forall in Hseq.
  apply (yields_result _ _ _ l1 w1
           (adaptSymbol_ok rnd st sender receiver success l0 symbol w0
              Hok0 Hne Hs Hr (Hseq symbol Hin)) E1).
Qed.

(** The receiver's trust toward the sender after the loop over the
    sequence: raised once for each symbol of a successful exchange, left as
    it was by a failed one. *)
Lemma adaptSequence_trust (rnd : nat -> Draw) (st : Z) (sender receiver : nat)
  (success : bool) (sequence : list string) :
  sender <> receiver -> (sender < 4)%nat -> (receiver < 4)%nat ->
  Forall (fun symbol => In symbol symbols) sequence ->
  forall l w l' w' r r',
    agents_ok l ->
    foldM (adaptSymbol rnd st sender receiver success) sequence l w = Some (l', w') ->
    nth_error l receiver = Some r -> nth_error l' receiver = Some r' ->
    get_trust r' sender
    = Some (if success
            then raised (List.length sequence) (as_num (get_trust r sender))
            else as_num (get_trust r sender)).
Proof.
  intros Hne Hs Hr Hseq. induction Hseq as [| symbol rest Hin _ IH];
    intros l w l' w' r r' Hok E Hrn Hrn'; simpl in E.
  - unfold ret in E. inversion E; subst l' w'.
    rewrite Hrn in Hrn'. inversion Hrn'; subst r'.
    destruct (get_trust_defined receiver r sender (proj2 Hok receiver r Hrn) Hs Hne)
      as (t & Ht & _).
    rewrite Ht. simpl. destruct success; reflexivity.
  - apply bind_Some in E. destruct E as (l1 & w1 & E1 & E2).
    pose proof (yields_result _ _ _ l1 w1
                  (adaptSymbol_ok rnd st sender receiver success l symbol w
                     Hok Hne Hs Hr Hin) E1) as (Hok1 & _ & _ & Hunt).
    destruct (agents_ok_nth l1 receiver Hok1 Hr) as (r1 & Hr1 & _).
    rewrite (IH l1 w1 l' w' r1 r' Hok1 E2 Hr1 Hrn'). f_equal.
    destruct success.
    + pose proof (yields_result _ _ _ l1 w1
                    (adaptSymbol_success_trust rnd st sender receiver l symbol w
                       Hok Hne Hs Hr Hin) E1 receiver r r1 sender Hrn Hr1) as Ht.
      rewrite !Nat.eqb_refl in Ht. simpl in Ht. rewrite Ht. simpl as_num.
      unfold raised. cbn [List.length]. rewrite Nat.iter_succ_r. reflexivity.
    + unfold get_trust. rewrite (Hunt eq_refl receiver r r1 Hrn Hr1). reflexivity.
Qed.

(** X25. Which draws decide an exchange.  On a well-formed state whose
    mappings were all used within the last twenty steps, so that forgetting
    takes no draw, the next two draws name the sender and the receiver; when
    they differ, the third draw decides the length of the sequence (one
    symbol below 0.8, two otherwise) and the next one or two draws pick its
    symbols; the round appends to the log one record with these agents, this
    sequence, the current step, the mean distance between the two agents'
    vectors as they were, the next value of [Date.now()] as its identifier,
    and as [trustBefore] the receiver's trust in the sender as the exchange
    has left it: raised by 0.02, capped at 1, for each symbol of a
    successful sequence, unchanged by a failed one. *)
Theorem exchange_participants (rnd : nat -> Draw) (clk : nat -> Z) (s : State) (w : World) :
  state_ok s -> recently_used (step s) (agents s) ->
  index_of_draw 4 (rnd (randoms w)) <> index_of_draw 4 (rnd (S (randoms w))) ->
  yields (exchangeRound rnd clk s) w
    (fun s1 _ =>
       exists c r r',
         communications s1 = (slice_last 29 (communications s) ++ [c])%list /\
         comm_sender c = index_of_draw 4 (rnd (randoms w)) /\
         comm_receiver c = index_of_draw 4 (rnd (S (randoms w))) /\
         comm_sequence c
         = (if Rlt_dec (rnd (2 + randoms w)%nat) 0.8
            then [symbol_of_draw (rnd (3 + randoms w)%nat)]
            else [symbol_of_draw (rnd (3 + randoms w)%nat);
                  symbol_of_draw (rnd (4 + randoms w)%nat)]) /\
         comm_sequenceLength c = List.length (comm_sequence c) /\
         comm_step c = step s /\
         comm_id c = clk (clocks w) /\
         avgDistance (agents s) (comm_sender c) (comm_receiver c) (comm_sequence c)
         = Some (comm_distance c) /\
         comm_success c = Num.ltb (comm_distance c) (Fin 0.5) /\
         nth_error (agents s) (comm_receiver c) = Some r /\
         nth_error (agents s1) (comm_receiver c) = Some r' /\
         comm_trustBefore c = get_trust r' (comm_sender c) /\
         comm_trustBefore c
         = Some (if comm_success c
                 then raised (List.length (comm_sequence c))
                             (as_num (get_trust r (comm_sender c)))
                 else as_num (get_trust r (comm_sender c)))).
Proof.
  intros Hs Hrec Hne.
  eapply yields_weaken; [apply yields_graph, (exchangeRound_ok rnd clk s w Hs) |].
  intros s1 w1 [E _].
  destruct (exchangeRound_stages rnd clk s w s1 w1 E) as (l & w0 & Ef & Hrest).
  rewrite (applyForgetting_recent rnd (step s) (agents s) w Hrec) in Ef.
  inversion Ef; subst l w0. cbv zeta in Hrest.
  rewrite (proj1 (ok_agents s Hs)) in Hrest.
  destruct (Nat.eqb_spec (index_of_draw 4 (rnd (randoms w)))
                         (index_of_draw 4 (rnd (S (randoms w))))) as [Heq | _];
    [contradiction |].
  set (sender := index_of_draw 4 (rnd (randoms w))) in *.
  set (receiver := index_of_draw 4 (rnd (S (randoms w)))) in *.
  assert (Hsl : (sender < 4)%nat) by (apply draw_index_lt; lia).
  assert (Hrl : (receiver < 4)%nat) by (apply draw_index_lt; lia).
  destruct (communicate_stages rnd clk s _ _ _ _ s1 w1 Hrest)
    as (sequence & w2 & avg & r' & l' & Ed & Ea & Er & Efold & Es1).
  pose proof (drawSequence_sequence rnd _ sequence w2 Ed) as Hseq.
  destruct (agents_ok_nth (agents s) receiver (ok_agents s Hs) Hrl) as (r & Hrn & _).
  assert (Htrust : get_trust r' sender
                   = Some (if Num.ltb avg (Fin 0.5)
                           then raised (List.length sequence) (as_num (get_trust r sender))
                           else as_num (get_trust r sender))).
  { pose proof (adaptSequence_agents rnd (step s) sender receiver (Num.ltb avg (Fin 0.5))
                  sequence (agents s) _ l' w1 Hne Hsl Hrl (proj2 Hseq)
                  (ok_agents s Hs) Efold) as Hok'.
    destruct (agents_ok_nth l' receiver Hok' Hrl) as (r1 & Hr1 & _).
    rewrite Es1 in Er. cbn [agents] in Er.
    rewrite (list_update_same _ receiver _ r1) in Er
      by (rewrite list_update_other by exact Hne; exact Hr1).
    inversion Er; subst r'.
    apply (adaptSequence_trust rnd (step s) sender receiver (Num.ltb avg (Fin 0.5))
             sequence Hne Hsl Hrl (proj2 Hseq) (agents s) _ l' w1 r r1
             (ok_agents s Hs) Efold Hrn Hr1). }
  rewrite drawSequence_run in Ed. cbn [randoms clocks] in Ed.
  exists {| comm_id := clk (clocks w2); comm_sender := sender;
            comm_receiver := receiver; comm_sequence := sequence;
            comm_success := Num.ltb avg (Fin 0.5); comm_step := step s;
            comm_distance := avg; comm_trustBefore := get_trust r' sender;
            comm_sequenceLength := List.length sequence |}, r, r'.
  cbn [comm_id comm_sender comm_receiver comm_sequence comm_success comm_step
       comm_distance comm_trustBefore comm_sequenceLength].
  split; [rewrite Es1; reflexivity |].
  split; [reflexivity |]. split; [reflexivity |]. cbn [Nat.add].
  destruct (Rlt_dec (rnd (S (S (randoms w)))) 0.8);
    inversion Ed; subst sequence w2; cbn [clocks];
    (split; [reflexivity |]); (split; [reflexivity |]); (split; [reflexivity |]);
    (split; [reflexivity |]); (split; [exact Ea |]); (split; [reflexivity |]);
    (split; [exact Hrn |]); (split; [exact Er |]); (split; [reflexivity |]);
    exact Htrust.
Qed.

Lemma exchange_participants_witness :
  exists s1 w1 c,
    exchangeRound rnd_tenth_then_half clk_one sampleState world0 = Some (s1, w1) /\
    communications s1 = [c] /\
    comm_sender c = 0%nat /\ comm_receiver c = 2%nat /\
    comm_sequence c = ["δ"%string] /\ comm_id c = 1%Z.
Proof.
  assert (I0 : index_of_draw 4 (rnd_tenth_then_half 0) = 0%nat).
  { apply index_of_draw_spec; [lia |]. simpl. lra. }
  assert (I1 : index_of_draw 4 (rnd_tenth_then_half 1) = 2%nat).
  { apply index_of_draw_spec; [lia |]. simpl. lra. }
  assert (S3 : symbol_of_draw (rnd_tenth_then_half 3) = "δ"%string).
  { apply (symbol_of_draw_sixths half 3); [lia |]. simpl. lra. }
  destruct (exchange_participants rnd_tenth_then_half clk_one sampleState world0)
    as (s1 & w1 & E & c & r & r' & H1 & H2 & H3 & H4 & _ & _ & H7 & _).
  - exact sampleState_ok.
  - apply sample_recently_used. simpl. lia.
  - simpl randoms. rewrite I0, I1. discriminate.
  - exists s1, w1, c. split; [exact E |]. split; [exact H1 |].
    simpl randoms in H2, H3, H4. rewrite I0 in H2. rewrite I1 in H3.
    cbn [Nat.add] in H4. rewrite S3 in H4.
    destruct (Rlt_dec (rnd_tenth_then_half 2) 0.8) as [_ | N];
      [| exfalso; apply N; simpl; lra].
    auto.
Defined.

Lemma remember_last (e : MemoryEntry) (a : Agent) :
  exists earlier, memory (remember e a) = (earlier ++ [e])%list.
Proof.
  unfold remember. cbv zeta. unfold with_memory. cbn [memory].
  destruct (memory a) as [| x m]; [now exists [] |].
  destruct (50 <? _)%nat; [now exists m | now exists (x :: m)].
Qed.

(** X26. The log and the memories agree.  An exchange between two
    different agents of a well-formed population appends one record to the
    communication log, and leaves as the newest entry of the sender's memory
    a [sent] entry, and as the newest entry of the receiver's memory a
    [received] entry, each with the step, the sequence and the outcome of
    that record and with the other agent as partner. *)
Theorem exchange_recorded_in_memories (rnd : nat -> Draw) (clk : nat -> Z) (s : State)
  (l : list Agent) (sender receiver : nat) (w : World) :
  agents_ok l -> sender <> receiver -> (sender < 4)%nat -> (receiver < 4)%nat ->
  yields (communicate rnd clk s l sender receiver) w
    (fun s' _ =>
       exists c sa ra ms mr,
         communications s' = (slice_last 29 (communications s) ++ [c])%list /\
         comm_sender c = sender /\ comm_receiver c = receiver /\
         nth_error (agents s') sender = Some sa /\
         nth_error (agents s') receiver = Some ra /\
         memory sa
         = (ms ++ [{| mem_step := comm_step c; mem_action := sent;
                      mem_sequence := comm_sequence c; mem_success := comm_success c;
                      mem_partner := receiver |}])%list /\
         memory ra
         = (mr ++ [{| mem_step := comm_step c; mem_action := received;
                      mem_sequence := comm_sequence c; mem_success := comm_success c;
                      mem_partner := sender |}])%list).
Proof.
  intros Hok Hne Hs Hr.
  eapply yields_weaken;
    [apply yields_graph, (communicate_ok rnd clk s l sender receiver w Hok Hne Hs Hr) |].
  intros s' w' [E _].
  destruct (communicate_stages rnd clk s l sender receiver w s' w' E)
    as (sequence & w1 & avg & r & l' & Ed & Ea & Er & Ef & ->).
  pose proof (drawSequence_sequence rnd w sequence w1 Ed) as Hseq.
  pose proof (adaptSequence_agents rnd (step s) sender receiver (Num.ltb avg (Fin 0.5))
                sequence l _ l' w' Hne Hs Hr (proj2 Hseq) Hok Ef) as Hok'.
  destruct (agents_ok_nth l' sender Hok' Hs) as (a1 & Ha1 & _).
  destruct (agents_ok_nth l' receiver Hok' Hr) as (a2 & Ha2 & _).
  cbn [agents communications].
  set (sentEntry := {| mem_step := step s; mem_action := sent; mem_sequence := sequence;
                       mem_success := Num.ltb avg (Fin 0.5); mem_partner := receiver |}).
  set (receivedEntry := {| mem_step := step s; mem_action := received;
                           mem_sequence := sequence;
                           mem_success := Num.ltb avg (Fin 0.5); mem_partner := sender |}).
  destruct (remember_last sentEntry a1) as (ms & Hms).
  destruct (remember_last receivedEntry a2) as (mr & Hmr).
  eexists _, (remember sentEntry a1), (remember receivedEntry a2), ms, mr.
  split; [reflexivity |]. cbn.
  split; [reflexivity | split; [reflexivity | split; [| split; [| split]]]].
  - rewrite list_update_other by (intro E0; apply Hne; now symmetry).
    apply list_update_same, Ha1.
  - apply list_update_same. rewrite list_update_other by exact Hne. exact Ha2.
  - exact Hms.
  - exact Hmr.
Qed.

Lemma exchange_recorded_in_memories_witness :
  exists s' w' c sa ra,
    communicate rnd_half clk_zero sampleState sampleAgents 0 1 world0 = Some (s', w') /\
    communications s' = [c] /\
    nth_error (agents s') 0 = Some sa /\ nth_error (agents s') 1 = Some ra /\
    memory sa = [{| mem_step := comm_step c; mem_action := sent;
                    mem_sequence := comm_sequence c; mem_success := comm_success c;
                    mem_partner := 1 |}].
Proof.
  destruct (exchange_recorded_in_memories rnd_half clk_zero sampleState sampleAgents 0 1
              world0 sampleAgents_ok ltac:(discriminate) ltac:(lia) ltac:(lia))
    as (s' & w' & E & c & sa & ra & ms & mr & H1 & _ & _ & H4 & H5 & H6 & _).
  exists s', w', c, sa, ra.
  split; [exact E | split; [exact H1 | split; [exact H4 | split; [exact H5 |]]]].
  pose proof (yields_result _ _ _ s' w'
                (communicate_ok rnd_half clk_zero sampleState sampleAgents 0 1 world0
                   sampleAgents_ok ltac:(discriminate) ltac:(lia) ltac:(lia)) E)
    as (_ & _ & Hmem & _).
  destruct (Hmem 0%nat (sampleAgent 0) sa (sampleAgents_nth 0 ltac:(lia)) H4)
    as (added & Hlen & Hkept).
  simpl in Hkept.
  assert (Hms : ms = []).
  { rewrite H6 in Hkept. unfold slice_last in Hkept.
    apply (f_equal (@List.length MemoryEntry)) in Hkept.
    rewrite length_skipn, length_app in Hkept. simpl in Hkept.
    destruct ms; [reflexivity | simpl in Hkept; lia]. }
  rewrite H6, Hms. reflexivity.
Defined.

(** * What a redefinition leaves alone *)

Lemma kind_of_draw_first (d : Draw) : d < 1 / 3 -> kind_of_draw d = symbol_redefinition.
Proof.
  intro Hd. destruct (shift_kind_thirds d) as (H1 & _). unfold kind_of_draw.
  apply H1, Hd.
Qed.

Lemma triggerContextShift_redefinition (rnd : nat -> Draw) (clk : nat -> Z) (s : State)
  (w : World) :
  rnd (randoms w) < 1 / 3 ->
  triggerContextShift rnd clk s w
  = match mapM (redefine rnd (symbol_of_draw (rnd (S (randoms w))))) (agents s)
               {| randoms := S (S (randoms w)); clocks := clocks w |} with
    | Some (newAgents, w') =>
        Some ({| step := step s; agents := newAgents;
                 communications := communications s;
                 driftHistory := driftHistory s; alignmentHistory := alignmentHistory s;
                 syntaxPatterns := syntaxPatterns s;
                 contextShifts :=
                   (contextShifts s ++
                      [{| shift_step := step s; shift_type := symbol_redefinition;
                          shift_id := clk (clocks w') |}])%list |},
              {| randoms := randoms w'; clocks := S (clocks w') |})
    | None => None
    end.
Proof.
  intro Hd. pose proof (kind_of_draw_first (rnd (randoms w)) Hd) as Hk.
  unfold kind_of_draw in Hk.
  unfold triggerContextShift, chooseShift, applyShift, randomSymbol, randomIndex, bind,
    random, ret, now.
  cbv beta iota. cbn [randoms clocks].
  rewrite Hk. cbv beta iota. cbn [fst snd].
  destruct (mapM _ (agents s) _) as [[l' w']|]; reflexivity.
Qed.

Lemma redefine_run (rnd : nat -> Draw) (target : string) (a : Agent) (m : SymbolMapping) w :
  get_mapping a target = Some m ->
  redefine rnd target a w
  = Some (with_mapping a target
            {| vector := [Fin (rnd (randoms w) * 2 - 1);
                          Fin (rnd (S (randoms w)) * 2 - 1);
                          Fin (rnd (S (S (randoms w))) * 2 - 1)];
               confidence := Fin 0.3;
               usageCount := usageCount m; lastUsed := lastUsed m |},
          {| randoms := S (S (S (randoms w))); clocks := clocks w |}).
Proof.
  intro Hm. unfold redefine, bind. rewrite randomVector_run, Hm. reflexivity.
Qed.

Lemma redefine_spares (rnd : nat -> Draw) (target : string) i (a : Agent) w a' w' :
  agent_ok i a -> In target symbols ->
  redefine rnd target a w = Some (a', w') ->
  identity a' = identity a /\ trustScores a' = trustScores a /\
  memory a' = memory a /\
  (forall symbol, symbol <> target -> get_mapping a' symbol = get_mapping a symbol) /\
  exists m m',
    get_mapping a target = Some m /\ get_mapping a' target = Some m' /\
    usageCount m' = usageCount m /\ lastUsed m' = lastUsed m.
Proof.
  intros Hok Hin E.
  destruct (get_mapping_defined i a target Hok Hin) as (m & Hm & _).
  rewrite (redefine_run rnd target a m w Hm) in E. inversion E; subst a' w'.
  split; [reflexivity | split; [reflexivity | split; [reflexivity | split]]].
  - intros symbol Hne. unfold get_mapping. cbn [with_mapping symbolMappings].
    apply (dict_get_set_other String.eqb String.eqb_eq). congruence.
  - eexists m, _. split; [exact Hm |]. split.
    + unfold get_mapping. cbn [with_mapping symbolMappings].
      apply (dict_get_set_same String.eqb String.eqb_eq).
    + split; reflexivity.
Qed.

(** X27. What a redefinition leaves alone.  When the draw that picks the
    kind is below 1/3, the shift redefines one symbol, picked by the next
    draw, in every agent: the mapping of that symbol keeps its usage counter
    and its last use, so it is not new to the forgetting pass; the mappings
    of the other five symbols, the trust tables, the memories, the
    identifiers, names and traits of the agents, the communication log, the
    syntax patterns and the two histories stay as they were. *)
Theorem redefinition_spares_the_rest (rnd : nat -> Draw) (clk : nat -> Z) (s : State)
  (w : World) :
  agents_ok (agents s) -> rnd (randoms w) < 1 / 3 ->
  yields (triggerContextShift rnd clk s) w
    (fun s' _ =>
       communications s' = communications s /\
       syntaxPatterns s' = syntaxPatterns s /\
       driftHistory s' = driftHistory s /\ alignmentHistory s' = alignmentHistory s /\
       step s' = step s /\ List.length (agents s') = List.length (agents s) /\
       forall i a a',
         nth_error (agents s) i = Some a -> nth_error (agents s') i = Some a' ->
         identity a' = identity a /\ trustScores a' = trustScores a /\
         memory a' = memory a /\
         (forall symbol, symbol <> symbol_of_draw (rnd (S (randoms w))) ->
                         get_mapping a' symbol = get_mapping a symbol) /\
         exists m m',
           get_mapping a (symbol_of_draw (rnd (S (randoms w)))) = Some m /\
           get_mapping a' (symbol_of_draw (rnd (S (randoms w)))) = Some m' /\
           usageCount m' = usageCount m /\ lastUsed m' = lastUsed m).
Proof.
  intros Hok Hd.
  eapply yields_weaken;
    [apply yields_graph, (triggerContextShift_applied rnd clk s w Hok) |].
  intros s' w' [E _].
  rewrite (triggerContextShift_redefinition rnd clk s w Hd) in E.
  set (target := symbol_of_draw (rnd (S (randoms w)))) in *.
  destruct (mapM (redefine rnd target) (agents s) _) as [[l' w2]|] eqn:Em; [| discriminate].
  inversion E; subst s' w'. cbn.
  assert (Hpt : forall a w0 a' w3,
             In a (agents s) -> redefine rnd target a w0 = Some (a', w3) ->
             identity a' = identity a /\ trustScores a' = trustScores a /\
             memory a' = memory a /\
             (forall symbol, symbol <> target ->
                             get_mapping a' symbol = get_mapping a symbol) /\
             exists m m',
               get_mapping a target = Some m /\ get_mapping a' target = Some m' /\
               usageCount m' = usageCount m /\ lastUsed m' = lastUsed m).
  { intros a w0 a' w3 Ha E1. apply In_nth_error in Ha. destruct Ha as (i & Hi).
    apply (redefine_spares rnd target i a w0 a' w3 (proj2 Hok i a Hi)
             (symbol_of_draw_In _) E1). }
  pose proof (mapM_pointwise _ _ (agents s) Hpt _ l' w2 Em) as Hall.
  split; [reflexivity |]. split; [reflexivity |]. split; [reflexivity |].
  split; [reflexivity |]. split; [reflexivity |].
  split; [apply (Forall2_length_eq _ _ _ Hall) |].
  intros i a a' Ha Ha'. apply (Forall2_nth _ _ _ Hall i a a' Ha Ha').
Qed.

Lemma redefinition_spares_the_rest_witness :
  exists s' w',
    triggerContextShift rnd_tenth_then_half clk_zero sampleState world0 = Some (s', w') /\
    communications s' = [] /\ List.length (agents s') = 4%nat.
Proof.
  destruct (redefinition_spares_the_rest rnd_tenth_then_half clk_zero sampleState world0)
    as (s' & w' & E & H1 & _ & _ & _ & _ & H6 & _).
  - exact sampleAgents_ok.
  - simpl. lra.
  - exists s', w'. auto.
Defined.

(** * A zero vector in the metrics *)

Lemma fold_add_NaN {A : Type} (g : A -> num) (l : list A) :
  (exists x, In x l /\ g x = NaN) ->
  forall acc, fold_left (fun acc x => Num.add acc (g x)) l acc = NaN.
Proof.
  assert (Habs : forall l', fold_left (fun acc x => Num.add acc (g x)) l' NaN = NaN).
  { induction l' as [| y l' IH]; [reflexivity | exact IH]. }
  induction l as [| y l IH]; intros (x & Hin & Hx) acc; [contradiction |].
  cbn [fold_left]. destruct Hin as [-> | Hin].
  - rewrite Hx. replace (Num.add acc NaN) with NaN by (destruct acc; reflexivity).
    apply Habs.
  - apply IH. eauto.
Qed.

Lemma zero_vector_distance (v1 v2 : list num) :
  vector_ok v1 -> vector_ok v2 ->
  Forall (fun x => x = Fin 0) v1 \/ Forall (fun x => x = Fin 0) v2 ->
  calculateVectorDistance v1 v2 = NaN.
Proof.
  intros [L1 F1] [L2 F2] Hz.
  destruct (finite_vector v1 F1) as (a & ->). destruct (finite_vector v2 F2) as (b & ->).
  rewrite length_map in L1, L2.
  apply distance_zero_magnitude; [congruence |].
  assert (Hzero : forall c, Forall (fun x => x = Fin 0) (map Fin c) -> sumsq c = 0).
  { intros c Hc. apply sumsq_zero. apply Forall_map in Hc.
    eapply Forall_impl; [| exact Hc]. intros x Hx. now injection Hx. }
  destruct Hz as [Hz | Hz]; [left | right]; apply Hzero, Hz.
Qed.

Lemma pairDrift_zero_vector i j (a b : Agent) (symbol : string) :
  agent_ok i a -> agent_ok j b -> In symbol symbols ->
  Forall (fun x => x = Fin 0) (vectorOf a symbol) \/
  Forall (fun x => x = Fin 0) (vectorOf b symbol) ->
  pairDrift a b = NaN.
Proof.
  intros Ha Hb Hin Hz. unfold pairDrift.
  rewrite (fold_add_NaN
             (fun symbol => calculateVectorDistance (vectorOf a symbol) (vectorOf b symbol)));
    [reflexivity |].
  exists symbol. split; [exact Hin |].
  apply zero_vector_distance;
    [apply (vectorOf_ok i a symbol Ha Hin) | apply (vectorOf_ok j b symbol Hb Hin) | exact Hz].
Qed.

(** Every agent of a population of two or more is in one of the pairs. *)
Lemma agentPairs_cover (l : list Agent) (a : Agent) :
  In a l -> (2 <= List.length l)%nat ->
  exists p, In p (agentPairs l) /\ (fst p = a \/ snd p = a).
Proof.
  induction l as [| x l IH]; intros Hin Hlen; [contradiction |].
  simpl. destruct Hin as [-> | Hin].
  - destruct l as [| y l]; [simpl in Hlen; lia |].
    exists (a, y). split; [left; reflexivity | left; reflexivity].
  - exists (x, a). split; [| right; reflexivity].
    apply in_or_app. left. apply in_map, Hin.
Qed.

(** X28. One zero vector spoils the metrics: when any agent of a
    well-formed population holds the zero vector for any symbol, the drift
    of the population is [NaN] and so is the alignment, and these are the
    values the metrics append to the two histories. *)
Theorem zero_vector_spoils_metrics (s : State) (a : Agent) (symbol : string)
  (m : SymbolMapping) :
  agents_ok (agents s) -> In a (agents s) -> In symbol symbols ->
  get_mapping a symbol = Some m -> Forall (fun x => x = Fin 0) (vector m) ->
  avgDrift (agents s) = NaN /\
  driftHistory (calculateDriftMetrics s)
  = (slice_last 99 (driftHistory s) ++ [{| drift_step := step s; drift := NaN |}])%list /\
  alignmentHistory (calculateDriftMetrics s)
  = (slice_last 99 (alignmentHistory s)
       ++ [{| align_step := step s; alignment := NaN |}])%list.
Proof.
  intros Hok Ha Hin Hm Hz.
  assert (Hd : avgDrift (agents s) = NaN).
  { unfold avgDrift.
    destruct (agentPairs_cover (agents s) a Ha ltac:(rewrite (proj1 Hok); lia))
      as (p & Hp & Hpa).
    assert (Hpos : (0 <? List.length (agentPairs (agents s)))%nat = true).
    { apply Nat.ltb_lt. destruct (agentPairs (agents s)); [contradiction | simpl; lia]. }
    rewrite Hpos.
    rewrite (fold_add_NaN (fun p => pairDrift (fst p) (snd p))); [reflexivity |].
    exists p. split; [exact Hp |].
    destruct (agentPairs_In (agents s) p Hp) as [H1 H2].
    apply In_nth_error in H1. destruct H1 as (i & H1).
    apply In_nth_error in H2. destruct H2 as (j & H2).
    apply (pairDrift_zero_vector i j _ _ symbol
             (proj2 Hok i _ H1) (proj2 Hok j _ H2) Hin).
    unfold vectorOf. destruct Hpa as [-> | ->]; [left | right]; now rewrite Hm. }
  split; [exact Hd |].
  destruct (calculateDriftMetrics_histories s (agents_ok_nonempty _ Hok)) as [E1 E2].
  rewrite E1, E2, Hd. split; reflexivity.
Qed.

Lemma degenerateAgents_ok : agents_ok degenerateAgents.
Proof.
  split; [reflexivity |]. intros i a Ha.
  destruct i as [| i].
  - simpl in Ha. inversion Ha; subst a.
    apply with_mapping_ok; [apply sampleAgent_ok; lia | simpl; auto |].
    split; [split; [reflexivity | repeat constructor] | simpl; lra].
  - assert (Hi : (S i < 4)%nat).
    { assert (H : (S i < List.length degenerateAgents)%nat)
        by (apply nth_error_Some; congruence).
      exact H. }
    unfold degenerateAgents in Ha. rewrite list_set_other in Ha by discriminate.
    rewrite (sampleAgents_nth (S i) Hi) in Ha. inversion Ha; subst a.
    apply sampleAgent_ok, Hi.
Qed.

Lemma zero_vector_spoils_metrics_witness :
  avgDrift degenerateAgents = NaN.
Proof.
  apply (zero_vector_spoils_metrics
           {| step := 0; agents := degenerateAgents; communications := [];
              driftHistory := []; alignmentHistory := [];
              syntaxPatterns := []; contextShifts := [] |}
           (with_mapping (sampleAgent 0) "α" zeroMapping) "α" zeroMapping).
  - exact degenerateAgents_ok.
  - left. reflexivity.
  - simpl. auto.
  - reflexivity.
  - repeat constructor.
Defined.

(** * How many oracle values a tick takes *)

Lemma mapM_draws_between {A B : Type} (f : A -> M B) (P : A -> Prop) (lo hi : nat)
  (l : list A) :
  (forall x w y w', P x -> f x w = Some (y, w') ->
                    (randoms w + lo <= randoms w' <= randoms w + hi)%nat /\
                    clocks w' = clocks w) ->
  Forall P l ->
  forall w l' w',
    mapM f l w = Some (l', w') ->
    (randoms w + lo * List.length l <= randoms w' <= randoms w + hi * List.length l)%nat /\
    clocks w' = clocks w.
Proof.
  intros Hf Hall. induction Hall as [| x l Hx _ IH]; intros w l' w' E; simpl in E.
  - unfold ret in E. inversion E; subst. simpl. split; [lia | reflexivity].
  - apply bind_Some in E. destruct E as (y & w1 & E1 & E2).
    apply bind_Some in E2. destruct E2 as (ys & w2 & E2 & E3).
    unfold ret in E3. inversion E3; subst.
    destruct (Hf _ _ _ _ Hx E1) as [R1 C1]. destruct (IH _ _ _ E2) as [R2 C2].
    cbn [List.length]. split; [nia | congruence].
Qed.

Lemma forget_draws (rnd : nat -> Draw) (st : Z) (a : Agent) (m : SymbolMapping) w m' w' :
  mapping_ok m -> forget rnd st a m w = Some (m', w') ->
  (randoms w + 0 <= randoms w' <= randoms w + 3)%nat /\ clocks w' = clocks w.
Proof.
  intros [[Hlen _] _]. unfold forget, bind. destruct (pastThreshold st m).
  - rewrite jitter_run, Hlen. unfold ret. intro E. inversion E; subst. simpl.
    split; [lia | reflexivity].
  - unfold ret. intro E. inversion E; subst. split; [lia | reflexivity].
Qed.

Lemma forgetAgent_draws (rnd : nat -> Draw) (st : Z) i (a : Agent) w a' w' :
  agent_ok i a -> forgetAgent rnd st a w = Some (a', w') ->
  (randoms w + 0 <= randoms w' <= randoms w + 18)%nat /\ clocks w' = clocks w.
Proof.
  intros Hok E. unfold forgetAgent in E.
  apply bind_Some in E. destruct E as (ms & w1 & E1 & E2).
  unfold ret in E2. inversion E2; subst a' w'.
  assert (Hf : forall (e : string * SymbolMapping) w0 (e' : string * SymbolMapping) w2,
             mapping_ok (snd e) ->
             (m <- forget rnd st a (snd e) ;; ret (fst e, m)) w0 = Some (e', w2) ->
             (randoms w0 + 0 <= randoms w2 <= randoms w0 + 3)%nat /\
             clocks w2 = clocks w0).
  { intros e w0 e' w2 He E0. apply bind_Some in E0. destruct E0 as (m' & w3 & E3 & E4).
    unfold ret in E4. inversion E4; subst.
    apply (forget_draws rnd st a (snd e) w0 m' w2 He E3). }
  pose proof (mapM_draws_between _ _ 0 3 (symbolMappings a) Hf
                (ok_mappings i a Hok) w ms w1 E1) as H.
  assert (Hlen : List.length (symbolMappings a) = 6%nat).
  { rewrite <- (length_map fst), (ok_symbols i a Hok). reflexivity. }
  rewrite Hlen in H. exact H.
Qed.

Lemma applyForgetting_draws (rnd : nat -> Draw) (st : Z) (l : list Agent) w l' w' :
  agents_ok l -> applyForgetting rnd st l w = Some (l', w') ->
  (randoms w <= randoms w' <= randoms w + 72)%nat /\ clocks w' = clocks w.
Proof.
  intros Hok E. unfold applyForgetting in E.
  assert (Hf : forall a w0 a' w2,
             (exists i, agent_ok i a) -> forgetAgent rnd st a w0 = Some (a', w2) ->
             (randoms w0 + 0 <= randoms w2 <= randoms w0 + 18)%nat /\
             clocks w2 = clocks w0).
  { intros a w0 a' w2 (i & Ha). apply (forgetAgent_draws rnd st i a w0 a' w2 Ha). }
  assert (Hall : Forall (fun a => exists i, agent_ok i a) l).
  { apply Forall_forall. intros a Hin. apply In_nth_error in Hin.
    destruct Hin as (i & Hi). exists i. apply (proj2 Hok i a Hi). }
  pose proof (mapM_draws_between _ _ 0 18 l Hf Hall w l' w' E) as H.
  rewrite (proj1 Hok) in H. simpl in H. split; [lia | apply H].
Qed.

Lemma repair_draws (rnd : nat -> Draw) (sender : nat) (sm : SymbolMapping) (r : Agent)
  (rm : SymbolMapping) w :
  List.length (vector sm) = 3%nat -> List.length (vector rm) = 3%nat ->
  exists m',
    repair rnd sender sm r rm w
    = Some (m', {| randoms := S (randoms w) + 3; clocks := clocks w |}).
Proof.
  intros H1 H2. unfold repair, bind. unfold random at 1.
  destruct (Num.ltb (Fin (rnd (randoms w)))
              (Num.mul (adaptability r) (as_num (get_trust r sender))));
    rewrite jitter_run; cbn [randoms clocks]; rewrite ?H1, ?H2; eexists; reflexivity.
Qed.

Lemma adaptSymbol_draws (rnd : nat -> Draw) (st : Z) (sender receiver : nat)
  (success : bool) (l : list Agent) (symbol : string) w l' w' :
  agents_ok l -> (sender < 4)%nat -> (receiver < 4)%nat -> In symbol symbols ->
  adaptSymbol rnd st sender receiver success l symbol w = Some (l', w') ->
  (randoms w <= randoms w' <= randoms w + 4)%nat /\ clocks w' = clocks w.
Proof.
  intros Hok Hs Hr Hin E.
  destruct (agents_ok_nth l sender Hok Hs) as (s & Hsn & Hsok).
  destruct (agents_ok_nth l receiver Hok Hr) as (r & Hrn & Hrok).
  destruct (get_mapping_defined sender s symbol Hsok Hin) as (sm & Hsm & [[L1 _] _]).
  destruct (get_mapping_defined receiver r symbol Hrok Hin) as (rm & Hrm & [[L2 _] _]).
  destruct success.
  - rewrite (adaptSymbol_success_run rnd st _ _ l symbol s r sm rm w Hsn Hrn Hsm Hrm) in E.
    inversion E; subst. split; [lia | reflexivity].
  - destruct (repair_draws rnd sender (touch st sm) r (touch st rm) w L1 L2) as (m' & Hm').
    unfold adaptSymbol, bind, defined in E.
    rewrite Hsn, Hrn in E. unfold ret at 1 2 in E. rewrite Hsm, Hrm in E.
    unfold ret at 1 2 in E. rewrite Hm' in E. unfold ret in E.
    inversion E; subst. simpl. split; [lia | reflexivity].
Qed.

Lemma adaptSequence_draws (rnd : nat -> Draw) (st : Z) (sender receiver : nat)
  (success : bool) (sequence : list string) :
  sender <> receiver -> (sender < 4)%nat -> (receiver < 4)%nat ->
  Forall (fun symbol => In symbol symbols) sequence ->
  forall l w l' w',
    agents_ok l ->
    foldM (adaptSymbol rnd st sender receiver success) sequence l w = Some (l', w') ->
    (randoms w <= randoms w' <= randoms w + 4 * List.length sequence)%nat /\
    clocks w' = clocks w.
Proof.
  intros Hne Hs Hr Hseq. induction Hseq as [| symbol rest Hin _ IH];
    intros l w l' w' Hok E; simpl in E.
  - unfold ret in E. inversion E; subst. simpl. split; [lia | reflexivity].
  - apply bind_Some in E. destruct E as (l1 & w1 & E1 & E2).
    pose proof (yields_result _ _ _ l1 w1
                  (adaptSymbol_ok rnd st sender receiver success l symbol w
                     Hok Hne Hs Hr Hin) E1) as (Hok1 & _).
    destruct (adaptSymbol_draws rnd st sender receiver success l symbol w l1 w1
                Hok Hs Hr Hin E1) as [R1 C1].
    destruct (IH l1 w1 l' w' Hok1 E2) as [R2 C2].
    cbn [List.length]. split; [lia | congruence].
Qed.

Lemma communicate_draws (rnd : nat -> Draw) (clk : nat -> Z) (s : State) (l : list Agent)
  (sender receiver : nat) w s' w' :
  agents_ok l -> sender <> receiver -> (sender < 4)%nat -> (receiver < 4)%nat ->
  communicate rnd clk s l sender receiver w = Some (s', w') ->
  (randoms w + 2 <= randoms w' <= randoms w + 11)%nat /\ clocks w' = S (clocks w).
Proof.
  intros Hok Hne Hs Hr E.
  destruct (communicate_stages rnd clk s l sender receiver w s' w' E)
    as (sequence & w1 & avg & r & l' & Ed & _ & _ & Ef & _).
  pose proof (drawSequence_sequence rnd w sequence w1 Ed) as [_ Hseq].
  destruct (adaptSequence_draws rnd (step s) sender receiver _ sequence Hne Hs Hr Hseq
              l _ l' w' Hok Ef) as [R C].
  cbn [randoms clocks] in R, C.
  rewrite drawSequence_run in Ed.
  destruct (Rlt_dec (rnd (randoms w)) 0.8); inversion Ed; subst sequence w1;
    cbn [randoms clocks List.length] in R, C; split; lia.
Qed.

Lemma exchangeRound_draws (rnd : nat -> Draw) (clk : nat -> Z) (s : State) w s1 w1 :
  state_ok s -> exchangeRound rnd clk s w = Some (s1, w1) ->
  (randoms w + 2 <= randoms w1 <= randoms w + 85)%nat /\
  (clocks w <= clocks w1 <= clocks w + 1)%nat.
Proof.
  intros Hs E.
  destruct (exchangeRound_stages rnd clk s w s1 w1 E) as (l & w0 & Ef & Hrest).
  cbv zeta in Hrest.
  assert (Hok : agents_ok l).
  { refine (yields_result _ _ (fun l _ => agents_ok l) l w0 _ Ef).
    apply applyForgetting_ok; [apply (ok_agents s Hs) | auto]. }
  destruct (applyForgetting_draws rnd (step s) (agents s) w l w0 (ok_agents s Hs) Ef)
    as [R0 C0].
  destruct (Nat.eqb_spec (index_of_draw (List.length l) (rnd (randoms w0)))
                         (index_of_draw (List.length l) (rnd (S (randoms w0)))))
    as [_ | Hne].
  - destruct Hrest as [_ ->]. simpl. split; lia.
  - rewrite (proj1 Hok) in Hrest, Hne.
    destruct (communicate_draws rnd clk s l _ _ _ s1 w1 Hok Hne
                (draw_index_lt _ 4 ltac:(lia)) (draw_index_lt _ 4 ltac:(lia)) Hrest)
      as [R C].
    cbn [randoms clocks] in R, C. split; lia.
Qed.

Lemma applyShift_draws (rnd : nat -> Draw) (clk : nat -> Z) (st : Z)
  (shift : ShiftType * option string) (s : State) w s' w' :
  agents_ok (agents s) ->
  (forall target, snd shift = Some target -> In target symbols) ->
  applyShift rnd clk st shift s w = Some (s', w') ->
  match snd shift with
  | Some _ => randoms w' = (randoms w + 12)%nat
  | None => randoms w' = randoms w
  end /\ clocks w' = S (clocks w).
Proof.
  intros Hok Htarget E.
  destruct (applyShift_stages rnd clk st shift s w s' w' E) as (_ & _ & _ & Hrest).
  destruct (snd shift) as [target |]; [| destruct Hrest as [_ ->]; split; reflexivity].
  destruct Hrest as (w2 & Em & ->). cbn [randoms clocks].
  pose proof (Htarget target eq_refl) as Hin.
  assert (Hf : forall a w0 a' w3,
             (exists i, agent_ok i a) -> redefine rnd target a w0 = Some (a', w3) ->
             (randoms w0 + 3 <= randoms w3 <= randoms w0 + 3)%nat /\
             clocks w3 = clocks w0).
  { intros a w0 a' w3 (i & Ha) E1.
    destruct (get_mapping_defined i a target Ha Hin) as (m & Hm & _).
    rewrite (redefine_run rnd target a m w0 Hm) in E1. inversion E1; subst.
    simpl. split; [lia | reflexivity]. }
  assert (Hall : Forall (fun a => exists i, agent_ok i a) (agents s)).
  { apply Forall_forall. intros a Ha. apply In_nth_error in Ha.
    destruct Ha as (i & Hi). exists i. apply (proj2 Hok i a Hi). }
  pose proof (mapM_draws_between _ _ 3 3 (agents s) Hf Hall _ _ w2 Em) as H.
  rewrite (proj1 Hok) in H. split; [lia | f_equal; apply H].
Qed.

(** X29. What a tick takes from the two oracles.  A tick of a well-formed
    state takes at least 2 and at most 99 values of [Math.random()] (at most
    85 at a step where no context shift is due), and at most 2 values of
    [Date.now()] (at most 1 at such a step). *)
Theorem tick_budget (rnd : nat -> Draw) (clk : nat -> Z) (s : State) (w : World) :
  state_ok s ->
  yields (tick rnd clk s) w
    (fun _ w' =>
       (randoms w + 2 <= randoms w' <= randoms w + 99)%nat /\
       (clocks w <= clocks w' <= clocks w + 2)%nat /\
       (shiftDue (step s) = false ->
        (randoms w' <= randoms w + 85)%nat /\ (clocks w' <= clocks w + 1)%nat)).
Proof.
  intro Hs.
  eapply yields_weaken; [apply yields_graph, (tick_ok rnd clk s w Hs) |].
  intros s' w' [E _].
  destruct (tick_stages rnd clk s w s' w' (agents_ok_nonempty _ (ok_agents s Hs)) E)
    as (shift & w0 & s1 & w1 & s2 & Hch & Ex & Hsh & _).
  destruct (exchangeRound_draws rnd clk s w0 s1 w1 Hs Ex) as [R1 C1].
  pose proof (yields_result _ _ _ s1 w1 (exchangeRound_ok rnd clk s w0 Hs) Ex) as Hex.
  destruct (shiftDue (step s)).
  - destruct Hch as (x & Ec & ->).
    destruct (chooseShift_stages rnd w x w0 Ec) as [C0 R0].
    assert (Htarget : forall target, snd x = Some target -> In target symbols).
    { intros target Et. rewrite Et in R0. apply R0. }
    destruct (applyShift_draws rnd clk (step s) x s1 w1 s2 w' (ex_agents s s1 Hex)
                Htarget Hsh) as [R2 C2].
    destruct (snd x); split; [lia | split; [lia | discriminate]
                              | lia | split; [lia | discriminate]].
  - destruct Hch as [-> ->]. destruct Hsh as [_ ->].
    split; [lia | split; [lia |]]. intros _. split; lia.
Qed.

Lemma tick_budget_witness :
  exists s' w',
    tick rnd_half clk_zero sampleState world0 = Some (s', w') /\
    (2 <= randoms w' <= 99)%nat /\ (clocks w' <= 2)%nat.
Proof.
  destruct (tick_budget rnd_half clk_zero sampleState world0 sampleState_ok)
    as (s' & w' & E & H1 & H2 & _).
  exists s', w'. simpl in H1, H2. split; [exact E | split; lia].
Defined.

(** * The bounded logs *)

Lemma appended_slice {A : Type} (cap : nat) (l : list A) (x : A) :
  (List.length l <= S cap)%nat -> appended (S cap) l x (slice_last cap l ++ [x]).
Proof.
  intro Hlen. unfold appended, slice_last. f_equal.
  destruct (Nat.ltb_spec (List.length l) (S cap)) as [Hlt | Hge].
  - replace (List.length l - cap)%nat with 0%nat by lia. reflexivity.
  - replace (List.length l - cap)%nat with 1%nat by lia.
    destruct l; reflexivity.
Qed.

Lemma remember_appended (e : MemoryEntry) (a : Agent) :
  (List.length (memory a) <= 50)%nat ->
  appended 50 (memory a) e (memory (remember e a)).
Proof.
  intro Hlen. unfold appended, remember. cbv zeta. unfold with_memory. cbn [memory].
  rewrite length_app. cbn [List.length].
  destruct (Nat.ltb_spec (List.length (memory a)) 50) as [Hlt | Hge].
  - replace (50 <? List.length (memory a) + 1)%nat with false
      by (symmetry; apply Nat.ltb_ge; lia).
    reflexivity.
  - replace (50 <? List.length (memory a) + 1)%nat with true
      by (symmetry; apply Nat.ltb_lt; lia).
    destruct (memory a) as [| x m]; [simpl in Hge; lia | reflexivity].
Qed.

(** The loop over the sequence writes no memory. *)
Lemma adaptSequence_memory (rnd : nat -> Draw) (st : Z) (sender receiver : nat)
  (success : bool) (sequence : list string) (l : list Agent) w l' w' :
  sender <> receiver -> (sender < 4)%nat -> (receiver < 4)%nat ->
  Forall (fun symbol => In symbol symbols) sequence ->
  agents_ok l ->
  foldM (adaptSymbol rnd st sender receiver success) sequence l w = Some (l', w') ->
  agents_ok l' /\
  forall i a a', nth_error l i = Some a -> nth_error l' i = Some a' ->
                 memory a' = memory a.
Proof.
  intros Hne Hs Hr Hseq Hok E.
  refine (foldM_preserves _
            (fun l0 => agents_ok l0 /\
                       forall i a a', nth_error l i = Some a -> nth_error l0 i = Some a' ->
                                      memory a' = memory a)
            sequence _ l w l' w' _ E).
  - intros l0 symbol w0 l1 w1 Hin [Hok0 Hmem0] E1. rewrite Forall_forall in Hseq.
    pose proof (yields_result _ _ _ l1 w1
                  (adaptSymbol_ok rnd st sender receiver success l0 symbol w0
                     Hok0 Hne Hs Hr (Hseq symbol Hin)) E1) as (Hok1 & _ & Hmem1 & _).
    split; [exact Hok1 |]. intros i a a1 Ha Ha1.
    destruct (nth_error_same_length l0 l1 i a1) as (a0 & Ha0);
      [rewrite (proj1 Hok0), (proj1 Hok1); reflexivity | exact Ha1 |].
    rewrite (Hmem1 i a0 a1 Ha0 Ha1). apply (Hmem0 i a a0 Ha Ha0).
  - split; [exact Hok |]. intros i a a' Ha Ha'. congruence.
Qed.

(** An exchange round appends to the log and to the two memories exactly
    when the two agents it draws differ. *)
Lemma exchangeRound_appends (rnd : nat -> Draw) (clk : nat -> Z) (s : State) w s1 w1 :
  state_ok s -> exchangeRound rnd clk s w = Some (s1, w1) ->
  exists k, (randoms w <= k)%nat /\
    round_logged (step s) (index_of_draw 4 (rnd k)) (index_of_draw 4 (rnd (S k)))
                 (communications s) (communications s1) (agents s) (agents s1).
Proof.
  intros Hs E.
  destruct (exchangeRound_stages rnd clk s w s1 w1 E) as (l & w0 & Ef & Hrest).
  cbv zeta in Hrest.
  assert (Hl : agents_ok l /\
               forall i a a', nth_error (agents s) i = Some a -> nth_error l i = Some a' ->
                              memory a' = memory a).
  { refine (yields_result _ _
              (fun l0 _ =>
                 agents_ok l0 /\
                 forall i a a', nth_error (agents s) i = Some a ->
                                nth_error l0 i = Some a' -> memory a' = memory a)
              l w0 _ Ef).
    apply applyForgetting_ok; [apply (ok_agents s Hs) |].
    intros l' w' Hok' Hsame. split; [exact Hok' |].
    intros i a a' Ha Ha'. apply (Hsame i a a' Ha Ha'). }
  destruct Hl as [Hok Hsame].
  destruct (applyForgetting_draws rnd (step s) (agents s) w l w0 (ok_agents s Hs) Ef)
    as [R0 _].
  exists (randoms w0). split; [lia |].
  rewrite (proj1 Hok) in Hrest. unfold round_logged.
  set (sender := index_of_draw 4 (rnd (randoms w0))) in *.
  set (receiver := index_of_draw 4 (rnd (S (randoms w0)))) in *.
  destruct (Nat.eqb_spec sender receiver) as [_ | Hne].
  - destruct Hrest as [-> _]. simpl. split; [reflexivity | exact Hsame].
  - assert (Hsl : (sender < 4)%nat) by (apply draw_index_lt; lia).
    assert (Hrl : (receiver < 4)%nat) by (apply draw_index_lt; lia).
    destruct (communicate_stages rnd clk s l sender receiver _ s1 w1 Hrest)
      as (sequence & w2 & avg & r & l' & Ed & _ & _ & Efold & Es1).
    pose proof (drawSequence_sequence rnd _ sequence w2 Ed) as Hseq.
    destruct (adaptSequence_memory rnd (step s) sender receiver _ sequence l _ l' w1
                Hne Hsl Hrl (proj2 Hseq) Hok Efold) as [Hok' Hmem].
    rewrite Es1. cbn [communications agents].
    exists {| comm_id := clk (clocks w2); comm_sender := sender;
              comm_receiver := receiver; comm_sequence := sequence;
              comm_success := Num.ltb avg (Fin 0.5); comm_step := step s;
              comm_distance := avg; comm_trustBefore := get_trust r sender;
              comm_sequenceLength := List.length sequence |},
      {| mem_step := step s; mem_action := sent; mem_sequence := sequence;
         mem_success := Num.ltb avg (Fin 0.5); mem_partner := receiver |},
      {| mem_step := step s; mem_action := received; mem_sequence := sequence;
         mem_success := Num.ltb avg (Fin 0.5); mem_partner := sender |}.
    cbn [comm_sender comm_receiver comm_step mem_action mem_partner mem_step].
    repeat (split; [reflexivity |]).
    split; [apply appended_slice, (ok_communications s Hs) |].
    repeat (split; [reflexivity |]).
    intros i a a' Ha Ha'.
    assert (Hi : (i < 4)%nat).
    { rewrite <- (proj1 (ok_agents s Hs)). apply nth_error_Some. congruence. }
    destruct (agents_ok_nth l i Hok Hi) as (a1 & Ha1 & _).
    destruct (agents_ok_nth l' i Hok' Hi) as (a2 & Ha2 & _).
    assert (Em : memory a2 = memory a).
    { rewrite (Hmem i a1 a2 Ha1 Ha2). apply (Hsame i a a1 Ha Ha1). }
    assert (Hbound : (List.length (memory a2) <= 50)%nat).
    { rewrite Em. apply (ok_memory i a (proj2 (ok_agents s Hs) i a Ha)). }
    destruct (Nat.eqb_spec i sender) as [-> | His].
    + rewrite list_update_other in Ha' by (intro C; apply Hne; now symmetry).
      rewrite (list_update_same _ sender _ a2 Ha2) in Ha'. inversion Ha'; subst a'.
      rewrite <- Em. now apply remember_appended.
    + destruct (Nat.eqb_spec i receiver) as [-> | Hir].
      * rewrite (list_update_same _ receiver _ a2) in Ha'
          by (rewrite list_update_other by exact Hne; exact Ha2).
        inversion Ha'; subst a'. rewrite <- Em. now apply remember_appended.
      * rewrite !list_update_other in Ha' by congruence.
        rewrite Ha2 in Ha'. inversion Ha'; subst a'. exact Em.
Qed.

(** What the exchange round has logged is what the tick has logged, when
    nothing after it writes the log or a memory. *)
Lemma round_logged_after (st : Z) (sender receiver : nat)
  (log log' : list Communication) (l l1 l2 : list Agent) :
  List.length l1 = List.length l2 ->
  (forall i a1 a2, nth_error l1 i = Some a1 -> nth_error l2 i = Some a2 ->
                   memory a2 = memory a1) ->
  round_logged st sender receiver log log' l l1 ->
  round_logged st sender receiver log log' l l2.
Proof.
  intros Hlen Hsame. unfold round_logged.
  destruct (Nat.eqb sender receiver).
  - intros [Hlog Hmem]. split; [exact Hlog |]. intros i a a2 Ha Ha2.
    destruct (nth_error_same_length l1 l2 i a2 (eq_sym Hlen) Ha2) as (a1 & Ha1).
    rewrite (Hsame i a1 a2 Ha1 Ha2). apply (Hmem i a a1 Ha Ha1).
  - intros (c & es & er & H1 & H2 & H3 & H4 & H5 & H6 & H7 & H8 & H9 & H10 & Hmem).
    exists c, es, er. repeat (split; [assumption |]).
    intros i a a2 Ha Ha2.
    destruct (nth_error_same_length l1 l2 i a2 (eq_sym Hlen) Ha2) as (a1 & Ha1).
    rewrite (Hsame i a1 a2 Ha1 Ha2). apply (Hmem i a a1 Ha Ha1).
Qed.

(** What one tick appends to the four bounded logs. *)
Lemma tick_appends (rnd : nat -> Draw) (clk : nat -> Z) (s : State) w s' w' :
  state_ok s -> tick rnd clk s w = Some (s', w') ->
  appended 100 (driftHistory s)
    {| drift_step := step s; drift := avgDrift (agents s) |} (driftHistory s') /\
  appended 100 (alignmentHistory s)
    {| align_step := step s; alignment := alignment_of (avgDrift (agents s)) |}
    (alignmentHistory s') /\
  exists k, (randoms w <= k)%nat /\
    round_logged (step s) (index_of_draw 4 (rnd k)) (index_of_draw 4 (rnd (S k)))
                 (communications s) (communications s') (agents s) (agents s').
Proof.
  intros Hs E.
  destruct (yields_result _ _ _ s' w' (tick_logs rnd clk s w Hs) E) as (Hd & Ha & _).
  split; [rewrite Hd; apply appended_slice, (ok_driftHistory s Hs) |].
  split; [rewrite Ha; apply appended_slice, (ok_alignmentHistory s Hs) |].
  destruct (tick_stages rnd clk s w s' w' (agents_ok_nonempty _ (ok_agents s Hs)) E)
    as (shift & w0 & s1 & w1 & s2 & Hch & Ex & Hsh & ->).
  destruct (exchangeRound_appends rnd clk s w0 s1 w1 Hs Ex) as (k & Hk & Hlog).
  pose proof (yields_result _ _ _ s1 w1 (exchangeRound_ok rnd clk s w0 Hs) Ex) as Hex.
  destruct (recordMetrics_fields (agents s) (step s) s2) as (_ & F2 & F3 & _).
  exists k. cbn [with_step communications agents]. rewrite F2, F3. split.
  - destruct (shiftDue (step s)).
    + destruct Hch as (x & Ec & _).
      destruct (advances_chooseShift rnd w x w0 Ec) as [R _]. lia.
    + destruct Hch as [_ ->]. exact Hk.
  - destruct shift as [x |]; [| destruct Hsh as [-> _]; exact Hlog].
    assert (Htarget : forall target, snd x = Some target -> In target symbols).
    { intros target Et. destruct (shiftDue (step s)).
      - destruct Hch as (x0 & Ec & Ex0). inversion Ex0; subst x0.
        pose proof (chooseShift_stages rnd w x w0 Ec) as [_ H]. rewrite Et in H. apply H.
      - destruct Hch as [C _]. discriminate. }
    pose proof (yields_result _ _ _ s2 w'
                  (applyShift_ok rnd clk (step s) x s1 w1 (ex_agents s s1 Hex) Htarget)
                  Hsh) as Hcom.
    rewrite (sc_communications _ _ _ _ _ _ _ _ Hcom).
    apply (round_logged_after _ _ _ _ _ _ (agents s1)); [| | exact Hlog].
    + rewrite (proj1 (ex_agents s s1 Hex)), (proj1 (sc_agents _ _ _ _ _ _ _ _ Hcom)).
      reflexivity.
    + intros i a1 a2 Ha1 Ha2. apply (sc_kept _ _ _ _ _ _ _ _ Hcom i a1 a2 Ha1 Ha2).
Qed.

(** C3. After any number of steps every agent's memory holds at most 50
    entries, the communication log at most 30, the drift and alignment
    histories at most 100 each.  The next step appends one sample to each
    history; and it draws two agents and, when they differ, appends one
    record to the communication log, one entry to the sender's memory and
    one to the receiver's, and otherwise leaves the log and every memory as
    they are.  Whenever an entry is appended it is the newest of its log,
    and the log keeps all its entries if it was not full and loses its
    oldest entry, and no other, if it was. *)
Theorem logs_bounded_oldest_evicted (rnd : nat -> Draw) (clk : nat -> Z) (n : nat) :
  exists s w s' w',
    run rnd clk n = Some (s, w) /\ run rnd clk (S n) = Some (s', w') /\
    (forall a, In a (agents s) -> (List.length (memory a) <= 50)%nat) /\
    (List.length (communications s) <= 30)%nat /\
    (List.length (driftHistory s) <= 100)%nat /\
    (List.length (alignmentHistory s) <= 100)%nat /\
    (exists d a,
        drift_step d = Z.of_nat n /\ align_step a = Z.of_nat n /\
        appended 100 (driftHistory s) d (driftHistory s') /\
        appended 100 (alignmentHistory s) a (alignmentHistory s')) /\
    exists k, (randoms w <= k)%nat /\
      round_logged (Z.of_nat n) (index_of_draw 4 (rnd k)) (index_of_draw 4 (rnd (S k)))
                   (communications s) (communications s') (agents s) (agents s').
Proof.
  destruct (run_ok rnd clk n) as (s & w & Hrun & Hs & Hst).
  destruct (run_ok rnd clk (S n)) as (s' & w' & Hrun' & _).
  exists s, w, s', w'. split; [exact Hrun |]. split; [exact Hrun' |].
  rewrite (run_step rnd clk n s w Hrun) in Hrun'.
  destruct (tick_appends rnd clk s w s' w' Hs Hrun') as (Hd & Ha & k & Hk & Hlog).
  destruct Hs as [Hag Hc Hdl Hal].
  split.
  { intros a Hin. apply In_nth_error in Hin. destruct Hin as (i & Hi).
    apply (ok_memory i a (proj2 Hag i a Hi)). }
  split; [exact Hc |]. split; [exact Hdl |]. split; [exact Hal |].
  rewrite Hst in *. split.
  - eexists _, _. split; [| split; [| split; [exact Hd | exact Ha]]]; reflexivity.
  - exists k. auto.
Qed.

(** * The loop over the sequence of an exchange *)

Lemma ready_lookup (l : list Agent) (sender receiver : nat) (symbol : string) :
  exchange_ready l sender receiver -> In symbol symbols ->
  exists s r sm rm,
    nth_error l sender = Some s /\ nth_error l receiver = Some r /\
    get_mapping s symbol = Some sm /\ get_mapping r symbol = Some rm.
Proof.
  intros (s & r & Hs & Hr & Hm) Hin. destruct (Hm symbol Hin) as [H1 H2].
  destruct (get_mapping s symbol) as [sm|] eqn:E1; [| congruence].
  destruct (get_mapping r symbol) as [rm|] eqn:E2; [| congruence].
  exists s, r, sm, rm. auto.
Qed.

Lemma with_mapping_keeps (a : Agent) (symbol : string) (m : SymbolMapping)
  (symbol2 : string) :
  get_mapping a symbol2 <> None ->
  get_mapping (with_mapping a symbol m) symbol2 <> None.
Proof.
  unfold get_mapping. cbn [symbolMappings with_mapping]. intro H.
  destruct (String.eqb_spec symbol symbol2) as [-> | N].
  - rewrite (dict_get_set_same String.eqb String.eqb_eq). discriminate.
  - rewrite (dict_get_set_other String.eqb String.eqb_eq) by exact N. exact H.
Qed.

Lemma with_mapping_get (a : Agent) (symbol : string) (m : SymbolMapping) :
  get_mapping (with_mapping a symbol m) symbol = Some m.
Proof.
  unfold get_mapping. cbn [symbolMappings with_mapping].
  apply (dict_get_set_same String.eqb String.eqb_eq).
Qed.

(** The two writes of the loop body keep what the loops read. *)
Lemma ready_two_sets (l : list Agent) (sender receiver : nat) (s r r0 : Agent)
  (symbol : string) (sm' rm' : SymbolMapping) :
  exchange_ready l sender receiver -> sender <> receiver ->
  nth_error l sender = Some s -> nth_error l receiver = Some r ->
  symbolMappings r0 = symbolMappings r ->
  exchange_ready
    (list_set (list_set l sender (with_mapping s symbol sm'))
              receiver (with_mapping r0 symbol rm'))
    sender receiver.
Proof.
  intros (s1 & r1 & Hs1 & Hr1 & Hm) Hne Hs Hr Hr0.
  rewrite Hs in Hs1. rewrite Hr in Hr1. inversion Hs1; inversion Hr1; subst s1 r1.
  assert (Hsl : (sender < List.length l)%nat) by (apply nth_error_Some; congruence).
  assert (Hrl : (receiver < List.length l)%nat) by (apply nth_error_Some; congruence).
  exists (with_mapping s symbol sm'), (with_mapping r0 symbol rm').
  split; [| split].
  - rewrite nth_error_two_sets by assumption.
    destruct (Nat.eqb_spec sender receiver); [contradiction |].
    now rewrite Nat.eqb_refl.
  - rewrite nth_error_two_sets by assumption. now rewrite Nat.eqb_refl.
  - intros symbol2 Hin. destruct (Hm symbol2 Hin) as [H1 H2]. split.
    + now apply with_mapping_keeps.
    + apply with_mapping_keeps. unfold get_mapping in *. now rewrite Hr0.
Qed.

(** One symbol of a successful exchange. *)
Lemma adaptSymbol_reinforced (rnd : nat -> Draw) (st : Z) (sender receiver : nat)
  (l : list Agent) (symbol : string) (w : World) :
  exchange_ready l sender receiver -> sender <> receiver -> In symbol symbols ->
  exists l',
    adaptSymbol rnd st sender receiver true l symbol w = Some (l', w) /\
    reinforced st sender receiver symbol l l' /\
    no_farther sender receiver symbol l l' /\
    exchange_ready l' sender receiver.
Proof.
  intros Hready Hne Hin.
  destruct (ready_lookup l sender receiver symbol Hready Hin)
    as (s & r & sm & rm & Hs & Hr & Hsm & Hrm).
  assert (Hsl : (sender < List.length l)%nat) by (apply nth_error_Some; congruence).
  assert (Hrl : (receiver < List.length l)%nat) by (apply nth_error_Some; congruence).
  eexists. split;
    [apply (adaptSymbol_success_run rnd st _ _ l symbol s r sm rm w); assumption |].
  match goal with
  | |- reinforced _ _ _ _ _ ?x /\ _ => set (l' := x)
  end.
  assert (Hs' : nth_error l' sender
                = Some (with_mapping s symbol (strengthen (touch st sm)))).
  { unfold l'. rewrite nth_error_two_sets by assumption.
    destruct (Nat.eqb_spec sender receiver); [contradiction |].
    now rewrite Nat.eqb_refl. }
  assert (Hr' : nth_error l' receiver
                = Some (with_mapping
                          (with_trust r sender
                             (Num.min (Fin 1)
                                (Num.add (as_num (get_trust r sender)) (Fin 0.02))))
                          symbol
                          (with_vector (strengthen (touch st rm))
                             (pull (convergenceSpeed r) (vector sm) (vector rm))))).
  { unfold l'. rewrite nth_error_two_sets by assumption. now rewrite Nat.eqb_refl. }
  split; [| split].
  - exists s, r, sm, rm, (strengthen (touch st sm)),
      (with_vector (strengthen (touch st rm))
         (pull (convergenceSpeed r) (vector sm) (vector rm))).
    split; [exact Hs |]. split; [exact Hr |]. split; [exact Hsm |].
    split; [exact Hrm |]. split; [exact Hs' |]. split; [exact Hr' |].
    split.
    { intros i His Hir. unfold l'. rewrite nth_error_two_sets by assumption.
      destruct (Nat.eqb_spec i receiver); [contradiction |].
      destruct (Nat.eqb_spec i sender); [contradiction | reflexivity]. }
    split; [reflexivity |]. split; [reflexivity |]. split; [reflexivity |].
    split; [apply mapi_from_length |].
    split; [intros i x Hx; apply pull_nth, Hx |].
    split; split; reflexivity.
  - intros s0 r0 sm0 rm0 Hs0 Hr0 Hsm0 Hrm0 Hpos Hle.
    rewrite Hs in Hs0. inversion Hs0; subst s0.
    rewrite Hr in Hr0. inversion Hr0; subst r0.
    rewrite Hsm in Hsm0. inversion Hsm0; subst sm0.
    rewrite Hrm in Hrm0. inversion Hrm0; subst rm0.
    eexists _, _. split; [exact Hr' |].
    split; [apply with_mapping_get |]. split; [reflexivity |].
    intros i a b Ha Hb. cbn [vector with_vector].
    rewrite (pull_nth _ _ _ i (Fin b) Hb), Ha.
    destruct (convergenceSpeed r) as [c|]; simpl in Hpos, Hle; [| contradiction].
    eexists. split; [reflexivity |].
    replace (a - (b + (a - b) * 0.1 * c)) with ((a - b) * (1 - 0.1 * c)) by ring.
    rewrite Rabs_mult.
    assert (H1 : Rabs (1 - 0.1 * c) <= 1) by (apply Rabs_le; lra).
    pose proof (Rabs_pos (a - b)). nra.
  - unfold l'. apply (ready_two_sets l sender receiver s r); auto.
Qed.

Lemma adaptSequence_reinforced (rnd : nat -> Draw) (st : Z) (sender receiver : nat)
  (sequence : list string) :
  sender <> receiver -> Forall (fun symbol => In symbol symbols) sequence ->
  forall l w,
    exchange_ready l sender receiver ->
    exists l',
      foldM (adaptSymbol rnd st sender receiver true) sequence l w = Some (l', w) /\
      along (fun symbol l0 l1 =>
               reinforced st sender receiver symbol l0 l1 /\
               no_farther sender receiver symbol l0 l1)
            sequence l l' /\
      exchange_ready l' sender receiver.
Proof.
  intros Hne Hseq. induction Hseq as [| symbol rest Hin _ IH]; intros l w Hready.
  - exists l. split; [reflexivity |]. split; [reflexivity | exact Hready].
  - destruct (adaptSymbol_reinforced rnd st sender receiver l symbol w Hready Hne Hin)
      as (l1 & E1 & R1 & F1 & Hready1).
    destruct (IH l1 w Hready1) as (l' & E2 & A2 & Hready').
    exists l'. split; [| split; [| exact Hready']].
    + cbn [foldM]. unfold bind. rewrite E1. exact E2.
    + cbn [along]. exists l1. auto.
Qed.

(** [repair] as a function of the draws it reads. *)
Lemma repair_exact (rnd : nat -> Draw) (sender : nat) (sm : SymbolMapping) (r : Agent)
  (rm : SymbolMapping) w :
  repair rnd sender sm r rm w
  = Some (repaired rnd (randoms w) sender sm r rm,
          {| randoms :=
               S (randoms w)
               + List.length
                   (vector (if Num.ltb (Fin (rnd (randoms w)))
                                  (Num.mul (adaptability r) (as_num (get_trust r sender)))
                            then sm else rm));
             clocks := clocks w |}).
Proof.
  unfold repair, repaired, bind. unfold random at 1.
  destruct (Num.ltb (Fin (rnd (randoms w)))
              (Num.mul (adaptability r) (as_num (get_trust r sender))));
    rewrite jitter_run; reflexivity.
Qed.

(** One symbol of a failed exchange. *)
Lemma adaptSymbol_repaired (rnd : nat -> Draw) (st : Z) (sender receiver : nat)
  (l : list Agent) (symbol : string) (w : World) :
  exchange_ready l sender receiver -> sender <> receiver -> In symbol symbols ->
  exists l' w',
    adaptSymbol rnd st sender receiver false l symbol w = Some (l', w') /\
    repaired_at rnd st sender receiver symbol (l, randoms w) (l', randoms w') /\
    clocks w' = clocks w /\
    exchange_ready l' sender receiver /\
    List.length l' = List.length l /\
    trust_untouched l l'.
Proof.
  intros Hready Hne Hin.
  destruct (ready_lookup l sender receiver symbol Hready Hin)
    as (s & r & sm & rm & Hs & Hr & Hsm & Hrm).
  assert (Hsl : (sender < List.length l)%nat) by (apply nth_error_Some; congruence).
  assert (Hrl : (receiver < List.length l)%nat) by (apply nth_error_Some; congruence).
  eexists _, _. split.
  { unfold adaptSymbol, bind, defined.
    rewrite Hs, Hr. unfold ret at 1 2. rewrite Hsm, Hrm. unfold ret at 1 2.
    rewrite repair_exact. reflexivity. }
  cbn [randoms clocks].
  split; [| split; [reflexivity | split; [| split]]].
  - cbn [repaired_at].
    exists s, r, sm, rm, (repaired rnd (randoms w) sender (touch st sm) r (touch st rm)).
    split; [exact Hs |]. split; [exact Hr |]. split; [exact Hsm |].
    split; [exact Hrm |].
    split.
    { rewrite nth_error_two_sets by assumption.
      destruct (Nat.eqb_spec sender receiver); [contradiction |].
      now rewrite Nat.eqb_refl. }
    split.
    { rewrite nth_error_two_sets by assumption. now rewrite Nat.eqb_refl. }
    split.
    { intros i His Hir. rewrite nth_error_two_sets by assumption.
      destruct (Nat.eqb_spec i receiver); [contradiction |].
      destruct (Nat.eqb_spec i sender); [contradiction | reflexivity]. }
    unfold repaired.
    destruct (Num.ltb (Fin (rnd (randoms w)))
                (Num.mul (adaptability r) (as_num (get_trust r sender)))).
    + split; [split; reflexivity |]. split; [reflexivity |].
      split; [| reflexivity].
      split; [apply mapi_from_length |].
      intros i x Hx. cbn [vector with_confidence with_vector touch].
      cbn [vector touch] in Hx.
      now rewrite (mapi_from_nth _ _ (S (randoms w)) i x Hx).
    + split; [split; reflexivity |]. split; [reflexivity |].
      split; [| reflexivity].
      split; [apply mapi_from_length |].
      intros i x Hx. cbn [vector with_vector touch].
      cbn [vector touch] in Hx.
      now rewrite (mapi_from_nth _ _ (S (randoms w)) i x Hx).
  - apply (ready_two_sets l sender receiver s r); auto.
  - now rewrite !list_set_length.
  - intros i a a' Ha. rewrite nth_error_two_sets by assumption.
    destruct (Nat.eqb_spec i receiver) as [-> | Hir].
    + intro E. inversion E. simpl. congruence.
    + destruct (Nat.eqb_spec i sender) as [-> | His].
      * intro E. inversion E. simpl. congruence.
      * congruence.
Qed.

Lemma trust_untouched_trans (l1 l2 l3 : list Agent) :
  List.length l2 = List.length l1 ->
  trust_untouched l1 l2 -> trust_untouched l2 l3 -> trust_untouched l1 l3.
Proof.
  intros Hlen H12 H23 i a a3 Ha Ha3.
  assert (Hi : (i < List.length l2)%nat).
  { rewrite Hlen. apply nth_error_Some. congruence. }
  destruct (nth_error l2 i) as [a2|] eqn:Ea2;
    [| apply nth_error_Some in Hi; contradiction].
  rewrite (H23 i a2 a3 Ea2 Ha3). apply (H12 i a a2 Ha Ea2).
Qed.

Lemma adaptSequence_repaired (rnd : nat -> Draw) (st : Z) (sender receiver : nat)
  (sequence : list string) :
  sender <> receiver -> Forall (fun symbol => In symbol symbols) sequence ->
  forall l w,
    exchange_ready l sender receiver ->
    exists l' w',
      foldM (adaptSymbol rnd st sender receiver false) sequence l w = Some (l', w') /\
      along (repaired_at rnd st sender receiver) sequence
            (l, randoms w) (l', randoms w') /\
      clocks w' = clocks w /\
      exchange_ready l' sender receiver /\
      List.length l' = List.length l /\
      trust_untouched l l'.
Proof.
  intros Hne Hseq. induction Hseq as [| symbol rest Hin _ IH]; intros l w Hready.
  - exists l, w. split; [reflexivity |]. split; [reflexivity |].
    split; [reflexivity |]. split; [exact Hready |]. split; [reflexivity |].
    intros i a a' Ha Ha'. congruence.
  - destruct (adaptSymbol_repaired rnd st sender receiver l symbol w Hready Hne Hin)
      as (l1 & w1 & E1 & R1 & C1 & Hready1 & L1 & T1).
    destruct (IH l1 w1 Hready1) as (l' & w' & E2 & A2 & C2 & Hready' & L2 & T2).
    exists l', w'. split; [| split; [| split; [| split; [| split]]]].
    + cbn [foldM]. unfold bind. rewrite E1. exact E2.
    + cbn [along]. exists (l1, randoms w1). auto.
    + congruence.
    + exact Hready'.
    + congruence.
    + exact (trust_untouched_trans l l1 l' L1 T1 T2).
Qed.

Lemma totalDistance_ready (l : list Agent) (sender receiver : nat)
  (sequence : list string) :
  exchange_ready l sender receiver ->
  Forall (fun symbol => In symbol symbols) sequence ->
  forall acc, exists total, totalDistance l sender receiver sequence acc = Some total.
Proof.
  intros Hready Hseq. induction Hseq as [| symbol rest Hin _ IH]; intro acc.
  - exists acc. reflexivity.
  - destruct (ready_lookup l sender receiver symbol Hready Hin)
      as (s & r & sm & rm & Hs & Hr & Hsm & Hrm).
    cbn [totalDistance]. unfold symbolDistance. rewrite Hs, Hr, Hsm, Hrm. apply IH.
Qed.

Lemma remembered_receiver (st : Z) (sender receiver : nat) (sequence : list string)
  (success : bool) (l : list Agent) (r : Agent) :
  sender <> receiver -> nth_error l receiver = Some r ->
  nth_error (remembered st sender receiver sequence success l) receiver
  = Some (remember {| mem_step := st; mem_action := received; mem_sequence := sequence;
                      mem_success := success; mem_partner := sender |} r).
Proof.
  intros Hne Hr. unfold remembered. apply list_update_same.
  now rewrite list_update_other.
Qed.

Lemma remembered_trust (st : Z) (sender receiver : nat) (sequence : list string)
  (success : bool) (l : list Agent) :
  trust_untouched l (remembered st sender receiver sequence success l).
Proof.
  intros i a a' Ha. unfold remembered.
  destruct (Nat.eq_dec receiver i) as [<- | Hri].
  - destruct (Nat.eq_dec sender receiver) as [-> | Hsr].
    + erewrite list_update_same;
        [| erewrite list_update_same; [reflexivity | exact Ha]].
      intro E. inversion E. reflexivity.
    + erewrite list_update_same; [| rewrite list_update_other by exact Hsr; exact Ha].
      intro E. inversion E. reflexivity.
  - rewrite list_update_other by exact Hri.
    destruct (Nat.eq_dec sender i) as [<- | Hsi].
    + erewrite list_update_same; [| exact Ha]. intro E. inversion E. reflexivity.
    + rewrite list_update_other by exact Hsi. congruence.
Qed.

(** An exchange between two agents that hold what the loops read runs to
    its end: the stages it goes through and the state it returns. *)
Lemma communicate_run (rnd : nat -> Draw) (clk : nat -> Z) (s : State) (l : list Agent)
  (sender receiver : nat) (w : World) :
  exchange_ready l sender receiver -> sender <> receiver ->
  exists sequence w1 avg l1 w' r1,
    drawSequence rnd w = Some (sequence, w1) /\
    Forall (fun symbol => In symbol symbols) sequence /\
    avgDistance l sender receiver sequence = Some avg /\
    foldM (adaptSymbol rnd (step s) sender receiver (Num.ltb avg (Fin 0.5))) sequence l
          {| randoms := randoms w1; clocks := S (clocks w1) |} = Some (l1, w') /\
    nth_error l1 receiver = Some r1 /\
    communicate rnd clk s l sender receiver w
    = Some ({| step := step s;
               agents := remembered (step s) sender receiver sequence
                           (Num.ltb avg (Fin 0.5)) l1;
               communications :=
                 (slice_last 29 (communications s) ++
                    [{| comm_id := clk (clocks w1); comm_sender := sender;
                        comm_receiver := receiver; comm_sequence := sequence;
                        comm_success := Num.ltb avg (Fin 0.5); comm_step := step s;
                        comm_distance := avg;
                        comm_trustBefore := get_trust r1 sender;
                        comm_sequenceLength := List.length sequence |}])%list;
               driftHistory := driftHistory s; alignmentHistory := alignmentHistory s;
               syntaxPatterns := recordPattern sequence (syntaxPatterns s);
               contextShifts := contextShifts s |}, w').
Proof.
  intros Hready Hne.
  destruct (drawSequence_ok rnd w
              (fun sequence _ => Forall (fun symbol => In symbol symbols) sequence))
    as (sequence & w1 & Ed & Hseq); [auto |].
  destruct (totalDistance_ready l sender receiver sequence Hready Hseq (Fin 0))
    as (total & Et).
  assert (Ea : avgDistance l sender receiver sequence
               = Some (Num.div total (Num.of_nat (List.length sequence))))
    by (unfold avgDistance; now rewrite Et).
  set (avg := Num.div total (Num.of_nat (List.length sequence))) in *.
  assert (Hf : exists l1 w',
             foldM (adaptSymbol rnd (step s) sender receiver (Num.ltb avg (Fin 0.5)))
                   sequence l {| randoms := randoms w1; clocks := S (clocks w1) |}
             = Some (l1, w') /\ exchange_ready l1 sender receiver).
  { destruct (Num.ltb avg (Fin 0.5)).
    - destruct (adaptSequence_reinforced rnd (step s) sender receiver sequence Hne Hseq
                  l {| randoms := randoms w1; clocks := S (clocks w1) |} Hready)
        as (l1 & E & _ & R).
      exists l1. eexists. split; [exact E | exact R].
    - destruct (adaptSequence_repaired rnd (step s) sender receiver sequence Hne Hseq
                  l {| randoms := randoms w1; clocks := S (clocks w1) |} Hready)
        as (l1 & w' & E & _ & _ & R & _).
      exists l1, w'. split; [exact E | exact R]. }
  destruct Hf as (l1 & w' & Ef & (_ & r1 & _ & Hr1 & _)).
  exists sequence, w1, avg, l1, w', r1.
  split; [exact Ed |]. split; [exact Hseq |]. split; [exact Ea |].
  split; [exact Ef |]. split; [exact Hr1 |].
  pose proof (remembered_receiver (step s) sender receiver sequence
                (Num.ltb avg (Fin 0.5)) l1 r1 Hne Hr1) as Hrem.
  unfold remembered in Hrem.
  unfold communicate, bind, now. rewrite Ed, Ea. cbn [defined ret randoms clocks].
  rewrite Ef. rewrite Hrem. reflexivity.
Qed.

(** * The outcome of an exchange for the vocabulary *)


(** C7. An exchange between two distinct agents that each hold a mapping
    for every vocabulary symbol returns and appends one record, whose
    success flag is cleared exactly when the mean distance of the drawn
    sequence is not below 0.5.  When it is cleared, the loop over the
    sequence has, symbol after symbol, with [k] the position of the next
    draw and [p = adaptability * trust] of the receiver toward the sender:
    when draw [k] is below [p] (strong repair), made the receiver's vector
    the sender's vector plus, on each component, a noise of its own within
    [-0.1, 0.1], and its confidence 0.3; otherwise (weak repair), added to
    each component of the receiver's vector a noise of its own within
    [-0.05, 0.05] and kept its confidence; changed the sender only in
    [lastUsed] and [usageCount] of the symbol's mapping; and left the other
    agents as they were.  No trust table is written by the exchange; the two
    memory entries are pushed after the loop. *)
Theorem failed_exchange (rnd : nat -> Draw) (clk : nat -> Z) (s : State)
  (l : list Agent) (sender receiver : nat) (w : World) :
  exchange_ready l sender receiver -> sender <> receiver ->
  exists sequence w1 avg l1 s' w' c,
    drawSequence rnd w = Some (sequence, w1) /\
    avgDistance l sender receiver sequence = Some avg /\
    communicate rnd clk s l sender receiver w = Some (s', w') /\
    communications s' = (slice_last 29 (communications s) ++ [c])%list /\
    comm_sequence c = sequence /\ comm_distance c = avg /\
    (comm_success c = false <-> ~ Num.lt avg (Fin 0.5)) /\
    (forall k, -0.1 <= (rnd k - 0.5) * 0.2 <= 0.1 /\
               -0.05 <= (rnd k - 0.5) * 0.1 <= 0.05) /\
    (comm_success c = false ->
     along (repaired_at rnd (step s) sender receiver) sequence
           (l, randoms w1) (l1, randoms w') /\
     agents s' = remembered (step s) sender receiver sequence false l1 /\
     trust_untouched l (agents s')).
Proof.
  intros Hready Hne.
  destruct (communicate_run rnd clk s l sender receiver w Hready Hne)
    as (sequence & w1 & avg & l1 & w' & r1 & Ed & Hseq & Ea & Ef & Hr1 & Ec).
  eexists sequence, w1, avg, l1, _, w', _.
  split; [exact Ed |]. split; [exact Ea |]. split; [exact Ec |].
  cbn [communications comm_sequence comm_distance comm_success agents].
  split; [reflexivity |]. split; [reflexivity |]. split; [reflexivity |].
  split.
  { cbn [comm_success]. rewrite <- ltb_lt. destruct (Num.ltb avg (Fin 0.5)); split; congruence. }
  split.
  { intro k. pose proof (noise_bound (rnd k) 0.2 ltac:(lra)).
    pose proof (noise_bound (rnd k) 0.1 ltac:(lra)). lra. }
  intro Hfailure. cbn [comm_success] in Hfailure. rewrite Hfailure in Ef |- *.
  destruct (adaptSequence_repaired rnd (step s) sender receiver sequence Hne Hseq
              l {| randoms := randoms w1; clocks := S (clocks w1) |} Hready)
    as (l1' & w1' & E & A & _ & _ & L & T).
  rewrite Ef in E. inversion E as [[E1 E2]]. subst l1' w1'.
  split; [exact A |]. split; [reflexivity |].
  apply (trust_untouched_trans l l1 _ L T). apply remembered_trust.
Qed.

(** ** The exchange on sample populations *)

Lemma drawSequence_half :
  drawSequence rnd_half world0
  = Some (["δ"%string], {| randoms := 2; clocks := 0 |}).
Proof.
  rewrite drawSequence_run. cbn [randoms clocks world0].
  destruct (Rlt_dec (rnd_half 0) 0.8) as [_ | N]; [| exfalso; apply N; simpl; lra].
  replace (symbol_of_draw (rnd_half 1)) with "δ"%string; [reflexivity |].
  symmetry. apply (symbol_of_draw_sixths half 3); [lia |]. simpl. lra.
Qed.


Lemma constant_mapping (a : Agent) (m : SymbolMapping) (symbol : string) :
  symbolMappings a = map (fun x => (x, m)) symbols -> In symbol symbols ->
  get_mapping a symbol = Some m.
Proof. intros E Hin. unfold get_mapping. rewrite E. now apply constant_dict_get. Qed.

Lemma stubborn_ready : exchange_ready stubbornAgents 0 1.
Proof.
  exists (sampleAgent 0), stubbornAgent.
  split; [reflexivity |]. split; [reflexivity |].
  intros symbol Hin. rewrite sampleAgent_mapping by exact Hin.
  rewrite (constant_mapping stubbornAgent apartMapping symbol eq_refl Hin).
  split; discriminate.
Qed.


Lemma avgDistance_single (l : list Agent) (sender receiver : nat) (symbol : string)
  (d : R) :
  symbolDistance l sender receiver symbol = Some (Fin d) ->
  avgDistance l sender receiver [symbol] = Some (Fin d).
Proof.
  intro H. unfold avgDistance. cbn [totalDistance]. rewrite H.
  cbn [Num.add List.length]. unfold Num.div, Num.of_nat. cbn [INR].
  destruct (Req_dec_T 1 0); [lra |]. do 2 f_equal. field.
Qed.

Lemma remember_mapping (e : MemoryEntry) (a : Agent) (symbol : string) :
  get_mapping (remember e a) symbol = get_mapping a symbol.
Proof. reflexivity. Qed.



Lemma delta_known : In "δ"%string symbols.
Proof. simpl. auto. Qed.


(** The scenario of C7 with a receiver of adaptability 0 that trusts the
    sender fully, its vectors at right angles to the sender's: the exchange
    is recorded at distance 1 and fails; the repair is the weak one, which
    keeps the receiver's confidence and adds to each component of its vector
    the noise made from the draws 3, 4 and 5; the trust is as it was. *)
Lemma failed_exchange_witness :
  exchange_ready stubbornAgents 0 1 /\ 0%nat <> 1%nat /\
  exists s' w' c r' rm',
    communicate rnd_half clk_zero sampleState stubbornAgents 0 1 world0 = Some (s', w') /\
    communications s' = [c] /\ comm_sequence c = ["δ"%string] /\
    comm_distance c = Fin 1 /\ comm_success c = false /\
    adaptability stubbornAgent = Fin 0 /\ get_trust stubbornAgent 0 = Some (Fin 1) /\
    nth_error (agents s') 1 = Some r' /\ get_mapping r' "δ" = Some rm' /\
    confidence rm' = Fin 0.5 /\
    noisy rnd_half 3 0.1 [Fin 0; Fin 1; Fin 0] (vector rm') /\
    get_trust r' 0 = Some (Fin 1) /\
    randoms w' = 6%nat.
Proof.
  split; [exact stubborn_ready |]. split; [discriminate |].
  destruct (failed_exchange rnd_half clk_zero sampleState stubbornAgents 0 1 world0
              stubborn_ready ltac:(discriminate))
    as (sequence & w1 & avg & l1 & s' & w' & c & Ed & Ea & Ec & Hlog & Hseq & Hdist
        & Hiff & _ & Hloop).
  rewrite drawSequence_half in Ed. injection Ed as Es Ew.
  rewrite <- Es in Ea, Hseq, Hloop. rewrite <- Ew in Hloop. clear Es Ew.
  assert (Hd : symbolDistance stubbornAgents 0 1 "δ" = Some (Fin 1)).
  { unfold symbolDistance.
    change (nth_error stubbornAgents 0) with (Some (sampleAgent 0)).
    change (nth_error stubbornAgents 1) with (Some stubbornAgent). cbv beta iota.
    rewrite sampleAgent_mapping by exact delta_known.
    rewrite (constant_mapping stubbornAgent apartMapping "δ" eq_refl delta_known).
    f_equal. exact distance_orthogonal. }
  rewrite (avgDistance_single _ _ _ _ _ Hd) in Ea. injection Ea as Ea.
  rewrite <- Ea in Hdist, Hiff. clear Ea.
  assert (Hfailure : comm_success c = false) by (apply Hiff; unfold Num.lt; lra).
  destruct (Hloop Hfailure) as (([l' k'] & Hre & El1) & Hag & _).
  cbn [along] in El1. injection El1 as El Ek. subst l'.
  cbn [repaired_at randoms] in Hre.
  destruct Hre as (s0 & r0 & sm & rm & rm' & _ & Hr0 & _ & Hrm & _ & Hr' & _ & _ & Hif).
  change (nth_error stubbornAgents 1) with (Some stubbornAgent) in Hr0.
  injection Hr0 as Hr0. rewrite <- Hr0 in Hrm, Hr', Hif. clear Hr0.
  rewrite (constant_mapping stubbornAgent apartMapping "δ" eq_refl delta_known) in Hrm.
  injection Hrm as Hrm. rewrite <- Hrm in Hif. clear Hrm.
  assert (Hp : Num.ltb (Fin (rnd_half 2))
                 (Num.mul (adaptability stubbornAgent)
                          (as_num (get_trust stubbornAgent 0))) = false).
  { change (get_trust stubbornAgent 0) with (Some (Fin 1)).
    cbn [adaptability stubbornAgent as_num Num.mul Num.ltb].
    destruct (Rlt_dec (rnd_half 2) (0 * 1)) as [H | _]; [| reflexivity].
    simpl in H. lra. }
  rewrite Hp in Hif. destruct Hif as (Hc & Hn & Hk).
  exists s', w', c. eexists _, rm'.
  split; [exact Ec |]. split; [exact Hlog |]. split; [exact Hseq |].
  split; [exact Hdist |]. split; [exact Hfailure |].
  split; [reflexivity |]. split; [reflexivity |].
  split; [rewrite Hag; apply remembered_receiver; [discriminate | exact Hr'] |].
  split; [rewrite remember_mapping; apply with_mapping_get |].
  split; [exact Hc |]. split; [exact Hn |].
  split; [reflexivity |].
  rewrite Ek, Hk. reflexivity.
Defined.


